(** * Titan metadata store (database/mysql/mysql.go)

    A shallow embedding of the MySQL driver of the titan file system and
    the verification of its chunk map, directory and xattr operations.

    The relational store is modelled as a record of tables (lists of
    rows, in table order).  What the schema of [Setup] enforces is part
    of the model: primary keys (duplicate rows are refused), foreign
    keys (a dangling reference is refused), AUTO_INCREMENT counters and
    the range of the unsigned counters (MySQL refuses an unsigned
    subtraction that would go below zero).  Go's [uint64] arithmetic wraps
    around and is written with [wrap64].  Timestamps are integers and
    [UTC_TIMESTAMP()] is the argument [now] of every operation.

    The offsets and sizes of chunks are stored in nullable BIGINT
    columns, which are signed: a value of 2^63 or more is refused by the
    INSERT or UPDATE that writes it, and a sum of two such columns that
    leaves the range of BIGINT is an error of the query that computes
    it. *)

From Stdlib Require Import ZArith List String Bool Lia Sorted Permutation.
Import ListNotations.
Open Scope Z_scope.

(** ** Machine integers *)

Definition wrap64 (z : Z) : Z := z mod 2 ^ 64.
Definition wrap32 (z : Z) : Z := z mod 2 ^ 32.

(** [syscall.O_APPEND] on Linux. *)
Definition O_APPEND : Z := 1024.

(** [math.Max] of the repository's math package, on [uint64]. *)
Definition Max (a b : Z) : Z := if a <? b then b else a.

(** [os.ModeDir] is bit 31 of [os.FileMode]. *)
Definition IsDir (mode : Z) : bool := Z.testbit mode 31.

(** ** Errors *)

Inductive Errno := ENOENT | ENOTDIR | ENOTEMPTY | ENODATA | EEXIST.

Inductive sql_error :=
| ErrNoRows        (* sql.ErrNoRows *)
| ErrDupEntry      (* unique or primary key violation *)
| ErrForeignKey    (* foreign key violation *)
| ErrOutOfRange    (* value out of the range of its column, or of BIGINT *)
| ErrBadNull       (* NULL into a NOT NULL column *)
| ErrScan          (* rows.Scan cannot convert the column *)
| ErrConnection    (* connection loss *)
| ErrSerialization (* serialization failure, deadlock *).

(** A Go [error] value. *)
Inductive error :=
| Sys (e : Errno)
| Sql (e : sql_error).

(** Modelled from the spec: [treatError] is not in mysql.go.  Section 7 of
    the specification: a missing row is [ENOENT], the store's
    unique-violation is [EEXIST], every other store error is surfaced
    verbatim. *)
Definition treatError (err : error) : error :=
  match err with
  | Sql ErrNoRows => Sys ENOENT
  | Sql ErrDupEntry => Sys EEXIST
  | _ => err
  end.

(** ** Tables *)

(** Row of [inodes]; also the Go struct [database.Inode]
    (ID, Mode, Uid, Gid, SymLink = target, Size, Nlink = refcount, times). *)
Record Inode := mkInode {
  iID : Z; iMode : Z; iUid : Z; iGid : Z; iSymLink : string;
  iSize : Z; iNlink : Z;
  iAtime : Z; iMtime : Z; iCtime : Z; iCrtime : Z }.

Record entry_row := mkEntryRow {
  e_parent : Z; e_name : string; e_inode : Z }.

(** Row of [chunks]: every column but the id is nullable. *)
Record chunk_row := mkChunkRow {
  r_id : Z;
  r_inode : option Z;
  r_storage : option string;
  r_key : option string;
  r_objectoffset : option Z;
  r_inodeoffset : option Z;
  r_size : option Z;
  r_orphandate : option Z }.

Record xattr_row := mkXattrRow {
  x_inode : Z; x_key : string; x_value : string }.

(** [database.Stats]; the table holds the single row inserted by [Setup]. *)
Record StatsRow := mkStats { sInodes : Z; sSize : Z }.

Record DB := mkDB {
  inodes : list Inode;
  entries : list entry_row;
  chunks : list chunk_row;
  xattr : list xattr_row;
  stats : StatsRow;
  next_inode : Z;   (* AUTO_INCREMENT of inodes.id *)
  next_chunk : Z    (* AUTO_INCREMENT of chunks.id *) }.

Definition set_inodes (l : list Inode) (db : DB) : DB :=
  mkDB l (entries db) (chunks db) (xattr db) (stats db) (next_inode db) (next_chunk db).
Definition set_entries (l : list entry_row) (db : DB) : DB :=
  mkDB (inodes db) l (chunks db) (xattr db) (stats db) (next_inode db) (next_chunk db).
Definition set_chunks (l : list chunk_row) (db : DB) : DB :=
  mkDB (inodes db) (entries db) l (xattr db) (stats db) (next_inode db) (next_chunk db).
Definition set_xattr (l : list xattr_row) (db : DB) : DB :=
  mkDB (inodes db) (entries db) (chunks db) l (stats db) (next_inode db) (next_chunk db).
Definition set_stats (s : StatsRow) (db : DB) : DB :=
  mkDB (inodes db) (entries db) (chunks db) (xattr db) s (next_inode db) (next_chunk db).

(** The Go struct [database.Chunk]. *)
Record Chunk := mkChunk {
  cID : Z; cInode : Z; cStorage : string; cKey : string;
  cObjectOffset : Z; cInodeOffset : Z; cSize : Z }.

(** The Go struct [database.Entry]: an embedded [Inode], a name and a parent. *)
Record Entry := mkEntry { EInode : Inode; Name : string; Parent : Z }.

(** The Go struct [database.Child]. *)
Record Child := mkChild { chInode : Z; chName : string; chMode : Z }.

(** ** Transactions

    A statement runs on the store and either fails with an error or
    returns a value; the store it leaves is kept in both cases, because
    [Rename] goes on after a failed [unlink].  [transaction] is
    [BeginTx] ... [Commit], with [Rollback] on every error path. *)

Definition Tx (A : Type) : Type := DB -> (error + A) * DB.

Definition ret {A} (a : A) : Tx A := fun db => (inr a, db).

Definition bind {A B} (m : Tx A) (k : A -> Tx B) : Tx B :=
  fun db => match m db with
            | (inl e, db') => (inl e, db')
            | (inr a, db') => k a db'
            end.

Definition fail {A} (e : error) : Tx A := fun db => (inl e, db).

Definition modify (f : DB -> DB) : Tx unit := fun db => (inr tt, f db).

Definition treat {A} (m : Tx A) : Tx A :=
  fun db => match m db with
            | (inl e, db') => (inl (treatError e), db')
            | r => r
            end.

(** A call whose error result is discarded. *)
Definition ignore_error {A} (m : Tx A) : Tx unit :=
  fun db => (inr tt, snd (m db)).

Definition transaction {A} (m : Tx A) : DB -> (error + A) * DB :=
  fun db => match m db with
            | (inl e, _) => (inl e, db)
            | (inr a, db') => (inr a, db')
            end.

Notation "x <- m ;; k" := (bind m (fun x => k))
  (at level 61, m at next level, right associativity).
Notation "m ;;; k" := (bind m (fun _ => k))
  (at level 61, right associativity).

Fixpoint forEach {A} (l : list A) (f : A -> Tx unit) : Tx unit :=
  match l with
  | [] => ret tt
  | a :: l' => f a ;;; forEach l' f
  end.

(** ** Statements *)

Definition inode_exists (id : Z) (db : DB) : bool :=
  existsb (fun i => iID i =? id) (inodes db).

(** Modelled from the spec: [getInode] is not in mysql.go.  It reads the
    row of the inode inside the transaction, as [Get] does outside of
    one, and fails with [sql.ErrNoRows] when there is none. *)
Definition getInode (id : Z) : Tx Inode :=
  fun db => match find (fun i => iID i =? id) (inodes db) with
            | Some i => (inr i, db)
            | None => (inl (Sql ErrNoRows), db)
            end.

(** UPDATE of an unsigned counter: the new value must fit the column. *)
Definition in_range (bits : Z) (v : Z) : bool := (0 <=? v) && (v <? 2 ^ bits).

(** [UPDATE stats SET size = size + delta] (delta may be negative). *)
Definition stats_add_size (delta : Z) : Tx unit :=
  fun db =>
    let v := sSize (stats db) + delta in
    if in_range 64 v
    then (inr tt, set_stats (mkStats (sInodes (stats db)) v) db)
    else (inl (Sql ErrOutOfRange), db).

(** [UPDATE stats SET inodes = inodes + delta]. *)
Definition stats_add_inodes (delta : Z) : Tx unit :=
  fun db =>
    let v := sInodes (stats db) + delta in
    if in_range 64 v
    then (inr tt, set_stats (mkStats v (sSize (stats db))) db)
    else (inl (Sql ErrOutOfRange), db).

Definition set_refcount (v : Z) (i : Inode) : Inode :=
  mkInode (iID i) (iMode i) (iUid i) (iGid i) (iSymLink i) (iSize i) v
          (iAtime i) (iMtime i) (iCtime i) (iCrtime i).

(** [UPDATE inodes SET refcount = refcount + delta WHERE id = ?]. *)
Definition add_refcount (id delta : Z) : Tx unit :=
  fun db =>
    if forallb (fun i => negb (iID i =? id) || in_range 32 (iNlink i + delta))
               (inodes db)
    then (inr tt,
          set_inodes (map (fun i => if iID i =? id
                                    then set_refcount (iNlink i + delta) i
                                    else i) (inodes db)) db)
    else (inl (Sql ErrOutOfRange), db).

(** [INSERT INTO inodes(mode, uid, gid, size, refcount, atime, mtime,
    ctime, crtime, target) VALUES(?, ?, ?, 0, 1, now, now, now, now, ?)];
    returns [LastInsertId]. *)
Definition insert_inode (now mode uid gid : Z) (target : string) : Tx Z :=
  fun db =>
    let id := next_inode db in
    (inr id,
     mkDB (inodes db ++ [mkInode id mode uid gid target 0 1 now now now now])
          (entries db) (chunks db) (xattr db) (stats db)
          (id + 1) (next_chunk db)).

Definition entry_at (parent : Z) (name : string) (e : entry_row) : bool :=
  (e_parent e =? parent) && String.eqb (e_name e) name.

(** [INSERT INTO entries(parent, name, inode) VALUES(?, ?, ?)]. *)
Definition insert_entry (parent : Z) (name : string) (inode : Z) : Tx unit :=
  fun db =>
    if existsb (entry_at parent name) (entries db)
    then (inl (Sql ErrDupEntry), db)
    else if inode_exists parent db && inode_exists inode db
    then (inr tt, set_entries (entries db ++ [mkEntryRow parent name inode]) db)
    else (inl (Sql ErrForeignKey), db).

(** [DELETE FROM entries WHERE parent = ? AND name = ?]. *)
Definition delete_entry (parent : Z) (name : string) : Tx unit :=
  modify (fun db =>
    set_entries (filter (fun e => negb (entry_at parent name e)) (entries db)) db).

(** [UPDATE entries SET parent = ?, name = ? WHERE parent = ? AND name = ?];
    returns [RowsAffected], which in MySQL counts the rows the statement
    changed: a row that already holds the new values is not counted. *)
Definition move_entry (newParent : Z) (newName : string)
           (oldParent : Z) (oldName : string) : Tx Z :=
  fun db =>
    let hit := filter (entry_at oldParent oldName) (entries db) in
    match hit with
    | [] => (inr 0, db)
    | _ :: more =>
      if (oldParent =? newParent) && String.eqb oldName newName
      then (inr 0, db)
      else if existsb (entry_at newParent newName) (entries db)
              || negb (Nat.eqb (List.length more) 0)
      then (inl (Sql ErrDupEntry), db)
      else if inode_exists newParent db
      then (inr (Z.of_nat (List.length hit)),
            set_entries (map (fun e => if entry_at oldParent oldName e
                                       then mkEntryRow newParent newName (e_inode e)
                                       else e) (entries db)) db)
      else (inl (Sql ErrForeignKey), db)
    end.

(** The row that an INSERT into chunks adds. *)
Definition new_row (id inode : Z) (storage key : string)
           (objectoffset inodeoffset size : Z) : chunk_row :=
  mkChunkRow id (Some inode) (Some storage) (Some key) (Some objectoffset)
             (Some inodeoffset) (Some size) None.

(** The columns [objectoffset], [inodeoffset] and [size] of chunks are
    BIGINT, that is signed: a value outside of [-2^63, 2^63) does not fit,
    so that a [uint64] of 2^63 or more is refused. *)
Definition fits_bigint (v : Z) : bool := (- 2 ^ 63 <=? v) && (v <? 2 ^ 63).

(** [INSERT INTO chunks(inode, storage, key, objectoffset, inodeoffset,
    size) VALUES (?, ?, ?, ?, ?, ?)]. *)
Definition insert_chunk (inode : Z) (storage key : string)
           (objectoffset inodeoffset size : Z) : Tx unit :=
  fun db =>
    if fits_bigint objectoffset && fits_bigint inodeoffset && fits_bigint size
    then
      if inode_exists inode db
      then (inr tt,
            mkDB (inodes db) (entries db)
                 (chunks db ++ [new_row (next_chunk db) inode storage key
                                        objectoffset inodeoffset size])
                 (xattr db) (stats db) (next_inode db) (next_chunk db + 1))
      else (inl (Sql ErrForeignKey), db)
    else (inl (Sql ErrOutOfRange), db).

(** [rows.Scan] of a chunk row into a [database.Chunk] with [uint64]
    fields: NULL and negative values do not convert. *)
Definition scan_chunk (inode : Z) (r : chunk_row) : error + Chunk :=
  match r_storage r, r_key r, r_objectoffset r, r_inodeoffset r, r_size r with
  | Some st, Some k, Some oo, Some io, Some sz =>
    if (0 <=? oo) && (0 <=? io) && (0 <=? sz)
    then inr (mkChunk (r_id r) inode st k oo io sz)
    else inl (Sql ErrScan)
  | _, _, _, _, _ => inl (Sql ErrScan)
  end.

Fixpoint scan_all (inode : Z) (rows : list chunk_row) : error + list Chunk :=
  match rows with
  | [] => inr []
  | r :: rows' =>
    match scan_chunk inode r with
    | inl e => inl e
    | inr c => match scan_all inode rows' with
               | inl e => inl e
               | inr cs => inr (c :: cs)
               end
    end
  end.

(** The sum [inodeoffset + size] of a WHERE clause: both columns are
    BIGINT, and MySQL refuses a sum that leaves the range of BIGINT
    instead of wrapping around. *)
Definition sum_out_of_range (r : chunk_row) : bool :=
  match r_inodeoffset r, r_size r with
  | Some a, Some s => negb (fits_bigint (a + s))
  | _, _ => false
  end.

(** A SELECT on chunks followed by the scan of every row.  [summed] are
    the rows for which the WHERE clause computes [inodeoffset + size]:
    the query fails when one of these sums is out of range. *)
Definition query_chunks (inode : Z) (summed cond : chunk_row -> bool)
  : Tx (list Chunk) :=
  fun db =>
    if existsb (fun r => summed r && sum_out_of_range r) (chunks db)
    then (inl (Sql ErrOutOfRange), db)
    else match scan_all inode (filter cond (chunks db)) with
         | inl e => (inl e, db)
         | inr cs => (inr cs, db)
         end.

(** [inode = ? AND inodeoffset < ?], the conjuncts before the sum in the
    query of [AddChunk]: the conjuncts of AND are evaluated in order, up
    to the first that is false. *)
Definition starts_below (inode hi : Z) (r : chunk_row) : bool :=
  match r_inode r, r_inodeoffset r with
  | Some i, Some a => (i =? inode) && (a <? hi)
  | _, _ => false
  end.

(** [WHERE inode = ? AND inodeoffset < ? AND inodeoffset + size > ?];
    a comparison with NULL selects nothing. *)
Definition overlapping (inode hi lo : Z) (r : chunk_row) : bool :=
  match r_inode r, r_inodeoffset r, r_size r with
  | Some i, Some a, Some s => (i =? inode) && (a <? hi) && (lo <? a + s)
  | _, _, _ => false
  end.

(** [WHERE inode = ? AND inodeoffset + size > ?]. *)
Definition extends_past (inode lo : Z) (r : chunk_row) : bool :=
  match r_inode r, r_inodeoffset r, r_size r with
  | Some i, Some a, Some s => (i =? inode) && (lo <? a + s)
  | _, _, _ => false
  end.

Definition live_in (inode : Z) (r : chunk_row) : bool :=
  match r_inode r with
  | Some i => i =? inode
  | None => false
  end.

Definition write_back (c : Chunk) (r : chunk_row) : chunk_row :=
  mkChunkRow (r_id r) (r_inode r) (r_storage r) (r_key r)
             (Some (cObjectOffset c)) (Some (cInodeOffset c)) (Some (cSize c))
             (r_orphandate r).

(** The offsets and the size of the Go struct fit their columns. *)
Definition chunk_fits (c : Chunk) : bool :=
  fits_bigint (cObjectOffset c) && fits_bigint (cInodeOffset c)
  && fits_bigint (cSize c).

(** [UPDATE chunks SET size = ?, inodeoffset = ?, objectoffset = ?
    WHERE id = ?]: a value that does not fit its column is refused when
    there is a row to write. *)
Definition update_chunk (c : Chunk) : Tx unit :=
  fun db =>
    if existsb (fun r => r_id r =? cID c) (chunks db) && negb (chunk_fits c)
    then (inl (Sql ErrOutOfRange), db)
    else (inr tt,
          set_chunks (map (fun r => if r_id r =? cID c then write_back c r else r)
                          (chunks db)) db).

Definition resized (size : Z) (r : chunk_row) : chunk_row :=
  mkChunkRow (r_id r) (r_inode r) (r_storage r) (r_key r) (r_objectoffset r)
             (r_inodeoffset r) (Some size) (r_orphandate r).

(** [UPDATE chunks SET size = ? WHERE id = ?]. *)
Definition update_chunk_size (size id : Z) : Tx unit :=
  fun db =>
    if existsb (fun r => r_id r =? id) (chunks db) && negb (fits_bigint size)
    then (inl (Sql ErrOutOfRange), db)
    else (inr tt,
          set_chunks (map (fun r => if r_id r =? id then resized size r else r)
                          (chunks db)) db).

Definition orphaned (now : Z) (r : chunk_row) : chunk_row :=
  mkChunkRow (r_id r) None (r_storage r) (r_key r) None None None (Some now).

(** [UPDATE chunks SET inode = NULL, objectoffset = NULL, inodeoffset =
    NULL, size = NULL, orphandate = UTC_TIMESTAMP() WHERE ...]. *)
Definition orphan_chunks (now : Z) (cond : chunk_row -> bool) : Tx unit :=
  modify (fun db =>
    set_chunks (map (fun r => if cond r then orphaned now r else r) (chunks db)) db).

Definition id_in (ids : list Z) (r : chunk_row) : bool :=
  existsb (fun id => r_id r =? id) ids.

(** [UPDATE inodes SET ... WHERE id = ?]. *)
Definition update_inode (id : Z) (f : Inode -> Inode) : Tx unit :=
  modify (fun db =>
    set_inodes (map (fun i => if iID i =? id then f i else i) (inodes db)) db).

Definition set_atime (now : Z) (i : Inode) : Inode :=
  mkInode (iID i) (iMode i) (iUid i) (iGid i) (iSymLink i) (iSize i) (iNlink i)
          now (iMtime i) (iCtime i) (iCrtime i).

Definition set_ctime_atime (now : Z) (i : Inode) : Inode :=
  mkInode (iID i) (iMode i) (iUid i) (iGid i) (iSymLink i) (iSize i) (iNlink i)
          now (iMtime i) now (iCrtime i).

Definition set_size_times (size now : Z) (i : Inode) : Inode :=
  mkInode (iID i) (iMode i) (iUid i) (iGid i) (iSymLink i) size (iNlink i)
          now now now (iCrtime i).

(** A row of inodes is referenced through a foreign key. *)
Definition referenced (id : Z) (db : DB) : bool :=
  existsb (fun e => (e_parent e =? id) || (e_inode e =? id)) (entries db)
  || existsb (live_in id) (chunks db)
  || existsb (fun x => x_inode x =? id) (xattr db).

(** [DELETE FROM inodes WHERE ...]. *)
Definition delete_inodes (cond : Inode -> bool) : Tx unit :=
  fun db =>
    if existsb (fun i => cond i && referenced (iID i) db) (inodes db)
    then (inl (Sql ErrForeignKey), db)
    else (inr tt, set_inodes (filter (fun i => negb (cond i)) (inodes db)) db).

(** [DELETE x FROM xattr x, inodes i WHERE <cond i> AND i.id = x.inode]. *)
Definition delete_xattr_of (cond : Inode -> bool) : Tx unit :=
  modify (fun db =>
    set_xattr (filter (fun x => negb (existsb (fun i => cond i && (iID i =? x_inode x))
                                              (inodes db))) (xattr db)) db).

Definition xattr_at (inode : Z) (key : string) (x : xattr_row) : bool :=
  (x_inode x =? inode) && String.eqb (x_key x) key.

(** A single-row query ([QueryRow] ... [Scan]): the store may fail
    ([fault]), or there is no row. *)
Definition query_row {A} (fault : option sql_error) (row : option A) : error + A :=
  match fault with
  | Some e => inl (Sql e)
  | None => match row with
            | Some a => inr a
            | None => inl (Sql ErrNoRows)
            end
  end.

(** ** Operations of the driver *)

Definition root_mode : Z := 2147484159.

(** [Setup] on an empty database: the tables, the root inode and the
    stats row. *)
Definition Setup (now : Z) : DB :=
  mkDB [mkInode 1 root_mode 0 0 "" 0 1 now now now now] [] [] [] (mkStats 1 0) 2 1.

Definition Stats (fault : option sql_error) (db : DB) : error + StatsRow :=
  match query_row fault (Some (stats db)) with
  | inl e => inl (treatError e)
  | inr s => inr s
  end.

Definition Create (now : Z) (entry : Entry) : DB -> (error + Entry) * DB :=
  transaction (
    parentInode <- treat (getInode (Parent entry)) ;;
    if negb (IsDir (iMode parentInode)) then fail (Sys ENOTDIR) else
    let fillInode (id : Z) : Tx Entry :=
      result <- treat (getInode id) ;;
      ret (mkEntry result (Name entry) (Parent entry)) in
    res <- (if iID (EInode entry) =? 0
            then
              treat (stats_add_inodes 1) ;;;
              id <- treat (insert_inode now (wrap32 (iMode (EInode entry)))
                             (iUid (EInode entry)) (iGid (EInode entry))
                             (iSymLink (EInode entry))) ;;
              entry' <- fillInode id ;;
              ret (false, entry')
            else
              entry' <- fillInode (iID (EInode entry)) ;;
              ret (true, entry')) ;;
    let needsRefcountChange := fst res in
    let entry := snd res in
    treat (insert_entry (Parent entry) (Name entry) (iID (EInode entry))) ;;;
    (if needsRefcountChange
     then treat (add_refcount (iID (EInode entry)) 1)
     else ret tt) ;;;
    ret entry).

Definition Forget (now inode : Z) : DB -> (error + unit) * DB :=
  transaction (
    i <- treat (getInode inode) ;;
    if iNlink i =? 0
    then
      treat (orphan_chunks now (live_in (iID i))) ;;;
      treat (delete_xattr_of (fun r => iID r =? iID i)) ;;;
      treat (delete_inodes (fun r => iID r =? iID i)) ;;;
      treat (stats_add_size (- iSize i)) ;;;
      treat (stats_add_inodes (-1))
    else ret tt).

(** [UPDATE stats SET inodes = (SELECT COUNT( * ) FROM inodes),
    size = (SELECT SUM(size) FROM inodes)]; the sum of no row is NULL. *)
Definition recompute_stats : Tx unit :=
  fun db =>
    match inodes db with
    | [] => (inl (Sql ErrBadNull), db)
    | _ =>
      let n := Z.of_nat (List.length (inodes db)) in
      let s := fold_right Z.add 0 (map iSize (inodes db)) in
      if in_range 64 s
      then (inr tt, set_stats (mkStats n s) db)
      else (inl (Sql ErrOutOfRange), db)
    end.

Definition CleanOrphanInodes (now : Z) : DB -> (error + unit) * DB :=
  transaction (
    orphans <- (fun db => (inr (filter (fun i => iNlink i =? 0) (inodes db)), db)) ;;
    treat (orphan_chunks now
             (fun r => existsb (fun i => live_in (iID i) r) orphans)) ;;;
    treat (delete_xattr_of (fun i => iNlink i =? 0)) ;;;
    treat (delete_inodes (fun i => iNlink i =? 0)) ;;;
    treat recompute_stats).

(** [CleanOrphanChunks]: the rows selected are handed to the storage
    backend, whose answers are not looked at, and then deleted. *)
Definition CleanOrphanChunks (threshold : Z) : DB -> (error + unit) * DB :=
  transaction (
    modify (fun db =>
      set_chunks (filter (fun r => negb (match r_inode r, r_orphandate r with
                                         | None, Some d => d <? threshold
                                         | _, _ => false
                                         end)) (chunks db)) db)).

Definition unlink (parent : Z) (name : string) : Tx unit :=
  row <- treat (fun db =>
           match find (entry_at parent name) (entries db) with
           | Some pe =>
             (inr (e_inode pe,
                   Z.of_nat (List.length (filter (fun ce => e_parent ce =? e_inode pe)
                                                 (entries db)))), db)
           | None => (inl (Sql ErrNoRows), db)
           end) ;;
  let inode := fst row in
  let children := snd row in
  if 0 <? children then fail (Sys ENOTEMPTY) else
  treat (delete_entry parent name) ;;;
  treat (add_refcount inode (-1)).

Definition Unlink (parent : Z) (name : string) : DB -> (error + unit) * DB :=
  transaction (unlink parent name).

Definition Rename (oldParent : Z) (oldName : string)
           (newParent : Z) (newName : string) : DB -> (error + unit) * DB :=
  transaction (
    ignore_error (unlink newParent newName) ;;;
    rowsAffected <- treat (move_entry newParent newName oldParent oldName) ;;
    if rowsAffected =? 0 then fail (Sys ENOENT) else ret tt).

Definition LookUp (fault : option sql_error) (parent : Z) (name : string)
           (db : DB) : error + Entry :=
  match query_row fault
          (match find (entry_at parent name) (entries db) with
           | Some e => match find (fun i => iID i =? e_inode e) (inodes db) with
                       | Some i => Some (mkEntry i name parent)
                       | None => None
                       end
           | None => None
           end) with
  | inl _ => inl (Sys ENOENT)
  | inr e => inr e
  end.

Definition Get (fault : option sql_error) (inode : Z) (db : DB) : error + Inode :=
  match query_row fault (find (fun i => iID i =? inode) (inodes db)) with
  | inl _ => inl (Sys ENOENT)
  | inr result => inr result
  end.

Definition touched (i : Inode) (now : Z) (r : Inode) : Inode :=
  mkInode (iID r) (wrap32 (iMode i)) (iUid i) (iGid i) (iSymLink r) (iSize i)
          (iNlink r) (iAtime i) (iMtime i) now (iCrtime r).

Definition with_opt {A} (o : option A) (d : A) : A :=
  match o with Some a => a | None => d end.

(** The inode struct of [Touch] after the assignments of the attributes
    that are given. *)
Definition set_attrs (size : Z) (mode atime mtime uid gid : option Z)
           (i : Inode) : Inode :=
  mkInode (iID i) (with_opt mode (iMode i)) (with_opt uid (iUid i))
          (with_opt gid (iGid i)) (iSymLink i) size (iNlink i)
          (with_opt atime (iAtime i)) (with_opt mtime (iMtime i))
          (iCtime i) (iCrtime i).

Definition Touch (now inode : Z) (size mode atime mtime uid gid : option Z)
  : DB -> (error + Inode) * DB :=
  transaction (
    i <- treat (getInode inode) ;;
    res <- (match size with
            | Some size =>
              if negb (size =? iSize i)
              then
                if iSize i <? size
                then
                  treat (insert_chunk (iID i) "zero" "" 0 (iSize i)
                                      (wrap64 (size - iSize i))) ;;;
                  treat (stats_add_size (wrap64 (size - iSize i))) ;;;
                  ret ([], size)
                else
                  rows <- treat (query_chunks (iID i) (live_in (iID i))
                                              (extends_past (iID i) size)) ;;
                  let chunksToBeUpdated :=
                    filter (fun c => cInodeOffset c <? size) rows in
                  let chunksToBeDeleted :=
                    map cID (filter (fun c => negb (cInodeOffset c <? size)) rows) in
                  forEach chunksToBeUpdated
                    (fun c => treat (update_chunk_size
                                       (wrap64 (size - cInodeOffset c)) (cID c))) ;;;
                  treat (stats_add_size (- wrap64 (iSize i - size))) ;;;
                  ret (chunksToBeDeleted, size)
              else ret ([], iSize i)
            | None => ret ([], iSize i)
            end) ;;
    let chunksToBeDeleted := fst res in
    let i := set_attrs (snd res) mode atime mtime uid gid i in
    treat (update_inode (iID i) (touched i now)) ;;;
    (if negb (Nat.eqb (List.length chunksToBeDeleted) 0)
     then treat (orphan_chunks now (id_in chunksToBeDeleted))
     else ret tt) ;;;
    ret i).

(** The three lists of [AddChunk]. *)
Record splice_lists := mkLists {
  chunksToBeDeleted : list Z;
  chunksToBeUpdated : list Chunk;
  chunksToBeInserted : list Chunk }.

(** The right half [nc] of a chunk that strictly contains the write. *)
Definition right_piece (chunk c : Chunk) : Chunk :=
  let inodeOffset := wrap64 (cInodeOffset chunk + cSize chunk) in
  let inodeEnd := wrap64 (cInodeOffset c + cSize c) in
  mkChunk (cID c) (cInode c) (cStorage c) (cKey c)
          (wrap64 (cObjectOffset c + wrap64 (inodeOffset - cInodeOffset c)))
          inodeOffset
          (wrap64 (inodeEnd - inodeOffset)).

(** The chunk [c] as it is written back. *)
Definition trimmed (chunk c : Chunk) : Chunk :=
  let newInodeOffset :=
    if cInodeOffset c <? cInodeOffset chunk
    then cInodeOffset c
    else wrap64 (cInodeOffset chunk + cSize chunk) in
  let newInodeEnd :=
    if cInodeOffset c <? cInodeOffset chunk
    then cInodeOffset chunk
    else wrap64 (cInodeOffset c + cSize c) in
  mkChunk (cID c) (cInode c) (cStorage c) (cKey c)
          (wrap64 (cObjectOffset c + wrap64 (newInodeOffset - cInodeOffset c)))
          newInodeOffset
          (wrap64 (newInodeEnd - newInodeOffset)).

Definition covered (chunk c : Chunk) : bool :=
  (cInodeOffset chunk <=? cInodeOffset c)
  && (wrap64 (cInodeOffset c + cSize c) <=? wrap64 (cInodeOffset chunk + cSize chunk)).

Definition strictly_contains (chunk c : Chunk) : bool :=
  (cInodeOffset c <? cInodeOffset chunk)
  && (wrap64 (cInodeOffset chunk + cSize chunk) <? wrap64 (cInodeOffset c + cSize c)).

(** One turn of the loop over the rows. *)
Definition splice_step (chunk : Chunk) (l : splice_lists) (c : Chunk) : splice_lists :=
  if covered chunk c
  then mkLists (chunksToBeDeleted l ++ [cID c]) (chunksToBeUpdated l)
               (chunksToBeInserted l)
  else
    mkLists (chunksToBeDeleted l)
            (chunksToBeUpdated l ++ [trimmed chunk c])
            (if strictly_contains chunk c
             then chunksToBeInserted l ++ [right_piece chunk c]
             else chunksToBeInserted l).

Definition set_InodeOffset (off : Z) (c : Chunk) : Chunk :=
  mkChunk (cID c) (cInode c) (cStorage c) (cKey c) (cObjectOffset c) off (cSize c).

Definition AddChunk (now inode flags : Z) (chunk : Chunk)
  : DB -> (error + unit) * DB :=
  transaction (
    i <- treat (getInode inode) ;;
    let chunk := if negb (Z.land flags O_APPEND =? 0)
                 then set_InodeOffset (iSize i) chunk
                 else chunk in
    (if iSize i <? cInodeOffset chunk
     then treat (insert_chunk (iID i) "zero" "" 0 (iSize i)
                              (wrap64 (cInodeOffset chunk - iSize i)))
     else ret tt) ;;;
    rows <- treat (query_chunks inode
                     (starts_below inode (wrap64 (cInodeOffset chunk + cSize chunk)))
                     (overlapping inode
                        (wrap64 (cInodeOffset chunk + cSize chunk))
                        (cInodeOffset chunk))) ;;
    let l := fold_left (splice_step chunk) rows (mkLists [] [] [chunk]) in
    forEach (chunksToBeUpdated l) (fun c => treat (update_chunk c)) ;;;
    forEach (chunksToBeInserted l)
      (fun c => treat (insert_chunk inode (cStorage c) (cKey c)
                         (cObjectOffset c) (cInodeOffset c) (cSize c))) ;;;
    let newInodeSize :=
      Max (iSize i) (wrap64 (cInodeOffset chunk + cSize chunk)) in
    (if negb (newInodeSize =? iSize i)
     then treat (stats_add_size (wrap64 (newInodeSize - iSize i)))
     else ret tt) ;;;
    treat (update_inode (iID i) (set_size_times newInodeSize now)) ;;;
    (if negb (Nat.eqb (List.length (chunksToBeDeleted l)) 0)
     then treat (orphan_chunks now (id_in (chunksToBeDeleted l)))
     else ret tt)).

(** [ORDER BY inodeoffset ASC] (NULL first). *)
Definition offset_le (a b : chunk_row) : bool :=
  match r_inodeoffset a, r_inodeoffset b with
  | None, _ => true
  | Some _, None => false
  | Some x, Some y => x <=? y
  end.

Fixpoint insert_by_offset (r : chunk_row) (l : list chunk_row) : list chunk_row :=
  match l with
  | [] => [r]
  | r' :: l' => if offset_le r r' then r :: l else r' :: insert_by_offset r l'
  end.

Definition order_by_offset (l : list chunk_row) : list chunk_row :=
  fold_right insert_by_offset [] l.

(** [Chunks] runs two statements outside of a transaction. *)
Definition Chunks (now inode : Z) : DB -> (error + list Chunk) * DB :=
  treat (update_inode inode (set_atime now)) ;;;
  (fun db => match scan_all inode (order_by_offset (filter (live_in inode) (chunks db))) with
             | inl e => (inl e, db)
             | inr cs => (inr cs, db)
             end).

Definition Children (now inode : Z) : DB -> (error + list Child) * DB :=
  treat (update_inode inode (set_atime now)) ;;;
  (fun db =>
     (inr (flat_map (fun e =>
             if e_parent e =? inode
             then map (fun i => mkChild (e_inode e) (e_name e) (iMode i))
                      (filter (fun i => iID i =? e_inode e) (inodes db))
             else []) (entries db)), db)).

Definition ListXattr (inode : Z) (db : DB) : error + list string :=
  inr (map x_key (filter (fun x => x_inode x =? inode) (xattr db))).

Definition RemoveXattr (now inode : Z) (attr : string) : DB -> (error + unit) * DB :=
  transaction (
    treat (modify (fun db =>
      set_xattr (filter (fun x => negb (xattr_at inode attr x)) (xattr db)) db)) ;;;
    treat (update_inode inode (set_ctime_atime now))).

Definition GetXattr (fault : option sql_error) (inode : Z) (attr : string)
           (db : DB) : error + string :=
  match query_row fault (find (xattr_at inode attr) (xattr db)) with
  | inl _ => inl (Sys ENODATA)
  | inr x => inr (x_value x)
  end.

(** [INSERT INTO xattr(inode, key, value) VALUES (?, ?, ?)]. *)
Definition insert_xattr (inode : Z) (attr value : string) : Tx unit :=
  fun db =>
    if existsb (xattr_at inode attr) (xattr db)
    then (inl (Sql ErrDupEntry), db)
    else if inode_exists inode db
    then (inr tt, set_xattr (xattr db ++ [mkXattrRow inode attr value]) db)
    else (inl (Sql ErrForeignKey), db).

(** [UPDATE xattr SET value = ? WHERE inode = ? AND key = ?]; returns
    [RowsAffected], the number of rows whose value changed. *)
Definition update_xattr (value : string) (inode : Z) (attr : string) : Tx Z :=
  fun db =>
    (inr (Z.of_nat (List.length
            (filter (fun x => xattr_at inode attr x && negb (String.eqb (x_value x) value))
                    (xattr db)))),
     set_xattr (map (fun x => if xattr_at inode attr x
                              then mkXattrRow (x_inode x) (x_key x) value
                              else x) (xattr db)) db).

(** [INSERT ... ON DUPLICATE KEY UPDATE value = VALUES(value)]. *)
Definition upsert_xattr (inode : Z) (attr value : string) : Tx unit :=
  fun db =>
    if existsb (xattr_at inode attr) (xattr db)
    then (inr tt,
          set_xattr (map (fun x => if xattr_at inode attr x
                                   then mkXattrRow (x_inode x) (x_key x) value
                                   else x) (xattr db)) db)
    else if inode_exists inode db
    then (inr tt, set_xattr (xattr db ++ [mkXattrRow inode attr value]) db)
    else (inl (Sql ErrForeignKey), db).

Definition SetXattr (now inode : Z) (attr value : string) (flags : Z)
  : DB -> (error + unit) * DB :=
  transaction (
    (if flags =? 1
     then treat (insert_xattr inode attr value)
     else if flags =? 2
     then
       rowsAffected <- treat (update_xattr value inode attr) ;;
       if rowsAffected =? 0 then fail (Sys ENODATA) else ret tt
     else treat (upsert_xattr inode attr value)) ;;;
    treat (update_inode inode (set_ctime_atime now))).

(** ** The file system as a transition system *)

Inductive op :=
| OpCreate (entry : Entry)
| OpForget (inode : Z)
| OpCleanOrphanInodes
| OpCleanOrphanChunks (threshold : Z)
| OpUnlink (parent : Z) (name : string)
| OpRename (oldParent : Z) (oldName : string) (newParent : Z) (newName : string)
| OpTouch (inode : Z) (size mode atime mtime uid gid : option Z)
| OpAddChunk (inode flags : Z) (chunk : Chunk)
| OpChunks (inode : Z)
| OpChildren (inode : Z)
| OpRemoveXattr (inode : Z) (attr : string)
| OpSetXattr (inode : Z) (attr value : string) (flags : Z).

(** The store after the operation [o] run at time [now]; the read-only
    operations ([Stats], [LookUp], [Get], [ListXattr], [GetXattr]) leave
    it as it is. *)
Definition step (now : Z) (o : op) (db : DB) : DB :=
  match o with
  | OpCreate entry => snd (Create now entry db)
  | OpForget inode => snd (Forget now inode db)
  | OpCleanOrphanInodes => snd (CleanOrphanInodes now db)
  | OpCleanOrphanChunks threshold => snd (CleanOrphanChunks threshold db)
  | OpUnlink parent name => snd (Unlink parent name db)
  | OpRename oldParent oldName newParent newName =>
    snd (Rename oldParent oldName newParent newName db)
  | OpTouch inode size mode atime mtime uid gid =>
    snd (Touch now inode size mode atime mtime uid gid db)
  | OpAddChunk inode flags chunk => snd (AddChunk now inode flags chunk db)
  | OpChunks inode => snd (Chunks now inode db)
  | OpChildren inode => snd (Children now inode db)
  | OpRemoveXattr inode attr => snd (RemoveXattr now inode attr db)
  | OpSetXattr inode attr value flags => snd (SetXattr now inode attr value flags db)
  end.

(** The stores the driver can be in: [Setup], then any operations. *)
Inductive reachable : DB -> Prop :=
| reach_setup : forall now, reachable (Setup now)
| reach_step : forall now o db, reachable db -> reachable (step now o db).

(** ** Properties of the store *)

(** The interval of a chunk row whose offset and size are not NULL. *)
Definition interval (r : chunk_row) : option (Z * Z) :=
  match r_inodeoffset r, r_size r with
  | Some a, Some s => Some (a, a + s)
  | _, _ => None
  end.

(** Two rows have no byte in common. *)
Definition disjoint_rows (r1 r2 : chunk_row) : Prop :=
  forall a1 b1 a2 b2,
    interval r1 = Some (a1, b1) -> interval r2 = Some (a2, b2) ->
    forall x, ~ (a1 <= x < b1 /\ a2 <= x < b2).

Definition live_chunks (inode : Z) (db : DB) : list chunk_row :=
  filter (live_in inode) (chunks db).

(** Non-overlap: any two live chunks of the inode are disjoint. *)
Definition non_overlap (inode : Z) (db : DB) : Prop :=
  ForallOrdPairs disjoint_rows (live_chunks inode db).

(** Containment: every live chunk of the inode ends within its size. *)
Definition contained (inode : Z) (db : DB) : Prop :=
  forall i r a b,
    In i (inodes db) -> iID i = inode ->
    In r (live_chunks inode db) -> interval r = Some (a, b) ->
    b <= iSize i.

(** The primary key of chunks and its AUTO_INCREMENT counter. *)
Definition chunks_pk (db : DB) : Prop :=
  NoDup (map r_id (chunks db)) /\
  forall r, In r (chunks db) -> r_id r < next_chunk db.

(** The size column of inodes is a BIGINT UNSIGNED. *)
Definition sizes_typed (db : DB) : Prop :=
  forall i, In i (inodes db) -> 0 <= iSize i < 2 ^ 64.

(** The number of entries that point to the inode. *)
Definition count_links (id : Z) (l : list entry_row) : Z :=
  Z.of_nat (List.length (filter (fun e => e_inode e =? id) l)).

Definition links (id : Z) (db : DB) : Z := count_links id (entries db).

(** Refcount accuracy, as the specification words it. *)
Definition refcount_accurate (db : DB) : Prop :=
  forall i, In i (inodes db) -> iNlink i = links (iID i) db.

(** Refcount accuracy with the reference that [Setup] gives to the root. *)
Definition refcount_accurate_but_root (db : DB) : Prop :=
  forall i, In i (inodes db) ->
    iNlink i = links (iID i) db + (if iID i =? 1 then 1 else 0).

Definition lookup_xattr (inode : Z) (attr : string) (db : DB) : option string :=
  option_map x_value (find (xattr_at inode attr) (xattr db)).

Definition children_of (id : Z) (db : DB) : Z :=
  Z.of_nat (List.length (filter (fun ce => e_parent ce =? id) (entries db))).


(** ** The chunk map, row by row

    What [AddChunk] and [Touch] do to the table of chunks, stated on the
    rows; the lemmas below show that the statements of the driver compute
    just this when the ids of the chunks are unique. *)

(** The values that [rows.Scan] stores for a row it can convert. *)
Definition scanned (inode : Z) (r : chunk_row) : Chunk :=
  mkChunk (r_id r) inode (with_opt (r_storage r) ""%string) (with_opt (r_key r) ""%string)
          (with_opt (r_objectoffset r) 0) (with_opt (r_inodeoffset r) 0)
          (with_opt (r_size r) 0).

(** The chunk that [AddChunk] writes: the offset is the size of the inode
    when the flags have the append bit. *)
Definition written (flags : Z) (i : Inode) (chunk : Chunk) : Chunk :=
  if negb (Z.land flags O_APPEND =? 0)
  then set_InodeOffset (iSize i) chunk
  else chunk.

Definition selected (inode : Z) (chunk : Chunk) (r : chunk_row) : bool :=
  overlapping inode (wrap64 (cInodeOffset chunk + cSize chunk)) (cInodeOffset chunk) r.

(** A row after [AddChunk] wrote [chunk]. *)
Definition spliced (now inode : Z) (chunk : Chunk) (r : chunk_row) : chunk_row :=
  if selected inode chunk r
  then if covered chunk (scanned inode r)
       then orphaned now r
       else write_back (trimmed chunk (scanned inode r)) r
  else r.

(** The rows that a sequence of INSERTs adds, the first with id [id]. *)
Fixpoint new_rows (id inode : Z) (cs : list Chunk) : list chunk_row :=
  match cs with
  | [] => []
  | c :: cs' =>
    new_row id inode (cStorage c) (cKey c) (cObjectOffset c) (cInodeOffset c) (cSize c)
    :: new_rows (id + 1) inode cs'
  end.

(** The zero-fill row of the sparse gap. *)
Definition gap_rows (i : Inode) (chunk : Chunk) (db : DB) : list chunk_row :=
  if iSize i <? cInodeOffset chunk
  then [new_row (next_chunk db) (iID i) "zero" "" 0 (iSize i)
                (wrap64 (cInodeOffset chunk - iSize i))]
  else [].

(** The right halves of the chunks that strictly contain the write. *)
Definition right_pieces (inode : Z) (chunk : Chunk) (db : DB) : list Chunk :=
  map (right_piece chunk)
      (filter (strictly_contains chunk)
              (map (scanned inode) (filter (selected inode chunk) (chunks db)))).

Definition new_size (i : Inode) (chunk : Chunk) : Z :=
  Max (iSize i) (wrap64 (cInodeOffset chunk + cSize chunk)).

(** The store after a committed [AddChunk] that wrote [chunk] to the inode
    whose row is [i]. *)
Definition after_AddChunk (now : Z) (i : Inode) (chunk : Chunk) (db : DB) : DB :=
  let gap := gap_rows i chunk db in
  let ins := chunk :: right_pieces (iID i) chunk db in
  let n := next_chunk db + Z.of_nat (List.length gap) in
  mkDB (map (fun r => if iID r =? iID i
                      then set_size_times (new_size i chunk) now r
                      else r) (inodes db))
       (entries db)
       (map (spliced now (iID i) chunk) (chunks db) ++ gap ++ new_rows n (iID i) ins)
       (xattr db)
       (if new_size i chunk =? iSize i
        then stats db
        else mkStats (sInodes (stats db))
                     (sSize (stats db) + (new_size i chunk - iSize i)))
       (next_inode db)
       (n + Z.of_nat (List.length ins)).

(** A row after [Touch] cut the inode down to [size]. *)
Definition truncated (now inode size : Z) (r : chunk_row) : chunk_row :=
  if extends_past inode size r
  then if cInodeOffset (scanned inode r) <? size
       then resized (wrap64 (size - cInodeOffset (scanned inode r))) r
       else orphaned now r
  else r.

(** The store after a committed [Touch] that cut the inode whose row is
    [i] down to [size]. *)
Definition after_truncate (now : Z) (i : Inode) (size : Z)
           (mode atime mtime uid gid : option Z) (db : DB) : DB :=
  mkDB (map (fun r => if iID r =? iID i
                      then touched (set_attrs size mode atime mtime uid gid i) now r
                      else r) (inodes db))
       (entries db)
       (map (truncated now (iID i) size) (chunks db))
       (xattr db)
       (mkStats (sInodes (stats db)) (sSize (stats db) - (iSize i - size)))
       (next_inode db) (next_chunk db).

(** The store after a committed [Touch] that extended the inode to [size]. *)
Definition after_extend (now : Z) (i : Inode) (size : Z)
           (mode atime mtime uid gid : option Z) (db : DB) : DB :=
  mkDB (map (fun r => if iID r =? iID i
                      then touched (set_attrs size mode atime mtime uid gid i) now r
                      else r) (inodes db))
       (entries db)
       (chunks db ++ [new_row (next_chunk db) (iID i) "zero" "" 0 (iSize i)
                              (wrap64 (size - iSize i))])
       (xattr db)
       (mkStats (sInodes (stats db)) (sSize (stats db) + wrap64 (size - iSize i)))
       (next_inode db) (next_chunk db + 1).

(** A row lies within another one. *)
Definition within (r' r : chunk_row) : Prop :=
  forall a' b', interval r' = Some (a', b') ->
    exists a b, interval r = Some (a, b) /\ a <= a' /\ b' <= b.

(** The rows of the inode can be scanned: no NULL, no negative value. *)
Definition scannable (inode : Z) (db : DB) : Prop :=
  forall r, In r (live_chunks inode db) ->
    exists st k oo io sz,
      r_storage r = Some st /\ r_key r = Some k /\
      r_objectoffset r = Some oo /\ r_inodeoffset r = Some io /\
      r_size r = Some sz /\ 0 <= oo /\ 0 <= io /\ 0 <= sz.

(** The rows of the inode end below 2^63 in the file: the sums
    [inodeoffset + size] of the queries, and the offsets and sizes that
    [AddChunk] and [Touch] compute from these rows, then fit a BIGINT. *)
Definition ends_fit (inode : Z) (db : DB) : Prop :=
  forall r io sz, In r (live_chunks inode db) ->
    r_inodeoffset r = Some io -> r_size r = Some sz -> io + sz < 2 ^ 63.

(** The rows of the inode end below 2^63 in their object: the object
    offsets that [AddChunk] computes from these rows then fit a BIGINT. *)
Definition object_ends_fit (inode : Z) (db : DB) : Prop :=
  forall r oo sz, In r (live_chunks inode db) ->
    r_objectoffset r = Some oo -> r_size r = Some sz -> oo + sz < 2 ^ 63.

(** ** The invariant of the directory tables *)

(** The primary key of an entry. *)
Definition key (e : entry_row) : Z * string := (e_parent e, e_name e).

(** What the refcount of an inode depends on: the ids and refcounts of
    the inodes, the entries and the AUTO_INCREMENT counter of inodes. *)
Definition shape (db : DB) : list (Z * Z) * list entry_row * Z :=
  (map (fun i => (iID i, iNlink i)) (inodes db), entries db, next_inode db).

(** A transaction statement that leaves the shape as it is. *)
Definition keeps_shape {A} (m : Tx A) : Prop :=
  forall db, shape (snd (m db)) = shape db.

(** Refcount accuracy (with the reference of the root) together with what
    the schema guarantees: the foreign key of [entries.inode], the primary
    keys, the AUTO_INCREMENT counter and the type of [refcount]. *)
Record store_inv (db : DB) : Prop := mkStoreInv {
  inv_refcount : refcount_accurate_but_root db;
  inv_fk : forall e, In e (entries db) -> inode_exists (e_inode e) db = true;
  inv_ids : forall i, In i (inodes db) -> iID i < next_inode db;
  inv_next : 2 <= next_inode db;
  inv_pk : NoDup (map key (entries db));
  inv_range : forall i, In i (inodes db) -> 0 <= iNlink i < 2 ^ 32 }.

(** Two chunks, as Go structs, have no byte in common. *)
Definition disjoint_chunks (c1 c2 : Chunk) : Prop :=
  forall x, ~ (cInodeOffset c1 <= x < cInodeOffset c1 + cSize c1 /\
               cInodeOffset c2 <= x < cInodeOffset c2 + cSize c2).

(** ** Example stores *)

Definition dir_mode : Z := 2147484141.

(** A directory [d] with one child [c], and a file [s], all under the root. *)
Definition tree_db : DB :=
  mkDB [mkInode 1 root_mode 0 0 "" 0 1 0 0 0 0;
        mkInode 2 dir_mode 0 0 "" 0 1 1 1 1 1;
        mkInode 3 420 0 0 "" 0 1 2 2 2 2;
        mkInode 4 420 0 0 "" 0 1 3 3 3 3]
       [mkEntryRow 1 "d" 2; mkEntryRow 2 "c" 3; mkEntryRow 1 "s" 4]
       [] [] (mkStats 4 0) 5 1.


Definition new_file : Inode := mkInode 0 420 0 0 "" 0 0 0 0 0 0.

(** A fresh file, inode 2, under the root. *)
Definition fresh_db : DB := step 1 (OpCreate (mkEntry new_file "f" 1)) (Setup 0).

(** The file with one chunk [0,100) of object "a". *)
Definition one_chunk_db : DB :=
  step 2 (OpAddChunk 2 0 (mkChunk 0 2 "s3" "a" 0 0 100)) fresh_db.

(** The file with one chunk [0,100) that starts at the offset 2^63 - 1 of
    the object "a". *)
Definition high_object_db : DB :=
  step 2 (OpAddChunk 2 0 (mkChunk 0 2 "s3" "a" (2 ^ 63 - 1) 0 100)) fresh_db.

(** A file of 2^63 bytes: the zero-fill chunk [0, 2^62) and the chunk
    [2^62, 2^63) of "a", whose offset and size fit a BIGINT and whose end
    does not. *)
Definition huge_file_db : DB :=
  step 2 (OpAddChunk 2 0 (mkChunk 0 2 "s3" "a" 0 (2 ^ 62) (2 ^ 62))) fresh_db.

(** The file with the chunks [0,50) of "a" and [50,100) of "b". *)
Definition two_chunk_db : DB :=
  step 3 (OpAddChunk 2 0 (mkChunk 0 2 "s3" "b" 0 50 50))
    (step 2 (OpAddChunk 2 0 (mkChunk 0 2 "s3" "a" 0 0 50)) fresh_db).

(** The file of 100 bytes after a write of no byte at offset 60: the
    chunks [0,60) and [60,100) of "a" and an empty chunk at 60. *)
Definition empty_chunk_db : DB :=
  step 3 (OpAddChunk 2 0 (mkChunk 0 2 "s3" "z" 0 60 0)) one_chunk_db.

(** The fresh file with the attribute "user.k" of value "v". *)
Definition xattr_db : DB := step 5 (OpSetXattr 2 "user.k" "v" 0) fresh_db.

(** ** Further properties and example stores *)
(** Two files under the root: inode 2 with the chunk [0,100) of "a" and
    inode 3 with the chunk [0,30) of "g". *)
Definition two_files_db : DB :=
  step 5 (OpAddChunk 3 0 (mkChunk 0 3 "s3" "g" 0 0 30))
    (step 4 (OpCreate (mkEntry new_file "g" 1)) one_chunk_db).

(** The file of [one_chunk_db] after its head [0,40) was overwritten: the
    table holds the row of [40,100) before the row of [0,40). *)
Definition overwritten_db : DB :=
  step 3 (OpAddChunk 2 0 (mkChunk 0 2 "s3" "b" 0 0 40)) one_chunk_db.

(** The rows of the five tables, without the AUTO_INCREMENT counters. *)
Definition tables (db : DB)
  : list Inode * list entry_row * list chunk_row * list xattr_row * StatsRow :=
  (inodes db, entries db, chunks db, xattr db, stats db).

(** The inode row that [Create] inserts for [entry]. *)
Definition created (now id : Z) (entry : Entry) : Inode :=
  mkInode id (wrap32 (iMode (EInode entry))) (iUid (EInode entry))
          (iGid (EInode entry)) (iSymLink (EInode entry)) 0 1 now now now now.

(** The store after [Forget] removed the inode whose row is [i]. *)
Definition forgotten (now : Z) (i : Inode) (db : DB) : DB :=
  mkDB (filter (fun r => negb (iID r =? iID i)) (inodes db))
       (entries db)
       (map (fun r => if live_in (iID i) r then orphaned now r else r) (chunks db))
       (filter (fun x => negb (x_inode x =? iID i)) (xattr db))
       (mkStats (sInodes (stats db) + -1) (sSize (stats db) + - iSize i))
       (next_inode db) (next_chunk db).

(** The file [s] of [tree_db] has lost its name and has a chunk and an
    attribute. *)
Definition unlinked_db : DB :=
  step 7 (OpUnlink 1 "s")
    (step 6 (OpSetXattr 4 "user.k" "v" 0)
       (step 5 (OpAddChunk 4 0 (mkChunk 0 4 "s3" "a" 0 0 10)) tree_db)).

(** The sum of the sizes of the inodes. *)
Definition total_size (db : DB) : Z := fold_right Z.add 0 (map iSize (inodes db)).

(** An inode row of the id has no link. *)
Definition orphan_inode (id : Z) (db : DB) : bool :=
  existsb (fun i => (iNlink i =? 0) && (iID i =? id)) (inodes db).

(** The tables after [CleanOrphanInodes], before the stats are recomputed. *)
Definition cleaned (now : Z) (db : DB) : DB :=
  mkDB (filter (fun i => negb (iNlink i =? 0)) (inodes db))
       (entries db)
       (map (fun r => if existsb (fun i => live_in (iID i) r)
                                 (filter (fun i => iNlink i =? 0) (inodes db))
                      then orphaned now r else r) (chunks db))
       (filter (fun x => negb (orphan_inode (x_inode x) db)) (xattr db))
       (stats db) (next_inode db) (next_chunk db).

(** ** Invariants of the keys

    A property of the store that every statement of a transaction keeps. *)
Definition preserves (P : DB -> Prop) {A} (m : Tx A) : Prop :=
  forall db, P db -> P (snd (m db)).

(** What the schema guarantees for the keys: the primary keys of inodes
    and chunks, their AUTO_INCREMENT counters and the foreign key of
    [chunks.inode]. *)
Record keys_ok (db : DB) : Prop := mkKeysOk {
  ko_chunks : NoDup (map r_id (chunks db));
  ko_next_chunk : Forall (fun id => id < next_chunk db) (map r_id (chunks db));
  ko_inodes : NoDup (map iID (inodes db));
  ko_next_inode : Forall (fun id => id < next_inode db) (map iID (inodes db));
  ko_fk : Forall (fun o => match o with
                           | Some j => In j (map iID (inodes db))
                           | None => True
                           end) (map r_inode (chunks db)) }.

(** ** The invariants of the chunk map and of the stats

    The arguments of the operation are [uint64] values and the interval
    that [AddChunk] writes does not wrap around. *)
Definition op_fits (o : op) (db : DB) : Prop :=
  match o with
  | OpTouch _ size _ _ _ _ _ => forall s, size = Some s -> 0 <= s < 2 ^ 64
  | OpAddChunk inode flags chunk =>
    0 <= cInodeOffset chunk /\ 0 <= cSize chunk /\
    forall i, find (fun r => iID r =? inode) (inodes db) = Some i ->
              cInodeOffset (written flags i chunk) + cSize chunk < 2 ^ 64
  | _ => True
  end.

(** The stores that the driver reaches with such operations. *)
Inductive reachable_fits : DB -> Prop :=
| fits_setup : forall now, reachable_fits (Setup now)
| fits_step : forall now o db,
    reachable_fits db -> op_fits o db -> reachable_fits (step now o db).

(** The stats count the inode rows and sum their sizes. *)
Definition stats_accurate (db : DB) : Prop :=
  sInodes (stats db) = Z.of_nat (List.length (inodes db)) /\
  sSize (stats db) = total_size db.

Record chunk_map_ok (db : DB) : Prop := mkChunkMapOk {
  cm_typed : sizes_typed db;
  cm_stats : stats_accurate db;
  cm_disjoint : forall j, non_overlap j db;
  cm_contained : forall j, contained j db }.

(** What these invariants look at. *)
Definition sizes_view (db : DB) : list (Z * Z) * StatsRow * list chunk_row :=
  (map (fun i => (iID i, iSize i)) (inodes db), stats db, chunks db).

(** The operations on the files, their chunks and their attributes. *)
Definition file_op (o : op) : bool :=
  match o with
  | OpTouch _ _ _ _ _ _ _ | OpAddChunk _ _ _ | OpChunks _ | OpChildren _
  | OpRemoveXattr _ _ | OpSetXattr _ _ _ _ | OpCleanOrphanChunks _ => true
  | _ => false
  end.

(** The operations that only read or write names and attributes. *)
Definition name_op (o : op) : bool :=
  match o with
  | OpUnlink _ _ | OpRename _ _ _ _ | OpChunks _ | OpChildren _
  | OpRemoveXattr _ _ | OpSetXattr _ _ _ _ => true
  | _ => false
  end.

(** [WHERE inode IS NULL AND orphandate < ?]. *)
Definition expired (threshold : Z) (r : chunk_row) : bool :=
  match r_inode r, r_orphandate r with
  | None, Some d => d <? threshold
  | _, _ => false
  end.

(** What a call of [CleanOrphanChunks] comes to: it returns, with the
    objects that were handed to [st.Remove] and the store it leaves, or it
    blocks for ever. *)
Inductive outcome :=
| Returns (err : option error) (removed : list (string * string)) (db : DB)
| Blocks.

(** The loop over the rows selected: each row is scanned into a
    [storage.Chunk] (a NULL does not convert) and sent over the unbuffered
    channel to the workers; without a worker the send never returns. *)
Fixpoint send_all (workers : Z) (rows : list chunk_row) (sent : list (string * string))
  : option (option error * list (string * string)) :=
  match rows with
  | [] => Some (None, sent)
  | r :: rows' =>
    match r_storage r, r_key r with
    | Some st, Some k =>
      if 0 <? workers then send_all workers rows' (sent ++ [(st, k)]) else None
    | _, _ => Some (Some (Sql ErrScan), sent)
    end
  end.

(** [CleanOrphanChunks] with its workers: after the loop the rows are
    deleted and the transaction is committed; the error of a scan is
    returned as it is, once the workers are done. *)
Definition CleanOrphanChunks_run (threshold workers : Z) (db : DB) : outcome :=
  match send_all workers (filter (expired threshold) (chunks db)) [] with
  | None => Blocks
  | Some (Some e, sent) => Returns (Some e) sent db
  | Some (None, sent) => Returns None sent (snd (CleanOrphanChunks threshold db))
  end.

(** The store of [unlinked_db] after [Forget] of the file without a name:
    its chunk is orphaned and dated 9. *)
Definition forgotten_db : DB := step 9 (OpForget 4) unlinked_db.

(** The byte [x] of the file belongs to the row. *)
Definition holds_byte (r : chunk_row) (x : Z) : Prop :=
  exists a b, interval r = Some (a, b) /\ a <= x < b.

(** Coverage: every byte below the size of the inode belongs to a live
    chunk of it. *)
Definition coverage (inode : Z) (db : DB) : Prop :=
  forall i x, In i (inodes db) -> iID i = inode -> 0 <= x < iSize i ->
    exists r, In r (live_chunks inode db) /\ holds_byte r x.

(** ** Reasoning about transactions *)

Lemma bind_ok {A B} (m : Tx A) (k : A -> Tx B) db a db' :
  m db = (inr a, db') -> bind m k db = k a db'.
Proof. intros H. unfold bind. now rewrite H. Qed.

Lemma bind_err {A B} (m : Tx A) (k : A -> Tx B) db e db' :
  m db = (inl e, db') -> bind m k db = (inl e, db').
Proof. intros H. unfold bind. now rewrite H. Qed.

Lemma treat_ok {A} (m : Tx A) db a db' :
  m db = (inr a, db') -> treat m db = (inr a, db').
Proof. intros H. unfold treat. now rewrite H. Qed.

Lemma treat_err {A} (m : Tx A) db e db' :
  m db = (inl e, db') -> treat m db = (inl (treatError e), db').
Proof. intros H. unfold treat. now rewrite H. Qed.

Lemma transaction_ok {A} (m : Tx A) db a db' :
  m db = (inr a, db') -> transaction m db = (inr a, db').
Proof. intros H. unfold transaction. now rewrite H. Qed.

Lemma transaction_err {A} (m : Tx A) db e db' :
  m db = (inl e, db') -> transaction m db = (inl e, db).
Proof. intros H. unfold transaction. now rewrite H. Qed.

(** A transaction that fails leaves the store as it was. *)
Lemma transaction_rollback {A} (m : Tx A) db e db' :
  transaction m db = (inl e, db') -> db' = db.
Proof.
  unfold transaction. destruct (m db) as [[e'|a] d]; intros H; inversion H; auto.
Qed.

Lemma getInode_Some id db i :
  find (fun i => iID i =? id) (inodes db) = Some i ->
  getInode id db = (inr i, db).
Proof. intros H. unfold getInode. now rewrite H. Qed.

Lemma getInode_None id db :
  find (fun i => iID i =? id) (inodes db) = None ->
  getInode id db = (inl (Sql ErrNoRows), db).
Proof. intros H. unfold getInode. now rewrite H. Qed.

Lemma find_inode_exists id db i :
  find (fun i => iID i =? id) (inodes db) = Some i -> inode_exists id db = true.
Proof.
  intros H. apply find_some in H. unfold inode_exists.
  apply existsb_exists. exists i. exact H.
Qed.

Lemma find_inode_id id l (i : Inode) :
  find (fun i => iID i =? id) l = Some i -> iID i = id /\ In i l.
Proof. intros H. apply find_some in H. destruct H as [H1 H2]. split; [lia | auto]. Qed.

(** What a statement that succeeded did. *)
Lemma bind_inv {A B} (m : Tx A) (k : A -> Tx B) db b db' :
  bind m k db = (inr b, db') ->
  exists a db1, m db = (inr a, db1) /\ k a db1 = (inr b, db').
Proof.
  unfold bind. destruct (m db) as [[e|a] db1]; [discriminate|]. eauto.
Qed.

Lemma treat_inv {A} (m : Tx A) db a db' :
  treat m db = (inr a, db') -> m db = (inr a, db').
Proof.
  unfold treat. destruct (m db) as [[e|a'] db1]; [discriminate | auto].
Qed.

Lemma ret_inv {A} (a b : A) db db' :
  ret a db = (inr b, db') -> b = a /\ db' = db.
Proof. unfold ret. intros H. inversion H. auto. Qed.

Lemma getInode_inv id db i db' :
  getInode id db = (inr i, db') ->
  db' = db /\ find (fun r => iID r =? id) (inodes db) = Some i.
Proof.
  unfold getInode. destruct (find _ _); [|discriminate].
  intros H. inversion H. auto.
Qed.

Lemma modify_inv f db u db' : modify f db = (inr u, db') -> db' = f db.
Proof. unfold modify. intros H. inversion H. reflexivity. Qed.


Lemma in_range_true bits v : 0 <= v < 2 ^ bits -> in_range bits v = true.
Proof.
  intros [H1 H2]. unfold in_range.
  apply andb_true_iff. split; [apply Z.leb_le | apply Z.ltb_lt]; assumption.
Qed.

Lemma in_range_inv bits v : in_range bits v = true -> 0 <= v < 2 ^ bits.
Proof.
  unfold in_range. intros H. apply andb_true_iff in H. destruct H as [H1 H2].
  apply Z.leb_le in H1. apply Z.ltb_lt in H2. split; assumption.
Qed.

(** ** Get and the errors of the store *)

(** Without a failure of the store, [Get] answers [ENOENT] exactly when
    there is no row for the inode. *)
Lemma Get_ENOENT_iff_absent inode db :
  Get None inode db = inl (Sys ENOENT) <->
  find (fun i => iID i =? inode) (inodes db) = None.
Proof.
  unfold Get, query_row.
  destruct (find (fun i => iID i =? inode) (inodes db)); split; intros H;
    try discriminate; reflexivity.
Qed.

(** Whatever the store reports, [Get] answers [ENOENT]. *)
Lemma Get_store_error e inode db : Get (Some e) inode db = inl (Sys ENOENT).
Proof. reflexivity. Qed.

(** [Stats] hands the error of the store to [treatError]. *)
Lemma Stats_store_error e db : Stats (Some e) db = inl (treatError (Sql e)).
Proof. reflexivity. Qed.

(** C8: [Get] does not surface an I/O error of the store.  With the root
    inode present and the connection lost, [Get 1] answers [ENOENT], the
    answer for an absent inode, where [Stats] on the same store returns the
    connection error itself. *)
Theorem Get_masks_connection_loss :
  find (fun i => iID i =? 1) (inodes (Setup 0)) <> None /\
  Get (Some ErrConnection) 1 (Setup 0) = inl (Sys ENOENT) /\
  Stats (Some ErrConnection) (Setup 0) = inl (Sql ErrConnection).
Proof. repeat split. discriminate. Qed.

(** ** Unlink *)

Lemma add_refcount_ok id delta db :
  (forall i, In i (inodes db) -> iID i = id -> 0 <= iNlink i + delta < 2 ^ 32) ->
  add_refcount id delta db =
  (inr tt, set_inodes (map (fun i => if iID i =? id
                                     then set_refcount (iNlink i + delta) i
                                     else i) (inodes db)) db).
Proof.
  intros H. unfold add_refcount.
  replace (forallb _ (inodes db)) with true; [reflexivity|].
  symmetry. apply forallb_forall. intros i Hi.
  destruct (iID i =? id) eqn:E; simpl; [|reflexivity].
  apply in_range_true. apply H; [assumption | lia].
Qed.

Lemma unlink_select parent name db pe :
  find (entry_at parent name) (entries db) = Some pe ->
  unlink parent name db =
  (if 0 <? children_of (e_inode pe) db
   then fail (Sys ENOTEMPTY)
   else treat (delete_entry parent name) ;;; treat (add_refcount (e_inode pe) (-1))) db.
Proof.
  intros H. unfold unlink, bind, treat at 1. rewrite H. reflexivity.
Qed.

Lemma unlink_missing parent name db :
  find (entry_at parent name) (entries db) = None ->
  unlink parent name db = (inl (Sys ENOENT), db).
Proof.
  intros H. unfold unlink, bind, treat at 1. rewrite H. reflexivity.
Qed.

(** C9: [Unlink] of an entry whose target has children answers
    [ENOTEMPTY] and changes nothing, whatever the type of the target;
    [Unlink] of an entry whose target has no child removes the entry and
    takes one from the refcount of the target, whose row stays. *)
Theorem Unlink_spec parent name db pe
    (Hentry : find (entry_at parent name) (entries db) = Some pe) :
  (0 < children_of (e_inode pe) db ->
   Unlink parent name db = (inl (Sys ENOTEMPTY), db)) /\
  (children_of (e_inode pe) db = 0 ->
   (forall i, In i (inodes db) -> iID i = e_inode pe -> 1 <= iNlink i <= 2 ^ 32) ->
   Unlink parent name db =
   (inr tt,
    mkDB (map (fun i => if iID i =? e_inode pe
                        then set_refcount (iNlink i - 1) i
                        else i) (inodes db))
         (filter (fun e => negb (entry_at parent name e)) (entries db))
         (chunks db) (xattr db) (stats db) (next_inode db) (next_chunk db))).
Proof.
  split.
  - intros Hc. unfold Unlink.
    apply transaction_err with (db' := db).
    rewrite (unlink_select _ _ _ _ Hentry).
    apply Z.ltb_lt in Hc. rewrite Hc. reflexivity.
  - intros Hc Hn. unfold Unlink.
    apply transaction_ok.
    rewrite (unlink_select _ _ _ _ Hentry).
    rewrite Hc. change (0 <? 0) with false. cbv iota.
    erewrite bind_ok by (apply treat_ok; reflexivity).
    apply treat_ok. rewrite add_refcount_ok.
    + unfold set_inodes, set_entries. simpl. reflexivity.
    + simpl. intros i Hi Hid. specialize (Hn i Hi Hid). lia.
Qed.

Lemma tree_db_reachable : reachable tree_db.
Proof.
  pose (new := fun mode => mkInode 0 mode 0 0 "" 0 0 0 0 0 0).
  change tree_db with
    (step 3 (OpCreate (mkEntry (new 420) "s" 1))
       (step 2 (OpCreate (mkEntry (new 420) "c" 2))
          (step 1 (OpCreate (mkEntry (new dir_mode) "d" 1)) (Setup 0)))).
  repeat apply reach_step. apply reach_setup.
Qed.

Lemma Unlink_spec_witness :
  Unlink 1 "d" tree_db = (inl (Sys ENOTEMPTY), tree_db) /\
  entries (snd (Unlink 1 "s" tree_db)) = [mkEntryRow 1 "d" 2; mkEntryRow 2 "c" 3].
Proof.
  split.
  - apply (proj1 (Unlink_spec 1 "d" tree_db (mkEntryRow 1 "d" 2) eq_refl)).
    reflexivity.
  - rewrite (proj2 (Unlink_spec 1 "s" tree_db (mkEntryRow 1 "s" 4) eq_refl) eq_refl).
    + reflexivity.
    + intros i Hi Hid. simpl in Hi.
      destruct Hi as [<-|[<-|[<-|[<-|[]]]]]; simpl in *; lia.
Defined.

(** ** Rename *)

Lemma find_none_filter {A} (p : A -> bool) l :
  find p l = None <-> filter p l = [].
Proof.
  induction l as [|a l IH]; simpl; [tauto|].
  destruct (p a); [split; discriminate | exact IH].
Qed.

Lemma find_none_existsb {A} (p : A -> bool) l :
  find p l = None -> existsb p l = false.
Proof.
  induction l as [|a l IH]; simpl; [reflexivity|].
  destruct (p a); [discriminate | exact IH].
Qed.

Lemma find_some_existsb {A} (p : A -> bool) l a :
  find p l = Some a -> existsb p l = true.
Proof.
  intros H. apply find_some in H. apply existsb_exists. exists a. exact H.
Qed.

Lemma move_entry_error newParent newName oldParent oldName db e db' :
  move_entry newParent newName oldParent oldName db = (inl e, db') ->
  (e = Sql ErrDupEntry \/ e = Sql ErrForeignKey) /\ db' = db.
Proof.
  unfold move_entry.
  destruct (filter (entry_at oldParent oldName) (entries db)) as [|x more];
    [discriminate|].
  destruct ((oldParent =? newParent) && String.eqb oldName newName);
    [discriminate|].
  destruct (existsb (entry_at newParent newName) (entries db)
            || negb (Nat.eqb (List.length more) 0)).
  - intros H. inversion H. auto.
  - destruct (inode_exists newParent db); [discriminate|].
    intros H. inversion H. auto.
Qed.

Lemma Rename_unfold oldParent oldName newParent newName db :
  Rename oldParent oldName newParent newName db =
  match move_entry newParent newName oldParent oldName
          (snd (unlink newParent newName db)) with
  | (inl e, _) => (inl (treatError e), db)
  | (inr n, db') => if n =? 0 then (inl (Sys ENOENT), db) else (inr tt, db')
  end.
Proof.
  unfold Rename, transaction, bind, ignore_error, treat at 1.
  destruct (move_entry newParent newName oldParent oldName
              (snd (unlink newParent newName db))) as [[e|n] d]; [reflexivity|].
  destruct (n =? 0); reflexivity.
Qed.

(** [Rename] never answers [ENOTEMPTY]: the error of its [unlink] is
    dropped, and what it returns is [ENOENT] or the error of its UPDATE. *)
Lemma Rename_never_ENOTEMPTY oldParent oldName newParent newName db :
  fst (Rename oldParent oldName newParent newName db) <> inl (Sys ENOTEMPTY).
Proof.
  rewrite Rename_unfold.
  destruct (move_entry newParent newName oldParent oldName
              (snd (unlink newParent newName db))) as [[e|n] d] eqn:E.
  - apply move_entry_error in E. destruct E as [[-> | ->] _]; simpl; discriminate.
  - destruct (n =? 0); simpl; discriminate.
Qed.

(** The entries that [unlink] leaves: all of them, or all but the one it removed. *)
Lemma unlink_entries parent name db :
  entries (snd (unlink parent name db)) = entries db \/
  entries (snd (unlink parent name db)) =
  filter (fun e => negb (entry_at parent name e)) (entries db).
Proof.
  destruct (find (entry_at parent name) (entries db)) as [pe|] eqn:E.
  - rewrite (unlink_select _ _ _ _ E).
    destruct (0 <? children_of (e_inode pe) db); [left; reflexivity|].
    right. unfold bind, treat, delete_entry, modify, add_refcount. simpl.
    match goal with |- context [if ?c then _ else _] => destruct c end;
      reflexivity.
  - rewrite (unlink_missing _ _ _ E). left. reflexivity.
Qed.

Lemma filter_filter_nil {A} (p q : A -> bool) l :
  filter p l = [] -> filter p (filter q l) = [].
Proof.
  induction l as [|a l IH]; simpl; [reflexivity|].
  destruct (p a) eqn:Ep; [discriminate|].
  intros H. destruct (q a); simpl; [rewrite Ep|]; auto.
Qed.

(** [Rename] of a source that does not exist answers [ENOENT] and changes
    nothing. *)
Lemma Rename_missing_source oldParent oldName newParent newName db :
  find (entry_at oldParent oldName) (entries db) = None ->
  Rename oldParent oldName newParent newName db = (inl (Sys ENOENT), db).
Proof.
  intros H. apply find_none_filter in H.
  rewrite Rename_unfold.
  assert (Hs : filter (entry_at oldParent oldName)
                 (entries (snd (unlink newParent newName db))) = []).
  { destruct (unlink_entries newParent newName db) as [-> | ->];
      [assumption | apply filter_filter_nil; assumption]. }
  unfold move_entry. rewrite Hs. reflexivity.
Qed.

(** [Rename] to a name that is free relocates the source entry. *)
Lemma Rename_free_destination oldParent oldName newParent newName db e :
  find (entry_at newParent newName) (entries db) = None ->
  filter (entry_at oldParent oldName) (entries db) = [e] ->
  inode_exists newParent db = true ->
  Rename oldParent oldName newParent newName db =
  (inr tt,
   set_entries (map (fun e => if entry_at oldParent oldName e
                              then mkEntryRow newParent newName (e_inode e)
                              else e) (entries db)) db).
Proof.
  intros Hdst Hsrc Hp.
  assert (Hne : (oldParent =? newParent) && String.eqb oldName newName = false).
  { destruct ((oldParent =? newParent) && String.eqb oldName newName) eqn:E; [|reflexivity].
    apply andb_true_iff in E. destruct E as [E1 E2].
    apply Z.eqb_eq in E1. apply String.eqb_eq in E2. subst.
    apply find_none_filter in Hdst. rewrite Hdst in Hsrc. discriminate. }
  rewrite Rename_unfold, (unlink_missing _ _ _ Hdst). simpl snd.
  unfold move_entry. rewrite Hsrc, Hne.
  rewrite (find_none_existsb _ _ Hdst). simpl. rewrite Hp. reflexivity.
Qed.

(** [Rename] onto an entry whose target has children fails and changes
    nothing, with [ENOENT] or [EEXIST]. *)
Lemma Rename_nonempty_destination oldParent oldName newParent newName db pe :
  find (entry_at newParent newName) (entries db) = Some pe ->
  0 < children_of (e_inode pe) db ->
  Rename oldParent oldName newParent newName db = (inl (Sys ENOENT), db) \/
  Rename oldParent oldName newParent newName db = (inl (Sys EEXIST), db).
Proof.
  intros Hdst Hc.
  rewrite Rename_unfold, (unlink_select _ _ _ _ Hdst).
  apply Z.ltb_lt in Hc. rewrite Hc. simpl snd.
  unfold move_entry.
  destruct (filter (entry_at oldParent oldName) (entries db)); [left; reflexivity|].
  destruct ((oldParent =? newParent) && String.eqb oldName newName);
    [left; reflexivity|].
  rewrite (find_some_existsb _ _ _ Hdst). right. reflexivity.
Qed.

(** C3: [Rename] onto a directory that has a child.  The destination
    [(1, "d")] of [tree_db] has one child and the source [(1, "s")]
    exists: [Rename] answers [EEXIST], the duplicate key of its UPDATE, and
    not the [ENOTEMPTY] that its [unlink] computed; the store is unchanged.
    [Rename] of the directory onto itself answers [ENOENT]: its UPDATE
    changes no row. *)
Theorem Rename_onto_nonempty_directory :
  children_of 2 tree_db = 1 /\
  unlink 1 "d" tree_db = (inl (Sys ENOTEMPTY), tree_db) /\
  Unlink 1 "d" tree_db = (inl (Sys ENOTEMPTY), tree_db) /\
  Rename 1 "s" 1 "d" tree_db = (inl (Sys EEXIST), tree_db) /\
  Rename 1 "d" 1 "d" tree_db = (inl (Sys ENOENT), tree_db).
Proof. repeat split. Qed.

(** ** Extended attributes *)

Lemma find_app_last {A} (p : A -> bool) l x :
  find p l = None -> p x = true -> find p (l ++ [x]) = Some x.
Proof.
  induction l as [|a l IH]; simpl; intros H Hx.
  - now rewrite Hx.
  - destruct (p a); [discriminate | auto].
Qed.

Lemma find_set_value inode attr value l x0 :
  find (xattr_at inode attr) l = Some x0 ->
  find (xattr_at inode attr)
       (map (fun x => if xattr_at inode attr x
                      then mkXattrRow (x_inode x) (x_key x) value
                      else x) l) =
  Some (mkXattrRow (x_inode x0) (x_key x0) value).
Proof.
  induction l as [|a l IH]; simpl; [discriminate|].
  destruct (xattr_at inode attr a) eqn:E.
  - intros H. inversion H. subst. simpl.
    unfold xattr_at in *. simpl. now rewrite E.
  - simpl. rewrite E. exact IH.
Qed.

Lemma changed_rows_none inode attr value l :
  find (xattr_at inode attr) l = None ->
  filter (fun x => xattr_at inode attr x && negb (String.eqb (x_value x) value)) l = [].
Proof.
  induction l as [|a l IH]; simpl; [reflexivity|].
  destruct (xattr_at inode attr a); [discriminate|]. simpl. exact IH.
Qed.

Lemma changed_rows_some inode attr value l x0 :
  find (xattr_at inode attr) l = Some x0 ->
  x_value x0 <> value ->
  (Z.of_nat (List.length
     (filter (fun x => xattr_at inode attr x && negb (String.eqb (x_value x) value)) l))
   =? 0) = false.
Proof.
  induction l as [|a l IH]; simpl; [discriminate|].
  destruct (xattr_at inode attr a) eqn:E.
  - intros H Hv. inversion H. subst. simpl.
    apply String.eqb_neq in Hv. rewrite Hv. reflexivity.
  - simpl. exact IH.
Qed.

Lemma GetXattr_found inode attr db x :
  find (xattr_at inode attr) (xattr db) = Some x ->
  GetXattr None inode attr db = inr (x_value x).
Proof. intros H. unfold GetXattr, query_row. now rewrite H. Qed.

Lemma lookup_xattr_None inode attr db :
  lookup_xattr inode attr db = None ->
  find (xattr_at inode attr) (xattr db) = None.
Proof.
  unfold lookup_xattr. destruct (find _ _); [discriminate | reflexivity].
Qed.

(** [SetXattr] on an inode that exists.  With flags 1 the pair is
    inserted when the key is new, and the call fails and changes nothing
    when the key exists; with flags 2 the call fails with [ENODATA] and
    changes nothing when the key is absent, and an existing key holds the
    value afterwards (the call succeeds whenever that changes the stored
    value); with any other flags the call succeeds and [GetXattr] returns
    the value. *)
Theorem SetXattr_spec now inode attr value flags db
    (Hinode : inode_exists inode db = true) :
  (flags = 1 -> lookup_xattr inode attr db = None ->
   exists db', SetXattr now inode attr value flags db = (inr tt, db') /\
               GetXattr None inode attr db' = inr value) /\
  (flags = 1 -> lookup_xattr inode attr db <> None ->
   SetXattr now inode attr value flags db = (inl (Sys EEXIST), db)) /\
  (flags = 2 -> lookup_xattr inode attr db = None ->
   SetXattr now inode attr value flags db = (inl (Sys ENODATA), db)) /\
  (flags = 2 -> forall v0, lookup_xattr inode attr db = Some v0 ->
   GetXattr None inode attr (snd (SetXattr now inode attr value flags db)) = inr value /\
   (v0 <> value -> fst (SetXattr now inode attr value flags db) = inr tt)) /\
  (flags <> 1 -> flags <> 2 ->
   exists db', SetXattr now inode attr value flags db = (inr tt, db') /\
               GetXattr None inode attr db' = inr value).
Proof.
  repeat split.
  - (* CREATE, new key *)
    intros -> Hnone. apply lookup_xattr_None in Hnone.
    eexists. split.
    + unfold SetXattr. apply transaction_ok. simpl (1 =? 1).
      unfold bind, treat, insert_xattr.
      rewrite (find_none_existsb _ _ Hnone), Hinode. reflexivity.
    + simpl. erewrite GetXattr_found
        by (simpl; apply find_app_last;
            [assumption
            | unfold xattr_at; simpl; now rewrite Z.eqb_refl, String.eqb_refl]).
      reflexivity.
  - (* CREATE, existing key *)
    intros -> Hsome. unfold lookup_xattr in Hsome.
    destruct (find (xattr_at inode attr) (xattr db)) as [x|] eqn:E;
      [|contradiction Hsome; reflexivity].
    unfold SetXattr, transaction, bind, treat, insert_xattr. simpl (1 =? 1).
    cbv beta iota.
    now rewrite (find_some_existsb _ _ _ E).
  - (* REPLACE, absent key *)
    intros -> Hnone. apply lookup_xattr_None in Hnone.
    unfold SetXattr, transaction, bind, treat, update_xattr. simpl.
    now rewrite (changed_rows_none _ _ _ _ Hnone).
  - (* REPLACE, existing key: the value afterwards *)
    subst flags. unfold lookup_xattr in H0.
    destruct (find (xattr_at inode attr) (xattr db)) as [x|] eqn:E; [|discriminate].
    unfold SetXattr, transaction, bind, treat, update_xattr. simpl.
    match goal with |- context [if ?c then _ else _] => destruct c eqn:Ec end; simpl.
    + (* no row changed: the first row already holds the value *)
      erewrite GetXattr_found by exact E.
      destruct (String.eqb (x_value x) value) eqn:Ev.
      * apply String.eqb_eq in Ev. now rewrite Ev.
      * apply String.eqb_neq in Ev.
        rewrite (changed_rows_some _ _ _ _ _ E Ev) in Ec. discriminate.
    + erewrite GetXattr_found
        by (simpl; rewrite (find_set_value _ _ _ _ _ E); reflexivity).
      reflexivity.
  - (* REPLACE, existing key: success *)
    subst flags. intros Hv. unfold lookup_xattr in H0.
    destruct (find (xattr_at inode attr) (xattr db)) as [x|] eqn:E; [|discriminate].
    simpl in H0. inversion H0. subst v0.
    unfold SetXattr, transaction, bind, treat, update_xattr. simpl.
    now rewrite (changed_rows_some _ _ _ _ _ E Hv).
  - (* upsert *)
    intros Hf1 Hf2.
    apply Z.eqb_neq in Hf1. apply Z.eqb_neq in Hf2.
    unfold SetXattr, transaction, bind, treat, upsert_xattr.
    rewrite Hf1, Hf2.
    destruct (find (xattr_at inode attr) (xattr db)) as [x|] eqn:E.
    + rewrite (find_some_existsb _ _ _ E). simpl.
      eexists. split; [reflexivity|].
      erewrite GetXattr_found
        by (simpl; rewrite (find_set_value _ _ _ _ _ E); reflexivity).
      reflexivity.
    + rewrite (find_none_existsb _ _ E), Hinode. simpl.
      eexists. split; [reflexivity|].
      erewrite GetXattr_found
        by (simpl; apply find_app_last;
            [assumption
            | unfold xattr_at; simpl; now rewrite Z.eqb_refl, String.eqb_refl]).
      reflexivity.
Qed.

Lemma SetXattr_spec_witness :
  inode_exists 1 (Setup 0) = true /\
  GetXattr None 1 "user.k"
    (snd (SetXattr 5 1 "user.k" "v" 0 (Setup 0))) = inr "v"%string /\
  SetXattr 5 1 "user.k" "v" 2 (Setup 0) = (inl (Sys ENODATA), Setup 0).
Proof.
  split; [reflexivity|].
  pose proof (SetXattr_spec 5 1 "user.k" "v" 0 (Setup 0) eq_refl) as H0.
  pose proof (SetXattr_spec 5 1 "user.k" "v" 2 (Setup 0) eq_refl) as H2.
  split.
  - destruct H0 as (_ & _ & _ & _ & H0).
    destruct H0 as (db' & Hrun & Hget); [discriminate | discriminate |].
    rewrite Hrun. exact Hget.
  - destruct H2 as (_ & _ & H2 & _). apply H2; reflexivity.
Defined.

(** REPLACE reports [ENODATA] whenever its UPDATE changes no row: when
    the key is absent, and when every row of the key (there is at most
    one, by the primary key) holds the value already. *)
Lemma SetXattr_replace_unchanged now inode attr value db :
  (forall x, In x (xattr db) -> xattr_at inode attr x = true -> x_value x = value) ->
  SetXattr now inode attr value 2 db = (inl (Sys ENODATA), db).
Proof.
  intros H.
  assert (Hnone : filter (fun x => xattr_at inode attr x
                                   && negb (String.eqb (x_value x) value))
                         (xattr db) = []).
  { generalize H. generalize (xattr db). clear H.
    induction l as [|a l IH]; simpl; intros H; [reflexivity|].
    destruct (xattr_at inode attr a) eqn:E; simpl.
    - rewrite (H a (or_introl eq_refl) E), String.eqb_refl. simpl. auto.
    - auto. }
  unfold SetXattr, transaction, bind, treat, update_xattr. simpl.
  now rewrite Hnone.
Qed.

(** C6: [SetXattr] with the flags 2 on a key that exists.  In [xattr_db],
    which the driver reaches, the inode 2 has the attribute "user.k" of
    value "v".  REPLACE with this value answers [ENODATA], the error of
    an absent key, and changes nothing: its UPDATE changes no row and
    [RowsAffected] is 0.  REPLACE with another value succeeds, and so does
    the upsert with the same value, which does not look at
    [RowsAffected]. *)
Theorem SetXattr_replace_same_value :
  reachable xattr_db /\
  GetXattr None 2 "user.k" xattr_db = inr "v"%string /\
  SetXattr 9 2 "user.k" "v" 2 xattr_db = (inl (Sys ENODATA), xattr_db) /\
  fst (SetXattr 9 2 "user.k" "w" 2 xattr_db) = inr tt /\
  fst (SetXattr 9 2 "user.k" "v" 0 xattr_db) = inr tt.
Proof.
  split; [|split; [|split; [|split]]].
  - unfold xattr_db, fresh_db. repeat apply reach_step. apply reach_setup.
  - reflexivity.
  - apply SetXattr_replace_unchanged. intros x Hx _.
    vm_compute in Hx. destruct Hx as [<- | []]. reflexivity.
  - reflexivity.
  - reflexivity.
Qed.

(** ** Statements on the table of chunks *)

Lemma wrap64_small z : 0 <= z < 2 ^ 64 -> wrap64 z = z.
Proof. intros H. unfold wrap64. apply Z.mod_small. exact H. Qed.

Lemma wrap64_range z : 0 <= wrap64 z < 2 ^ 64.
Proof. unfold wrap64. apply Z.mod_pos_bound. reflexivity. Qed.

Lemma scan_chunk_scanned inode r c :
  scan_chunk inode r = inr c -> c = scanned inode r.
Proof.
  unfold scan_chunk, scanned.
  destruct (r_storage r), (r_key r), (r_objectoffset r), (r_inodeoffset r),
    (r_size r); try discriminate.
  destruct (_ && _); [|discriminate].
  intros H. inversion H. reflexivity.
Qed.

Lemma scan_chunk_nonneg inode r c :
  scan_chunk inode r = inr c ->
  r_objectoffset r = Some (cObjectOffset c) /\
  r_inodeoffset r = Some (cInodeOffset c) /\
  r_size r = Some (cSize c) /\
  r_storage r = Some (cStorage c) /\ r_key r = Some (cKey c) /\
  0 <= cObjectOffset c /\ 0 <= cInodeOffset c /\ 0 <= cSize c.
Proof.
  unfold scan_chunk.
  destruct (r_storage r), (r_key r), (r_objectoffset r), (r_inodeoffset r),
    (r_size r); try discriminate.
  destruct (_ && _) eqn:E; [|discriminate].
  apply andb_true_iff in E. destruct E as [E E3].
  apply andb_true_iff in E. destruct E as [E1 E2].
  apply Z.leb_le in E1, E2, E3.
  intros H. inversion H. simpl. repeat split; assumption.
Qed.

Lemma scan_all_scanned inode l cs :
  scan_all inode l = inr cs -> cs = map (scanned inode) l.
Proof.
  revert cs. induction l as [|r l IH]; simpl; intros cs H.
  - inversion H. reflexivity.
  - destruct (scan_chunk inode r) as [e|c] eqn:E; [discriminate|].
    destruct (scan_all inode l) as [e|cs'] eqn:E'; [discriminate|].
    inversion H. subst. f_equal; [apply scan_chunk_scanned; assumption | auto].
Qed.

Lemma scan_all_each inode l cs r :
  scan_all inode l = inr cs -> In r l -> scan_chunk inode r = inr (scanned inode r).
Proof.
  revert cs. induction l as [|a l IH]; simpl; intros cs H Hin; [contradiction|].
  destruct (scan_chunk inode a) as [e|c] eqn:E; [discriminate|].
  destruct (scan_all inode l) as [e|cs'] eqn:E'; [discriminate|].
  destruct Hin as [<- | Hin].
  - rewrite E. f_equal. apply scan_chunk_scanned. assumption.
  - eapply IH; [reflexivity | assumption].
Qed.

Lemma scan_all_ok inode l :
  (forall r, In r l -> exists c, scan_chunk inode r = inr c) ->
  scan_all inode l = inr (map (scanned inode) l).
Proof.
  induction l as [|r l IH]; simpl; intros H; [reflexivity|].
  destruct (H r (or_introl eq_refl)) as [c Hc]. rewrite Hc.
  rewrite IH by (intros; apply H; right; assumption).
  f_equal. f_equal. apply scan_chunk_scanned. assumption.
Qed.

Lemma query_chunks_ok inode summed cond db cs :
  existsb (fun r => summed r && sum_out_of_range r) (chunks db) = false ->
  scan_all inode (filter cond (chunks db)) = inr cs ->
  query_chunks inode summed cond db
  = (inr (map (scanned inode) (filter cond (chunks db))), db).
Proof.
  intros Hsum H. unfold query_chunks. rewrite Hsum, H.
  now rewrite (scan_all_scanned _ _ _ H).
Qed.

Lemma query_chunks_inv inode summed cond db cs db' :
  query_chunks inode summed cond db = (inr cs, db') ->
  db' = db /\
  existsb (fun r => summed r && sum_out_of_range r) (chunks db) = false /\
  scan_all inode (filter cond (chunks db)) = inr cs.
Proof.
  unfold query_chunks.
  destruct (existsb _ _); [discriminate|].
  destruct (scan_all _ _) as [e|cs']; [discriminate|].
  intros H. inversion H. auto.
Qed.

(** *** Values that fit the columns *)

Lemma fits_bigint_true v : - 2 ^ 63 <= v < 2 ^ 63 -> fits_bigint v = true.
Proof.
  intros [H1 H2]. unfold fits_bigint.
  apply andb_true_iff. split; [apply Z.leb_le | apply Z.ltb_lt]; assumption.
Qed.

Lemma fits_bigint_inv v : fits_bigint v = true -> - 2 ^ 63 <= v < 2 ^ 63.
Proof.
  unfold fits_bigint. intros H. apply andb_true_iff in H. destruct H as [H1 H2].
  apply Z.leb_le in H1. apply Z.ltb_lt in H2. split; assumption.
Qed.

Lemma chunk_fits_true c :
  - 2 ^ 63 <= cObjectOffset c < 2 ^ 63 ->
  - 2 ^ 63 <= cInodeOffset c < 2 ^ 63 ->
  - 2 ^ 63 <= cSize c < 2 ^ 63 ->
  chunk_fits c = true.
Proof.
  intros H1 H2 H3. unfold chunk_fits.
  now rewrite !fits_bigint_true by assumption.
Qed.

Lemma insert_chunk_ok inode st k oo io sz db :
  inode_exists inode db = true ->
  - 2 ^ 63 <= oo < 2 ^ 63 -> - 2 ^ 63 <= io < 2 ^ 63 -> - 2 ^ 63 <= sz < 2 ^ 63 ->
  insert_chunk inode st k oo io sz db =
  (inr tt,
   mkDB (inodes db) (entries db)
        (chunks db ++ [new_row (next_chunk db) inode st k oo io sz])
        (xattr db) (stats db) (next_inode db) (next_chunk db + 1)).
Proof.
  intros Hex H1 H2 H3. unfold insert_chunk.
  now rewrite !fits_bigint_true, Hex by assumption.
Qed.

Lemma insert_chunk_inv inode st k oo io sz db u db' :
  insert_chunk inode st k oo io sz db = (inr u, db') ->
  db' = mkDB (inodes db) (entries db)
             (chunks db ++ [new_row (next_chunk db) inode st k oo io sz])
             (xattr db) (stats db) (next_inode db) (next_chunk db + 1) /\
  inode_exists inode db = true /\
  - 2 ^ 63 <= oo < 2 ^ 63 /\ - 2 ^ 63 <= io < 2 ^ 63 /\ - 2 ^ 63 <= sz < 2 ^ 63.
Proof.
  unfold insert_chunk.
  destruct (fits_bigint oo) eqn:E1; [|discriminate].
  destruct (fits_bigint io) eqn:E2; [|discriminate].
  destruct (fits_bigint sz) eqn:E3; [|discriminate]. simpl.
  destruct (inode_exists inode db); [|discriminate].
  intros H. inversion H.
  apply fits_bigint_inv in E1, E2, E3. auto.
Qed.

(** The loop of [AddChunk] sorts the rows into the three lists. *)
Lemma strictly_contains_not_covered chunk c :
  strictly_contains chunk c = true -> covered chunk c = false.
Proof.
  unfold strictly_contains, covered. intros H.
  apply andb_true_iff in H. destruct H as [H _]. apply Z.ltb_lt in H.
  apply andb_false_iff. left. apply Z.leb_gt. exact H.
Qed.

Lemma fold_splice_step chunk rows d u i :
  fold_left (splice_step chunk) rows (mkLists d u i) =
  mkLists (d ++ map cID (filter (covered chunk) rows))
          (u ++ map (trimmed chunk) (filter (fun c => negb (covered chunk c)) rows))
          (i ++ map (right_piece chunk) (filter (strictly_contains chunk) rows)).
Proof.
  revert d u i. induction rows as [|c rows IH]; intros d u i; simpl.
  - now rewrite !app_nil_r.
  - unfold splice_step at 2. simpl.
    destruct (covered chunk c) eqn:Ec; simpl.
    + destruct (strictly_contains chunk c) eqn:Es.
      * apply strictly_contains_not_covered in Es. congruence.
      * rewrite IH. now rewrite <- app_assoc.
    + destruct (strictly_contains chunk c) eqn:Es; rewrite IH; simpl;
        now rewrite <- ?app_assoc.
Qed.

(** *** UPDATE by id *)

Section UpdateById.

Variable g : Chunk -> chunk_row -> chunk_row.
Hypothesis g_id : forall c r, r_id (g c r) = r_id r.

Let apply1 (r : chunk_row) (c : Chunk) : chunk_row :=
  if r_id r =? cID c then g c r else r.

Lemma fold_updates_map cs t :
  fold_left (fun t c => map (fun r => if r_id r =? cID c then g c r else r) t) cs t =
  map (fun r => fold_left apply1 cs r) t.
Proof.
  revert t. induction cs as [|c cs IH]; intros t; simpl.
  - now rewrite map_id.
  - rewrite IH, map_map. reflexivity.
Qed.

Lemma fold_row_absent cs r :
  (forall c, In c cs -> cID c <> r_id r) -> fold_left apply1 cs r = r.
Proof.
  induction cs as [|c cs IH]; simpl; intros H; [reflexivity|].
  unfold apply1 at 2.
  destruct (r_id r =? cID c) eqn:E.
  - apply Z.eqb_eq in E. exfalso. apply (H c); auto.
  - apply IH. intros c' Hc'. apply H. auto.
Qed.

Lemma fold_row_present cs r c :
  NoDup (map cID cs) -> In c cs -> cID c = r_id r ->
  fold_left apply1 cs r = g c r.
Proof.
  induction cs as [|c0 cs IH]; simpl; intros Hnd Hin Hid; [contradiction|].
  inversion Hnd as [|x l Hnotin Hnd']. subst.
  unfold apply1 at 2.
  destruct Hin as [-> | Hin].
  - rewrite Hid, Z.eqb_refl.
    apply fold_row_absent. intros c' Hc' Heq. rewrite g_id in Heq.
    apply Hnotin. rewrite Hid, <- Heq. apply in_map. assumption.
  - destruct (r_id r =? cID c0) eqn:E.
    + apply Z.eqb_eq in E. exfalso. apply Hnotin.
      rewrite <- E, <- Hid. apply in_map. assumption.
    + apply IH; assumption.
Qed.

End UpdateById.

Lemma NoDup_map_injective {A B} (f : A -> B) l x y :
  NoDup (map f l) -> In x l -> In y l -> f x = f y -> x = y.
Proof.
  induction l as [|a l IH]; simpl; intros Hnd Hx Hy Hf; [contradiction|].
  inversion Hnd as [|b l' Hnotin Hnd']. subst.
  destruct Hx as [-> | Hx], Hy as [-> | Hy]; auto.
  - exfalso. apply Hnotin. rewrite Hf. apply in_map. assumption.
  - exfalso. apply Hnotin. rewrite <- Hf. apply in_map. assumption.
Qed.

Lemma NoDup_map_filter {A B} (f : A -> B) (p : A -> bool) l :
  NoDup (map f l) -> NoDup (map f (filter p l)).
Proof.
  induction l as [|a l IH]; simpl; intros Hnd; [constructor|].
  inversion Hnd as [|b l' Hnotin Hnd']. subst.
  destruct (p a); simpl; [|auto].
  constructor; [|auto].
  intros Hin. apply Hnotin. apply in_map_iff in Hin.
  destruct Hin as [x [Hx Hin]]. apply filter_In in Hin.
  rewrite <- Hx. apply in_map. tauto.
Qed.

(** The updates computed from the rows that [p] selects change just
    these rows, when the ids are unique. *)
Lemma updates_of_selection g (h : chunk_row -> Chunk) p t r :
  (forall c r, r_id (g c r) = r_id r) ->
  (forall r, cID (h r) = r_id r) ->
  NoDup (map r_id t) -> In r t ->
  fold_left (fun r c => if r_id r =? cID c then g c r else r)
            (map h (filter p t)) r =
  if p r then g (h r) r else r.
Proof.
  intros Hg Hh Hnd Hin.
  destruct (p r) eqn:Ep.
  - apply fold_row_present; auto.
    + rewrite map_map.
      rewrite (map_ext (fun x => cID (h x)) r_id) by assumption.
      apply NoDup_map_filter. assumption.
    + apply in_map. apply filter_In. auto.
  - apply fold_row_absent. intros c Hc Heq.
    apply in_map_iff in Hc. destruct Hc as [r' [<- Hr']].
    apply filter_In in Hr'. destruct Hr' as [Hr' Hp].
    rewrite Hh in Heq.
    assert (r' = r)
      by (apply (NoDup_map_injective r_id t); [assumption | assumption | assumption | lia]).
    congruence.
Qed.

Lemma updates_of_selection_fresh g (h : chunk_row -> Chunk) p t r :
  (forall r, cID (h r) = r_id r) ->
  (forall r', In r' t -> r_id r' <> r_id r) ->
  fold_left (fun r c => if r_id r =? cID c then g c r else r)
            (map h (filter p t)) r = r.
Proof.
  intros Hh Hfresh. apply fold_row_absent. intros c Hc Heq.
  apply in_map_iff in Hc. destruct Hc as [r' [<- Hr']].
  apply filter_In in Hr'. rewrite Hh in Heq. apply (Hfresh r'); tauto.
Qed.

Lemma id_in_selection p t r :
  NoDup (map r_id t) -> In r t ->
  id_in (map r_id (filter p t)) r = p r.
Proof.
  intros Hnd Hin. unfold id_in.
  destruct (p r) eqn:Ep.
  - apply existsb_exists. exists (r_id r). split; [|apply Z.eqb_refl].
    apply in_map. apply filter_In. auto.
  - destruct (existsb _ _) eqn:E; [|reflexivity].
    apply existsb_exists in E. destruct E as [id [Hid Heq]].
    apply Z.eqb_eq in Heq. apply in_map_iff in Hid.
    destruct Hid as [r' [Hr' Hin']]. apply filter_In in Hin'.
    assert (r' = r)
      by (apply (NoDup_map_injective r_id t); [assumption | tauto | assumption | lia]).
    destruct Hin'. congruence.
Qed.

Lemma id_in_selection_fresh p t r :
  (forall r', In r' t -> r_id r' <> r_id r) ->
  id_in (map r_id (filter p t)) r = false.
Proof.
  intros Hfresh. unfold id_in.
  destruct (existsb _ _) eqn:E; [|reflexivity].
  apply existsb_exists in E. destruct E as [id [Hid Heq]].
  apply Z.eqb_eq in Heq. apply in_map_iff in Hid.
  destruct Hid as [r' [Hr' Hin']]. apply filter_In in Hin'.
  exfalso. apply (Hfresh r'); [tauto | lia].
Qed.

Lemma forEach_update_chunk cs db :
  forallb chunk_fits cs = true ->
  forEach cs (fun c => treat (update_chunk c)) db =
  (inr tt,
   set_chunks (fold_left (fun t c => map (fun r => if r_id r =? cID c
                                                   then write_back c r else r) t)
                         cs (chunks db)) db).
Proof.
  revert db. induction cs as [|c cs IH]; intros db Hfit; simpl.
  - destruct db; reflexivity.
  - simpl in Hfit. apply andb_true_iff in Hfit. destruct Hfit as [Hc Hfit].
    erewrite bind_ok.
    2:{ apply treat_ok. unfold update_chunk. rewrite Hc, andb_false_r. reflexivity. }
    rewrite IH by assumption. reflexivity.
Qed.

Lemma forEach_update_chunk_inv cs db u db' :
  forEach cs (fun c => treat (update_chunk c)) db = (inr u, db') ->
  db' = set_chunks (fold_left (fun t c => map (fun r => if r_id r =? cID c
                                                        then write_back c r else r) t)
                              cs (chunks db)) db.
Proof.
  revert db. induction cs as [|c cs IH]; intros db H; simpl in *.
  - apply ret_inv in H. destruct H as [_ ->]. destruct db; reflexivity.
  - apply bind_inv in H. destruct H as (v & d & Hc & H).
    apply treat_inv in Hc. unfold update_chunk in Hc.
    destruct (_ && _); [discriminate|]. inversion Hc. subst v d.
    apply IH in H. rewrite H. reflexivity.
Qed.

Lemma forEach_update_chunk_size (f : Chunk -> Z) cs db :
  forallb (fun c => fits_bigint (f c)) cs = true ->
  forEach cs (fun c => treat (update_chunk_size (f c) (cID c))) db =
  (inr tt,
   set_chunks (fold_left (fun t c => map (fun r => if r_id r =? cID c
                                                   then resized (f c) r else r) t)
                         cs (chunks db)) db).
Proof.
  revert db. induction cs as [|c cs IH]; intros db Hfit; simpl.
  - destruct db; reflexivity.
  - simpl in Hfit. apply andb_true_iff in Hfit. destruct Hfit as [Hc Hfit].
    erewrite bind_ok.
    2:{ apply treat_ok. unfold update_chunk_size. rewrite Hc, andb_false_r.
        reflexivity. }
    rewrite IH by assumption. reflexivity.
Qed.

Lemma forEach_update_chunk_size_inv (f : Chunk -> Z) cs db u db' :
  forEach cs (fun c => treat (update_chunk_size (f c) (cID c))) db = (inr u, db') ->
  db' = set_chunks (fold_left (fun t c => map (fun r => if r_id r =? cID c
                                                        then resized (f c) r else r) t)
                              cs (chunks db)) db.
Proof.
  revert db. induction cs as [|c cs IH]; intros db H; simpl in *.
  - apply ret_inv in H. destruct H as [_ ->]. destruct db; reflexivity.
  - apply bind_inv in H. destruct H as (v & d & Hc & H).
    apply treat_inv in Hc. unfold update_chunk_size in Hc.
    destruct (_ && _); [discriminate|]. inversion Hc. subst v d.
    apply IH in H. rewrite H. reflexivity.
Qed.

Lemma forEach_insert_chunk inode cs db :
  inode_exists inode db = true ->
  forallb chunk_fits cs = true ->
  forEach cs (fun c => treat (insert_chunk inode (cStorage c) (cKey c)
                                (cObjectOffset c) (cInodeOffset c) (cSize c))) db =
  (inr tt,
   mkDB (inodes db) (entries db)
        (chunks db ++ new_rows (next_chunk db) inode cs)
        (xattr db) (stats db) (next_inode db)
        (next_chunk db + Z.of_nat (List.length cs))).
Proof.
  revert db. induction cs as [|c cs IH]; intros db Hex Hfit; simpl forEach.
  - unfold ret. simpl. rewrite app_nil_r, Z.add_0_r. destruct db; reflexivity.
  - simpl in Hfit. apply andb_true_iff in Hfit. destruct Hfit as [Hc Hfit].
    unfold bind, treat at 1, insert_chunk at 1.
    unfold chunk_fits in Hc. rewrite Hc, Hex.
    rewrite IH by assumption.
    simpl. rewrite <- app_assoc. simpl.
    f_equal. f_equal. lia.
Qed.

Lemma forEach_insert_chunk_inv inode cs db u db' :
  forEach cs (fun c => treat (insert_chunk inode (cStorage c) (cKey c)
                                (cObjectOffset c) (cInodeOffset c) (cSize c))) db
  = (inr u, db') ->
  db' = mkDB (inodes db) (entries db)
             (chunks db ++ new_rows (next_chunk db) inode cs)
             (xattr db) (stats db) (next_inode db)
             (next_chunk db + Z.of_nat (List.length cs)) /\
  forallb chunk_fits cs = true.
Proof.
  revert db. induction cs as [|c cs IH]; intros db H; simpl forEach in H.
  - apply ret_inv in H. destruct H as [_ ->]. simpl.
    rewrite app_nil_r, Z.add_0_r. destruct db; auto.
  - apply bind_inv in H. destruct H as (v & d & Hc & H).
    apply treat_inv, insert_chunk_inv in Hc.
    destruct Hc as (-> & Hex & H1 & H2 & H3).
    apply IH in H. destruct H as [-> Hfit]. simpl. split.
    + rewrite <- app_assoc. simpl. f_equal. lia.
    + rewrite Hfit, andb_true_r. apply chunk_fits_true; assumption.
Qed.

(** ** AddChunk, statement by statement *)

Lemma filter_map_swap {A B} (f : A -> B) (p : B -> bool) l :
  filter p (map f l) = map f (filter (fun a => p (f a)) l).
Proof.
  induction l as [|a l IH]; simpl; [reflexivity|].
  destruct (p (f a)); simpl; now rewrite IH.
Qed.

Lemma filter_filter_and {A} (p q : A -> bool) l :
  filter q (filter p l) = filter (fun a => p a && q a) l.
Proof.
  induction l as [|a l IH]; simpl; [reflexivity|].
  destruct (p a); simpl; [destruct (q a)|]; now rewrite IH.
Qed.

Lemma new_rows_ids n inode cs r :
  In r (new_rows n inode cs) -> n <= r_id r.
Proof.
  revert n. induction cs as [|c cs IH]; simpl; intros n H; [contradiction|].
  destruct H as [<- | H]; simpl; [lia|].
  apply IH in H. lia.
Qed.

Lemma new_rows_live n inode cs r :
  In r (new_rows n inode cs) -> r_inode r = Some inode.
Proof.
  revert n. induction cs as [|c cs IH]; simpl; intros n H; [contradiction|].
  destruct H as [<- | H]; [reflexivity | eauto].
Qed.

Lemma gap_rows_ids i chunk db r :
  In r (gap_rows i chunk db) -> r_id r = next_chunk db.
Proof.
  unfold gap_rows. destruct (iSize i <? cInodeOffset chunk); simpl.
  - intros [<- | []]. reflexivity.
  - intros [].
Qed.

Lemma gap_step i chunk db :
  inode_exists (iID i) db = true ->
  (iSize i < cInodeOffset chunk ->
   - 2 ^ 63 <= iSize i < 2 ^ 63 /\
   - 2 ^ 63 <= wrap64 (cInodeOffset chunk - iSize i) < 2 ^ 63) ->
  (if iSize i <? cInodeOffset chunk
   then treat (insert_chunk (iID i) "zero" "" 0 (iSize i)
                            (wrap64 (cInodeOffset chunk - iSize i)))
   else ret tt) db =
  (inr tt,
   mkDB (inodes db) (entries db) (chunks db ++ gap_rows i chunk db)
        (xattr db) (stats db) (next_inode db)
        (next_chunk db + Z.of_nat (List.length (gap_rows i chunk db)))).
Proof.
  intros Hex Hfit. unfold gap_rows.
  destruct (iSize i <? cInodeOffset chunk) eqn:E.
  - apply Z.ltb_lt in E. destruct (Hfit E) as [H1 H2].
    apply treat_ok. apply insert_chunk_ok; (assumption || lia).
  - unfold ret. simpl. rewrite app_nil_r, Z.add_0_r. destruct db; reflexivity.
Qed.

Lemma gap_step_inv i chunk db u db' :
  (if iSize i <? cInodeOffset chunk
   then treat (insert_chunk (iID i) "zero" "" 0 (iSize i)
                            (wrap64 (cInodeOffset chunk - iSize i)))
   else ret tt) db = (inr u, db') ->
  db' = mkDB (inodes db) (entries db) (chunks db ++ gap_rows i chunk db)
             (xattr db) (stats db) (next_inode db)
             (next_chunk db + Z.of_nat (List.length (gap_rows i chunk db))).
Proof.
  unfold gap_rows.
  destruct (iSize i <? cInodeOffset chunk) eqn:E; intros H.
  - apply treat_inv, insert_chunk_inv in H. destruct H as [-> _]. reflexivity.
  - apply ret_inv in H. destruct H as [_ ->]. simpl.
    rewrite app_nil_r, Z.add_0_r. destruct db; reflexivity.
Qed.

(** The zero-fill row ends where the write starts: the query of
    [AddChunk] does not select it. *)
Lemma gap_not_selected i chunk db :
  0 <= iSize i -> cInodeOffset chunk < 2 ^ 64 ->
  filter (selected (iID i) chunk) (gap_rows i chunk db) = [].
Proof.
  intros H0 H1. unfold gap_rows.
  destruct (iSize i <? cInodeOffset chunk) eqn:E; [|reflexivity].
  apply Z.ltb_lt in E. simpl.
  unfold selected, overlapping. simpl.
  rewrite (wrap64_small (cInodeOffset chunk - iSize i)) by lia.
  replace (cInodeOffset chunk <? iSize i + (cInodeOffset chunk - iSize i)) with false;
    [now rewrite andb_false_r|].
  symmetry. apply Z.ltb_ge. lia.
Qed.

Lemma Max_ge a b : a <= Max a b.
Proof. unfold Max. destruct (a <? b) eqn:E; [apply Z.ltb_lt in E|]; lia. Qed.

Lemma Max_cases a b : (a < b /\ Max a b = b) \/ (b <= a /\ Max a b = a).
Proof.
  unfold Max. destruct (a <? b) eqn:E;
    [apply Z.ltb_lt in E | apply Z.ltb_ge in E]; auto.
Qed.

Lemma orphan_none now db :
  orphan_chunks now (id_in []) db = (inr tt, db).
Proof.
  unfold orphan_chunks, modify, id_in. simpl.
  rewrite map_id. destruct db; reflexivity.
Qed.

(** The last statement of [AddChunk] and of [Touch]: without an id to
    orphan it is not run, which is what it would do. *)
Lemma orphan_step now del db :
  (if negb (Nat.eqb (List.length del) 0)
   then treat (orphan_chunks now (id_in del))
   else ret tt) db =
  (inr tt,
   set_chunks (map (fun r => if id_in del r then orphaned now r else r) (chunks db)) db).
Proof.
  destruct del as [|id del]; simpl.
  - unfold ret, id_in. simpl. rewrite map_id. destruct db; reflexivity.
  - reflexivity.
Qed.

(** The three lists of [AddChunk], from the rows it selected. *)
Lemma splice_lists_of inode chunk t :
  fold_left (splice_step chunk) (map (scanned inode) (filter (selected inode chunk) t))
            (mkLists [] [] [chunk]) =
  mkLists
    (map r_id (filter (fun r => selected inode chunk r
                                && covered chunk (scanned inode r)) t))
    (map (fun r => trimmed chunk (scanned inode r))
         (filter (fun r => selected inode chunk r
                           && negb (covered chunk (scanned inode r))) t))
    (chunk :: map (right_piece chunk)
                  (filter (strictly_contains chunk)
                          (map (scanned inode) (filter (selected inode chunk) t)))).
Proof.
  rewrite fold_splice_step. simpl. f_equal.
  - rewrite filter_map_swap, map_map, filter_filter_and. reflexivity.
  - rewrite filter_map_swap, map_map, filter_filter_and. reflexivity.
Qed.

(** The table of chunks after the UPDATEs, the INSERTs and the orphaning
    of [AddChunk]: [gap] is there before the UPDATEs, [news] after them. *)
Lemma spliced_table now inode chunk t gap news n :
  NoDup (map r_id t) ->
  (forall r, In r t -> r_id r < n) ->
  (forall r, In r gap -> n <= r_id r) ->
  (forall r, In r news -> n <= r_id r) ->
  let del := map r_id (filter (fun r => selected inode chunk r
                                        && covered chunk (scanned inode r)) t) in
  let upd := map (fun r => trimmed chunk (scanned inode r))
                 (filter (fun r => selected inode chunk r
                                   && negb (covered chunk (scanned inode r))) t) in
  map (fun r => if id_in del r then orphaned now r else r)
      (map (fun r => fold_left (fun r c => if r_id r =? cID c
                                           then write_back c r else r) upd r)
           (t ++ gap) ++ news) =
  map (spliced now inode chunk) t ++ gap ++ news.
Proof.
  intros Hnd Hlt Hgap Hnews del upd.
  assert (Hfresh : forall r, n <= r_id r -> forall r', In r' t -> r_id r' <> r_id r).
  { intros r Hr r' Hr'. specialize (Hlt r' Hr'). lia. }
  rewrite map_app, map_map, map_app. rewrite <- app_assoc. f_equal; [|f_equal].
  - apply map_ext_in. intros r Hin. unfold upd, del.
    rewrite (updates_of_selection write_back) by (auto; reflexivity).
    unfold spliced.
    destruct (selected inode chunk r) eqn:Es; simpl.
    + destruct (covered chunk (scanned inode r)) eqn:Ec; simpl.
      * rewrite id_in_selection by assumption. now rewrite Es, Ec.
      * change (id_in ?d (write_back ?c r)) with (id_in d r).
        rewrite id_in_selection by assumption. now rewrite Es, Ec.
    + rewrite id_in_selection by assumption. now rewrite Es.
  - rewrite <- (map_id gap) at 2. apply map_ext_in. intros r Hin.
    unfold upd, del.
    rewrite updates_of_selection_fresh by (auto; reflexivity).
    now rewrite id_in_selection_fresh by auto.
  - rewrite <- (map_id news) at 2. apply map_ext_in. intros r Hin.
    unfold del. now rewrite id_in_selection_fresh by auto.
Qed.

(** *** What fits the columns *)

(** A live row of an inode whose rows can be scanned and end below 2^63. *)
Lemma live_row_values inode db r :
  scannable inode db -> ends_fit inode db ->
  In r (chunks db) -> live_in inode r = true ->
  exists oo a s,
    r_objectoffset r = Some oo /\ r_inodeoffset r = Some a /\ r_size r = Some s /\
    cObjectOffset (scanned inode r) = oo /\ cInodeOffset (scanned inode r) = a /\
    cSize (scanned inode r) = s /\
    0 <= oo /\ 0 <= a /\ 0 <= s /\ a + s < 2 ^ 63.
Proof.
  intros Hscan Hfit Hin Hl.
  assert (Hr : In r (live_chunks inode db)) by (apply filter_In; auto).
  destruct (Hscan r Hr) as (st & k & oo & a & s & H1 & H2 & H3 & H4 & H5 & P1 & P2 & P3).
  pose proof (Hfit r a s Hr H4 H5) as F1.
  exists oo, a, s. unfold scanned. simpl. rewrite H3, H4, H5. simpl.
  repeat split; assumption.
Qed.

Lemma starts_below_live inode hi r :
  starts_below inode hi r = true -> live_in inode r = true.
Proof.
  unfold starts_below, live_in.
  destruct (r_inode r); [|discriminate].
  destruct (r_inodeoffset r); [|discriminate].
  intros H. apply andb_true_iff in H. tauto.
Qed.

(** No sum of the query leaves the range of BIGINT. *)
Lemma sums_in_range (summed : chunk_row -> bool) inode db :
  scannable inode db -> ends_fit inode db ->
  (forall r, summed r = true -> live_in inode r = true) ->
  existsb (fun r => summed r && sum_out_of_range r) (chunks db) = false.
Proof.
  intros Hscan Hfit Hlive.
  destruct (existsb _ _) eqn:E; [|reflexivity]. exfalso.
  apply existsb_exists in E. destruct E as (r & Hin & E).
  apply andb_true_iff in E. destruct E as [Es Eo].
  destruct (live_row_values inode db r Hscan Hfit Hin (Hlive r Es))
    as (oo & a & s & _ & Ha & Hs & _ & _ & _ & _ & P2 & P3 & F1).
  unfold sum_out_of_range in Eo. rewrite Ha, Hs in Eo.
  rewrite fits_bigint_true in Eo by lia. discriminate.
Qed.

Section Fits.

Variables (w c : Chunk).

Hypothesis Hoff : 0 <= cInodeOffset w < 2 ^ 63.
Hypothesis Hlen : 0 <= cSize w < 2 ^ 63.
Hypothesis Hoo : 0 <= cObjectOffset c.
Hypothesis Ha : 0 <= cInodeOffset c.
Hypothesis Hs : 0 <= cSize c.
Hypothesis Hend : cInodeOffset c + cSize c < 2 ^ 63.
Hypothesis Hobj : cObjectOffset c + cSize c < 2 ^ 63.
Hypothesis Hlo : cInodeOffset c < cInodeOffset w + cSize w.
Hypothesis Hhi : cInodeOffset w < cInodeOffset c + cSize c.

(** What is written back for a row that the write cuts fits its columns. *)
Lemma trimmed_fits : covered w c = false -> chunk_fits (trimmed w c) = true.
Proof.
  intros Ec. unfold covered in Ec.
  rewrite (wrap64_small (cInodeOffset c + cSize c)) in Ec by lia.
  rewrite (wrap64_small (cInodeOffset w + cSize w)) in Ec by lia.
  unfold trimmed. cbv zeta.
  rewrite !(wrap64_small (cInodeOffset c + cSize c)) by lia.
  rewrite !(wrap64_small (cInodeOffset w + cSize w)) by lia.
  destruct (cInodeOffset c <? cInodeOffset w) eqn:El.
  - apply Z.ltb_lt in El. apply chunk_fits_true; cbn [cObjectOffset cInodeOffset cSize].
    + rewrite Z.sub_diag. rewrite (wrap64_small 0) by lia.
      rewrite wrap64_small by lia. lia.
    + lia.
    + rewrite wrap64_small by lia. lia.
  - apply Z.ltb_ge in El.
    apply andb_false_iff in Ec. destruct Ec as [Ec | Ec];
      [apply Z.leb_gt in Ec; lia|]. apply Z.leb_gt in Ec.
    apply chunk_fits_true; cbn [cObjectOffset cInodeOffset cSize].
    + rewrite (wrap64_small (cInodeOffset w + cSize w - cInodeOffset c)) by lia.
      rewrite wrap64_small by lia. lia.
    + lia.
    + rewrite wrap64_small by lia. lia.
Qed.

(** The right half of a row that strictly contains the write fits. *)
Lemma right_piece_fits :
  strictly_contains w c = true -> chunk_fits (right_piece w c) = true.
Proof.
  intros Ec. unfold strictly_contains in Ec.
  rewrite (wrap64_small (cInodeOffset c + cSize c)) in Ec by lia.
  rewrite (wrap64_small (cInodeOffset w + cSize w)) in Ec by lia.
  apply andb_true_iff in Ec. destruct Ec as [E1 E2]. apply Z.ltb_lt in E1, E2.
  unfold right_piece. cbv zeta.
  rewrite !(wrap64_small (cInodeOffset c + cSize c)) by lia.
  rewrite !(wrap64_small (cInodeOffset w + cSize w)) by lia.
  apply chunk_fits_true; cbn [cObjectOffset cInodeOffset cSize].
  - rewrite (wrap64_small (cInodeOffset w + cSize w - cInodeOffset c)) by lia.
    rewrite wrap64_small by lia. lia.
  - lia.
  - rewrite wrap64_small by lia. lia.
Qed.

End Fits.

(** [AddChunk] commits and leaves [after_AddChunk], when the inode exists,
    its rows can be scanned and end below 2^63 in the file and in their
    objects, the chunk fits the columns and the total size fits the
    stats. *)
Lemma AddChunk_commit now inode flags chunk db i :
  find (fun r => iID r =? inode) (inodes db) = Some i ->
  chunks_pk db ->
  0 <= iSize i < 2 ^ 64 ->
  scannable inode db -> ends_fit inode db -> object_ends_fit inode db ->
  0 <= cObjectOffset chunk < 2 ^ 63 ->
  0 <= cInodeOffset (written flags i chunk) < 2 ^ 63 ->
  0 <= cSize chunk < 2 ^ 63 ->
  (new_size i (written flags i chunk) = iSize i \/
   0 <= sSize (stats db) + (new_size i (written flags i chunk) - iSize i) < 2 ^ 64) ->
  AddChunk now inode flags chunk db =
  (inr tt, after_AddChunk now i (written flags i chunk) db).
Proof.
  intros Hfind [Hnd Hlt] Hsz Hscannable Hfit Hofit Hobj Hoff Hlen Hstats.
  pose proof (find_inode_exists _ _ _ Hfind) as Hex.
  destruct (find_inode_id _ _ _ Hfind) as [Hid _]. subst inode.
  assert (Hwo : cObjectOffset (written flags i chunk) = cObjectOffset chunk /\
                cSize (written flags i chunk) = cSize chunk).
  { unfold written. destruct (negb _); split; reflexivity. }
  destruct Hwo as [Hwo Hwl]. rewrite <- Hwo in Hobj. rewrite <- Hwl in Hlen.
  set (w := written flags i chunk) in *.
  assert (Hscan : exists rows,
            scan_all (iID i) (filter (selected (iID i) w) (chunks db)) = inr rows).
  { eexists. apply scan_all_ok. intros r Hr. apply filter_In in Hr.
    destruct Hr as [Hr Hsel].
    destruct (Hscannable r) as (st & k & oo & a & s & H1 & H2 & H3 & H4 & H5 & P1 & P2 & P3).
    { apply filter_In. split; [assumption|]. unfold selected, overlapping in Hsel.
      unfold live_in. destruct (r_inode r); [|discriminate].
      destruct (r_inodeoffset r); [|discriminate].
      destruct (r_size r); [|discriminate].
      apply andb_true_iff in Hsel. destruct Hsel as [Hsel _].
      apply andb_true_iff in Hsel. tauto. }
    eexists. unfold scan_chunk. rewrite H1, H2, H3, H4, H5.
    apply Z.leb_le in P1, P2, P3. rewrite P1, P2, P3. reflexivity. }
  destruct Hscan as [rows Hscan].
  unfold AddChunk. apply transaction_ok.
  erewrite bind_ok by (apply treat_ok; apply getInode_Some; exact Hfind).
  cbv zeta.
  change (if negb (Z.land flags O_APPEND =? 0)
          then set_InodeOffset (iSize i) chunk
          else chunk) with w.
  change (overlapping (iID i) (wrap64 (cInodeOffset w + cSize w)) (cInodeOffset w))
    with (selected (iID i) w).
  erewrite bind_ok.
  2:{ apply gap_step; [exact Hex|]. intros Hgap.
      rewrite wrap64_small by lia. lia. }
  (* the query *)
  erewrite bind_ok.
  2:{ apply treat_ok. eapply query_chunks_ok.
      - simpl chunks. rewrite existsb_app. apply orb_false_iff. split.
        + apply (sums_in_range _ (iID i)); try assumption.
          intros r. apply starts_below_live.
        + unfold gap_rows. destruct (iSize i <? cInodeOffset w) eqn:E; [|reflexivity].
          apply Z.ltb_lt in E. simpl. rewrite orb_false_r.
          apply andb_false_iff. right. unfold sum_out_of_range. simpl.
          rewrite wrap64_small by lia. rewrite fits_bigint_true by lia. reflexivity.
      - simpl chunks.
        rewrite filter_app, gap_not_selected, app_nil_r by lia. exact Hscan. }
  simpl chunks. rewrite filter_app, gap_not_selected, app_nil_r by lia.
  rewrite splice_lists_of.
  cbv zeta. simpl chunksToBeUpdated. simpl chunksToBeInserted.
  simpl chunksToBeDeleted.
  assert (Hrow : forall r, In r (chunks db) -> selected (iID i) w r = true ->
            0 <= cObjectOffset (scanned (iID i) r) /\
            0 <= cInodeOffset (scanned (iID i) r) /\
            0 <= cSize (scanned (iID i) r) /\
            cInodeOffset (scanned (iID i) r) + cSize (scanned (iID i) r) < 2 ^ 63 /\
            cObjectOffset (scanned (iID i) r) + cSize (scanned (iID i) r) < 2 ^ 63 /\
            cInodeOffset (scanned (iID i) r) < cInodeOffset w + cSize w /\
            cInodeOffset w < cInodeOffset (scanned (iID i) r) + cSize (scanned (iID i) r)).
  { intros r Hr Hsel.
    assert (Hl : live_in (iID i) r = true).
    { unfold selected, overlapping in Hsel. unfold live_in.
      destruct (r_inode r); [|discriminate].
      destruct (r_inodeoffset r); [|discriminate].
      destruct (r_size r); [|discriminate].
      apply andb_true_iff in Hsel. destruct Hsel as [Hsel _].
      apply andb_true_iff in Hsel. tauto. }
    destruct (live_row_values (iID i) db r Hscannable Hfit Hr Hl)
      as (oo & a & s & Eo & Ea & Es & -> & -> & -> & P1 & P2 & P3 & F1).
    assert (F2 : oo + s < 2 ^ 63).
    { apply (Hofit r oo s); try assumption. apply filter_In. auto. }
    unfold selected, overlapping in Hsel. rewrite Ea, Es in Hsel.
    destruct (r_inode r); [|discriminate].
    apply andb_true_iff in Hsel. destruct Hsel as [Hsel H3].
    apply andb_true_iff in Hsel. destruct Hsel as [_ H2].
    apply Z.ltb_lt in H2, H3. rewrite wrap64_small in H2 by lia.
    repeat split; assumption. }
  (* the UPDATEs *)
  erewrite bind_ok.
  2:{ apply forEach_update_chunk. apply forallb_forall. intros c Hc.
      apply in_map_iff in Hc. destruct Hc as (r & <- & Hr).
      apply filter_In in Hr. destruct Hr as [Hr Hc].
      apply andb_true_iff in Hc. destruct Hc as [Hsel Hc].
      apply negb_true_iff in Hc.
      destruct (Hrow r Hr Hsel) as (Q1 & Q2 & Q3 & Q4 & Q5 & Q6 & Q7).
      apply trimmed_fits; assumption. }
  (* the INSERTs *)
  erewrite bind_ok.
  2:{ apply forEach_insert_chunk; [exact Hex|].
      apply forallb_forall. intros c [<- | Hc].
      - apply chunk_fits_true; lia.
      - apply in_map_iff in Hc. destruct Hc as (c0 & <- & Hc).
        apply filter_In in Hc. destruct Hc as [Hc Hsc].
        apply in_map_iff in Hc. destruct Hc as (r & <- & Hr).
        apply filter_In in Hr. destruct Hr as [Hr Hsel].
        destruct (Hrow r Hr Hsel) as (Q1 & Q2 & Q3 & Q4 & Q5 & Q6 & Q7).
        apply right_piece_fits; assumption. }
  (* the stats *)
  fold (new_size i w).
  pose proof (Max_ge (iSize i) (wrap64 (cInodeOffset w + cSize w))) as Hge.
  pose proof (wrap64_range (cInodeOffset w + cSize w)) as Hwr.
  fold (new_size i w) in Hge.
  assert (Hns : new_size i w < 2 ^ 64).
  { unfold new_size. destruct (Max_cases (iSize i) (wrap64 (cInodeOffset w + cSize w)))
      as [[_ ->] | [_ ->]]; lia. }
  erewrite bind_ok with
    (db' := mkDB (inodes db) (entries db) _ (xattr db)
                 (if new_size i w =? iSize i
                  then stats db
                  else mkStats (sInodes (stats db))
                               (sSize (stats db) + (new_size i w - iSize i)))
                 (next_inode db) _).
  2:{ destruct (new_size i w =? iSize i) eqn:E; simpl.
      - unfold ret. simpl. reflexivity.
      - apply Z.eqb_neq in E. destruct Hstats as [Hs | Hs]; [contradiction|].
        apply treat_ok. unfold stats_add_size. simpl.
        rewrite wrap64_small by lia.
        rewrite in_range_true by exact Hs. reflexivity. }
  (* the inode *)
  erewrite bind_ok by (apply treat_ok; reflexivity).
  rewrite orphan_step.
  unfold after_AddChunk, set_chunks, right_pieces. simpl.
  f_equal. f_equal.
  rewrite fold_updates_map.
  apply spliced_table with (n := next_chunk db); try assumption.
  - intros r Hr. apply gap_rows_ids in Hr. lia.
  - intros r Hr.
    apply (new_rows_ids _ (iID i) (w :: right_pieces (iID i) w db)) in Hr. lia.
Qed.

(** ** AddChunk: the sparse gap, the append mode and the split *)

Lemma selected_live inode chunk r :
  selected inode chunk r = true -> live_in inode r = true.
Proof.
  unfold selected, overlapping, live_in.
  destruct (r_inode r), (r_inodeoffset r), (r_size r); try discriminate.
  intros H. apply andb_true_iff in H. destruct H as [H _].
  apply andb_true_iff in H. tauto.
Qed.

Lemma extends_past_live inode size r :
  extends_past inode size r = true -> live_in inode r = true.
Proof.
  unfold extends_past, live_in.
  destruct (r_inode r), (r_inodeoffset r), (r_size r); try discriminate.
  intros H. apply andb_true_iff in H. tauto.
Qed.

Lemma scannable_row inode db r :
  scannable inode db -> In r (chunks db) -> live_in inode r = true ->
  scan_chunk inode r = inr (scanned inode r).
Proof.
  intros Hs Hin Hl.
  destruct (Hs r) as (st & k & oo & io & sz & H1 & H2 & H3 & H4 & H5 & P1 & P2 & P3).
  { apply filter_In. auto. }
  unfold scan_chunk, scanned. rewrite H1, H2, H3, H4, H5. simpl.
  apply Z.leb_le in P1, P2, P3. now rewrite P1, P2, P3.
Qed.

Lemma scannable_scan inode db cond :
  scannable inode db ->
  (forall r, cond r = true -> live_in inode r = true) ->
  scan_all inode (filter cond (chunks db)) =
  inr (map (scanned inode) (filter cond (chunks db))).
Proof.
  intros Hs Hc. apply scan_all_ok. intros r Hr.
  apply filter_In in Hr. destruct Hr as [Hin Hcond].
  eexists. apply (scannable_row _ db); auto.
Qed.

Lemma find_updated_inode id (f : Inode -> Inode) l i :
  (forall r, iID (f r) = iID r) ->
  find (fun r => iID r =? id) l = Some i ->
  find (fun r => iID r =? id) (map (fun r => if iID r =? id then f r else r) l) =
  Some (f i).
Proof.
  intros Hf. induction l as [|a l IH]; simpl; [discriminate|].
  destruct (iID a =? id) eqn:E.
  - intros H. inversion H. subst. simpl. rewrite Hf, E. reflexivity.
  - simpl. rewrite E. exact IH.
Qed.

Lemma Get_after_AddChunk now inode i chunk db :
  find (fun r => iID r =? inode) (inodes db) = Some i ->
  Get None inode (after_AddChunk now i chunk db) =
  inr (set_size_times (new_size i chunk) now i).
Proof.
  intros Hfind. destruct (find_inode_id _ _ _ Hfind) as [Hid _].
  unfold Get, query_row, after_AddChunk. simpl inodes. rewrite Hid.
  rewrite (find_updated_inode inode (set_size_times (new_size i chunk) now) _ i);
    auto.
Qed.

Lemma new_rows_In n inode cs c :
  In c cs ->
  exists id, n <= id /\
    In (new_row id inode (cStorage c) (cKey c) (cObjectOffset c)
                (cInodeOffset c) (cSize c)) (new_rows n inode cs).
Proof.
  revert n. induction cs as [|c0 cs IH]; simpl; intros n H; [contradiction|].
  destruct H as [-> | H].
  - exists n. split; [lia | auto].
  - destruct (IH (n + 1) H) as [id [Hid Hin]]. exists id. split; [lia | auto].
Qed.

Lemma new_size_no_wrap i chunk :
  0 <= cInodeOffset chunk + cSize chunk < 2 ^ 64 ->
  new_size i chunk = Z.max (iSize i) (cInodeOffset chunk + cSize chunk).
Proof.
  intros H. unfold new_size. rewrite wrap64_small by exact H.
  destruct (Max_cases (iSize i) (cInodeOffset chunk + cSize chunk))
    as [[H1 ->] | [H1 ->]]; lia.
Qed.




Lemma written_append flags i chunk :
  Z.land flags O_APPEND <> 0 ->
  written flags i chunk = set_InodeOffset (iSize i) chunk.
Proof.
  intros H. unfold written. apply Z.eqb_neq in H. now rewrite H.
Qed.

(** With the append bit the write starts at the size of the inode: a live
    chunk that ends within the size is not selected. *)
Lemma append_not_selected inode flags i chunk r a b :
  Z.land flags O_APPEND <> 0 ->
  interval r = Some (a, b) -> b <= iSize i ->
  selected inode (written flags i chunk) r = false.
Proof.
  intros Hf Hi Hb. rewrite written_append by assumption.
  unfold selected, overlapping, interval in *. simpl.
  destruct (r_inode r); [|reflexivity].
  destruct (r_inodeoffset r) as [x|]; [|reflexivity].
  destruct (r_size r) as [s|]; [|reflexivity].
  injection Hi as <- <-.
  replace (iSize i <? x + s) with false; [apply andb_false_r|].
  symmetry. apply Z.ltb_ge. lia.
Qed.

Lemma selected_interval inode chunk r :
  selected inode chunk r = true -> exists a b, interval r = Some (a, b).
Proof.
  unfold selected, overlapping, interval.
  destruct (r_inode r), (r_inodeoffset r), (r_size r); try discriminate.
  eauto.
Qed.

Lemma filter_none {A} (p : A -> bool) l :
  (forall a, In a l -> p a = false) -> filter p l = [].
Proof.
  induction l as [|a l IH]; simpl; intros H; [reflexivity|].
  rewrite (H a) by auto. apply IH. auto.
Qed.




Lemma scanned_row inode r st k oo a s :
  r_storage r = Some st -> r_key r = Some k -> r_objectoffset r = Some oo ->
  r_inodeoffset r = Some a -> r_size r = Some s ->
  scanned inode r = mkChunk (r_id r) inode st k oo a s.
Proof. intros H1 H2 H3 H4 H5. unfold scanned. now rewrite H1, H2, H3, H4, H5. Qed.

(** The left half of a chunk [a, a+s) that strictly contains the write
    [off, off+len). *)
Lemma trimmed_left w id inode st k oo a s :
  0 <= oo < 2 ^ 64 -> 0 <= a < cInodeOffset w -> cInodeOffset w < 2 ^ 64 ->
  trimmed w (mkChunk id inode st k oo a s) =
  mkChunk id inode st k oo a (cInodeOffset w - a).
Proof.
  intros Hoo Ha Hw. unfold trimmed. simpl.
  replace (a <? cInodeOffset w) with true by (symmetry; apply Z.ltb_lt; lia).
  rewrite Z.sub_diag. rewrite (wrap64_small 0) by lia.
  rewrite Z.add_0_r, (wrap64_small oo), wrap64_small by lia. reflexivity.
Qed.

(** The right half. *)
Lemma right_piece_right w id inode st k oo a s :
  0 <= oo -> 0 <= a < cInodeOffset w -> 0 <= cSize w ->
  cInodeOffset w + cSize w < a + s -> a + s < 2 ^ 64 -> oo + s < 2 ^ 64 ->
  right_piece w (mkChunk id inode st k oo a s) =
  mkChunk id inode st k (oo + (cInodeOffset w + cSize w - a))
          (cInodeOffset w + cSize w) (a + s - (cInodeOffset w + cSize w)).
Proof.
  intros Hoo Ha Hl Hin Hb Hs. unfold right_piece. simpl.
  rewrite (wrap64_small (cInodeOffset w + cSize w)) by lia.
  rewrite (wrap64_small (a + s)) by lia.
  rewrite (wrap64_small (cInodeOffset w + cSize w - a)) by lia.
  rewrite (wrap64_small (oo + _)) by lia.
  rewrite wrap64_small by lia. reflexivity.
Qed.




(** ** Operations that do not touch the directory tables *)

Lemma ks_ret {A} (a : A) : keeps_shape (ret a).
Proof. intros db. reflexivity. Qed.

Lemma ks_fail {A} e : keeps_shape (@fail A e).
Proof. intros db. reflexivity. Qed.

Lemma ks_bind {A B} (m : Tx A) (k : A -> Tx B) :
  keeps_shape m -> (forall a, keeps_shape (k a)) -> keeps_shape (bind m k).
Proof.
  intros Hm Hk db. unfold bind. specialize (Hm db).
  destruct (m db) as [[e|a] db']; simpl in *; [assumption|].
  rewrite Hk. assumption.
Qed.

Lemma ks_treat {A} (m : Tx A) : keeps_shape m -> keeps_shape (treat m).
Proof.
  intros Hm db. unfold treat. specialize (Hm db).
  destruct (m db) as [[e|a] db']; assumption.
Qed.

Lemma ks_forEach {A} (l : list A) f :
  (forall a, keeps_shape (f a)) -> keeps_shape (forEach l f).
Proof.
  intros Hf. induction l as [|a l IH]; simpl.
  - apply ks_ret.
  - apply ks_bind; auto.
Qed.

Lemma ks_transaction {A} (m : Tx A) db :
  keeps_shape m -> shape (snd (transaction m db)) = shape db.
Proof.
  intros Hm. unfold transaction. specialize (Hm db).
  destruct (m db) as [[e|a] db']; simpl in *; auto.
Qed.

Lemma ks_getInode id : keeps_shape (getInode id).
Proof. intros db. unfold getInode. destruct (find _ _); reflexivity. Qed.

Lemma ks_insert_chunk inode st k oo io sz :
  keeps_shape (insert_chunk inode st k oo io sz).
Proof.
  intros db. unfold insert_chunk.
  destruct (_ && _); [|reflexivity]. destruct (inode_exists _ _); reflexivity.
Qed.

Lemma ks_query_chunks inode summed cond :
  keeps_shape (query_chunks inode summed cond).
Proof.
  intros db. unfold query_chunks.
  destruct (existsb _ _); [reflexivity|]. destruct (scan_all _ _); reflexivity.
Qed.

Lemma ks_update_chunk c : keeps_shape (update_chunk c).
Proof. intros db. unfold update_chunk. destruct (_ && _); reflexivity. Qed.

Lemma ks_update_chunk_size s id : keeps_shape (update_chunk_size s id).
Proof. intros db. unfold update_chunk_size. destruct (_ && _); reflexivity. Qed.

Lemma ks_orphan_chunks now cond : keeps_shape (orphan_chunks now cond).
Proof. intros db. reflexivity. Qed.

Lemma ks_stats_add_size d : keeps_shape (stats_add_size d).
Proof. intros db. unfold stats_add_size. destruct (in_range _ _); reflexivity. Qed.

Lemma ks_update_inode id f :
  (forall i, iID (f i) = iID i /\ iNlink (f i) = iNlink i) ->
  keeps_shape (update_inode id f).
Proof.
  intros Hf db. unfold update_inode, modify, shape. simpl.
  f_equal. f_equal. rewrite map_map. apply map_ext. intros i.
  destruct (iID i =? id); [|reflexivity].
  destruct (Hf i) as [-> ->]. reflexivity.
Qed.

Lemma ks_insert_xattr inode attr value : keeps_shape (insert_xattr inode attr value).
Proof.
  intros db. unfold insert_xattr.
  destruct (existsb _ _); [reflexivity|]. destruct (inode_exists _ _); reflexivity.
Qed.

Lemma ks_update_xattr value inode attr : keeps_shape (update_xattr value inode attr).
Proof. intros db. reflexivity. Qed.

Lemma ks_upsert_xattr inode attr value : keeps_shape (upsert_xattr inode attr value).
Proof.
  intros db. unfold upsert_xattr.
  destruct (existsb _ _); [reflexivity|]. destruct (inode_exists _ _); reflexivity.
Qed.

Lemma ks_set_xattr (f : DB -> list xattr_row) :
  keeps_shape (modify (fun db => set_xattr (f db) db)).
Proof. intros db. reflexivity. Qed.

Lemma ks_set_chunks (f : DB -> list chunk_row) :
  keeps_shape (modify (fun db => set_chunks (f db) db)).
Proof. intros db. reflexivity. Qed.

Create HintDb shape.

#[local] Hint Resolve ks_ret ks_fail ks_treat ks_getInode ks_insert_chunk
  ks_query_chunks ks_update_chunk ks_update_chunk_size ks_orphan_chunks
  ks_stats_add_size ks_insert_xattr ks_update_xattr ks_upsert_xattr
  ks_set_xattr ks_set_chunks : shape.

Ltac keeps_shape_step :=
  match goal with
  | |- keeps_shape (let _ := _ in _) => cbv zeta
  | |- keeps_shape (bind _ _) => apply ks_bind; [|intros]
  | |- keeps_shape (treat _) => apply ks_treat
  | |- keeps_shape (forEach _ _) => apply ks_forEach; intros
  | |- keeps_shape (update_inode _ _) =>
    apply ks_update_inode; intros; split; reflexivity
  | |- keeps_shape (if ?c then _ else _) => destruct c
  | |- keeps_shape (match ?o with Some _ => _ | None => _ end) => destruct o
  | |- keeps_shape _ => solve [auto with shape]
  end.

Lemma Touch_shape now inode size mode atime mtime uid gid db :
  shape (snd (Touch now inode size mode atime mtime uid gid db)) = shape db.
Proof. apply ks_transaction. repeat keeps_shape_step. Qed.

Lemma AddChunk_shape now inode flags chunk db :
  shape (snd (AddChunk now inode flags chunk db)) = shape db.
Proof. apply ks_transaction. cbv zeta. repeat keeps_shape_step. Qed.

Lemma Chunks_shape now inode db : shape (snd (Chunks now inode db)) = shape db.
Proof.
  unfold Chunks. apply ks_bind; [repeat keeps_shape_step|].
  intros _ db'. destruct (scan_all _ _); reflexivity.
Qed.

Lemma Children_shape now inode db : shape (snd (Children now inode db)) = shape db.
Proof.
  unfold Children. apply ks_bind; [repeat keeps_shape_step|].
  intros _ db'. reflexivity.
Qed.

Lemma RemoveXattr_shape now inode attr db :
  shape (snd (RemoveXattr now inode attr db)) = shape db.
Proof. apply ks_transaction. repeat keeps_shape_step. Qed.

Lemma SetXattr_shape now inode attr value flags db :
  shape (snd (SetXattr now inode attr value flags db)) = shape db.
Proof. apply ks_transaction. repeat keeps_shape_step. Qed.

Lemma CleanOrphanChunks_shape threshold db :
  shape (snd (CleanOrphanChunks threshold db)) = shape db.
Proof. apply ks_transaction. repeat keeps_shape_step. Qed.

(** ** Refcount accuracy *)

Lemma shape_parts db db' :
  shape db' = shape db ->
  entries db' = entries db /\ next_inode db' = next_inode db /\
  map (fun i => (iID i, iNlink i)) (inodes db') =
  map (fun i => (iID i, iNlink i)) (inodes db).
Proof. unfold shape. intros H. inversion H. auto. Qed.

Lemma inode_exists_map id (l : list Inode) :
  existsb (fun i => iID i =? id) l =
  existsb (fun p => fst p =? id) (map (fun i => (iID i, iNlink i)) l).
Proof.
  induction l as [|a l IH]; simpl; [reflexivity|]. now rewrite IH.
Qed.

Lemma shape_inode db db' i :
  map (fun i => (iID i, iNlink i)) (inodes db') =
  map (fun i => (iID i, iNlink i)) (inodes db) ->
  In i (inodes db') ->
  exists i0, In i0 (inodes db) /\ iID i0 = iID i /\ iNlink i0 = iNlink i.
Proof.
  intros H Hin.
  apply (in_map (fun i => (iID i, iNlink i))) in Hin. rewrite H in Hin.
  apply in_map_iff in Hin. destruct Hin as [i0 [Heq Hin]].
  inversion Heq. eauto.
Qed.

(** The invariant only looks at the shape of the store. *)
Lemma store_inv_shape db db' :
  shape db' = shape db -> store_inv db -> store_inv db'.
Proof.
  intros Hs [HA HB HC HE HD HF].
  destruct (shape_parts _ _ Hs) as (He & Hn & Hi).
  constructor.
  - intros i Hin. destruct (shape_inode _ _ _ Hi Hin) as (i0 & Hin0 & Hid & Hnl).
    unfold links. rewrite He, <- Hid, <- Hnl. apply HA. assumption.
  - intros e Hin. rewrite He in Hin. specialize (HB e Hin).
    unfold inode_exists in *. rewrite inode_exists_map in *. now rewrite Hi.
  - intros i Hin. destruct (shape_inode _ _ _ Hi Hin) as (i0 & Hin0 & Hid & Hnl).
    rewrite Hn, <- Hid. auto.
  - now rewrite Hn.
  - now rewrite He.
  - intros i Hin. destruct (shape_inode _ _ _ Hi Hin) as (i0 & Hin0 & Hid & Hnl).
    rewrite <- Hnl. auto.
Qed.

Lemma transaction_inv {A} (m : Tx A) db :
  store_inv db -> store_inv (snd (m db)) -> store_inv (snd (transaction m db)).
Proof.
  intros H Hm. unfold transaction.
  destruct (m db) as [[e|a] db']; simpl in *; assumption.
Qed.

Lemma entry_at_key p n e : entry_at p n e = true <-> key e = (p, n).
Proof.
  unfold entry_at, key. split.
  - intros H. apply andb_true_iff in H. destruct H as [H1 H2].
    apply Z.eqb_eq in H1. apply String.eqb_eq in H2. congruence.
  - intros H. inversion H. now rewrite Z.eqb_refl, String.eqb_refl.
Qed.

Lemma existsb_entry_at_false p n l :
  existsb (entry_at p n) l = false -> ~ In (p, n) (map key l).
Proof.
  intros H Hin. apply in_map_iff in Hin. destruct Hin as [e [Hk Hin]].
  apply entry_at_key in Hk.
  assert (existsb (entry_at p n) l = true) by (apply existsb_exists; eauto).
  congruence.
Qed.

Lemma count_links_cons id a l :
  count_links id (a :: l) = (if e_inode a =? id then 1 else 0) + count_links id l.
Proof.
  unfold count_links. cbn [filter].
  destruct (e_inode a =? id); [|lia].
  cbn [List.length]. rewrite Nat2Z.inj_succ. lia.
Qed.

Lemma count_links_app id l e :
  count_links id (l ++ [e]) = count_links id l + (if e_inode e =? id then 1 else 0).
Proof.
  induction l as [|a l IH].
  - simpl app. rewrite count_links_cons. unfold count_links. simpl. lia.
  - simpl app. rewrite !count_links_cons, IH. lia.
Qed.

Lemma count_links_nonneg id l : 0 <= count_links id l.
Proof. unfold count_links. lia. Qed.

(** Removing the entry at a key takes one link from its inode. *)
Lemma count_links_remove id p n l pe :
  NoDup (map key l) -> find (entry_at p n) l = Some pe ->
  count_links id (filter (fun e => negb (entry_at p n e)) l) =
  count_links id l - (if e_inode pe =? id then 1 else 0).
Proof.
  induction l as [|a l IH]; cbn [find filter map]; intros Hnd Hf; [discriminate|].
  inversion Hnd as [|x l' Hnotin Hnd']. subst.
  rewrite count_links_cons.
  destruct (entry_at p n a) eqn:E.
  - inversion Hf. subst a. cbn [negb].
    assert (Hrest : filter (fun e => negb (entry_at p n e)) l = l).
    { apply forallb_filter_id. apply forallb_forall. intros e He.
      destruct (entry_at p n e) eqn:E'; [|reflexivity].
      exfalso. apply Hnotin. apply entry_at_key in E, E'.
      rewrite E, <- E'. apply in_map. assumption. }
    rewrite Hrest. lia.
  - cbn [negb]. rewrite count_links_cons. specialize (IH Hnd' Hf). lia.
Qed.

Lemma count_links_relocate id (f : entry_row -> entry_row) l :
  (forall e, e_inode (f e) = e_inode e) ->
  count_links id (map f l) = count_links id l.
Proof.
  intros Hf. induction l as [|a l IH]; [reflexivity|].
  cbn [map]. rewrite !count_links_cons, Hf, IH. reflexivity.
Qed.

Lemma count_links_zero id l :
  (forall e, In e l -> e_inode e <> id) -> count_links id l = 0.
Proof.
  intros H. unfold count_links. rewrite filter_none; [reflexivity|].
  intros e He. apply Z.eqb_neq. auto.
Qed.

Lemma count_links_pos id l e :
  In e l -> e_inode e = id -> 1 <= count_links id l.
Proof.
  intros Hin Hid. induction l as [|a l IH]; [contradiction|].
  rewrite count_links_cons. pose proof (count_links_nonneg id l).
  destruct Hin as [-> | Hin].
  - rewrite Hid, Z.eqb_refl. lia.
  - specialize (IH Hin). destruct (e_inode a =? id); lia.
Qed.

Lemma inode_exists_In id db :
  inode_exists id db = true <-> exists i, In i (inodes db) /\ iID i = id.
Proof.
  unfold inode_exists. rewrite existsb_exists. split.
  - intros [i [H1 H2]]. apply Z.eqb_eq in H2. eauto.
  - intros [i [H1 H2]]. exists i. split; [assumption | apply Z.eqb_eq; assumption].
Qed.

Lemma In_map_update {A} (p : A -> bool) (f : A -> A) l x :
  In x (map (fun a => if p a then f a else a) l) ->
  exists a, In a l /\ x = (if p a then f a else a).
Proof.
  intros H. apply in_map_iff in H. destruct H as [a [H1 H2]]. eauto.
Qed.

(** *** Setup *)

Lemma Setup_inv now : store_inv (Setup now).
Proof.
  constructor; simpl.
  - intros i [<- | []]. reflexivity.
  - intros e [].
  - intros i [<- | []]. simpl. lia.
  - lia.
  - constructor.
  - intros i [<- | []]. simpl. lia.
Qed.

(** *** unlink, Unlink and Rename *)

Lemma unlink_inv parent name db :
  store_inv db -> store_inv (snd (unlink parent name db)).
Proof.
  intros Hinv. pose proof Hinv as [HA HB HC HE HD HF].
  destruct (find (entry_at parent name) (entries db)) as [pe|] eqn:Ef.
  2:{ rewrite (unlink_missing _ _ _ Ef). assumption. }
  rewrite (unlink_select _ _ _ _ Ef).
  destruct (0 <? children_of (e_inode pe) db); [assumption|].
  pose proof (find_some _ _ Ef) as [Hpe _].
  erewrite bind_ok by (apply treat_ok; reflexivity).
  unfold treat. rewrite add_refcount_ok.
  2:{ simpl. intros i Hi Hid. specialize (HA i Hi). specialize (HF i Hi).
      pose proof (count_links_pos (iID i) (entries db) pe Hpe (eq_sym Hid)).
      unfold links in HA.
      destruct (iID i =? 1); lia. }
  simpl. constructor; simpl.
  - intros i' Hin. apply In_map_update in Hin. destruct Hin as (i & Hi & ->).
    specialize (HA i Hi). unfold links in *.
    cbn [entries set_inodes set_entries].
    assert (Hc := count_links_remove (iID i) parent name (entries db) pe HD Ef).
    destruct (iID i =? e_inode pe) eqn:E.
    + cbn [iID iNlink set_refcount]. rewrite Hc. rewrite Z.eqb_sym, E. lia.
    + rewrite Hc. rewrite Z.eqb_sym, E. lia.
  - intros e Hin. apply filter_In in Hin. destruct Hin as [Hin _].
    specialize (HB e Hin). apply inode_exists_In in HB. destruct HB as (i & Hi & Hid).
    apply inode_exists_In. simpl.
    exists (if iID i =? e_inode pe then set_refcount (iNlink i + -1) i else i).
    split.
    + apply (in_map (fun i => if iID i =? e_inode pe
                              then set_refcount (iNlink i + -1) i else i)).
      assumption.
    + destruct (iID i =? e_inode pe); assumption.
  - intros i' Hin. apply In_map_update in Hin. destruct Hin as (i & Hi & ->).
    specialize (HC i Hi). destruct (iID i =? e_inode pe); assumption.
  - assumption.
  - apply NoDup_map_filter. assumption.
  - intros i' Hin. apply In_map_update in Hin. destruct Hin as (i & Hi & ->).
    specialize (HF i Hi). specialize (HA i Hi).
    destruct (iID i =? e_inode pe) eqn:E; [|assumption].
    apply Z.eqb_eq in E.
    pose proof (count_links_pos (iID i) (entries db) pe Hpe (eq_sym E)).
    unfold links in HA.
    simpl. destruct (iID i =? 1); lia.
Qed.

Lemma Unlink_inv parent name db :
  store_inv db -> store_inv (snd (Unlink parent name db)).
Proof.
  intros H. apply transaction_inv; [assumption | apply unlink_inv; assumption].
Qed.

Lemma NoDup_relocate newParent newName oldParent oldName l :
  NoDup (map key l) ->
  existsb (entry_at newParent newName) l = false ->
  NoDup (map key (map (fun e => if entry_at oldParent oldName e
                                then mkEntryRow newParent newName (e_inode e)
                                else e) l)).
Proof.
  induction l as [|a l IH]; simpl; intros Hnd Hex; [constructor|].
  inversion Hnd as [|x l' Hnotin Hnd']. subst.
  apply orb_false_iff in Hex. destruct Hex as [Ha Hex].
  destruct (entry_at oldParent oldName a) eqn:E.
  - assert (Hrest : map (fun e => if entry_at oldParent oldName e
                                  then mkEntryRow newParent newName (e_inode e)
                                  else e) l = l).
    { rewrite <- (map_id l) at 2. apply map_ext_in. intros e He.
      destruct (entry_at oldParent oldName e) eqn:E'; [|reflexivity].
      exfalso. apply Hnotin. apply entry_at_key in E, E'.
      rewrite E, <- E'. apply in_map. assumption. }
    rewrite Hrest. constructor; [|assumption].
    apply existsb_entry_at_false. assumption.
  - constructor; [|auto].
    intros Hin. apply in_map_iff in Hin. destruct Hin as [e' [Hk Hin]].
    apply in_map_iff in Hin. destruct Hin as [e [He Hin]]. subst e'.
    destruct (entry_at oldParent oldName e).
    + unfold key at 1 in Hk. simpl in Hk.
      symmetry in Hk. apply entry_at_key in Hk. congruence.
    + apply Hnotin. rewrite <- Hk. apply in_map. assumption.
Qed.

Lemma move_entry_inv newParent newName oldParent oldName db :
  store_inv db ->
  store_inv (snd (move_entry newParent newName oldParent oldName db)).
Proof.
  intros Hinv. pose proof Hinv as [HA HB HC HE HD HF].
  unfold move_entry.
  destruct (filter (entry_at oldParent oldName) (entries db)) as [|x more];
    [assumption|].
  destruct ((oldParent =? newParent) && String.eqb oldName newName); [assumption|].
  destruct (existsb (entry_at newParent newName) (entries db)) eqn:Ex;
    [assumption|].
  simpl orb. destruct (negb (Nat.eqb (List.length more) 0)); [assumption|].
  destruct (inode_exists newParent db); [|assumption].
  simpl. constructor; simpl; try assumption.
  - intros i Hi. specialize (HA i Hi). unfold links in *.
    cbn [entries set_entries].
    rewrite count_links_relocate; [exact HA|].
    intros e. destruct (entry_at oldParent oldName e); reflexivity.
  - intros e' Hin. apply In_map_update in Hin. destruct Hin as (e & He & ->).
    specialize (HB e He). unfold inode_exists in *. simpl.
    destruct (entry_at oldParent oldName e); exact HB.
  - apply NoDup_relocate; assumption.
Qed.

Lemma Rename_inv oldParent oldName newParent newName db :
  store_inv db ->
  store_inv (snd (Rename oldParent oldName newParent newName db)).
Proof.
  intros Hinv. rewrite Rename_unfold.
  pose proof (move_entry_inv newParent newName oldParent oldName _
                (unlink_inv newParent newName db Hinv)) as H.
  destruct (move_entry newParent newName oldParent oldName
              (snd (unlink newParent newName db))) as [[e|n] d]; simpl in *;
    [assumption|].
  destruct (n =? 0); simpl; assumption.
Qed.

(** *** Inversion of committed statements *)

Lemma stats_add_inodes_inv d db u db' :
  stats_add_inodes d db = (inr u, db') -> shape db' = shape db.
Proof.
  unfold stats_add_inodes. destruct (in_range _ _); [|discriminate].
  intros H. inversion H. reflexivity.
Qed.

Lemma stats_add_size_inv d db u db' :
  stats_add_size d db = (inr u, db') -> shape db' = shape db.
Proof.
  unfold stats_add_size. destruct (in_range _ _); [|discriminate].
  intros H. inversion H. reflexivity.
Qed.

Lemma insert_entry_inv parent name inode db u db' :
  insert_entry parent name inode db = (inr u, db') ->
  existsb (entry_at parent name) (entries db) = false /\
  inode_exists inode db = true /\
  db' = set_entries (entries db ++ [mkEntryRow parent name inode]) db.
Proof.
  unfold insert_entry. destruct (existsb _ _); [discriminate|].
  destruct (inode_exists parent db); [|discriminate]. simpl.
  destruct (inode_exists inode db); [|discriminate].
  intros H. inversion H. auto.
Qed.

Lemma add_refcount_inv id delta db u db' :
  add_refcount id delta db = (inr u, db') ->
  (forall i, In i (inodes db) -> iID i = id -> 0 <= iNlink i + delta < 2 ^ 32) /\
  db' = set_inodes (map (fun i => if iID i =? id
                                  then set_refcount (iNlink i + delta) i
                                  else i) (inodes db)) db.
Proof.
  unfold add_refcount. destruct (forallb _ _) eqn:E; [|discriminate].
  intros H. inversion H. split; [|reflexivity].
  intros i Hi Hid. rewrite forallb_forall in E. specialize (E i Hi).
  apply Z.eqb_eq in Hid. rewrite Hid in E. simpl in E.
  apply in_range_inv. assumption.
Qed.

Lemma delete_inodes_inv cond db u db' :
  delete_inodes cond db = (inr u, db') ->
  (forall i, In i (inodes db) -> cond i = true -> referenced (iID i) db = false) /\
  db' = set_inodes (filter (fun i => negb (cond i)) (inodes db)) db.
Proof.
  unfold delete_inodes. destruct (existsb _ _) eqn:E; [discriminate|].
  intros H. inversion H. split; [|reflexivity].
  intros i Hi Hc. destruct (referenced (iID i) db) eqn:Er; [|reflexivity].
  assert (existsb (fun i => cond i && referenced (iID i) db) (inodes db) = true).
  { apply existsb_exists. exists i. split; [assumption|]. now rewrite Hc, Er. }
  congruence.
Qed.

Lemma transaction_commit_inv {A} (m : Tx A) db :
  store_inv db ->
  (forall a db', m db = (inr a, db') -> store_inv db') ->
  store_inv (snd (transaction m db)).
Proof.
  intros H Hm. unfold transaction.
  destruct (m db) as [[e|a] db'] eqn:E; simpl; [assumption | eauto].
Qed.

Lemma NoDup_map_app_last {A B} (f : A -> B) l x :
  NoDup (map f l) -> ~ In (f x) (map f l) -> NoDup (map f (l ++ [x])).
Proof.
  intros Hnd Hx. rewrite map_app. simpl.
  apply NoDup_app; [assumption | repeat constructor; simpl; tauto |].
  intros b Hb [<- | []]. contradiction.
Qed.

(** No entry points to an id that is not yet given out. *)
Lemma no_link_to_fresh db id :
  store_inv db -> next_inode db <= id -> count_links id (entries db) = 0.
Proof.
  intros [HA HB HC HE HD HF] Hid. apply count_links_zero.
  intros e He Heq. specialize (HB e He). apply inode_exists_In in HB.
  destruct HB as (i & Hi & Hii). specialize (HC i Hi). lia.
Qed.

(** *** Create *)

(** The store after the INSERT of a new inode and of its entry. *)
Lemma created_inv db new parent name :
  store_inv db ->
  iID new = next_inode db -> iNlink new = 1 ->
  existsb (entry_at parent name) (entries db) = false ->
  forall db',
    inodes db' = inodes db ++ [new] ->
    entries db' = entries db ++ [mkEntryRow parent name (next_inode db)] ->
    next_inode db' = next_inode db + 1 ->
    store_inv db'.
Proof.
  intros Hinv Hid Hnl Hex db' Hi He Hn. pose proof Hinv as [HA HB HC HE HD HF].
  constructor.
  - intros i Hin. rewrite Hi in Hin. unfold links. rewrite He, count_links_app.
    simpl e_inode. apply in_app_or in Hin. destruct Hin as [Hin | [<- | []]].
    + specialize (HA i Hin). specialize (HC i Hin). unfold links in HA.
      replace (next_inode db =? iID i) with false by (symmetry; apply Z.eqb_neq; lia).
      lia.
    + rewrite Hid, Z.eqb_refl, Hnl.
      rewrite (no_link_to_fresh db) by (auto; lia).
      replace (next_inode db =? 1) with false by (symmetry; apply Z.eqb_neq; lia).
      reflexivity.
  - intros e Hin. rewrite He in Hin. apply inode_exists_In. rewrite Hi.
    apply in_app_or in Hin. destruct Hin as [Hin | [<- | []]].
    + specialize (HB e Hin). apply inode_exists_In in HB.
      destruct HB as (i & Hii & Hie). exists i. split; [|assumption].
      apply in_or_app. auto.
    + exists new. split; [apply in_or_app; right; left; reflexivity | assumption].
  - intros i Hin. rewrite Hi in Hin. rewrite Hn.
    apply in_app_or in Hin. destruct Hin as [Hin | [<- | []]].
    + specialize (HC i Hin). lia.
    + lia.
  - lia.
  - rewrite He. apply NoDup_map_app_last; [assumption|].
    apply existsb_entry_at_false. assumption.
  - intros i Hin. rewrite Hi in Hin.
    apply in_app_or in Hin. destruct Hin as [Hin | [<- | []]]; [auto|].
    rewrite Hnl. lia.
Qed.

(** The store after the INSERT of an entry for an inode that exists and
    the UPDATE of its refcount. *)
Lemma linked_inv db id parent name :
  store_inv db ->
  inode_exists id db = true ->
  existsb (entry_at parent name) (entries db) = false ->
  (forall i, In i (inodes db) -> iID i = id -> 0 <= iNlink i + 1 < 2 ^ 32) ->
  forall db',
    inodes db' = map (fun i => if iID i =? id
                               then set_refcount (iNlink i + 1) i
                               else i) (inodes db) ->
    entries db' = entries db ++ [mkEntryRow parent name id] ->
    next_inode db' = next_inode db ->
    store_inv db'.
Proof.
  intros Hinv Hid Hex Hr db' Hi He Hn. pose proof Hinv as [HA HB HC HE HD HF].
  assert (Hids : forall j, (exists i, In i (inodes db) /\ iID i = j) ->
                           exists i, In i (inodes db') /\ iID i = j).
  { intros j (i & Hin & Hj). rewrite Hi.
    exists (if iID i =? id then set_refcount (iNlink i + 1) i else i). split.
    - apply (in_map (fun i => if iID i =? id
                              then set_refcount (iNlink i + 1) i else i)).
      assumption.
    - destruct (iID i =? id); assumption. }
  constructor.
  - intros i' Hin. rewrite Hi in Hin. apply In_map_update in Hin.
    destruct Hin as (i & Hin & ->).
    unfold links. rewrite He. specialize (HA i Hin). unfold links in HA.
    destruct (iID i =? id) eqn:E.
    + cbn [iID iNlink set_refcount]. rewrite count_links_app. simpl e_inode.
      rewrite Z.eqb_sym, E. lia.
    + rewrite count_links_app. simpl e_inode. rewrite Z.eqb_sym, E. lia.
  - intros e Hin. rewrite He in Hin. apply inode_exists_In. apply Hids.
    apply inode_exists_In.
    apply in_app_or in Hin. destruct Hin as [Hin | [<- | []]]; auto.
  - intros i' Hin. rewrite Hi in Hin. apply In_map_update in Hin.
    destruct Hin as (i & Hin & ->). rewrite Hn. specialize (HC i Hin).
    destruct (iID i =? id); assumption.
  - lia.
  - rewrite He. apply NoDup_map_app_last; [assumption|].
    apply existsb_entry_at_false. assumption.
  - intros i' Hin. rewrite Hi in Hin. apply In_map_update in Hin.
    destruct Hin as (i & Hin & ->).
    destruct (iID i =? id) eqn:E; [|auto].
    apply Z.eqb_eq in E. cbn [iNlink set_refcount]. auto.
Qed.

Lemma Create_inv now entry db :
  store_inv db -> store_inv (snd (Create now entry db)).
Proof.
  intros Hinv. unfold Create. apply transaction_commit_inv; [assumption|].
  intros a db' H.
  apply bind_inv in H. destruct H as (p & db1 & Hp & H).
  apply treat_inv, getInode_inv in Hp. destruct Hp as [-> Hp].
  destruct (negb (IsDir (iMode p))); [discriminate|].
  cbv zeta in H.
  apply bind_inv in H. destruct H as (res & db2 & Hres & H).
  apply bind_inv in H. destruct H as (u & db3 & Hins & H).
  apply treat_inv, insert_entry_inv in Hins. destruct Hins as (Hex & Hino & ->).
  apply bind_inv in H. destruct H as (u' & db4 & Hrc & H).
  apply ret_inv in H. destruct H as [_ ->].
  destruct (iID (EInode entry) =? 0).
  - (* a new inode *)
    apply bind_inv in Hres. destruct Hres as (u1 & d1 & Hst & Hres).
    apply treat_inv, stats_add_inodes_inv in Hst.
    apply bind_inv in Hres. destruct Hres as (id & d2 & Hnew & Hres).
    apply treat_inv in Hnew. unfold insert_inode in Hnew.
    injection Hnew as <- <-.
    apply bind_inv in Hres. destruct Hres as (e' & d3 & Hfill & Hres).
    apply ret_inv in Hres. destruct Hres as [-> ->].
    apply bind_inv in Hfill. destruct Hfill as (result & d4 & Hget & Hfill).
    apply treat_inv, getInode_inv in Hget. destruct Hget as [-> Hget].
    apply ret_inv in Hfill. destruct Hfill as [-> ->].
    apply find_inode_id in Hget. destruct Hget as [Hrid _].
    simpl in Hrc. apply ret_inv in Hrc. destruct Hrc as [_ ->].
    simpl in *.
    pose proof (store_inv_shape _ _ Hst Hinv) as Hinv1.
    eapply (created_inv d1 (mkInode (next_inode d1) _ _ _ _ 0 1 now now now now));
      try eassumption; try reflexivity.
    simpl. now rewrite Hrid.
  - (* a link to an inode that exists *)
    apply bind_inv in Hres. destruct Hres as (e' & d3 & Hfill & Hres).
    apply ret_inv in Hres. destruct Hres as [-> ->].
    apply bind_inv in Hfill. destruct Hfill as (result & d4 & Hget & Hfill).
    apply treat_inv, getInode_inv in Hget. destruct Hget as [-> Hget].
    apply ret_inv in Hfill. destruct Hfill as [-> ->].
    simpl in *.
    apply treat_inv, add_refcount_inv in Hrc. destruct Hrc as [Hr ->].
    simpl in Hr.
    eapply (linked_inv db (iID result)); try eassumption; reflexivity.
Qed.

(** *** Forget and CleanOrphanInodes *)


Lemma recompute_stats_inv db u db' :
  recompute_stats db = (inr u, db') -> shape db' = shape db.
Proof.
  unfold recompute_stats. destruct (inodes db) eqn:E; [discriminate|].
  destruct (in_range _ _); [|discriminate].
  intros H. inversion H. unfold shape. simpl. now rewrite E.
Qed.

Lemma not_referenced id db e :
  referenced id db = false -> In e (entries db) -> e_inode e <> id.
Proof.
  unfold referenced. intros H Hin Heq.
  apply orb_false_iff in H. destruct H as [H _].
  apply orb_false_iff in H. destruct H as [H _].
  assert (existsb (fun e => (e_parent e =? id) || (e_inode e =? id)) (entries db) = true).
  { apply existsb_exists. exists e. split; [assumption|].
    apply orb_true_iff. right. apply Z.eqb_eq. assumption. }
  congruence.
Qed.

(** The store after the DELETE of inodes that no entry points to. *)
Lemma deleted_inv db cond :
  store_inv db ->
  (forall i, In i (inodes db) -> cond i = true ->
             forall e, In e (entries db) -> e_inode e <> iID i) ->
  forall db',
    inodes db' = filter (fun i => negb (cond i)) (inodes db) ->
    entries db' = entries db ->
    next_inode db' = next_inode db ->
    store_inv db'.
Proof.
  intros [HA HB HC HE HD HF] Hfree db' Hi He Hn.
  constructor.
  - intros i Hin. rewrite Hi in Hin. apply filter_In in Hin. destruct Hin as [Hin _].
    unfold links. rewrite He. apply HA. assumption.
  - intros e Hin. rewrite He in Hin. specialize (HB e Hin).
    apply inode_exists_In in HB. destruct HB as (i & Hii & Hie).
    apply inode_exists_In. exists i. split; [|assumption].
    rewrite Hi. apply filter_In. split; [assumption|].
    destruct (cond i) eqn:Ec; [|reflexivity].
    exfalso. apply (Hfree i Hii Ec e Hin). congruence.
  - intros i Hin. rewrite Hi in Hin. apply filter_In in Hin. destruct Hin as [Hin _].
    rewrite Hn. auto.
  - lia.
  - now rewrite He.
  - intros i Hin. rewrite Hi in Hin. apply filter_In in Hin. destruct Hin as [Hin _].
    auto.
Qed.

Lemma Forget_inv now inode db :
  store_inv db -> store_inv (snd (Forget now inode db)).
Proof.
  intros Hinv. unfold Forget. apply transaction_commit_inv; [assumption|].
  intros a db' H.
  apply bind_inv in H. destruct H as (i & db1 & Hi & H).
  apply treat_inv, getInode_inv in Hi. destruct Hi as [-> Hi].
  destruct (iNlink i =? 0).
  2:{ apply ret_inv in H. destruct H as [_ ->]. assumption. }
  apply bind_inv in H. destruct H as (u1 & d1 & H1 & H).
  apply treat_inv, modify_inv in H1. subst d1.
  apply bind_inv in H. destruct H as (u2 & d2 & H2 & H).
  apply treat_inv, modify_inv in H2. subst d2.
  apply bind_inv in H. destruct H as (u3 & d3 & H3 & H).
  apply treat_inv, delete_inodes_inv in H3. destruct H3 as [Hfree ->].
  apply bind_inv in H. destruct H as (u4 & d4 & H4 & H).
  apply treat_inv, stats_add_size_inv in H4.
  apply treat_inv, stats_add_inodes_inv in H.
  apply (store_inv_shape d4); [assumption|].
  apply (store_inv_shape _ _ H4).
  eapply (deleted_inv db (fun r => iID r =? iID i)); try eassumption; try reflexivity.
  intros i0 Hi0 Hc e He.
  eapply not_referenced; [apply (Hfree i0 Hi0 Hc) | exact He].
Qed.

Lemma CleanOrphanInodes_inv now db :
  store_inv db -> store_inv (snd (CleanOrphanInodes now db)).
Proof.
  intros Hinv. unfold CleanOrphanInodes. apply transaction_commit_inv; [assumption|].
  intros a db' H.
  apply bind_inv in H. destruct H as (orphans & db1 & Ho & H).
  injection Ho as <- <-.
  apply bind_inv in H. destruct H as (u1 & d1 & H1 & H).
  apply treat_inv, modify_inv in H1. subst d1.
  apply bind_inv in H. destruct H as (u2 & d2 & H2 & H).
  apply treat_inv, modify_inv in H2. subst d2.
  apply bind_inv in H. destruct H as (u3 & d3 & H3 & H).
  apply treat_inv, delete_inodes_inv in H3. destruct H3 as [Hfree ->].
  apply treat_inv, recompute_stats_inv in H.
  apply (store_inv_shape _ _ H).
  eapply (deleted_inv db (fun i => iNlink i =? 0)); try eassumption; try reflexivity.
  intros i0 Hi0 Hc e He.
  eapply not_referenced; [apply (Hfree i0 Hi0 Hc) | exact He].
Qed.

(** *** Every store that can be reached *)

Lemma step_inv now o db : store_inv db -> store_inv (step now o db).
Proof.
  intros Hinv. destruct o; simpl.
  - apply Create_inv; assumption.
  - apply Forget_inv; assumption.
  - apply CleanOrphanInodes_inv; assumption.
  - eapply store_inv_shape; [apply CleanOrphanChunks_shape | assumption].
  - apply Unlink_inv; assumption.
  - apply Rename_inv; assumption.
  - eapply store_inv_shape; [apply Touch_shape | assumption].
  - eapply store_inv_shape; [apply AddChunk_shape | assumption].
  - eapply store_inv_shape; [apply Chunks_shape | assumption].
  - eapply store_inv_shape; [apply Children_shape | assumption].
  - eapply store_inv_shape; [apply RemoveXattr_shape | assumption].
  - eapply store_inv_shape; [apply SetXattr_shape | assumption].
Qed.

Lemma reachable_inv db : reachable db -> store_inv db.
Proof.
  induction 1 as [now | now o db Hr IH].
  - apply Setup_inv.
  - apply step_inv. assumption.
Qed.

(** C7, as the code has it: after [Setup] and after every operation, the
    refcount of an inode is the number of entries that point to it, plus
    one for the root inode (id 1), to which [Setup] gives the refcount 1
    and no entry. *)
Theorem refcount_accurate_reachable db :
  reachable db -> refcount_accurate_but_root db.
Proof. intros H. apply reachable_inv in H. apply H. Qed.

Lemma refcount_accurate_reachable_witness :
  reachable tree_db /\ refcount_accurate_but_root tree_db.
Proof.
  split; [apply tree_db_reachable|].
  apply (refcount_accurate_reachable tree_db tree_db_reachable).
Defined.

(** C7, as it is stated, fails right after [Setup]: the root inode has
    the refcount 1 and no entry points to it. *)
Lemma refcount_of_root_after_Setup :
  reachable (Setup 0) /\ ~ refcount_accurate (Setup 0).
Proof.
  split; [apply reach_setup|].
  intros H. specialize (H (mkInode 1 root_mode 0 0 "" 0 1 0 0 0 0)).
  simpl in H. specialize (H (or_introl eq_refl)). discriminate H.
Qed.

(** ** Touch, statement by statement *)

Lemma truncated_table now inode size t :
  NoDup (map r_id t) ->
  let del := map r_id (filter (fun r => extends_past inode size r
                                        && negb (cInodeOffset (scanned inode r) <? size)) t) in
  let upd := map (scanned inode)
                 (filter (fun r => extends_past inode size r
                                   && (cInodeOffset (scanned inode r) <? size)) t) in
  map (fun r => if id_in del r then orphaned now r else r)
      (map (fun r => fold_left (fun r c => if r_id r =? cID c
                                           then resized (wrap64 (size - cInodeOffset c)) r
                                           else r) upd r) t) =
  map (truncated now inode size) t.
Proof.
  intros Hnd del upd. rewrite map_map. apply map_ext_in. intros r Hin.
  unfold upd, del.
  rewrite (updates_of_selection
             (fun c r => resized (wrap64 (size - cInodeOffset c)) r))
    by (auto; reflexivity).
  unfold truncated.
  destruct (extends_past inode size r) eqn:Ee; cbn [andb negb].
  - destruct (cInodeOffset (scanned inode r) <? size) eqn:Ec; cbn [andb negb].
    + change (id_in ?d (resized ?s r)) with (id_in d r).
      rewrite id_in_selection by assumption. now rewrite Ee, Ec.
    + rewrite id_in_selection by assumption. now rewrite Ee, Ec.
  - rewrite id_in_selection by assumption. now rewrite Ee.
Qed.

Lemma stats_add_size_ok d db :
  0 <= sSize (stats db) + d < 2 ^ 64 ->
  stats_add_size d db =
  (inr tt, set_stats (mkStats (sInodes (stats db)) (sSize (stats db) + d)) db).
Proof. intros H. unfold stats_add_size. now rewrite in_range_true. Qed.

(** [Touch] to a smaller size commits and leaves [after_truncate], when
    the rows of the inode can be scanned and end below 2^63. *)
Lemma Touch_shrink_commit now inode size mode atime mtime uid gid db i :
  find (fun r => iID r =? inode) (inodes db) = Some i ->
  chunks_pk db ->
  0 <= size < iSize i -> iSize i < 2 ^ 64 ->
  scannable inode db -> ends_fit inode db ->
  0 <= sSize (stats db) - (iSize i - size) < 2 ^ 64 ->
  Touch now inode (Some size) mode atime mtime uid gid db =
  (inr (set_attrs size mode atime mtime uid gid i),
   after_truncate now i size mode atime mtime uid gid db).
Proof.
  intros Hfind [Hnd Hlt] Hsz Hmax Hscannable Hfit Hstats.
  destruct (find_inode_id _ _ _ Hfind) as [Hid _]. subst inode.
  assert (Hscan : exists rows,
            scan_all (iID i) (filter (extends_past (iID i) size) (chunks db))
            = inr rows).
  { eexists. apply scan_all_ok. intros r Hr. apply filter_In in Hr.
    destruct Hr as [Hr He]. apply extends_past_live in He.
    destruct (Hscannable r) as (st & k & oo & a & s & H1 & H2 & H3 & H4 & H5 & P1 & P2 & P3).
    { apply filter_In. auto. }
    eexists. unfold scan_chunk. rewrite H1, H2, H3, H4, H5.
    apply Z.leb_le in P1, P2, P3. rewrite P1, P2, P3. reflexivity. }
  destruct Hscan as [rows Hscan].
  unfold Touch. apply transaction_ok.
  erewrite bind_ok by (apply treat_ok; apply getInode_Some; exact Hfind).
  replace (negb (size =? iSize i)) with true
    by (symmetry; apply negb_true_iff; apply Z.eqb_neq; lia).
  replace (iSize i <? size) with false by (symmetry; apply Z.ltb_ge; lia).
  cbv iota.
  erewrite bind_ok.
  2:{ erewrite bind_ok.
      2:{ apply treat_ok. eapply query_chunks_ok; [|exact Hscan].
          apply (sums_in_range _ (iID i)); auto. }
      cbv zeta.
      erewrite bind_ok.
      2:{ apply forEach_update_chunk_size. apply forallb_forall. intros c Hc.
          apply filter_In in Hc. destruct Hc as [Hc Hlt'].
          apply in_map_iff in Hc. destruct Hc as (r & <- & Hr).
          apply filter_In in Hr. destruct Hr as [Hr He].
          destruct (live_row_values (iID i) db r Hscannable Hfit Hr
                      (extends_past_live _ _ _ He))
            as (oo & a & s & _ & Ea & Es & _ & Eo & _ & P1 & P2 & P3 & F1).
          rewrite Eo in *. apply Z.ltb_lt in Hlt'.
          unfold extends_past in He. rewrite Ea, Es in He.
          destruct (r_inode r); [|discriminate].
          apply andb_true_iff in He. destruct He as [_ He]. apply Z.ltb_lt in He.
          rewrite wrap64_small by lia. apply fits_bigint_true. lia. }
      erewrite bind_ok.
      2:{ apply treat_ok. apply stats_add_size_ok. simpl.
          rewrite wrap64_small by lia. lia. }
      reflexivity. }
  cbv zeta. cbn [fst snd].
  erewrite bind_ok by (apply treat_ok; reflexivity).
  erewrite bind_ok by apply orphan_step.
  unfold ret, after_truncate. f_equal.
  unfold set_chunks, set_inodes, set_stats. simpl.
  rewrite wrap64_small by lia.
  f_equal.
  rewrite fold_updates_map.
  rewrite !filter_map_swap, !filter_filter_and.
  rewrite (map_map (scanned (iID i)) cID).
  apply (truncated_table now (iID i) size (chunks db)). assumption.
Qed.

(** [Touch] to a larger size commits and leaves [after_extend], when the
    old size and the extension fit the columns of the zero-fill row. *)
Lemma Touch_extend_commit now inode size mode atime mtime uid gid db i :
  find (fun r => iID r =? inode) (inodes db) = Some i ->
  0 <= iSize i < size -> iSize i < 2 ^ 63 -> size - iSize i < 2 ^ 63 ->
  0 <= sSize (stats db) + wrap64 (size - iSize i) < 2 ^ 64 ->
  Touch now inode (Some size) mode atime mtime uid gid db =
  (inr (set_attrs size mode atime mtime uid gid i),
   after_extend now i size mode atime mtime uid gid db).
Proof.
  intros Hfind Hsz Hold Hext Hstats.
  pose proof (find_inode_exists _ _ _ Hfind) as Hex.
  destruct (find_inode_id _ _ _ Hfind) as [Hid _]. subst inode.
  unfold Touch. apply transaction_ok.
  erewrite bind_ok by (apply treat_ok; apply getInode_Some; exact Hfind).
  replace (negb (size =? iSize i)) with true
    by (symmetry; apply negb_true_iff; apply Z.eqb_neq; lia).
  replace (iSize i <? size) with true by (symmetry; apply Z.ltb_lt; lia).
  cbv iota.
  erewrite bind_ok.
  2:{ erewrite bind_ok.
      2:{ apply treat_ok. apply insert_chunk_ok; [exact Hex | lia | lia |].
          rewrite wrap64_small by lia. lia. }
      erewrite bind_ok by (apply treat_ok; apply stats_add_size_ok; exact Hstats).
      reflexivity. }
  cbv zeta. cbn [fst snd].
  erewrite bind_ok by (apply treat_ok; reflexivity).
  erewrite bind_ok by apply orphan_step.
  unfold ret, after_extend. f_equal.
  unfold set_chunks, set_inodes, set_stats. simpl.
  f_equal. rewrite map_id. reflexivity.
Qed.

(** [Touch] that does not change the size leaves the chunks alone. *)
Lemma Touch_same_size now inode size mode atime mtime uid gid db i :
  find (fun r => iID r =? inode) (inodes db) = Some i ->
  size = None \/ size = Some (iSize i) ->
  Touch now inode size mode atime mtime uid gid db =
  (inr (set_attrs (iSize i) mode atime mtime uid gid i),
   set_inodes (map (fun r => if iID r =? iID i
                             then touched (set_attrs (iSize i) mode atime mtime uid gid i) now r
                             else r) (inodes db)) db).
Proof.
  intros Hfind Hs.
  unfold Touch. apply transaction_ok.
  erewrite bind_ok by (apply treat_ok; apply getInode_Some; exact Hfind).
  erewrite bind_ok with (a := ([], iSize i)) (db' := db).
  2:{ destruct Hs as [-> | ->]; [reflexivity|].
      rewrite Z.eqb_refl. reflexivity. }
  cbv zeta. cbn [fst snd].
  erewrite bind_ok by (apply treat_ok; reflexivity).
  erewrite bind_ok by apply orphan_step.
  unfold ret. f_equal.
  unfold set_chunks, set_inodes, id_in. simpl. rewrite map_id. reflexivity.
Qed.

(** ** Touch: truncation *)

Lemma extends_past_true inode size r a s :
  r_inode r = Some inode -> r_inodeoffset r = Some a -> r_size r = Some s ->
  extends_past inode size r = (size <? a + s).
Proof.
  intros H1 H2 H3. unfold extends_past. rewrite H1, H2, H3.
  now rewrite Z.eqb_refl.
Qed.

Lemma scanned_offset inode r a :
  r_inodeoffset r = Some a -> cInodeOffset (scanned inode r) = a.
Proof. intros H. unfold scanned. simpl. now rewrite H. Qed.

Lemma live_in_inode inode r :
  live_in inode r = true <-> r_inode r = Some inode.
Proof.
  unfold live_in. destruct (r_inode r) as [x|]; split; intros H;
    try discriminate.
  - apply Z.eqb_eq in H. congruence.
  - inversion H. apply Z.eqb_refl.
Qed.

(** What is left of a row after a truncation ends within the new size. *)
Lemma truncated_ends now inode size r a b :
  0 <= size < 2 ^ 64 ->
  (forall x, r_inodeoffset r = Some x -> 0 <= x) ->
  live_in inode (truncated now inode size r) = true ->
  interval (truncated now inode size r) = Some (a, b) ->
  b <= size.
Proof.
  intros Hsz Hpos Hlive Hint. unfold truncated in *.
  destruct (extends_past inode size r) eqn:Ee.
  - destruct (cInodeOffset (scanned inode r) <? size) eqn:Ec.
    + unfold extends_past in Ee.
      destruct (r_inode r), (r_inodeoffset r) as [x|] eqn:Ex, (r_size r);
        try discriminate.
      rewrite (scanned_offset _ _ x Ex) in *.
      apply Z.ltb_lt in Ec. specialize (Hpos x eq_refl).
      unfold interval, resized in Hint. simpl in Hint. rewrite Ex in Hint.
      rewrite wrap64_small in Hint by lia. inversion Hint. lia.
    + discriminate Hlive.
  - apply live_in_inode in Hlive.
    unfold interval in Hint. unfold extends_past in Ee. rewrite Hlive in Ee.
    destruct (r_inodeoffset r) as [x|]; [|discriminate].
    destruct (r_size r) as [s|]; [|discriminate].
    rewrite Z.eqb_refl in Ee. simpl in Ee. apply Z.ltb_ge in Ee.
    inversion Hint. lia.
Qed.

(** C4, as the code has it: [Touch] to a smaller size [size], for an
    inode whose size and whose live chunks' ends are below 2^63 (the sum
    [inodeoffset + size] of the query is a BIGINT).  A live chunk that
    starts at or after [size] and extends past it is orphaned; a live chunk that starts
    before [size] and extends past it is cut to [size - inode_offset], its
    object offset unchanged; a live chunk that ends within [size] stays;
    the total size of the stats goes down by the difference; afterwards no
    live chunk of the inode ends after [size].  The scenario "truncate
    down with split boundary" is the second part. *)
Theorem Touch_truncate :
  (forall now inode size mode atime mtime uid gid db i,
      find (fun r => iID r =? inode) (inodes db) = Some i ->
      chunks_pk db -> scannable inode db -> ends_fit inode db ->
      0 <= size < iSize i -> iSize i < 2 ^ 63 ->
      iSize i - size <= sSize (stats db) < 2 ^ 64 ->
      exists db',
        Touch now inode (Some size) mode atime mtime uid gid db =
        (inr (set_attrs size mode atime mtime uid gid i), db') /\
        (forall r a s,
            In r (chunks db) -> r_inode r = Some inode ->
            r_inodeoffset r = Some a -> r_size r = Some s ->
            (size <= a -> size < a + s -> In (orphaned now r) (chunks db')) /\
            (a < size -> size < a + s -> In (resized (size - a) r) (chunks db')) /\
            (a + s <= size -> In r (chunks db'))) /\
        sSize (stats db') = sSize (stats db) - (iSize i - size) /\
        (forall r a b, In r (live_chunks inode db') ->
                       interval r = Some (a, b) -> b <= size) /\
        Get None inode db' =
        inr (touched (set_attrs size mode atime mtime uid gid i) now i)) /\
  (live_chunks 2 two_chunk_db =
   [new_row 1 2 "s3" "a" 0 0 50; new_row 2 2 "s3" "b" 0 50 50] /\
   exists i' db',
     Touch 9 2 (Some 60) None None None None None two_chunk_db = (inr i', db') /\
     iSize i' = 60 /\
     chunks db' = [new_row 1 2 "s3" "a" 0 0 50; new_row 2 2 "s3" "b" 0 50 10] /\
     sSize (stats db') = sSize (stats two_chunk_db) - 40).
Proof.
  split.
  - intros now inode size mode atime mtime uid gid db i Hfind Hpk Hscan Hfit Hsz Hmax Hst.
    destruct (find_inode_id _ _ _ Hfind) as [Hid _].
    exists (after_truncate now i size mode atime mtime uid gid db).
    split; [|split; [|split; [|split]]].
    + apply Touch_shrink_commit; try assumption; lia.
    + intros r a s Hr Hlive Ha Hs.
      pose proof (extends_past_true inode size r a s Hlive Ha Hs) as He.
      pose proof (scanned_offset inode r a Ha) as Ho.
      assert (Hpos : 0 <= a).
      { destruct (Hscan r) as (st & k & oo & io & sz & _ & _ & _ & E & _ & _ & P & _).
        - apply filter_In. split; [assumption | apply live_in_inode; assumption].
        - congruence. }
      unfold after_truncate. simpl chunks. rewrite Hid.
      split; [|split]; intros H1; [intros H2 | intros H2 |].
      * replace (orphaned now r) with (truncated now inode size r);
          [apply in_map; assumption|].
        unfold truncated. rewrite He, Ho.
        replace (size <? a + s) with true by (symmetry; apply Z.ltb_lt; lia).
        replace (a <? size) with false by (symmetry; apply Z.ltb_ge; lia).
        reflexivity.
      * replace (resized (size - a) r) with (truncated now inode size r);
          [apply in_map; assumption|].
        unfold truncated. rewrite He, Ho.
        replace (size <? a + s) with true by (symmetry; apply Z.ltb_lt; lia).
        replace (a <? size) with true by (symmetry; apply Z.ltb_lt; lia).
        rewrite wrap64_small by lia. reflexivity.
      * replace r with (truncated now inode size r) at 1;
          [apply in_map; assumption|].
        unfold truncated. rewrite He.
        replace (size <? a + s) with false by (symmetry; apply Z.ltb_ge; lia).
        reflexivity.
    + reflexivity.
    + intros r' a b Hin Hint. apply filter_In in Hin. destruct Hin as [Hin Hlive].
      unfold after_truncate in Hin. simpl chunks in Hin. rewrite Hid in Hin.
      apply in_map_iff in Hin. destruct Hin as (r & <- & Hr).
      apply (truncated_ends now inode size r a b); try assumption; try lia.
      intros x Hx.
      destruct (live_in inode r) eqn:El.
      * destruct (Hscan r) as (st & k & oo & io & sz & _ & _ & _ & E & _ & _ & P & _).
        { apply filter_In. auto. }
        congruence.
      * exfalso. unfold truncated in Hlive.
        assert (extends_past inode size r = false).
        { destruct (extends_past inode size r) eqn:Ee; [|reflexivity].
          apply extends_past_live in Ee. congruence. }
        rewrite H in Hlive. congruence.
    + unfold Get, query_row, after_truncate. simpl inodes. rewrite Hid.
      rewrite (find_updated_inode inode
                 (touched (set_attrs size mode atime mtime uid gid i) now) _ i);
        auto.
  - split; [reflexivity|]. eexists. eexists. repeat split.
Qed.

Lemma Touch_truncate_witness :
  exists db',
    Touch 9 2 (Some 60) None None None None None two_chunk_db =
    (inr (mkInode 2 420 0 0 "" 60 1 3 3 3 1), db') /\
    sSize (stats db') = 60 /\
    In (new_row 2 2 "s3" "b" 0 50 10) (chunks db').
Proof.
  destruct (proj1 Touch_truncate 9 2 60 None None None None None two_chunk_db
              (mkInode 2 420 0 0 "" 100 1 3 3 3 1))
    as (db' & Hrun & Hrows & Hstats & _ & _).
  - reflexivity.
  - split.
    + vm_compute. repeat constructor; simpl; intuition discriminate.
    + intros r Hr. vm_compute in Hr.
      destruct Hr as [<- | [<- | []]]; vm_compute; reflexivity.
  - intros r Hr. vm_compute in Hr. destruct Hr as [<- | [<- | []]].
    + exists "s3"%string, "a"%string, 0, 0, 50. simpl. repeat split; lia.
    + exists "s3"%string, "b"%string, 0, 50, 50. simpl. repeat split; lia.
  - intros r io sz Hr Hio Hsz. vm_compute in Hr.
    destruct Hr as [<- | [<- | []]]; simpl in Hio, Hsz;
      inversion Hio; inversion Hsz; lia.
  - simpl. lia.
  - simpl. lia.
  - vm_compute. split; [discriminate | reflexivity].
  - exists db'. split; [exact Hrun|]. split.
    + rewrite Hstats. reflexivity.
    + destruct (Hrows (new_row 2 2 "s3" "b" 0 50 50) 50 50) as (_ & Hcut & _);
        try reflexivity.
      * vm_compute. auto.
      * apply Hcut; lia.
Defined.

(** C4, as it is stated, fails for an empty chunk: in [empty_chunk_db] a
    live chunk of size 0 starts at 60; [Touch] to the size 60 commits, and
    the chunk is still live: the query of [Touch] selects the chunks that
    extend past the new size. *)
Lemma Touch_keeps_empty_chunk :
  reachable empty_chunk_db /\
  In (new_row 2 2 "s3" "z" 0 60 0) (live_chunks 2 empty_chunk_db) /\
  Get None 2 empty_chunk_db = inr (mkInode 2 420 0 0 "" 100 1 3 3 3 1) /\
  exists i' db',
    Touch 9 2 (Some 60) None None None None None empty_chunk_db = (inr i', db') /\
    In (new_row 2 2 "s3" "z" 0 60 0) (live_chunks 2 db') /\
    ~ In (orphaned 9 (new_row 2 2 "s3" "z" 0 60 0)) (chunks db').
Proof.
  split; [|split; [|split]].
  - unfold empty_chunk_db, one_chunk_db, fresh_db.
    repeat apply reach_step. apply reach_setup.
  - vm_compute. auto.
  - reflexivity.
  - eexists. eexists. split; [reflexivity|]. split.
    + vm_compute. auto.
    + vm_compute. intuition discriminate.
Qed.

(** The file of [huge_file_db] has 2^63 bytes and its second chunk ends
    at 2^63: the sum [inodeoffset + size] of the query of [Touch] leaves
    the range of BIGINT, the query fails and nothing is truncated. *)
Lemma Touch_truncate_out_of_range :
  reachable huge_file_db /\
  live_chunks 2 huge_file_db =
  [new_row 1 2 "zero" "" 0 0 (2 ^ 62); new_row 2 2 "s3" "a" 0 (2 ^ 62) (2 ^ 62)] /\
  Get None 2 huge_file_db = inr (mkInode 2 420 0 0 "" (2 ^ 63) 1 2 2 2 1) /\
  Touch 9 2 (Some 60) None None None None None huge_file_db
  = (inl (Sql ErrOutOfRange), huge_file_db).
Proof.
  split; [|split; [|split]].
  - unfold huge_file_db, fresh_db. repeat apply reach_step. apply reach_setup.
  - vm_compute. reflexivity.
  - vm_compute. reflexivity.
  - vm_compute. reflexivity.
Qed.

(** ** Non-overlap *)

Lemma FOP_app {A} (R : A -> A -> Prop) l1 l2 :
  ForallOrdPairs R l1 -> ForallOrdPairs R l2 ->
  (forall x y, In x l1 -> In y l2 -> R x y) ->
  ForallOrdPairs R (l1 ++ l2).
Proof.
  induction l1 as [|a l1 IH]; simpl; intros H1 H2 Hc; [assumption|].
  inversion H1 as [|x l Ha Hl]. subst.
  constructor.
  - apply Forall_app. split; [assumption|].
    apply Forall_forall. intros y Hy. apply Hc; auto.
  - apply IH; auto.
Qed.

Lemma FOP_filter {A} (R : A -> A -> Prop) p l :
  ForallOrdPairs R l -> ForallOrdPairs R (filter p l).
Proof.
  induction 1 as [|a l Ha Hl IH]; simpl; [constructor|].
  destruct (p a); [|assumption].
  constructor; [|assumption].
  apply Forall_forall. intros y Hy. apply filter_In in Hy.
  rewrite Forall_forall in Ha. apply Ha. tauto.
Qed.

Lemma FOP_map_in {A B} (R : A -> A -> Prop) (R' : B -> B -> Prop) f l :
  (forall x y, In x l -> In y l -> R x y -> R' (f x) (f y)) ->
  ForallOrdPairs R l -> ForallOrdPairs R' (map f l).
Proof.
  intros Hf H. induction H as [|a l Ha Hl IH]; simpl; [constructor|].
  constructor.
  - apply Forall_forall. intros y Hy. apply in_map_iff in Hy.
    destruct Hy as (x & <- & Hx). rewrite Forall_forall in Ha.
    apply Hf; simpl; auto.
  - apply IH. intros x y Hx Hy. apply Hf; simpl; auto.
Qed.

(** Rows that only shrink, or leave the list, stay pairwise related. *)
Lemma FOP_filter_map {A} (R : A -> A -> Prop) (p : A -> bool) f l :
  (forall x, In x l -> p (f x) = true -> p x = true) ->
  (forall x y, In x l -> In y l -> R x y -> R (f x) (f y)) ->
  ForallOrdPairs R (filter p l) ->
  ForallOrdPairs R (filter p (map f l)).
Proof.
  intros Hp Hf. induction l as [|a l IH]; simpl; intros H; [constructor|].
  assert (Htail : ForallOrdPairs R (filter p l)).
  { destruct (p a); [inversion H; assumption | assumption]. }
  assert (IH' : ForallOrdPairs R (filter p (map f l))).
  { apply IH; auto.
    - intros x Hx. apply Hp. simpl. auto.
    - intros x y Hx Hy. apply Hf; simpl; auto. }
  destruct (p (f a)) eqn:E; [|assumption].
  assert (Ea : p a = true) by (apply Hp; simpl; auto).
  rewrite Ea in H. inversion H as [|x l' Ha Hl]. subst.
  constructor; [|assumption].
  apply Forall_forall. intros y Hy. apply filter_In in Hy.
  destruct Hy as [Hy Hpy]. apply in_map_iff in Hy. destruct Hy as (x & <- & Hx).
  apply Hf; simpl; auto.
  rewrite Forall_forall in Ha. apply Ha. apply filter_In. split; [assumption|].
  apply Hp; simpl; auto.
Qed.

Lemma disjoint_rows_sym r1 r2 : disjoint_rows r1 r2 -> disjoint_rows r2 r1.
Proof.
  unfold disjoint_rows. intros H a1 b1 a2 b2 H1 H2 x [Hx1 Hx2].
  apply (H a2 b2 a1 b1 H2 H1 x). tauto.
Qed.

Lemma disjoint_within r1 r2 r1' r2' :
  disjoint_rows r1 r2 -> within r1' r1 -> within r2' r2 ->
  disjoint_rows r1' r2'.
Proof.
  unfold disjoint_rows, within. intros H W1 W2 a1 b1 a2 b2 H1 H2 x [Hx1 Hx2].
  destruct (W1 _ _ H1) as (a1' & b1' & E1 & ? & ?).
  destruct (W2 _ _ H2) as (a2' & b2' & E2 & ? & ?).
  apply (H _ _ _ _ E1 E2 x). lia.
Qed.

Lemma within_refl r : within r r.
Proof. intros a b H. exists a, b. repeat split; [assumption | lia | lia]. Qed.

Lemma no_interval_disjoint r1 r2 : interval r1 = None -> disjoint_rows r1 r2.
Proof. intros H a1 b1 a2 b2 H1. congruence. Qed.

Lemma no_interval_within r' r : interval r' = None -> within r' r.
Proof. intros H a b H1. congruence. Qed.

(** Two distinct rows of a pairwise disjoint list are disjoint. *)
Lemma FOP_disjoint_In l r1 r2 :
  ForallOrdPairs disjoint_rows l -> In r1 l -> In r2 l ->
  r1 = r2 \/ disjoint_rows r1 r2.
Proof.
  intros H H1 H2.
  destruct (ForallOrdPairs_In H _ _ H1 H2) as [E | [D | D]]; auto.
  right. apply disjoint_rows_sym. assumption.
Qed.

Lemma interval_new_row id inode st k oo a s :
  interval (new_row id inode st k oo a s) = Some (a, a + s).
Proof. reflexivity. Qed.

Lemma new_rows_FOP n inode cs :
  ForallOrdPairs disjoint_chunks cs ->
  ForallOrdPairs disjoint_rows (new_rows n inode cs).
Proof.
  intros H. revert n. induction H as [|c cs Hc Hcs IH]; intros n; simpl;
    [constructor|].
  constructor; [|apply IH].
  apply Forall_forall. intros r Hr.
  assert (Hsrc : exists c', In c' cs /\
            interval r = Some (cInodeOffset c', cInodeOffset c' + cSize c')).
  { clear - Hr. revert Hr. generalize (n + 1). induction cs as [|c0 cs IH];
      simpl; intros m Hr; [contradiction|].
    destruct Hr as [<- | Hr]; [exists c0; auto|].
    destruct (IH _ Hr) as (c' & Hin & Hi). exists c'. auto. }
  destruct Hsrc as (c' & Hin & Hi).
  rewrite Forall_forall in Hc. specialize (Hc c' Hin).
  intros a1 b1 a2 b2 H1 H2 x Hx.
  rewrite interval_new_row in H1. rewrite Hi in H2.
  inversion H1. inversion H2. subst. apply (Hc x). exact Hx.
Qed.

Lemma new_rows_source n inode cs r :
  In r (new_rows n inode cs) ->
  exists c, In c cs /\ r_inode r = Some inode /\
            interval r = Some (cInodeOffset c, cInodeOffset c + cSize c).
Proof.
  revert n. induction cs as [|c0 cs IH]; simpl; intros n Hr; [contradiction|].
  destruct Hr as [<- | Hr]; [exists c0; auto|].
  destruct (IH _ Hr) as (c & Hin & Hl & Hi). exists c. auto.
Qed.

Lemma filter_all {A} (p : A -> bool) l :
  (forall a, In a l -> p a = true) -> filter p l = l.
Proof.
  intros H. apply forallb_filter_id. apply forallb_forall. assumption.
Qed.

Lemma transaction_ok_inv {A} (m : Tx A) db a db' :
  transaction m db = (inr a, db') -> m db = (inr a, db').
Proof.
  unfold transaction. destruct (m db) as [[e|a'] d]; [discriminate | auto].
Qed.

(** A committed [AddChunk] found the inode, scanned the rows it selected
    and left [after_AddChunk]. *)
Lemma AddChunk_inv now inode flags chunk db u db' :
  AddChunk now inode flags chunk db = (inr u, db') ->
  chunks_pk db -> sizes_typed db ->
  (forall i, find (fun r => iID r =? inode) (inodes db) = Some i ->
             0 <= cInodeOffset (written flags i chunk) < 2 ^ 64) ->
  exists i,
    find (fun r => iID r =? inode) (inodes db) = Some i /\
    db' = after_AddChunk now i (written flags i chunk) db /\
    forall r, In r (chunks db) ->
              selected inode (written flags i chunk) r = true ->
              scan_chunk inode r = inr (scanned inode r).
Proof.
  intros H Hpk Htyped Hoff.
  unfold AddChunk in H. apply transaction_ok_inv in H.
  apply bind_inv in H. destruct H as (i & d1 & Hi & H).
  apply treat_inv, getInode_inv in Hi. destruct Hi as [-> Hfind].
  pose proof (find_inode_exists _ _ _ Hfind) as Hex.
  destruct (find_inode_id _ _ _ Hfind) as [Hid Hin].
  specialize (Hoff i Hfind). specialize (Htyped i Hin).
  destruct Hpk as [Hnd Hlt].
  subst inode.
  set (w := written flags i chunk) in *.
  cbv zeta in H.
  change (if negb (Z.land flags O_APPEND =? 0)
          then set_InodeOffset (iSize i) chunk
          else chunk) with w in H.
  change (overlapping (iID i) (wrap64 (cInodeOffset w + cSize w)) (cInodeOffset w))
    with (selected (iID i) w) in H.
  apply bind_inv in H. destruct H as (u1 & d2 & Hgap & H).
  apply gap_step_inv in Hgap. subst d2.
  apply bind_inv in H. destruct H as (rows & d3 & Hq & H).
  apply treat_inv, query_chunks_inv in Hq. destruct Hq as (-> & _ & Hscan).
  simpl chunks in Hscan.
  rewrite filter_app, gap_not_selected, app_nil_r in Hscan by lia.
  pose proof (scan_all_scanned _ _ _ Hscan) as ->.
  rewrite splice_lists_of in H.
  simpl chunksToBeUpdated in H. simpl chunksToBeInserted in H.
  simpl chunksToBeDeleted in H.
  apply bind_inv in H. destruct H as (u2 & d4 & Hupd & H).
  apply forEach_update_chunk_inv in Hupd. subst d4.
  apply bind_inv in H. destruct H as (u3 & d5 & Hins & H).
  apply forEach_insert_chunk_inv in Hins. destruct Hins as [-> _].
  apply bind_inv in H. destruct H as (u4 & d6 & Hst & H).
  fold (new_size i w) in Hst, H. simpl stats in Hst.
  pose proof (Max_ge (iSize i) (wrap64 (cInodeOffset w + cSize w))) as Hge.
  pose proof (wrap64_range (cInodeOffset w + cSize w)) as Hwr.
  fold (new_size i w) in Hge.
  assert (Hns : new_size i w < 2 ^ 64).
  { unfold new_size. destruct (Max_cases (iSize i) (wrap64 (cInodeOffset w + cSize w)))
      as [[_ ->] | [_ ->]]; lia. }
  apply bind_inv in H. destruct H as (u5 & d7 & Hino & H).
  apply treat_inv, modify_inv in Hino. subst d7.
  rewrite orphan_step in H. inversion H. subst u db'. clear H.
  exists i. split; [assumption|]. split.
  - match type of Hst with _ ?d = _ => set (d5 := d) in * end.
    assert (Hd6 : d6 = set_stats (if new_size i w =? iSize i
                                  then stats db
                                  else mkStats (sInodes (stats db))
                                               (sSize (stats db)
                                                + (new_size i w - iSize i))) d5).
    { destruct (new_size i w =? iSize i) eqn:E; simpl negb in Hst; cbv iota in Hst.
      - apply ret_inv in Hst. destruct Hst as [_ ->]. reflexivity.
      - apply treat_inv in Hst. unfold stats_add_size in Hst.
        destruct (in_range 64 _); [|discriminate].
        inversion Hst. unfold d5. simpl.
        rewrite wrap64_small by (apply Z.eqb_neq in E; lia).
        reflexivity. }
    subst d6. unfold d5.
    unfold after_AddChunk, set_chunks, set_inodes, set_stats, right_pieces. simpl.
    f_equal.
    rewrite fold_updates_map.
    apply spliced_table with (n := next_chunk db); try assumption.
    + intros r Hr. apply gap_rows_ids in Hr. lia.
    + intros r Hr.
      apply (new_rows_ids _ (iID i) (w :: right_pieces (iID i) w db)) in Hr. lia.
  - intros r Hr Hsel. eapply scan_all_each; [exact Hscan|].
    apply filter_In. auto.
Qed.

(** A committed [AddChunk] inserted the chunk: its offsets and its size
    fit the columns. *)
Lemma AddChunk_written_fits now inode flags chunk db u db' i :
  AddChunk now inode flags chunk db = (inr u, db') ->
  find (fun r => iID r =? inode) (inodes db) = Some i ->
  chunk_fits (written flags i chunk) = true.
Proof.
  intros H Hfind.
  unfold AddChunk in H. apply transaction_ok_inv in H.
  apply bind_inv in H. destruct H as (i0 & d1 & Hi & H).
  apply treat_inv, getInode_inv in Hi. destruct Hi as [-> Hfind0].
  assert (i0 = i) by congruence. subst i0.
  set (w := written flags i chunk) in *.
  cbv zeta in H.
  change (if negb (Z.land flags O_APPEND =? 0)
          then set_InodeOffset (iSize i) chunk
          else chunk) with w in H.
  apply bind_inv in H. destruct H as (u1 & d2 & _ & H).
  apply bind_inv in H. destruct H as (rows & d3 & _ & H).
  rewrite fold_splice_step in H.
  simpl chunksToBeUpdated in H. simpl chunksToBeInserted in H.
  apply bind_inv in H. destruct H as (u2 & d4 & _ & H).
  apply bind_inv in H. destruct H as (u3 & d5 & Hins & _).
  apply forEach_insert_chunk_inv in Hins. destruct Hins as [_ Hfit].
  simpl in Hfit. apply andb_true_iff in Hfit. tauto.
Qed.

(** *** The rows after a write *)

Lemma spliced_live now inode w j r :
  live_in j (spliced now inode w r) = true -> live_in j r = true.
Proof.
  unfold spliced.
  destruct (selected inode w r); [|auto].
  destruct (covered w (scanned inode r)); [discriminate | auto].
Qed.

Lemma truncated_live now inode size j r :
  live_in j (truncated now inode size r) = true -> live_in j r = true.
Proof.
  unfold truncated.
  destruct (extends_past inode size r); [|auto].
  destruct (cInodeOffset (scanned inode r) <? size); [auto | discriminate].
Qed.

Lemma selected_inv inode w r :
  selected inode w r = true ->
  exists a s, r_inode r = Some inode /\ r_inodeoffset r = Some a /\ r_size r = Some s /\
              a < wrap64 (cInodeOffset w + cSize w) /\ cInodeOffset w < a + s.
Proof.
  unfold selected, overlapping.
  destruct (r_inode r) as [x|]; [|discriminate].
  destruct (r_inodeoffset r) as [a|]; [|discriminate].
  destruct (r_size r) as [s|]; [|discriminate].
  intros H. apply andb_true_iff in H. destruct H as [H H3].
  apply andb_true_iff in H. destruct H as [H1 H2].
  apply Z.eqb_eq in H1. apply Z.ltb_lt in H2, H3. subst.
  exists a, s. auto.
Qed.

Lemma unselected_disjoint inode w r a b :
  0 <= cInodeOffset w + cSize w < 2 ^ 64 ->
  selected inode w r = false -> live_in inode r = true ->
  interval r = Some (a, b) ->
  b <= cInodeOffset w \/ cInodeOffset w + cSize w <= a.
Proof.
  intros Hend Hsel Hlive Hint. apply live_in_inode in Hlive.
  unfold selected, overlapping in Hsel. unfold interval in Hint.
  rewrite Hlive in Hsel.
  destruct (r_inodeoffset r) as [x|]; [|discriminate].
  destruct (r_size r) as [s|]; [|discriminate].
  inversion Hint. subst. rewrite Z.eqb_refl in Hsel. simpl in Hsel.
  rewrite wrap64_small in Hsel by lia.
  apply andb_false_iff in Hsel. destruct Hsel as [H | H];
    apply Z.ltb_ge in H; lia.
Qed.

Section Splice.

Variables (now inode : Z) (w : Chunk) (i : Inode) (db : DB).

Hypothesis Hid : iID i = inode.
Hypothesis Hoff : 0 <= cInodeOffset w.
Hypothesis Hlen : 0 <= cSize w.
Hypothesis Hend : cInodeOffset w + cSize w < 2 ^ 64.
Hypothesis Hsz : 0 <= iSize i < 2 ^ 64.
Hypothesis Hscan :
  forall r, In r (chunks db) -> selected inode w r = true ->
            scan_chunk inode r = inr (scanned inode r).
Hypothesis Hcont :
  forall r a b, In r (chunks db) -> live_in inode r = true ->
                interval r = Some (a, b) -> b <= iSize i.

(** What a selected row is, and what is left of it. *)
Lemma selected_row r :
  In r (chunks db) -> selected inode w r = true ->
  exists a s,
    r_inodeoffset r = Some a /\ r_size r = Some s /\
    cInodeOffset (scanned inode r) = a /\ cSize (scanned inode r) = s /\
    0 <= a /\ 0 <= s /\ a + s < 2 ^ 64 /\
    a < cInodeOffset w + cSize w /\ cInodeOffset w < a + s /\
    0 <= cObjectOffset (scanned inode r).
Proof.
  intros Hin Hsel.
  destruct (scan_chunk_nonneg _ _ _ (Hscan r Hin Hsel))
    as (_ & E2 & E3 & _ & _ & P1 & P2 & P3).
  destruct (selected_inv _ _ _ Hsel) as (a & s & Hl & Ha & Hs & Hlt & Hgt).
  rewrite wrap64_small in Hlt by lia.
  assert (Hb : a + s <= iSize i).
  { apply (Hcont r a (a + s)); auto.
    - apply live_in_inode. assumption.
    - unfold interval. now rewrite Ha, Hs. }
  exists a, s.
  assert (cInodeOffset (scanned inode r) = a) by congruence.
  assert (cSize (scanned inode r) = s) by congruence.
  repeat split; try assumption; lia.
Qed.

Lemma spliced_selected r :
  In r (chunks db) -> selected inode w r = true ->
  forall a s, r_inodeoffset r = Some a -> r_size r = Some s ->
  interval (spliced now inode w r) = None \/
  exists a' b',
    interval (spliced now inode w r) = Some (a', b') /\
    a <= a' /\ b' <= a + s /\
    (b' <= cInodeOffset w \/ cInodeOffset w + cSize w <= a') /\
    (a < cInodeOffset w -> b' <= cInodeOffset w).
Proof.
  intros Hin Hsel a s Ha Hs.
  destruct (selected_row r Hin Hsel)
    as (a0 & s0 & Ha0 & Hs0 & Ea & Es & P1 & P2 & P3 & P4 & P5 & P6).
  assert (Hea : a0 = a) by congruence. assert (Hes : s0 = s) by congruence.
  rewrite Hea, Hes in *. clear Hea Hes Ha0 Hs0.
  unfold spliced. rewrite Hsel.
  destruct (covered w (scanned inode r)) eqn:Ec; [left; reflexivity|].
  right. unfold covered in Ec. rewrite Ea, Es in Ec.
  rewrite !wrap64_small in Ec by lia.
  unfold write_back, interval, trimmed. simpl.
  change (with_opt (r_inodeoffset r) 0) with (cInodeOffset (scanned inode r)).
  change (with_opt (r_size r) 0) with (cSize (scanned inode r)).
  rewrite Ea, Es. rewrite !(wrap64_small (cInodeOffset w + cSize w)) by lia.
  rewrite !(wrap64_small (a + s)) by lia.
  destruct (a <? cInodeOffset w) eqn:El.
  - apply Z.ltb_lt in El. rewrite wrap64_small by lia.
    exists a, (a + (cInodeOffset w - a)). split; [reflexivity|]. lia.
  - apply Z.ltb_ge in El.
    apply andb_false_iff in Ec. destruct Ec as [Ec | Ec];
      [apply Z.leb_gt in Ec; lia|]. apply Z.leb_gt in Ec.
    rewrite wrap64_small by lia.
    eexists. eexists. split; [reflexivity|]. lia.
Qed.

Lemma spliced_within r : In r (chunks db) -> within (spliced now inode w r) r.
Proof.
  intros Hin.
  destruct (selected inode w r) eqn:Hsel.
  - destruct (selected_row r Hin Hsel) as (a & s & Ha & Hs & _).
    destruct (spliced_selected r Hin Hsel a s Ha Hs)
      as [Hn | (a' & b' & Hi & H1 & H2 & _)].
    + apply no_interval_within. assumption.
    + intros x y Hxy. rewrite Hi in Hxy. inversion Hxy. subst.
      exists a, (a + s). unfold interval. rewrite Ha, Hs. auto.
  - unfold spliced. rewrite Hsel. apply within_refl.
Qed.

(** A row that is left is disjoint from the written interval. *)
Lemma spliced_off_write r a b :
  In r (chunks db) -> live_in inode (spliced now inode w r) = true ->
  interval (spliced now inode w r) = Some (a, b) ->
  b <= cInodeOffset w \/ cInodeOffset w + cSize w <= a.
Proof.
  intros Hin Hlive Hint.
  destruct (selected inode w r) eqn:Hsel.
  - destruct (selected_row r Hin Hsel) as (a0 & s0 & Ha & Hs & _).
    destruct (spliced_selected r Hin Hsel a0 s0 Ha Hs)
      as [Hn | (a' & b' & Hi & _ & _ & H & _)]; [congruence|].
    rewrite Hi in Hint. inversion Hint. subst. assumption.
  - unfold spliced in *. rewrite Hsel in *.
    apply (unselected_disjoint inode w r); auto. lia.
Qed.

(** The row of a right half. *)
Lemma right_piece_interval r :
  In r (chunks db) -> selected inode w r = true ->
  strictly_contains w (scanned inode r) = true ->
  exists a s,
    r_inodeoffset r = Some a /\ r_size r = Some s /\
    a < cInodeOffset w /\ cInodeOffset w + cSize w < a + s /\
    cInodeOffset (right_piece w (scanned inode r)) = cInodeOffset w + cSize w /\
    cInodeOffset (right_piece w (scanned inode r))
    + cSize (right_piece w (scanned inode r)) = a + s.
Proof.
  intros Hin Hsel Hsc.
  destruct (selected_row r Hin Hsel)
    as (a & s & Ha & Hs & Ea & Es & P1 & P2 & P3 & P4 & P5 & P6).
  unfold strictly_contains in Hsc. rewrite Ea, Es in Hsc.
  rewrite !wrap64_small in Hsc by lia.
  apply andb_true_iff in Hsc. destruct Hsc as [H1 H2].
  apply Z.ltb_lt in H1, H2.
  exists a, s. repeat split; try assumption.
  - unfold right_piece. simpl. apply wrap64_small. lia.
  - unfold right_piece. cbn [cInodeOffset cSize].
    change (with_opt (r_inodeoffset r) 0) with (cInodeOffset (scanned inode r)).
    change (with_opt (r_size r) 0) with (cSize (scanned inode r)).
    rewrite Ea, Es.
    rewrite (wrap64_small (cInodeOffset w + cSize w)) by lia.
    rewrite (wrap64_small (a + s)) by lia.
    rewrite wrap64_small by lia. lia.
Qed.

Lemma right_pieces_source c :
  In c (right_pieces inode w db) ->
  exists r, In r (chunks db) /\ selected inode w r = true /\
            strictly_contains w (scanned inode r) = true /\
            c = right_piece w (scanned inode r).
Proof.
  unfold right_pieces. intros H. apply in_map_iff in H.
  destruct H as (c0 & <- & H). apply filter_In in H. destruct H as [H Hsc].
  apply in_map_iff in H. destruct H as (r & <- & H).
  apply filter_In in H. destruct H as [Hin Hsel].
  exists r. auto.
Qed.


(** The rows that the write adds: the zero-fill row, the row of the
    chunk and the right halves. *)
Lemma added_rows n y :
  In y (gap_rows i w db ++ new_rows n inode (w :: right_pieces inode w db)) ->
  r_inode y = Some inode /\
  ((iSize i < cInodeOffset w /\ interval y = Some (iSize i, cInodeOffset w)) \/
   interval y = Some (cInodeOffset w, cInodeOffset w + cSize w) \/
   exists r a s,
     In r (chunks db) /\ selected inode w r = true /\
     r_inodeoffset r = Some a /\ r_size r = Some s /\
     a < cInodeOffset w /\ cInodeOffset w + cSize w < a + s /\
     interval y = Some (cInodeOffset w + cSize w, a + s)).
Proof.
  intros Hy. apply in_app_or in Hy. destruct Hy as [Hy | Hy].
  - unfold gap_rows in Hy.
    destruct (iSize i <? cInodeOffset w) eqn:E; [|contradiction].
    apply Z.ltb_lt in E. destruct Hy as [<- | []].
    split; [simpl; now rewrite Hid|]. left. split; [assumption|].
    rewrite interval_new_row. rewrite wrap64_small by lia. f_equal. f_equal. lia.
  - apply new_rows_source in Hy. destruct Hy as (c & Hc & Hl & Hi).
    split; [assumption|]. right.
    destruct Hc as [<- | Hc]; [left; assumption|]. right.
    destruct (right_pieces_source c Hc) as (r & Hr & Hsel & Hsc & ->).
    destruct (right_piece_interval r Hr Hsel Hsc)
      as (a & s & Ha & Hs & H1 & H2 & E1 & E2).
    exists r, a, s. rewrite Hi, E2, E1. repeat split; assumption.
Qed.

(** The added rows are pairwise disjoint, when the chunks of the inode
    were. *)
Lemma added_rows_disjoint n :
  ForallOrdPairs disjoint_rows (filter (live_in inode) (chunks db)) ->
  ForallOrdPairs disjoint_rows
    (gap_rows i w db ++ new_rows n inode (w :: right_pieces inode w db)).
Proof.
  intros H. apply FOP_app.
  - unfold gap_rows. destruct (iSize i <? cInodeOffset w); repeat constructor.
  - apply new_rows_FOP. constructor.
    + apply Forall_forall. intros c Hc.
      destruct (right_pieces_source c Hc) as (r & Hr & Hsel & Hsc & ->).
      destruct (right_piece_interval r Hr Hsel Hsc)
        as (a & s & Ha & Hs & H1 & H2 & E1 & E2).
      intros x Hx. lia.
    + unfold right_pieces.
      rewrite filter_map_swap, map_map.
      apply (FOP_map_in disjoint_rows).
      * intros x y Hx Hy Hd.
        apply filter_In in Hx. destruct Hx as [Hx Hxs].
        apply filter_In in Hx. destruct Hx as [Hx Hxsel].
        apply filter_In in Hy. destruct Hy as [Hy Hys].
        apply filter_In in Hy. destruct Hy as [Hy Hysel].
        destruct (right_piece_interval x Hx Hxsel Hxs)
          as (a1 & s1 & Ha1 & Hs1 & H11 & H12 & _).
        destruct (right_piece_interval y Hy Hysel Hys)
          as (a2 & s2 & Ha2 & Hs2 & H21 & H22 & _).
        exfalso. apply (Hd a1 (a1 + s1) a2 (a2 + s2)) with (x := cInodeOffset w).
        -- unfold interval. now rewrite Ha1, Hs1.
        -- unfold interval. now rewrite Ha2, Hs2.
        -- lia.
      * apply FOP_filter.
        replace (filter (selected inode w) (chunks db))
          with (filter (selected inode w) (filter (live_in inode) (chunks db))).
        -- apply FOP_filter. assumption.
        -- rewrite filter_filter_and. apply filter_ext. intros r.
           destruct (selected inode w r) eqn:E.
           ++ now rewrite (selected_live _ _ _ E).
           ++ apply andb_false_r.
  - intros x y Hx Hy.
    unfold gap_rows in Hx.
    destruct (iSize i <? cInodeOffset w) eqn:E; [|contradiction].
    apply Z.ltb_lt in E. destruct Hx as [<- | []].
    destruct (added_rows n y) as (_ & Hcase).
    { apply in_or_app. right. assumption. }
    intros a1 b1 a2 b2 H1 H2 z Hz.
    rewrite interval_new_row in H1. rewrite wrap64_small in H1 by lia.
    inversion H1. subst a1 b1.
    apply new_rows_source in Hy. destruct Hy as (c & Hc & _ & Hi).
    rewrite Hi in H2. inversion H2. subst a2 b2.
    destruct Hc as [<- | Hc]; [lia|].
    destruct (right_pieces_source c Hc) as (r & Hr & Hsel & Hsc & ->).
    destruct (right_piece_interval r Hr Hsel Hsc)
      as (a & s & Ha & Hs & H11 & H12 & E1 & E2).
    lia.
Qed.

(** Non-overlap after the write. *)
Lemma spliced_non_overlap j n :
  ForallOrdPairs disjoint_rows (filter (live_in j) (chunks db)) ->
  ForallOrdPairs disjoint_rows
    (filter (live_in j)
       (map (spliced now inode w) (chunks db)
        ++ gap_rows i w db ++ new_rows n inode (w :: right_pieces inode w db))).
Proof.
  intros H. rewrite filter_app.
  assert (G1 : ForallOrdPairs disjoint_rows
                 (filter (live_in j) (map (spliced now inode w) (chunks db)))).
  { apply FOP_filter_map; [| |assumption].
    - intros x _. apply spliced_live.
    - intros x y Hx Hy Hd.
      apply (disjoint_within x y); auto using spliced_within. }
  destruct (Z.eq_dec j inode) as [-> | Hne].
  - rewrite (filter_all (live_in inode) (gap_rows i w db ++ _)).
    2:{ intros y Hy. apply live_in_inode. apply (added_rows n y Hy). }
    apply FOP_app; [assumption | apply added_rows_disjoint; assumption |].
    intros x y Hx Hy.
    apply filter_In in Hx. destruct Hx as [Hx Hlive].
    apply in_map_iff in Hx. destruct Hx as (r & <- & Hr).
    pose proof (spliced_live _ _ _ _ _ Hlive) as Hlr.
    destruct (added_rows n y Hy)
      as (_ & [[Hgap Hi] | [Hi | (rc & a & s & Hrc & Hsel & Ha & Hs & H1 & H2 & Hi)]]).
    + (* the zero-fill row *)
      intros a1 b1 a2 b2 I1 I2 z Hz. rewrite Hi in I2. inversion I2. subst a2 b2.
      destruct (spliced_within r Hr _ _ I1) as (a0 & b0 & I0 & ? & ?).
      pose proof (Hcont r a0 b0 Hr Hlr I0). lia.
    + (* the written chunk *)
      intros a1 b1 a2 b2 I1 I2 z Hz. rewrite Hi in I2. inversion I2. subst a2 b2.
      pose proof (spliced_off_write r a1 b1 Hr Hlive I1). lia.
    + (* a right half *)
      assert (Hlrc : live_in inode rc = true) by (apply (selected_live _ w); assumption).
      destruct (FOP_disjoint_In _ r rc H) as [-> | Hd];
        try (apply filter_In; auto).
      * destruct (spliced_selected rc Hrc Hsel a s Ha Hs)
          as [Hn | (a' & b' & I' & _ & _ & _ & Hleft)].
        -- apply no_interval_disjoint. assumption.
        -- intros a1 b1 a2 b2 I1 I2 z Hz. rewrite Hi in I2. rewrite I' in I1.
           inversion I1. inversion I2. subst. specialize (Hleft H1). lia.
      * apply (disjoint_within r rc); auto using spliced_within.
        intros a2 b2 I2. rewrite Hi in I2. inversion I2. subst a2 b2.
        exists a, (a + s). unfold interval. rewrite Ha, Hs.
        split; [reflexivity | lia].
  - rewrite (filter_none (live_in j) (gap_rows i w db ++ _)).
    + now rewrite app_nil_r.
    + intros y Hy. destruct (added_rows n y Hy) as (Hl & _).
      unfold live_in. rewrite Hl. apply Z.eqb_neq. congruence.
Qed.

End Splice.

(** *** The rows after a resize *)

(** A committed [Touch] found the inode, wrote its row, and left the
    chunks as they were, added the zero-fill row, or truncated them. *)
Lemma Touch_cases now inode size mode atime mtime uid gid db i' db' :
  Touch now inode size mode atime mtime uid gid db = (inr i', db') ->
  chunks_pk db ->
  exists i,
    find (fun r => iID r =? inode) (inodes db) = Some i /\
    i' = set_attrs (with_opt size (iSize i)) mode atime mtime uid gid i /\
    inodes db' = map (fun r => if iID r =? inode then touched i' now r else r)
                     (inodes db) /\
    entries db' = entries db /\ xattr db' = xattr db /\
    sInodes (stats db') = sInodes (stats db) /\
    ((with_opt size (iSize i) = iSize i /\ chunks db' = chunks db /\
      sSize (stats db') = sSize (stats db)) \/
     (exists s, size = Some s /\ iSize i < s /\
        chunks db' = chunks db ++ [new_row (next_chunk db) inode "zero" "" 0 (iSize i)
                                           (wrap64 (s - iSize i))] /\
        sSize (stats db') = sSize (stats db) + wrap64 (s - iSize i)) \/
     (exists s, size = Some s /\ s < iSize i /\
        chunks db' = map (truncated now inode s) (chunks db) /\
        sSize (stats db') = sSize (stats db) - wrap64 (iSize i - s) /\
        forall r, In r (chunks db) -> extends_past inode s r = true ->
                  scan_chunk inode r = inr (scanned inode r))).
Proof.
  intros H [Hnd Hlt].
  unfold Touch in H. apply transaction_ok_inv in H.
  apply bind_inv in H. destruct H as (i & d1 & Hi & H).
  apply treat_inv, getInode_inv in Hi. destruct Hi as [-> Hfind].
  destruct (find_inode_id _ _ _ Hfind) as [Hid _]. subst inode.
  exists i. split; [assumption|].
  apply bind_inv in H. destruct H as (res & d2 & Hres & H).
  cbv zeta in H.
  apply bind_inv in H. destruct H as (u1 & d3 & Hu & H).
  apply treat_inv, modify_inv in Hu. subst d3.
  apply bind_inv in H. destruct H as (u2 & d4 & Ho & H).
  rewrite orphan_step in Ho. inversion Ho. subst u2 d4. clear Ho.
  apply ret_inv in H. destruct H as [-> ->].
  simpl inodes. simpl entries. simpl xattr. simpl chunks. simpl stats.
  destruct size as [s|]; simpl with_opt.
  2:{ apply ret_inv in Hres. destruct Hres as [-> ->]. simpl.
      repeat split. left. repeat split. unfold id_in. simpl. apply map_id. }
  destruct (negb (s =? iSize i)) eqn:Ene.
  2:{ apply ret_inv in Hres. destruct Hres as [-> ->]. simpl.
      apply negb_false_iff, Z.eqb_eq in Ene. subst s.
      repeat split. left. repeat split. unfold id_in. simpl. apply map_id. }
  apply negb_true_iff, Z.eqb_neq in Ene.
  destruct (iSize i <? s) eqn:Elt.
  - (* extend *)
    apply Z.ltb_lt in Elt.
    apply bind_inv in Hres. destruct Hres as (v1 & e1 & Hins & Hres).
    apply treat_inv, insert_chunk_inv in Hins. destruct Hins as [-> _].
    apply bind_inv in Hres. destruct Hres as (v2 & e2 & Hst & Hres).
    apply treat_inv in Hst. unfold stats_add_size in Hst.
    destruct (in_range 64 _); [|discriminate].
    inversion Hst. subst v2 e2. clear Hst.
    apply ret_inv in Hres. destruct Hres as [-> ->]. simpl.
    repeat split. right. left. exists s. repeat split; try assumption.
    unfold id_in. simpl. apply map_id.
  - (* truncate *)
    apply Z.ltb_ge in Elt.
    apply bind_inv in Hres. destruct Hres as (rows & e1 & Hq & Hres).
    apply treat_inv, query_chunks_inv in Hq. destruct Hq as (-> & _ & Hscan).
    pose proof (scan_all_scanned _ _ _ Hscan) as ->.
    cbv zeta in Hres.
    apply bind_inv in Hres. destruct Hres as (v1 & e2 & Hupd & Hres).
    apply forEach_update_chunk_size_inv in Hupd. subst e2.
    apply bind_inv in Hres. destruct Hres as (v2 & e3 & Hst & Hres).
    apply treat_inv in Hst. unfold stats_add_size in Hst.
    destruct (in_range 64 _); [|discriminate].
    inversion Hst. subst v2 e3. clear Hst.
    apply ret_inv in Hres. destruct Hres as [-> ->]. simpl.
    repeat split. right. right. exists s.
    split; [reflexivity|]. split; [lia|]. split; [|split].
    + rewrite fold_updates_map.
      rewrite !filter_map_swap, !filter_filter_and.
      rewrite (map_map (scanned (iID i)) cID).
      apply (truncated_table now (iID i) s (chunks db)). assumption.
    + lia.
    + intros r Hr He. eapply scan_all_each; [exact Hscan|].
      apply filter_In. auto.
Qed.

(** A committed [Touch] left the chunks as they were, added the zero-fill
    row, or truncated them. *)
Lemma Touch_inv now inode size mode atime mtime uid gid db i' db' :
  Touch now inode size mode atime mtime uid gid db = (inr i', db') ->
  chunks_pk db ->
  exists i,
    find (fun r => iID r =? inode) (inodes db) = Some i /\
    (chunks db' = chunks db \/
     (exists s, size = Some s /\ iSize i < s /\
        chunks db' = chunks db ++ [new_row (next_chunk db) inode "zero" "" 0 (iSize i)
                                           (wrap64 (s - iSize i))]) \/
     (exists s, size = Some s /\ s < iSize i /\
        chunks db' = map (truncated now inode s) (chunks db) /\
        forall r, In r (chunks db) -> extends_past inode s r = true ->
                  scan_chunk inode r = inr (scanned inode r))).
Proof.
  intros H Hpk.
  destruct (Touch_cases _ _ _ _ _ _ _ _ _ _ _ H Hpk)
    as (i & Hfind & _ & _ & _ & _ & _ & Hcases).
  exists i. split; [assumption|].
  destruct Hcases as [(_ & Hc & _) | [(s & Hs & Hlt & Hc & _) | (s & Hs & Hlt & Hc & _ & Hscan)]].
  - left. assumption.
  - right. left. exists s. auto.
  - right. right. exists s. auto.
Qed.

Lemma truncated_within now inode size r :
  0 <= size < 2 ^ 64 ->
  (extends_past inode size r = true -> scan_chunk inode r = inr (scanned inode r)) ->
  within (truncated now inode size r) r.
Proof.
  intros Hsz Hscan. unfold truncated.
  destruct (extends_past inode size r) eqn:Ee; [|apply within_refl].
  destruct (scan_chunk_nonneg _ _ _ (Hscan eq_refl))
    as (_ & E2 & E3 & _ & _ & _ & P2 & P3).
  remember (cInodeOffset (scanned inode r)) as a eqn:Ha.
  remember (cSize (scanned inode r)) as s eqn:Hs. clear Ha Hs.
  destruct (a <? size) eqn:Ec.
  - apply Z.ltb_lt in Ec.
    unfold extends_past in Ee. rewrite E2, E3 in Ee.
    destruct (r_inode r); [|discriminate].
    apply andb_true_iff in Ee. destruct Ee as [_ Ee]. apply Z.ltb_lt in Ee.
    intros a' b' Hi. unfold interval, resized in Hi.
    cbn [r_inodeoffset r_size] in Hi. rewrite E2 in Hi.
    rewrite wrap64_small in Hi by lia. inversion Hi. subst a' b'.
    exists a, (a + s).
    unfold interval. rewrite E2, E3. split; [reflexivity | lia].
  - apply no_interval_within. reflexivity.
Qed.

Lemma non_overlap_unchanged j db db' :
  chunks db' = chunks db -> non_overlap j db -> non_overlap j db'.
Proof. unfold non_overlap, live_chunks. now intros ->. Qed.

(** *** Non-overlap after a write and after a resize *)

Lemma AddChunk_non_overlap now db j inode flags chunk :
  chunks_pk db -> sizes_typed db -> non_overlap j db -> contained inode db ->
  0 <= cInodeOffset chunk -> 0 <= cSize chunk ->
  (forall i, find (fun r => iID r =? inode) (inodes db) = Some i ->
             cInodeOffset (written flags i chunk) + cSize chunk < 2 ^ 64) ->
  non_overlap j (snd (AddChunk now inode flags chunk db)).
Proof.
  intros Hpk Htyped Hdisjoint Hcont Hoff Hlen Hend.
  destruct (AddChunk now inode flags chunk db) as [[e|u] db'] eqn:Hrun; simpl.
  { apply transaction_rollback in Hrun. now subst. }
  assert (Hw : forall i, find (fun r => iID r =? inode) (inodes db) = Some i ->
                         0 <= cInodeOffset (written flags i chunk) /\
                         cSize (written flags i chunk) = cSize chunk).
  { intros i Hi. destruct (find_inode_id _ _ _ Hi) as [_ Hin].
    specialize (Htyped i Hin). unfold written.
    destruct (negb (Z.land flags O_APPEND =? 0)); simpl; split; auto; lia. }
  destruct (AddChunk_inv _ _ _ _ _ _ _ Hrun Hpk Htyped) as (i & Hfind & -> & Hscan).
  { intros i Hi. specialize (Hend i Hi). specialize (Hw i Hi). lia. }
  destruct (find_inode_id _ _ _ Hfind) as [Hid Hin].
  destruct (Hw i Hfind) as [Hoff' Hlen'].
  unfold non_overlap, live_chunks, after_AddChunk. simpl chunks. rewrite Hid.
  apply (spliced_non_overlap now inode (written flags i chunk) i db);
    try assumption; try lia.
  - rewrite Hlen'. apply Hend. assumption.
  - apply Htyped. assumption.
  - intros r a b Hr Hlive Hint. apply (Hcont i r a b); auto.
    apply filter_In. auto.
Qed.

Lemma Touch_non_overlap now db j inode size mode atime mtime uid gid :
  chunks_pk db -> non_overlap j db -> contained inode db ->
  (forall s, size = Some s -> 0 <= s < 2 ^ 64) ->
  non_overlap j (snd (Touch now inode size mode atime mtime uid gid db)).
Proof.
  intros Hpk Hdisjoint Hcont Hsize.
  destruct (Touch now inode size mode atime mtime uid gid db)
    as [[e|i'] db'] eqn:Hrun; simpl.
  { apply transaction_rollback in Hrun. now subst. }
  destruct (Touch_inv _ _ _ _ _ _ _ _ _ _ _ Hrun Hpk)
    as (i & Hfind & [Hsame | [(s & -> & Hlt & Hch) | (s & -> & Hlt & Hch & Hscan)]]).
  - apply (non_overlap_unchanged j db); assumption.
  - destruct (find_inode_id _ _ _ Hfind) as [Hid Hin].
    unfold non_overlap, live_chunks. rewrite Hch, filter_app.
    apply FOP_app; [assumption | |].
    + simpl. destruct (live_in j _); repeat constructor.
    + intros x y Hx Hy. simpl in Hy.
      destruct (live_in j (new_row _ _ _ _ _ _ _)) eqn:El; [|contradiction].
      destruct Hy as [<- | []].
      apply live_in_inode in El. simpl in El. inversion El. subst j.
      intros a1 b1 a2 b2 I1 I2 z Hz.
      rewrite interval_new_row in I2. inversion I2. subst a2 b2.
      pose proof (Hcont i x a1 b1 Hin Hid Hx I1). lia.
  - unfold non_overlap, live_chunks. rewrite Hch.
    specialize (Hsize s eq_refl).
    apply FOP_filter_map; [| |assumption].
    + intros x _. apply truncated_live.
    + intros x y Hx Hy Hd.
      apply (disjoint_within x y); auto using truncated_within.
Qed.

Lemma two_chunk_db_pk : chunks_pk two_chunk_db.
Proof.
  split.
  - vm_compute. repeat constructor; simpl; intuition discriminate.
  - intros r Hr. vm_compute in Hr.
    destruct Hr as [<- | [<- | []]]; vm_compute; reflexivity.
Qed.


(** ** Containment *)

Lemma live_in_unique j inode r :
  live_in j r = true -> live_in inode r = true -> j = inode.
Proof.
  intros H1 H2. apply live_in_inode in H1. apply live_in_inode in H2. congruence.
Qed.

Lemma scanned_offset_nonneg inode r :
  scan_chunk inode r = inr (scanned inode r) ->
  forall x, r_inodeoffset r = Some x -> 0 <= x.
Proof.
  intros Hs x Hx.
  destruct (scan_chunk_nonneg _ _ _ Hs) as (_ & E2 & _ & _ & _ & _ & P2 & _).
  assert (x = cInodeOffset (scanned inode r)) by congruence. lia.
Qed.

(** [AddChunk] keeps the containment of every inode. *)
Lemma AddChunk_contained now db j inode flags chunk :
  chunks_pk db -> sizes_typed db -> contained j db ->
  0 <= cInodeOffset chunk -> 0 <= cSize chunk ->
  (forall i, find (fun r => iID r =? inode) (inodes db) = Some i ->
             cInodeOffset (written flags i chunk) + cSize chunk < 2 ^ 64) ->
  contained j (snd (AddChunk now inode flags chunk db)).
Proof.
  intros Hpk Htyped Hcont Hoff Hlen Hend.
  destruct (AddChunk now inode flags chunk db) as [[e|u] db'] eqn:Hrun; simpl.
  { apply transaction_rollback in Hrun. now subst. }
  assert (Hw : forall i, find (fun r => iID r =? inode) (inodes db) = Some i ->
                         0 <= cInodeOffset (written flags i chunk) /\
                         cSize (written flags i chunk) = cSize chunk).
  { intros i Hi. destruct (find_inode_id _ _ _ Hi) as [_ Hin].
    specialize (Htyped i Hin). unfold written.
    destruct (negb (Z.land flags O_APPEND =? 0)); simpl; split; auto; lia. }
  destruct (AddChunk_inv _ _ _ _ _ _ _ Hrun Hpk Htyped) as (i & Hfind & -> & Hscan).
  { intros i Hi. specialize (Hend i Hi). specialize (Hw i Hi). lia. }
  destruct (find_inode_id _ _ _ Hfind) as [Hid Hin].
  destruct (Hw i Hfind) as [Hoff' Hlen'].
  specialize (Hend i Hfind). rewrite <- Hlen' in Hend.
  set (w := written flags i chunk) in *.
  intros i' r' a b Hi' Hid' Hr' Hint.
  unfold after_AddChunk in Hi'. simpl inodes in Hi'.
  apply in_map_iff in Hi'. destruct Hi' as (r0 & Hr0 & Hin0).
  unfold live_chunks, after_AddChunk in Hr'. simpl chunks in Hr'.
  apply filter_In in Hr'. destruct Hr' as [Hr' Hlive].
  rewrite Hid in Hr'.
  destruct (Z.eq_dec j inode) as [-> | Hne].
  + (* the inode written *)
    assert (Hc : forall r a b, In r (chunks db) -> live_in inode r = true ->
                               interval r = Some (a, b) -> b <= iSize i).
    { intros r x y Hr Hl Hxy. apply (Hcont i r x y); auto.
      apply filter_In. auto. }
    assert (Hsize : iSize i' = new_size i w).
    { destruct (iID r0 =? iID i) eqn:E; subst i'; [reflexivity|].
      apply Z.eqb_neq in E. congruence. }
    pose proof (Max_ge (iSize i) (wrap64 (cInodeOffset w + cSize w))) as Hge.
    fold (new_size i w) in Hge.
    assert (Hnew : cInodeOffset w + cSize w <= new_size i w).
    { unfold new_size. rewrite wrap64_small by lia.
      destruct (Max_cases (iSize i) (cInodeOffset w + cSize w))
        as [[? ->] | [? ->]]; lia. }
    rewrite Hsize.
    apply in_app_or in Hr'. destruct Hr' as [Hr' | Hr'].
    * apply in_map_iff in Hr'. destruct Hr' as (r & <- & Hr).
      pose proof (spliced_live _ _ _ _ _ Hlive) as Hlr.
      destruct (spliced_within now inode w i db Hid Hoff' ltac:(lia) Hend
                  (Htyped i Hin) Hscan Hc r Hr a b Hint)
        as (a0 & b0 & I0 & ? & ?).
      pose proof (Hc r a0 b0 Hr Hlr I0). lia.
    * destruct (added_rows inode w i db Hid Hoff' ltac:(lia) Hend
                  (Htyped i Hin) Hscan Hc _ r' Hr')
        as (_ & [[Hgap Hi] | [Hi | (rc & x & s & Hrc & Hsel & Hx & Hs & H1 & H2 & Hi)]]);
        rewrite Hi in Hint; inversion Hint; subst a b; try lia.
      assert (x + s <= iSize i); [|lia].
      apply (Hc rc x (x + s)); auto.
      -- apply (selected_live _ w). assumption.
      -- unfold interval. now rewrite Hx, Hs.
  + (* another inode *)
    assert (Hi0 : i' = r0).
    { destruct (iID r0 =? iID i) eqn:E; [|congruence].
      apply Z.eqb_eq in E. subst i'. simpl in Hid'. congruence. }
    rewrite Hi0 in *. clear Hi0 Hr0.
    apply in_app_or in Hr'. destruct Hr' as [Hr' | Hr'].
    * apply in_map_iff in Hr'. destruct Hr' as (r & <- & Hr).
      pose proof (spliced_live _ _ _ _ _ Hlive) as Hlr.
      assert (Hsel : selected inode w r = false).
      { destruct (selected inode w r) eqn:E; [|reflexivity].
        apply selected_live in E. elim Hne. apply (live_in_unique j inode r); auto. }
      unfold spliced in Hint. rewrite Hsel in Hint.
      apply (Hcont r0 r a b); auto. apply filter_In. auto.
    * exfalso. apply Hne.
      assert (Hl : r_inode r' = Some inode).
      { apply in_app_or in Hr'. destruct Hr' as [Hr' | Hr'].
        - unfold gap_rows in Hr'. destruct (iSize i <? cInodeOffset w); [|contradiction].
          destruct Hr' as [<- | []]. simpl. now rewrite Hid.
        - apply (new_rows_source _ inode (w :: right_pieces inode w db)) in Hr'.
          destruct Hr' as (c & _ & Hl & _). exact Hl. }
      apply live_in_inode in Hlive. congruence.
Qed.

(** [Touch] keeps the containment of every inode. *)
Lemma Touch_contained now db j inode size mode atime mtime uid gid :
  chunks_pk db -> sizes_typed db -> contained j db ->
  (forall s, size = Some s -> 0 <= s < 2 ^ 64) ->
  contained j (snd (Touch now inode size mode atime mtime uid gid db)).
Proof.
  intros Hpk Htyped Hcont Hsize.
  destruct (Touch now inode size mode atime mtime uid gid db)
    as [[e|i'] db'] eqn:Hrun; simpl.
  { apply transaction_rollback in Hrun. now subst. }
  destruct (Touch_cases _ _ _ _ _ _ _ _ _ _ _ Hrun Hpk)
    as (i & Hfind & Hi' & Hinodes & _ & _ & _ & Hchunks).
  destruct (find_inode_id _ _ _ Hfind) as [Hid Hin].
  assert (Hsz' : iSize i' = with_opt size (iSize i)) by (rewrite Hi'; reflexivity).
  intros i1 r' a b Hi1 Hid1 Hr' Hint.
  rewrite Hinodes in Hi1. apply in_map_iff in Hi1.
  destruct Hi1 as (r0 & Hr0 & Hin0).
  apply filter_In in Hr'. destruct Hr' as [Hr' Hlive].
  destruct (Z.eq_dec j inode) as [-> | Hne].
  + assert (Hc : forall r a b, In r (chunks db) -> live_in inode r = true ->
                               interval r = Some (a, b) -> b <= iSize i).
    { intros r x y Hr Hl Hxy. apply (Hcont i r x y); auto.
      apply filter_In. auto. }
    assert (Hsize1 : iSize i1 = with_opt size (iSize i)).
    { destruct (iID r0 =? inode) eqn:E; subst i1; [exact Hsz'|].
      apply Z.eqb_neq in E. congruence. }
    rewrite Hsize1.
    destruct Hchunks as [(Hsz0 & Hsame & _) | [(s & -> & Hlt & Hch & _) | (s & -> & Hlt & Hch & _ & Hscan)]].
    * rewrite Hsame in Hr'. rewrite Hsz0. apply (Hc r' a b Hr' Hlive Hint).
    * simpl. rewrite Hch in Hr'. apply in_app_or in Hr'.
      destruct Hr' as [Hr' | [<- | []]].
      -- pose proof (Hc r' a b Hr' Hlive Hint). lia.
      -- rewrite interval_new_row in Hint. inversion Hint. subst a b.
         specialize (Hsize s eq_refl). specialize (Htyped i Hin).
         rewrite wrap64_small by lia. lia.
    * simpl. rewrite Hch in Hr'. apply in_map_iff in Hr'.
      destruct Hr' as (r & <- & Hr).
      specialize (Hsize s eq_refl).
      destruct (extends_past inode s r) eqn:Ee.
      -- apply (truncated_ends now inode s r a b); auto.
         apply (scanned_offset_nonneg inode). auto.
      -- unfold truncated in Hint, Hlive. rewrite Ee in Hint, Hlive.
         apply live_in_inode in Hlive.
         unfold interval in Hint. unfold extends_past in Ee. rewrite Hlive in Ee.
         destruct (r_inodeoffset r) as [x|]; [|discriminate].
         destruct (r_size r) as [z|]; [|discriminate].
         rewrite Z.eqb_refl in Ee. simpl in Ee. apply Z.ltb_ge in Ee.
         inversion Hint. lia.
  + assert (Hi0 : i1 = r0).
    { destruct (iID r0 =? inode) eqn:E; [|congruence].
      apply Z.eqb_eq in E. subst i1. unfold touched in Hid1. simpl in Hid1. congruence. }
    rewrite Hi0 in *. clear Hi0 Hr0.
    assert (Hold : In r' (chunks db) ).
    { destruct Hchunks as [(Hsz0 & Hsame & _) | [(s & -> & Hlt & Hch & _) | (s & -> & Hlt & Hch & _ & Hscan)]].
      - now rewrite <- Hsame.
      - rewrite Hch in Hr'. apply in_app_or in Hr'.
        destruct Hr' as [Hr' | [<- | []]]; [assumption|].
        apply live_in_inode in Hlive. simpl in Hlive. congruence.
      - rewrite Hch in Hr'. apply in_map_iff in Hr'.
        destruct Hr' as (r & Hrr & Hr).
        assert (Hlr : live_in j r = true).
        { apply (truncated_live now inode s). now rewrite Hrr. }
        assert (Ee : extends_past inode s r = false).
        { destruct (extends_past inode s r) eqn:E; [|reflexivity].
          apply extends_past_live in E. elim Hne.
          apply (live_in_unique j inode r); auto. }
        unfold truncated in Hrr. rewrite Ee in Hrr. now subst r'. }
    apply (Hcont r0 r' a b); auto. apply filter_In. auto.
Qed.

(** X4: Containment is kept by [AddChunk] and by [Touch], for every inode:
    after the operation every live chunk of the inode ends within its
    size.  The store has unique chunk ids and sizes in the range of their
    column; the written interval does not wrap around and the new size is
    a [uint64]. *)
Theorem containment_preserved now db j
    (Hpk : chunks_pk db) (Htyped : sizes_typed db) (Hcont : contained j db) :
  (forall inode flags chunk,
      0 <= cInodeOffset chunk -> 0 <= cSize chunk ->
      (forall i, find (fun r => iID r =? inode) (inodes db) = Some i ->
                 cInodeOffset (written flags i chunk) + cSize chunk < 2 ^ 64) ->
      contained j (snd (AddChunk now inode flags chunk db))) /\
  (forall inode size mode atime mtime uid gid,
      (forall s, size = Some s -> 0 <= s < 2 ^ 64) ->
      contained j (snd (Touch now inode size mode atime mtime uid gid db))).
Proof.
  split.
  - intros inode flags chunk Hoff Hlen Hend. apply AddChunk_contained; assumption.
  - intros inode size mode atime mtime uid gid Hsize. apply Touch_contained; assumption.
Qed.

Lemma containment_preserved_witness :
  contained 2 (snd (AddChunk 9 2 0 (mkChunk 0 2 "s3" "c" 0 90 20) two_chunk_db)) /\
  contained 2 (snd (Touch 9 2 (Some 60) None None None None None two_chunk_db)).
Proof.
  assert (Htyped : sizes_typed two_chunk_db).
  { intros i Hi. vm_compute in Hi.
    destruct Hi as [<- | [<- | []]]; vm_compute; split; congruence. }
  assert (Hc : contained 2 two_chunk_db).
  { intros i r a b Hi Hid Hr Hint.
    vm_compute in Hr. vm_compute in Hi.
    destruct Hi as [<- | [<- | []]]; [discriminate Hid|].
    destruct Hr as [<- | [<- | []]]; inversion Hint; vm_compute; discriminate. }
  destruct (containment_preserved 9 two_chunk_db 2 two_chunk_db_pk Htyped Hc)
    as [HA HT].
  split.
  - apply HA.
    + simpl. lia.
    + simpl. lia.
    + intros i Hi. vm_compute in Hi. inversion Hi. reflexivity.
  - apply HT. intros s Hs. inversion Hs. lia.
Defined.


(** ** AddChunk: the chunks that the write overlaps

    The write and the rows of the inode fit the BIGINT columns of chunks:
    the size of the inode, the end [off + len] of the write and the
    object offset of the chunk are below 2^63, and the live rows of the
    inode end below 2^63 in the file and in their objects. *)

Lemma trimmed_right w id inode st k oo a s :
  0 <= oo -> cInodeOffset w <= a -> 0 <= cInodeOffset w -> 0 <= cSize w ->
  a < cInodeOffset w + cSize w -> cInodeOffset w + cSize w < a + s ->
  a + s < 2 ^ 64 -> oo + s < 2 ^ 64 ->
  trimmed w (mkChunk id inode st k oo a s) =
  mkChunk id inode st k (oo + (cInodeOffset w + cSize w - a))
          (cInodeOffset w + cSize w) (a + s - (cInodeOffset w + cSize w)).
Proof.
  intros Hoo Ha Hw Hl Hin Hb Hs Hos. unfold trimmed. simpl.
  replace (a <? cInodeOffset w) with false by (symmetry; apply Z.ltb_ge; lia).
  rewrite (wrap64_small (cInodeOffset w + cSize w)) by lia.
  rewrite (wrap64_small (a + s)) by lia.
  rewrite (wrap64_small (cInodeOffset w + cSize w - a)) by lia.
  rewrite (wrap64_small (oo + _)) by lia.
  rewrite wrap64_small by lia. reflexivity.
Qed.

Lemma spliced_id now inode w r : r_id (spliced now inode w r) = r_id r.
Proof.
  unfold spliced. destruct (selected inode w r); [|reflexivity].
  destruct (covered w (scanned inode r)); reflexivity.
Qed.

Section Overwrite.

Variables (now inode flags : Z) (chunk : Chunk) (db : DB) (i : Inode).

Let w := written flags i chunk.
Let off := cInodeOffset w.
Let len := cSize w.

Hypothesis Hfind : find (fun r => iID r =? inode) (inodes db) = Some i.
Hypothesis Hpk : chunks_pk db.
Hypothesis Hscannable : scannable inode db.
Hypothesis Hfits : ends_fit inode db.
Hypothesis Hofits : object_ends_fit inode db.
Hypothesis Hsize : 0 <= iSize i < 2 ^ 63.
Hypothesis Hoff : 0 <= off.
Hypothesis Hlen : 0 <= len.
Hypothesis Hend : off + len < 2 ^ 63.
Hypothesis Hobj : 0 <= cObjectOffset chunk < 2 ^ 63.
Hypothesis Hstats : 0 <= sSize (stats db) /\ sSize (stats db) + (off + len) < 2 ^ 64.

(** The live chunk [C] of the inode, [a, a+s). *)
Variables (C : chunk_row) (st k : string) (oo a s : Z).

Hypothesis HC : In C (chunks db).
Hypothesis Hlive : r_inode C = Some inode.
Hypothesis Hst : r_storage C = Some st.
Hypothesis Hk : r_key C = Some k.
Hypothesis Hoo : r_objectoffset C = Some oo.
Hypothesis Ha : r_inodeoffset C = Some a.
Hypothesis Hs : r_size C = Some s.

Lemma AddChunk_commits :
  AddChunk now inode flags chunk db = (inr tt, after_AddChunk now i w db).
Proof.
  assert (Hwl : cSize chunk = len)
    by (unfold len, w, written; destruct (negb _); reflexivity).
  apply (AddChunk_commit now inode flags chunk db i); try assumption.
  - lia.
  - fold w off. lia.
  - rewrite Hwl. lia.
  - fold w. rewrite new_size_no_wrap by (fold off len; lia).
    fold off len. right. lia.
Qed.

Lemma row_nonneg : 0 <= oo /\ 0 <= a /\ 0 <= s.
Proof.
  destruct (Hscannable C)
    as (st' & k' & oo' & a' & s' & E1 & E2 & E3 & E4 & E5 & P1 & P2 & P3).
  { apply filter_In. split; [assumption|]. apply live_in_inode. assumption. }
  assert (oo' = oo) by congruence. assert (a' = a) by congruence.
  assert (s' = s) by congruence. subst. auto.
Qed.

Lemma row_fits : a + s < 2 ^ 63 /\ oo + s < 2 ^ 63.
Proof.
  assert (HCl : In C (live_chunks inode db)).
  { apply filter_In. split; [assumption|]. apply live_in_inode. assumption. }
  split; [apply (Hfits C a s) | apply (Hofits C oo s)]; assumption.
Qed.

Lemma row_selected :
  a < off + len -> off < a + s -> selected inode w C = true.
Proof.
  intros H1 H2. unfold selected, overlapping. rewrite Hlive, Ha, Hs.
  fold off len. rewrite wrap64_small by lia. rewrite Z.eqb_refl. simpl.
  apply andb_true_iff. split; apply Z.ltb_lt; lia.
Qed.

Lemma spliced_row_In :
  In (spliced now inode w C) (chunks (after_AddChunk now i w db)).
Proof.
  destruct (find_inode_id _ _ _ Hfind) as [Hid _].
  unfold after_AddChunk. simpl chunks. rewrite Hid.
  apply in_or_app. left. apply in_map. assumption.
Qed.




End Overwrite.

Lemma one_chunk_db_pk : chunks_pk one_chunk_db.
Proof.
  split.
  - repeat constructor. simpl. tauto.
  - intros r [<- | []]. simpl. lia.
Qed.

Lemma one_chunk_db_scannable : scannable 2 one_chunk_db.
Proof.
  intros r Hr. vm_compute in Hr. destruct Hr as [<- | []].
  exists "s3"%string, "a"%string, 0, 0, 100. simpl.
  repeat split; lia.
Qed.

Lemma one_chunk_db_fits : ends_fit 2 one_chunk_db.
Proof.
  intros r io sz Hr Hio Hsz. vm_compute in Hr. destruct Hr as [<- | []].
  simpl in Hio, Hsz. inversion Hio. inversion Hsz. lia.
Qed.

Lemma one_chunk_db_object_fits : object_ends_fit 2 one_chunk_db.
Proof.
  intros r oo sz Hr Hoo Hsz. vm_compute in Hr. destruct Hr as [<- | []].
  simpl in Hoo, Hsz. inversion Hoo. inversion Hsz. lia.
Qed.





(** ** The chunks of the other inodes *)

Lemma filter_live_map j (f : chunk_row -> chunk_row) l :
  (forall r, In r l -> live_in j r = true -> f r = r) ->
  (forall r, In r l -> live_in j (f r) = true -> live_in j r = true) ->
  filter (live_in j) (map f l) = filter (live_in j) l.
Proof.
  induction l as [|a l IH]; simpl; intros H1 H2; [reflexivity|].
  rewrite IH by auto.
  destruct (live_in j a) eqn:E.
  - rewrite (H1 a) by auto. now rewrite E.
  - destruct (live_in j (f a)) eqn:E'; [|reflexivity].
    rewrite (H2 a) in E by auto. discriminate.
Qed.

(** X9: [AddChunk] and [Touch] on an inode leave the live chunks of every
    other inode as they are, row by row and in order. *)
Theorem chunks_of_other_inodes_kept now db j
    (Hpk : chunks_pk db) (Htyped : sizes_typed db) :
  (forall inode flags chunk,
      j <> inode -> 0 <= cInodeOffset chunk < 2 ^ 64 ->
      live_chunks j (snd (AddChunk now inode flags chunk db)) = live_chunks j db) /\
  (forall inode size mode atime mtime uid gid,
      j <> inode ->
      live_chunks j (snd (Touch now inode size mode atime mtime uid gid db))
      = live_chunks j db).
Proof.
  split.
  - intros inode flags chunk Hne Hoff.
    destruct (AddChunk now inode flags chunk db) as [[e|u] db'] eqn:Hrun; simpl.
    { apply transaction_rollback in Hrun. now subst. }
    destruct (AddChunk_inv _ _ _ _ _ _ _ Hrun Hpk Htyped) as (i & Hfind & -> & Hscan).
    { intros i Hi. destruct (find_inode_id _ _ _ Hi) as [_ Hin].
      specialize (Htyped i Hin). unfold written.
      destruct (negb (Z.land flags O_APPEND =? 0)); simpl; lia. }
    destruct (find_inode_id _ _ _ Hfind) as [Hid Hin].
    set (w := written flags i chunk) in *.
    unfold live_chunks, after_AddChunk. simpl chunks. rewrite Hid.
    rewrite filter_app.
    rewrite (filter_none (live_in j) (gap_rows i w db ++ _)).
    + rewrite app_nil_r. apply filter_live_map.
      * intros r _ Hl. unfold spliced.
        destruct (selected inode w r) eqn:E; [|reflexivity].
        apply selected_live in E. elim Hne. apply (live_in_unique j inode r); auto.
      * intros r _. apply spliced_live.
    + intros y Hy.
      assert (Hl : r_inode y = Some inode).
      { apply in_app_or in Hy. destruct Hy as [Hy | Hy].
        - unfold gap_rows in Hy. destruct (iSize i <? cInodeOffset w); [|contradiction].
          destruct Hy as [<- | []]. simpl. now rewrite Hid.
        - apply (new_rows_source _ inode (w :: right_pieces inode w db)) in Hy.
          destruct Hy as (c & _ & Hl & _). exact Hl. }
      unfold live_in. rewrite Hl. apply Z.eqb_neq. congruence.
  - intros inode size mode atime mtime uid gid Hne.
    destruct (Touch now inode size mode atime mtime uid gid db)
      as [[e|i'] db'] eqn:Hrun; simpl.
    { apply transaction_rollback in Hrun. now subst. }
    destruct (Touch_cases _ _ _ _ _ _ _ _ _ _ _ Hrun Hpk)
      as (i & Hfind & _ & _ & _ & _ & _ &
          [(_ & Hch & _) | [(s & -> & _ & Hch & _) | (s & -> & _ & Hch & _)]]);
      unfold live_chunks; rewrite Hch.
    + reflexivity.
    + rewrite filter_app. simpl.
      replace (live_in j _) with false; [apply app_nil_r|].
      symmetry. unfold live_in. simpl. apply Z.eqb_neq. congruence.
    + apply filter_live_map.
      * intros r _ Hl. unfold truncated.
        destruct (extends_past inode s r) eqn:E; [|reflexivity].
        apply extends_past_live in E. elim Hne. apply (live_in_unique j inode r); auto.
      * intros r _. apply truncated_live.
Qed.

Lemma two_files_db_pk : chunks_pk two_files_db.
Proof.
  split.
  - vm_compute. repeat constructor; simpl; intuition discriminate.
  - intros r Hr. vm_compute in Hr.
    destruct Hr as [<- | [<- | []]]; vm_compute; reflexivity.
Qed.

Lemma two_files_db_typed : sizes_typed two_files_db.
Proof.
  intros i Hi. vm_compute in Hi.
  destruct Hi as [<- | [<- | [<- | []]]]; vm_compute; split; congruence.
Qed.

Lemma chunks_of_other_inodes_kept_witness :
  live_chunks 3 (snd (AddChunk 9 2 0 (mkChunk 0 2 "s3" "b" 0 0 40) two_files_db))
  = [new_row 2 3 "s3" "g" 0 0 30] /\
  live_chunks 3 (snd (Touch 9 2 (Some 10) None None None None None two_files_db))
  = [new_row 2 3 "s3" "g" 0 0 30].
Proof.
  destruct (chunks_of_other_inodes_kept 9 two_files_db 3
              two_files_db_pk two_files_db_typed) as [HA HT].
  split.
  - rewrite HA; [reflexivity | lia | simpl; lia].
  - rewrite HT; [reflexivity | lia].
Defined.


(** ** Chunks *)

Lemma insert_by_offset_perm r l : Permutation (insert_by_offset r l) (r :: l).
Proof.
  induction l as [|a l IH]; simpl; [reflexivity|].
  destruct (offset_le r a); [reflexivity|].
  rewrite IH. apply perm_swap.
Qed.

Lemma order_by_offset_perm l : Permutation (order_by_offset l) l.
Proof.
  induction l as [|a l IH]; simpl; [reflexivity|].
  rewrite insert_by_offset_perm. now constructor.
Qed.

Lemma offset_le_total a b : offset_le a b = false -> offset_le b a = true.
Proof.
  unfold offset_le.
  destruct (r_inodeoffset a), (r_inodeoffset b); try discriminate; try reflexivity.
  intros H. apply Z.leb_gt in H. apply Z.leb_le. lia.
Qed.

Lemma insert_by_offset_sorted r l :
  Sorted (fun a b => offset_le a b = true) l ->
  Sorted (fun a b => offset_le a b = true) (insert_by_offset r l).
Proof.
  induction l as [|a l IH]; simpl; intros H.
  - repeat constructor.
  - destruct (offset_le r a) eqn:E.
    + constructor; [assumption|]. constructor. assumption.
    + inversion H as [|x y Hs Hh]. subst.
      constructor; [auto|].
      destruct l as [|b l]; simpl.
      * constructor. apply offset_le_total. assumption.
      * destruct (offset_le r b).
        -- constructor. apply offset_le_total. assumption.
        -- inversion Hh. subst. constructor. assumption.
Qed.

Lemma order_by_offset_sorted l :
  Sorted (fun a b => offset_le a b = true) (order_by_offset l).
Proof.
  induction l as [|a l IH]; simpl; [constructor|].
  apply insert_by_offset_sorted. assumption.
Qed.

Lemma scanned_sorted inode l :
  (forall r, In r l -> scan_chunk inode r = inr (scanned inode r)) ->
  Sorted (fun a b => offset_le a b = true) l ->
  Sorted (fun c1 c2 => cInodeOffset c1 <= cInodeOffset c2) (map (scanned inode) l).
Proof.
  intros Hscan H. induction H as [|a l Hs IH Hh]; simpl; [constructor|].
  constructor; [apply IH; intros; apply Hscan; right; assumption|].
  destruct Hh as [|b l Hab]; simpl; constructor.
  destruct (scan_chunk_nonneg _ _ _ (Hscan a (or_introl eq_refl)))
    as (_ & Ea & _).
  destruct (scan_chunk_nonneg _ _ _ (Hscan b (or_intror (or_introl eq_refl))))
    as (_ & Eb & _).
  unfold offset_le in Hab. rewrite Ea, Eb in Hab. apply Z.leb_le. assumption.
Qed.

(** X12: [Chunks] returns the live chunks of the inode, each one once, in
    ascending order of their offsets; it sets the access time of the inode
    and changes nothing else. *)
Theorem Chunks_sorted now inode db cs db' :
  Chunks now inode db = (inr cs, db') ->
  StronglySorted (fun c1 c2 => cInodeOffset c1 <= cInodeOffset c2) cs /\
  Permutation cs (map (scanned inode) (live_chunks inode db)) /\
  (forall r, In r (live_chunks inode db) ->
             r_inodeoffset r = Some (cInodeOffset (scanned inode r)) /\
             r_size r = Some (cSize (scanned inode r)) /\
             r_storage r = Some (cStorage (scanned inode r)) /\
             r_key r = Some (cKey (scanned inode r)) /\
             r_objectoffset r = Some (cObjectOffset (scanned inode r))) /\
  db' = set_inodes (map (fun i => if iID i =? inode then set_atime now i else i)
                        (inodes db)) db.
Proof.
  unfold Chunks, bind, treat, update_inode, modify. simpl.
  fold (live_chunks inode db).
  destruct (scan_all inode (order_by_offset (live_chunks inode db)))
    as [e|cs'] eqn:Hscan; [discriminate|].
  intros H. inversion H. subst cs' db'. clear H.
  pose proof (scan_all_scanned _ _ _ Hscan) as ->.
  assert (Heach : forall r, In r (order_by_offset (live_chunks inode db)) ->
                            scan_chunk inode r = inr (scanned inode r)).
  { intros r Hr. eapply scan_all_each; eauto. }
  split; [|split; [|split]].
  - apply Sorted_StronglySorted.
    + intros x y z Hxy Hyz. lia.
    + apply scanned_sorted; [assumption | apply order_by_offset_sorted].
  - apply Permutation_map. apply order_by_offset_perm.
  - intros r Hr.
    assert (Hr' : In r (order_by_offset (live_chunks inode db))).
    { eapply Permutation_in; [symmetry; apply order_by_offset_perm | assumption]. }
    destruct (scan_chunk_nonneg _ _ _ (Heach r Hr')) as (E1 & E2 & E3 & E4 & E5 & _).
    auto.
  - reflexivity.
Qed.

Lemma Chunks_sorted_witness :
  map r_id (live_chunks 2 overwritten_db) = [1; 2] /\
  StronglySorted (fun c1 c2 => cInodeOffset c1 <= cInodeOffset c2)
    [mkChunk 2 2 "s3" "b" 0 0 40; mkChunk 1 2 "s3" "a" 40 40 60].
Proof.
  split; [reflexivity|].
  apply (Chunks_sorted 9 2 overwritten_db _ _ eq_refl).
Defined.


(** ** Create *)

(** A committed [Create]: the parent is a directory, the name was free,
    and either a new inode was inserted or the refcount of the target was
    raised. *)
Lemma Create_cases now entry db e db' :
  Create now entry db = (inr e, db') ->
  exists p result,
    find (fun i => iID i =? Parent entry) (inodes db) = Some p /\
    IsDir (iMode p) = true /\
    existsb (entry_at (Parent entry) (Name entry)) (entries db) = false /\
    e = mkEntry result (Name entry) (Parent entry) /\
    entries db' = entries db ++ [mkEntryRow (Parent entry) (Name entry) (iID result)] /\
    chunks db' = chunks db /\ xattr db' = xattr db /\
    sSize (stats db') = sSize (stats db) /\
    ((iID (EInode entry) = 0 /\
      find (fun i => iID i =? next_inode db)
           (inodes db ++ [created now (next_inode db) entry]) = Some result /\
      inodes db' = inodes db ++ [created now (next_inode db) entry] /\
      next_inode db' = next_inode db + 1 /\
      sInodes (stats db') = sInodes (stats db) + 1) \/
     (iID (EInode entry) <> 0 /\
      find (fun i => iID i =? iID (EInode entry)) (inodes db) = Some result /\
      inodes db' = map (fun i => if iID i =? iID result
                                 then set_refcount (iNlink i + 1) i
                                 else i) (inodes db) /\
      next_inode db' = next_inode db /\
      sInodes (stats db') = sInodes (stats db))).
Proof.
  intros H. unfold Create in H. apply transaction_ok_inv in H.
  apply bind_inv in H. destruct H as (p & db1 & Hp & H).
  apply treat_inv, getInode_inv in Hp. destruct Hp as [-> Hp].
  destruct (IsDir (iMode p)) eqn:Hdir; [|discriminate]. simpl negb in H.
  cbv iota zeta in H.
  apply bind_inv in H. destruct H as (res & db2 & Hres & H).
  apply bind_inv in H. destruct H as (u & db3 & Hins & H).
  apply treat_inv, insert_entry_inv in Hins. destruct Hins as (Hex & Hino & ->).
  apply bind_inv in H. destruct H as (u' & db4 & Hrc & H).
  apply ret_inv in H. destruct H as [-> ->].
  exists p. destruct (iID (EInode entry) =? 0) eqn:Hid0.
  - apply Z.eqb_eq in Hid0.
    apply bind_inv in Hres. destruct Hres as (u1 & d1 & Hst & Hres).
    apply treat_inv in Hst. unfold stats_add_inodes in Hst.
    destruct (in_range 64 _); [|discriminate]. inversion Hst. subst u1 d1. clear Hst.
    apply bind_inv in Hres. destruct Hres as (id & d2 & Hnew & Hres).
    apply treat_inv in Hnew. unfold insert_inode in Hnew.
    injection Hnew as <- <-.
    apply bind_inv in Hres. destruct Hres as (e' & d3 & Hfill & Hres).
    apply ret_inv in Hres. destruct Hres as [-> ->].
    apply bind_inv in Hfill. destruct Hfill as (result & d4 & Hget & Hfill).
    apply treat_inv, getInode_inv in Hget. destruct Hget as [-> Hget].
    apply ret_inv in Hfill. destruct Hfill as [-> ->].
    simpl in Hrc. apply ret_inv in Hrc. destruct Hrc as [_ ->].
    simpl in *. exists result.
    repeat split; try assumption. left. repeat split; assumption.
  - apply Z.eqb_neq in Hid0.
    apply bind_inv in Hres. destruct Hres as (e' & d3 & Hfill & Hres).
    apply ret_inv in Hres. destruct Hres as [-> ->].
    apply bind_inv in Hfill. destruct Hfill as (result & d4 & Hget & Hfill).
    apply treat_inv, getInode_inv in Hget. destruct Hget as [-> Hget].
    apply ret_inv in Hfill. destruct Hfill as [-> ->].
    simpl in *.
    apply treat_inv, add_refcount_inv in Hrc. destruct Hrc as [Hr ->].
    simpl in *. exists result.
    repeat split; try assumption. right. repeat split; assumption.
Qed.

Lemma existsb_false_find {A} (p : A -> bool) l :
  existsb p l = false -> find p l = None.
Proof.
  induction l as [|a l IH]; simpl; [reflexivity|].
  destruct (p a); [discriminate | exact IH].
Qed.

Lemma find_fresh_inode id l x :
  (forall i, In i l -> iID i < id) -> iID x = id ->
  find (fun i => iID i =? id) (l ++ [x]) = Some x.
Proof.
  intros Hl Hx. apply find_app_last; [|apply Z.eqb_eq; assumption].
  destruct (find (fun i => iID i =? id) l) as [i|] eqn:E; [|reflexivity].
  apply find_some in E. destruct E as [Hin E]. apply Z.eqb_eq in E.
  specialize (Hl i Hin). lia.
Qed.

(** X13: [Create] of a new inode (the id of [entry] is 0), when it commits:
    the inode gets the next id of the table, the mode, owner and target of
    [entry], the size 0, one link and the time [now]; the entry that is
    returned holds this inode, and [LookUp] of the name and [Get] of the id
    return the same afterwards; the count of inodes of the stats is one
    more. *)
Theorem Create_new_inode now entry db e db'
    (Hrun : Create now entry db = (inr e, db'))
    (Hnew : iID (EInode entry) = 0)
    (Hids : forall i, In i (inodes db) -> iID i < next_inode db) :
  e = mkEntry (created now (next_inode db) entry) (Name entry) (Parent entry) /\
  LookUp None (Parent entry) (Name entry) db' = inr e /\
  Get None (next_inode db) db' = inr (created now (next_inode db) entry) /\
  Stats None db' = inr (mkStats (sInodes (stats db) + 1) (sSize (stats db))).
Proof.
  destruct (Create_cases _ _ _ _ _ Hrun)
    as (p & result & Hp & Hdir & Hfree & -> & He & _ & _ & Hsz &
        [(_ & Hfind & Hi & _ & Hn) | (Hne & _)]); [|contradiction].
  rewrite find_fresh_inode in Hfind by (auto; reflexivity).
  inversion Hfind. subst result. clear Hfind.
  split; [reflexivity|]. split; [|split].
  - unfold LookUp, query_row. rewrite He.
    rewrite (find_app_last _ _ (mkEntryRow (Parent entry) (Name entry) (next_inode db)))
      by (first [apply existsb_false_find; assumption |
                 unfold entry_at; simpl; now rewrite Z.eqb_refl, String.eqb_refl]).
    simpl e_inode. rewrite Hi.
    rewrite find_fresh_inode by (auto; reflexivity). reflexivity.
  - unfold Get, query_row. rewrite Hi.
    rewrite find_fresh_inode by (auto; reflexivity). reflexivity.
  - unfold Stats, query_row. destruct (stats db') as [n s]. simpl in *.
    now rewrite Hsz, Hn.
Qed.

Lemma Create_new_inode_witness :
  LookUp None 1 "f" fresh_db =
  inr (mkEntry (mkInode 2 420 0 0 "" 0 1 1 1 1 1) "f" 1).
Proof.
  apply (Create_new_inode 1 (mkEntry new_file "f" 1) (Setup 0) _ fresh_db eq_refl eq_refl).
  intros i [<- | []]. simpl. lia.
Defined.

(** X14: [Create] of a link to an inode that exists (the id of [entry] is not
    0), when it commits: the entry that is returned holds the inode as it
    was read before its refcount was raised; [LookUp] of the name returns
    it with one link more. *)
Theorem Create_link now entry db e db'
    (Hrun : Create now entry db = (inr e, db'))
    (Hlink : iID (EInode entry) <> 0) :
  exists i,
    Get None (iID (EInode entry)) db = inr i /\
    e = mkEntry i (Name entry) (Parent entry) /\
    LookUp None (Parent entry) (Name entry) db' =
    inr (mkEntry (set_refcount (iNlink i + 1) i) (Name entry) (Parent entry)) /\
    Stats None db' = Stats None db.
Proof.
  destruct (Create_cases _ _ _ _ _ Hrun)
    as (p & result & Hp & Hdir & Hfree & -> & He & _ & _ & Hsz &
        [(H0 & _) | (_ & Hfind & Hi & _ & Hn)]); [contradiction|].
  destruct (find_inode_id _ _ _ Hfind) as [Hid _].
  exists result. split; [|split; [|split]].
  - unfold Get, query_row. now rewrite Hfind.
  - reflexivity.
  - unfold LookUp, query_row. rewrite He.
    rewrite (find_app_last _ _ (mkEntryRow (Parent entry) (Name entry) (iID result)))
      by (first [apply existsb_false_find; assumption |
                 unfold entry_at; simpl; now rewrite Z.eqb_refl, String.eqb_refl]).
    simpl e_inode. rewrite Hi.
    rewrite (find_updated_inode (iID result)
               (fun i => set_refcount (iNlink i + 1) i) _ result);
      [reflexivity | reflexivity | now rewrite Hid].
  - unfold Stats, query_row. destruct (stats db') as [n s], (stats db) as [n0 s0].
    simpl in *. now rewrite Hsz, Hn.
Qed.

Lemma Create_link_witness :
  exists i,
    Get None 2 fresh_db = inr i /\
    fst (Create 5 (mkEntry (mkInode 2 0 0 0 "" 0 0 0 0 0 0) "g" 1) fresh_db)
    = inr (mkEntry i "g" 1) /\
    iNlink i = 1 /\
    LookUp None 1 "g"
      (snd (Create 5 (mkEntry (mkInode 2 0 0 0 "" 0 0 0 0 0 0) "g" 1) fresh_db))
    = inr (mkEntry (set_refcount 2 i) "g" 1).
Proof.
  destruct (Create_link 5 (mkEntry (mkInode 2 0 0 0 "" 0 0 0 0 0 0) "g" 1) fresh_db
              _ _ eq_refl) as (i & Hg & He & Hl & _).
  { simpl. lia. }
  exists i. vm_compute in Hg. inversion Hg. subst i.
  repeat split.
Defined.

Lemma find_app_some {A} (p : A -> bool) l x :
  p x = true -> exists y, find p (l ++ [x]) = Some y.
Proof.
  intros Hx. induction l as [|a l IH]; simpl.
  - rewrite Hx. eauto.
  - destruct (p a); eauto.
Qed.

(** X15: The errors of [Create], each of which leaves the tables as they
    were: [ENOENT] when the parent does not exist, [ENOTDIR] when the
    parent is not a directory, [ENOENT] when the inode to link does not
    exist, and [EEXIST] when the parent already has an entry of that name
    (the inode that was inserted for it is rolled back). *)
Theorem Create_errors now entry db :
  (find (fun i => iID i =? Parent entry) (inodes db) = None ->
   Create now entry db = (inl (Sys ENOENT), db)) /\
  (forall p,
      find (fun i => iID i =? Parent entry) (inodes db) = Some p ->
      IsDir (iMode p) = false ->
      Create now entry db = (inl (Sys ENOTDIR), db)) /\
  (forall p,
      find (fun i => iID i =? Parent entry) (inodes db) = Some p ->
      IsDir (iMode p) = true ->
      iID (EInode entry) <> 0 ->
      find (fun i => iID i =? iID (EInode entry)) (inodes db) = None ->
      Create now entry db = (inl (Sys ENOENT), db)) /\
  (forall p,
      find (fun i => iID i =? Parent entry) (inodes db) = Some p ->
      IsDir (iMode p) = true ->
      existsb (entry_at (Parent entry) (Name entry)) (entries db) = true ->
      (iID (EInode entry) = 0 -> 0 <= sInodes (stats db) + 1 < 2 ^ 64) ->
      (iID (EInode entry) <> 0 ->
       find (fun i => iID i =? iID (EInode entry)) (inodes db) <> None) ->
      fst (Create now entry db) = inl (Sys EEXIST) /\
      tables (snd (Create now entry db)) = tables db).
Proof.
  split; [|split; [|split]].
  - intros Hp. unfold Create, transaction, bind, treat, getInode.
    now rewrite Hp.
  - intros p Hp Hdir. unfold Create, transaction, bind, treat at 1, getInode.
    rewrite Hp, Hdir. reflexivity.
  - intros p Hp Hdir Hid Ht.
    apply transaction_err with (db' := db). unfold Create.
    erewrite bind_ok by (apply treat_ok; apply getInode_Some; exact Hp).
    rewrite Hdir. change (negb true) with false. cbv beta iota zeta.
    apply Z.eqb_neq in Hid. rewrite Hid.
    unfold bind, treat, getInode. now rewrite Ht.
  - intros p Hp Hdir Hex Hnew Hlink.
    assert (G : Create now entry db = (inl (Sys EEXIST), db));
      [|rewrite G; split; reflexivity].
    unfold Create, transaction.
    erewrite bind_ok by (apply treat_ok; apply getInode_Some; exact Hp).
    rewrite Hdir. change (negb true) with false. cbv beta iota zeta.
    destruct (iID (EInode entry) =? 0) eqn:Hid.
    + apply Z.eqb_eq in Hid. specialize (Hnew Hid).
      destruct (find_app_some (fun i => iID i =? next_inode db) (inodes db)
                  (mkInode (next_inode db) (wrap32 (iMode (EInode entry)))
                           (iUid (EInode entry)) (iGid (EInode entry))
                           (iSymLink (EInode entry)) 0 1 now now now now))
        as (y & Hy); [apply Z.eqb_refl|].
      erewrite bind_ok.
      2:{ erewrite bind_ok.
          2:{ apply treat_ok. unfold stats_add_inodes.
              rewrite in_range_true by exact Hnew. reflexivity. }
          erewrite bind_ok by (apply treat_ok; reflexivity).
          erewrite bind_ok.
          2:{ erewrite bind_ok by (apply treat_ok; apply getInode_Some; exact Hy).
              reflexivity. }
          reflexivity. }
      cbv zeta. cbn [fst snd Name Parent EInode].
      unfold bind at 1, treat at 1, insert_entry. simpl entries.
      rewrite Hex. reflexivity.
    + apply Z.eqb_neq in Hid. specialize (Hlink Hid).
      unfold bind, treat, getInode.
      destruct (find (fun i => iID i =? iID (EInode entry)) (inodes db)) as [t|];
        [|contradiction].
      unfold ret. cbn [fst snd Name Parent EInode].
      unfold insert_entry. rewrite Hex. reflexivity.
Qed.

Lemma Create_errors_witness :
  Create 5 (mkEntry new_file "x" 9) tree_db = (inl (Sys ENOENT), tree_db) /\
  Create 5 (mkEntry new_file "x" 4) tree_db = (inl (Sys ENOTDIR), tree_db) /\
  Create 5 (mkEntry (mkInode 9 0 0 0 "" 0 0 0 0 0 0) "x" 1) tree_db
  = (inl (Sys ENOENT), tree_db) /\
  fst (Create 5 (mkEntry new_file "d" 1) tree_db) = inl (Sys EEXIST).
Proof.
  split; [|split; [|split]].
  - apply (proj1 (Create_errors 5 (mkEntry new_file "x" 9) tree_db)). reflexivity.
  - apply (proj1 (proj2 (Create_errors 5 (mkEntry new_file "x" 4) tree_db))
             (mkInode 4 420 0 0 "" 0 1 3 3 3 3)); reflexivity.
  - apply (proj1 (proj2 (proj2 (Create_errors 5
             (mkEntry (mkInode 9 0 0 0 "" 0 0 0 0 0 0) "x" 1) tree_db)))
             (mkInode 1 root_mode 0 0 "" 0 1 0 0 0 0));
      try reflexivity. simpl. lia.
  - apply (proj2 (proj2 (proj2 (Create_errors 5 (mkEntry new_file "d" 1) tree_db)))
             (mkInode 1 root_mode 0 0 "" 0 1 0 0 0 0));
      try reflexivity.
    + intros _. simpl. lia.
    + intros H. simpl in H. lia.
Defined.


(** ** LookUp *)

Lemma existsb_find_some {A} (p : A -> bool) l :
  existsb p l = true -> exists a, find p l = Some a.
Proof.
  induction l as [|a l IH]; simpl; [discriminate|].
  destruct (p a); eauto.
Qed.

(** X16: In every store that the driver can reach, no entry dangles: [LookUp]
    of the parent and name of an entry returns the inode that the entry
    points to, and this inode has at least one link; [LookUp] answers
    [ENOENT] only for a name that has no entry. *)
Theorem LookUp_on_reachable db (Hreach : reachable db) :
  (forall e, In e (entries db) ->
     exists i,
       LookUp None (e_parent e) (e_name e) db
       = inr (mkEntry i (e_name e) (e_parent e)) /\
       iID i = e_inode e /\ 1 <= iNlink i) /\
  (forall parent name,
     LookUp None parent name db = inl (Sys ENOENT) <->
     find (entry_at parent name) (entries db) = None).
Proof.
  pose proof (reachable_inv _ Hreach) as [HA HB HC HE HD HF].
  assert (Hfk : forall e, In e (entries db) ->
            exists i, find (fun i => iID i =? e_inode e) (inodes db) = Some i).
  { intros e He. apply existsb_find_some. apply (HB e He). }
  split.
  - intros e He.
    assert (Hfind : find (entry_at (e_parent e) (e_name e)) (entries db) = Some e).
    { destruct (find (entry_at (e_parent e) (e_name e)) (entries db)) as [e'|] eqn:E.
      - apply find_some in E. destruct E as [Hin E]. apply entry_at_key in E.
        f_equal. apply (NoDup_map_injective key (entries db)); auto.
      - pose proof (find_none _ _ E e He) as Hn.
        assert (entry_at (e_parent e) (e_name e) e = true)
          by (apply entry_at_key; reflexivity).
        congruence. }
    destruct (Hfk e He) as (i & Hi).
    destruct (find_inode_id _ _ _ Hi) as [Hid Hin].
    exists i. split; [|split; [assumption|]].
    + unfold LookUp, query_row. now rewrite Hfind, Hi.
    + rewrite (HA i Hin). unfold links.
      pose proof (count_links_pos (iID i) (entries db) e He (eq_sym Hid)).
      destruct (iID i =? 1); lia.
  - intros parent name. unfold LookUp, query_row.
    destruct (find (entry_at parent name) (entries db)) as [e|] eqn:E.
    + apply find_some in E. destruct E as [Hin _].
      destruct (Hfk e Hin) as (i & ->). split; discriminate.
    + split; reflexivity.
Qed.

Lemma LookUp_on_reachable_witness :
  exists i, LookUp None 2 "c" tree_db = inr (mkEntry i "c" 2) /\
            iID i = 3 /\ 1 <= iNlink i.
Proof.
  apply (proj1 (LookUp_on_reachable tree_db tree_db_reachable) (mkEntryRow 2 "c" 3)).
  simpl. auto.
Defined.

(** ** Unlink and Rename, seen through LookUp *)

Lemma find_filter_keep {A} (p q : A -> bool) l :
  (forall x, p x = true -> q x = true) ->
  find p (filter q l) = find p l.
Proof.
  intros H. induction l as [|a l IH]; simpl; [reflexivity|].
  destruct (q a) eqn:Eq; simpl.
  - now rewrite IH.
  - destruct (p a) eqn:Ep; [|assumption].
    rewrite (H a Ep) in Eq. discriminate.
Qed.

Lemma find_filter_out {A} (p : A -> bool) l :
  find p (filter (fun x => negb (p x)) l) = None.
Proof.
  induction l as [|a l IH]; simpl; [reflexivity|].
  destruct (p a) eqn:E; simpl; [assumption|]. now rewrite E.
Qed.

Lemma entry_at_other p n parent name e :
  (p, n) <> (parent, name) -> entry_at p n e = true ->
  negb (entry_at parent name e) = true.
Proof.
  intros Hne H. apply entry_at_key in H. apply negb_true_iff.
  destruct (entry_at parent name e) eqn:E; [|reflexivity].
  apply entry_at_key in E. congruence.
Qed.

Lemma find_map_id id (f : Inode -> Inode) l :
  (forall r, iID (f r) = iID r) ->
  find (fun r => iID r =? id) (map f l) = option_map f (find (fun r => iID r =? id) l).
Proof.
  intros Hf. induction l as [|a l IH]; simpl; [reflexivity|].
  rewrite Hf. destruct (iID a =? id); [reflexivity | assumption].
Qed.

Lemma update_keeps_id (g : Inode -> Inode) id r :
  (forall r, iID (g r) = iID r) ->
  iID (if iID r =? id then g r else r) = iID r.
Proof. intros Hg. destruct (iID r =? id); auto. Qed.

(** A committed [unlink] found the entry, whose target has no child,
    deleted it and took one from the refcount of the target. *)
Lemma unlink_ok_inv parent name db u db' :
  unlink parent name db = (inr u, db') ->
  exists pe,
    find (entry_at parent name) (entries db) = Some pe /\
    children_of (e_inode pe) db = 0 /\
    (forall i, In i (inodes db) -> iID i = e_inode pe -> 1 <= iNlink i) /\
    db' = mkDB (map (fun i => if iID i =? e_inode pe
                              then set_refcount (iNlink i + -1) i
                              else i) (inodes db))
               (filter (fun e => negb (entry_at parent name e)) (entries db))
               (chunks db) (xattr db) (stats db) (next_inode db) (next_chunk db).
Proof.
  intros H.
  destruct (find (entry_at parent name) (entries db)) as [pe|] eqn:E.
  2:{ rewrite (unlink_missing _ _ _ E) in H. discriminate. }
  rewrite (unlink_select _ _ _ _ E) in H.
  destruct (0 <? children_of (e_inode pe) db) eqn:Ec; [discriminate|].
  apply Z.ltb_ge in Ec.
  apply bind_inv in H. destruct H as (u1 & d1 & Hd & H).
  apply treat_inv, modify_inv in Hd. subst d1.
  apply treat_inv, add_refcount_inv in H. destruct H as [Hr ->].
  exists pe. split; [reflexivity|]. split; [|split].
  - unfold children_of in *. lia.
  - intros i Hi Hid. specialize (Hr i Hi Hid). lia.
  - reflexivity.
Qed.

(** X17: [Unlink] of a name that has no entry answers [ENOENT] and changes
    nothing.  After a committed [Unlink], [LookUp] of the name answers
    [ENOENT], the entries of all other names are as before, and no inode
    row is gone: the target stays until [Forget]. *)
Theorem Unlink_then_LookUp parent name db :
  (find (entry_at parent name) (entries db) = None ->
   Unlink parent name db = (inl (Sys ENOENT), db)) /\
  (forall db',
     Unlink parent name db = (inr tt, db') ->
     LookUp None parent name db' = inl (Sys ENOENT) /\
     (forall p n, (p, n) <> (parent, name) ->
        find (entry_at p n) (entries db') = find (entry_at p n) (entries db)) /\
     (forall id, Get None id db' = inl (Sys ENOENT) <->
                 Get None id db = inl (Sys ENOENT))).
Proof.
  split.
  - intros H. unfold Unlink. apply transaction_err with (db' := db).
    apply unlink_missing. assumption.
  - intros db' H. unfold Unlink in H. apply transaction_ok_inv in H.
    destruct (unlink_ok_inv _ _ _ _ _ H) as (pe & Hpe & Hc & Hn & ->).
    split; [|split].
    + unfold LookUp, query_row. simpl entries. now rewrite find_filter_out.
    + intros p n Hne. simpl entries. apply find_filter_keep.
      intros x Hx. apply (entry_at_other p n); assumption.
    + intros id. rewrite !Get_ENOENT_iff_absent. simpl inodes.
      rewrite find_map_id by (intros r; apply update_keeps_id; reflexivity).
      destruct (find (fun i => iID i =? id) (inodes db)); simpl;
        split; intros; congruence.
Qed.

Lemma Unlink_then_LookUp_witness :
  LookUp None 1 "s" tree_db <> inl (Sys ENOENT) /\
  LookUp None 1 "s" (snd (Unlink 1 "s" tree_db)) = inl (Sys ENOENT) /\
  Unlink 1 "zz" tree_db = (inl (Sys ENOENT), tree_db).
Proof.
  split; [discriminate|]. split.
  - apply (proj2 (Unlink_then_LookUp 1 "s" tree_db) _ eq_refl).
  - apply (proj1 (Unlink_then_LookUp 1 "zz" tree_db)). reflexivity.
Defined.

Lemma find_head_filter {A} (p : A -> bool) l :
  find p l = hd_error (filter p l).
Proof.
  induction l as [|a l IH]; simpl; [reflexivity|].
  destruct (p a); [reflexivity | assumption].
Qed.

Lemma unlink_keeps_ids parent name db :
  exists f, (forall r, iID (f r) = iID r) /\
            inodes (snd (unlink parent name db)) = map f (inodes db).
Proof.
  assert (Hsame : exists f, (forall r : Inode, iID (f r) = iID r) /\
                            inodes db = map f (inodes db)).
  { exists (fun r => r). split; [reflexivity | now rewrite map_id]. }
  destruct (find (entry_at parent name) (entries db)) as [pe|] eqn:E.
  - rewrite (unlink_select _ _ _ _ E).
    destruct (0 <? children_of (e_inode pe) db); [exact Hsame|].
    unfold bind, treat, delete_entry, modify, add_refcount. simpl.
    match goal with |- context [if ?c then _ else _] => destruct c end;
      simpl; [|exact Hsame].
    eexists. split; [|reflexivity].
    intros r. apply update_keeps_id. reflexivity.
  - rewrite (unlink_missing _ _ _ E). exact Hsame.
Qed.

(** A committed [Rename]: after its [unlink] of the destination, one
    entry has the old name and none has the new one; this entry gets the
    new parent and name. *)
Lemma Rename_ok_inv oldParent oldName newParent newName db u db' :
  Rename oldParent oldName newParent newName db = (inr u, db') ->
  exists x,
    filter (entry_at oldParent oldName)
           (entries (snd (unlink newParent newName db))) = [x] /\
    (oldParent, oldName) <> (newParent, newName) /\
    existsb (entry_at newParent newName)
            (entries (snd (unlink newParent newName db))) = false /\
    db' = set_entries
            (map (fun e => if entry_at oldParent oldName e
                           then mkEntryRow newParent newName (e_inode e)
                           else e)
                 (entries (snd (unlink newParent newName db))))
            (snd (unlink newParent newName db)).
Proof.
  rewrite Rename_unfold. unfold move_entry.
  set (db1 := snd (unlink newParent newName db)).
  destruct (filter (entry_at oldParent oldName) (entries db1)) as [|x more] eqn:Ef;
    [discriminate|].
  destruct ((oldParent =? newParent) && String.eqb oldName newName) eqn:Esame;
    [discriminate|].
  destruct (existsb (entry_at newParent newName) (entries db1)) eqn:Eex;
    [discriminate|]. simpl orb.
  destruct more as [|y more]; [|discriminate]. simpl.
  destruct (inode_exists newParent db1); [|discriminate].
  intros H. inversion H. subst db'.
  exists x. repeat split.
  intros Heq. inversion Heq. subst.
  now rewrite Z.eqb_refl, String.eqb_refl in Esame.
Qed.

Lemma find_relocated_old oldParent oldName newParent newName l :
  (oldParent, oldName) <> (newParent, newName) ->
  find (entry_at oldParent oldName)
       (map (fun e => if entry_at oldParent oldName e
                      then mkEntryRow newParent newName (e_inode e)
                      else e) l) = None.
Proof.
  intros Hne. induction l as [|a l IH]; simpl; [reflexivity|].
  destruct (entry_at oldParent oldName a) eqn:E.
  - replace (entry_at oldParent oldName (mkEntryRow newParent newName (e_inode a)))
      with false; [assumption|].
    symmetry. destruct (entry_at oldParent oldName
                          (mkEntryRow newParent newName (e_inode a))) eqn:E'; [|reflexivity].
    apply entry_at_key in E'. unfold key in E'. simpl in E'. congruence.
  - now rewrite E.
Qed.

Lemma find_relocated_new oldParent oldName newParent newName l :
  existsb (entry_at newParent newName) l = false ->
  find (entry_at newParent newName)
       (map (fun e => if entry_at oldParent oldName e
                      then mkEntryRow newParent newName (e_inode e)
                      else e) l)
  = option_map (fun e => mkEntryRow newParent newName (e_inode e))
               (find (entry_at oldParent oldName) l).
Proof.
  induction l as [|a l IH]; simpl; [reflexivity|].
  intros H. apply orb_false_iff in H. destruct H as [Ha Hl].
  destruct (entry_at oldParent oldName a) eqn:E.
  - replace (entry_at newParent newName (mkEntryRow newParent newName (e_inode a)))
      with true; [reflexivity|].
    symmetry. apply entry_at_key. reflexivity.
  - rewrite Ha. auto.
Qed.

(** X18: After a committed [Rename], [LookUp] of the old name answers
    [ENOENT] and [LookUp] of the new name returns the inode that the old
    name had. *)
Theorem Rename_then_LookUp oldParent oldName newParent newName db db' e
    (Hrun : Rename oldParent oldName newParent newName db = (inr tt, db'))
    (Hold : LookUp None oldParent oldName db = inr e) :
  LookUp None oldParent oldName db' = inl (Sys ENOENT) /\
  exists i,
    LookUp None newParent newName db' = inr (mkEntry i newName newParent) /\
    iID i = iID (EInode e).
Proof.
  destruct (Rename_ok_inv _ _ _ _ _ _ _ Hrun) as (x & Hx & Hne & Hfree & ->).
  unfold LookUp, query_row in *. simpl entries. simpl inodes.
  rewrite find_relocated_old by assumption.
  split; [reflexivity|].
  rewrite find_relocated_new by assumption.
  (* the entry of the old name *)
  destruct (find (entry_at oldParent oldName) (entries db)) as [pe|] eqn:Epe;
    [|discriminate].
  destruct (find (fun i => iID i =? e_inode pe) (inodes db)) as [i0|] eqn:Ei0;
    [|discriminate].
  inversion Hold. subst e. clear Hold. simpl EInode.
  assert (Hpe : find (entry_at oldParent oldName)
                  (entries (snd (unlink newParent newName db))) = Some pe).
  { destruct (unlink_entries newParent newName db) as [-> | ->]; [assumption|].
    rewrite find_filter_keep; [assumption|].
    intros y Hy. apply (entry_at_other oldParent oldName); assumption. }
  rewrite Hpe. simpl option_map. simpl e_inode.
  destruct (unlink_keeps_ids newParent newName db) as (f & Hf & ->).
  rewrite find_map_id by assumption. cbn [e_inode]. rewrite Ei0. simpl.
  exists (f i0). split; [reflexivity | apply Hf].
Qed.

Lemma Rename_then_LookUp_witness :
  LookUp None 1 "s" (snd (Rename 1 "s" 2 "t" tree_db)) = inl (Sys ENOENT) /\
  exists i, LookUp None 2 "t" (snd (Rename 1 "s" 2 "t" tree_db))
            = inr (mkEntry i "t" 2) /\ iID i = 4.
Proof.
  apply (Rename_then_LookUp 1 "s" 2 "t" tree_db _
           (mkEntry (mkInode 4 420 0 0 "" 0 1 3 3 3 3) "s" 1) eq_refl eq_refl).
Defined.

(** X19: [Rename] onto a name that has an entry, when it commits: the target
    of that entry had no child and loses one link, and the table has one
    entry less. *)
Theorem Rename_replaces oldParent oldName newParent newName db db' de
    (Hrun : Rename oldParent oldName newParent newName db = (inr tt, db'))
    (Hdst : find (entry_at newParent newName) (entries db) = Some de)
    (Hlinks : forall i, In i (inodes db) -> iID i = e_inode de ->
                        1 <= iNlink i <= 2 ^ 32) :
  children_of (e_inode de) db = 0 /\
  (forall t, Get None (e_inode de) db = inr t ->
             Get None (e_inode de) db' = inr (set_refcount (iNlink t - 1) t)) /\
  List.length (entries db') =
  List.length (filter (fun e => negb (entry_at newParent newName e)) (entries db)).
Proof.
  destruct (Rename_ok_inv _ _ _ _ _ _ _ Hrun) as (x & Hx & Hne & Hfree & ->).
  rewrite (unlink_select _ _ _ _ Hdst) in *.
  destruct (0 <? children_of (e_inode de) db) eqn:Ec.
  { simpl in Hfree. rewrite (find_some_existsb _ _ _ Hdst) in Hfree. discriminate. }
  apply Z.ltb_ge in Ec.
  assert (Hrun1 : (treat (delete_entry newParent newName) ;;;
                   treat (add_refcount (e_inode de) (-1))) db =
                  (inr tt,
                   mkDB (map (fun i => if iID i =? e_inode de
                                       then set_refcount (iNlink i + -1) i
                                       else i) (inodes db))
                        (filter (fun e => negb (entry_at newParent newName e)) (entries db))
                        (chunks db) (xattr db) (stats db) (next_inode db) (next_chunk db))).
  { erewrite bind_ok by (apply treat_ok; reflexivity).
    apply treat_ok. rewrite add_refcount_ok; [reflexivity|].
    simpl. intros i Hi Hid. specialize (Hlinks i Hi Hid). lia. }
  rewrite Hrun1. simpl snd.
  split; [|split].
  - unfold children_of in *. lia.
  - intros t Ht. unfold Get, query_row in *. simpl inodes.
    destruct (find (fun i => iID i =? e_inode de) (inodes db)) as [t0|] eqn:Et;
      [|discriminate].
    inversion Ht. subst t0.
    rewrite (find_updated_inode (e_inode de)
               (fun i => set_refcount (iNlink i + -1) i) _ t);
      [reflexivity | reflexivity | assumption].
  - simpl entries. apply length_map.
Qed.

Lemma Rename_replaces_witness :
  children_of 3 tree_db = 0 /\
  Get None 3 (snd (Rename 1 "s" 2 "c" tree_db))
  = inr (mkInode 3 420 0 0 "" 0 0 2 2 2 2).
Proof.
  destruct (Rename_replaces 1 "s" 2 "c" tree_db _ (mkEntryRow 2 "c" 3)
              eq_refl eq_refl) as (Hc & Hg & _).
  - intros i Hi Hid. simpl in Hi.
    destruct Hi as [<-|[<-|[<-|[<-|[]]]]]; simpl in *; lia.
  - split; [exact Hc|].
    apply (Hg (mkInode 3 420 0 0 "" 0 1 2 2 2 2)). reflexivity.
Defined.


(** ** Forget *)

Lemma filter_xattr_of id (l : list Inode) (xs : list xattr_row) :
  existsb (fun i => iID i =? id) l = true ->
  filter (fun x => negb (existsb (fun i => (iID i =? id) && (iID i =? x_inode x)) l)) xs
  = filter (fun x => negb (x_inode x =? id)) xs.
Proof.
  intros Hex. apply filter_ext. intros x.
  destruct (x_inode x =? id) eqn:E; simpl.
  - apply negb_false_iff.
    apply Z.eqb_eq in E. apply existsb_exists in Hex. destruct Hex as (i & Hi & Hid).
    apply existsb_exists. exists i. split; [assumption|].
    apply Z.eqb_eq in Hid. rewrite Hid, E, !Z.eqb_refl. reflexivity.
  - apply negb_true_iff. apply Z.eqb_neq in E.
    destruct (existsb (fun i => (iID i =? id) && (iID i =? x_inode x)) l) eqn:E';
      [|reflexivity].
    apply existsb_exists in E'. destruct E' as (i & _ & H).
    apply andb_true_iff in H. destruct H as [H1 H2].
    apply Z.eqb_eq in H1, H2. congruence.
Qed.

(** A committed [Forget] found the inode and either left it, because it
    has a link, or removed it. *)
Lemma Forget_ok_inv now inode db u db' :
  Forget now inode db = (inr u, db') ->
  exists i,
    find (fun r => iID r =? inode) (inodes db) = Some i /\
    ((iNlink i <> 0 /\ db' = db) \/
     (iNlink i = 0 /\ db' = forgotten now i db /\
      forall e, In e (entries db) -> e_parent e <> inode /\ e_inode e <> inode)).
Proof.
  intros H. unfold Forget in H. apply transaction_ok_inv in H.
  apply bind_inv in H. destruct H as (i & db1 & Hi & H).
  apply treat_inv, getInode_inv in Hi. destruct Hi as [-> Hi].
  exists i. split; [assumption|].
  destruct (find_inode_id _ _ _ Hi) as [Hid Hin].
  destruct (iNlink i =? 0) eqn:En.
  2:{ apply ret_inv in H. destruct H as [_ ->]. left.
      apply Z.eqb_neq in En. auto. }
  apply Z.eqb_eq in En. right. split; [assumption|].
  apply bind_inv in H. destruct H as (u1 & d1 & H1 & H).
  apply treat_inv, modify_inv in H1. subst d1.
  apply bind_inv in H. destruct H as (u2 & d2 & H2 & H).
  apply treat_inv, modify_inv in H2. subst d2.
  apply bind_inv in H. destruct H as (u3 & d3 & H3 & H).
  apply treat_inv, delete_inodes_inv in H3. destruct H3 as [Hfree ->].
  apply bind_inv in H. destruct H as (u4 & d4 & H4 & H).
  apply treat_inv in H4. unfold stats_add_size in H4.
  destruct (in_range 64 _); [|discriminate]. inversion H4. subst u4 d4. clear H4.
  apply treat_inv in H. unfold stats_add_inodes in H.
  destruct (in_range 64 _); [|discriminate]. inversion H. subst db'. clear H.
  split.
  - unfold forgotten, set_inodes, set_xattr, set_chunks, set_stats. simpl.
    f_equal. apply filter_xattr_of.
    apply existsb_exists. exists i. split; [assumption | apply Z.eqb_refl].
  - intros e He. specialize (Hfree i Hin (Z.eqb_refl _)).
    unfold referenced in Hfree. simpl entries in Hfree.
    apply orb_false_iff in Hfree. destruct Hfree as [Hfree _].
    apply orb_false_iff in Hfree. destruct Hfree as [Hfree _].
    assert (Hn : ((e_parent e =? iID i) || (e_inode e =? iID i)) = false).
    { destruct ((e_parent e =? iID i) || (e_inode e =? iID i)) eqn:E; [|reflexivity].
      assert (existsb (fun e => (e_parent e =? iID i) || (e_inode e =? iID i))
                      (entries db) = true)
        by (apply existsb_exists; eauto).
      congruence. }
    apply orb_false_iff in Hn. destruct Hn as [Hp Hi'].
    apply Z.eqb_neq in Hp, Hi'. rewrite Hid in *. auto.
Qed.

Lemma filter_filter_none {A} (p : A -> bool) l :
  filter p (filter (fun x => negb (p x)) l) = [].
Proof.
  induction l as [|a l IH]; simpl; [reflexivity|].
  destruct (p a) eqn:E; simpl; [assumption|]. now rewrite E.
Qed.

Lemma live_orphaned_none now inode l :
  filter (live_in inode)
         (map (fun r => if live_in inode r then orphaned now r else r) l) = [].
Proof.
  induction l as [|a l IH]; simpl; [reflexivity|].
  destruct (live_in inode a) eqn:E; simpl; [assumption|]. now rewrite E.
Qed.

(** X21: [Forget] of an inode that does not exist answers [ENOENT]; [Forget]
    of an inode that has a link changes nothing.  When [Forget] of an
    inode without a link commits, the inode is gone: [Get] answers
    [ENOENT], its chunks are orphaned and dated, its attributes are
    deleted, the stats count one inode less and its size less, and every
    other inode is as before. *)
Theorem Forget_spec now inode db :
  (find (fun r => iID r =? inode) (inodes db) = None ->
   Forget now inode db = (inl (Sys ENOENT), db)) /\
  (forall i,
      find (fun r => iID r =? inode) (inodes db) = Some i -> iNlink i <> 0 ->
      Forget now inode db = (inr tt, db)) /\
  (forall i db',
      find (fun r => iID r =? inode) (inodes db) = Some i -> iNlink i = 0 ->
      Forget now inode db = (inr tt, db') ->
      Get None inode db' = inl (Sys ENOENT) /\
      live_chunks inode db' = [] /\
      ListXattr inode db' = inr [] /\
      chunks db' = map (fun r => if live_in inode r then orphaned now r else r)
                       (chunks db) /\
      Stats None db' = inr (mkStats (sInodes (stats db) - 1)
                                    (sSize (stats db) - iSize i)) /\
      entries db' = entries db /\
      (forall j, j <> inode -> Get None j db' = Get None j db)).
Proof.
  split; [|split].
  - intros H. unfold Forget, transaction, bind, treat, getInode. now rewrite H.
  - intros i Hi Hn. unfold Forget. apply transaction_ok.
    erewrite bind_ok by (apply treat_ok; apply getInode_Some; exact Hi).
    apply Z.eqb_neq in Hn. rewrite Hn. reflexivity.
  - intros i db' Hi Hn Hrun.
    destruct (Forget_ok_inv _ _ _ _ _ Hrun) as (i0 & Hi0 & [[Hn0 _] | (_ & -> & _)]).
    { rewrite Hi in Hi0. inversion Hi0. subst i0. contradiction. }
    rewrite Hi in Hi0. inversion Hi0. subst i0. clear Hi0.
    destruct (find_inode_id _ _ _ Hi) as [Hid _]. unfold forgotten. rewrite Hid.
    repeat split.
    + apply Get_ENOENT_iff_absent. simpl inodes. apply find_filter_out.
    + unfold live_chunks. simpl chunks. apply live_orphaned_none.
    + unfold ListXattr. simpl xattr. now rewrite filter_filter_none.
    + intros j Hj. unfold Get, query_row. simpl inodes.
      rewrite find_filter_keep; [reflexivity|].
      intros x Hx. apply Z.eqb_eq in Hx. apply negb_true_iff. apply Z.eqb_neq. lia.
Qed.

Lemma Forget_spec_witness :
  Forget 9 99 unlinked_db = (inl (Sys ENOENT), unlinked_db) /\
  Forget 9 2 unlinked_db = (inr tt, unlinked_db) /\
  live_chunks 4 unlinked_db <> [] /\
  Get None 4 (snd (Forget 9 4 unlinked_db)) = inl (Sys ENOENT) /\
  live_chunks 4 (snd (Forget 9 4 unlinked_db)) = [].
Proof.
  destruct (Forget_spec 9 99 unlinked_db) as (H1 & _).
  destruct (Forget_spec 9 2 unlinked_db) as (_ & H2 & _).
  destruct (Forget_spec 9 4 unlinked_db) as (_ & _ & H3).
  split; [apply H1; reflexivity|].
  split; [apply (H2 (mkInode 2 dir_mode 0 0 "" 0 1 1 1 1 1)); [reflexivity | discriminate]|].
  split; [discriminate|].
  destruct (H3 (mkInode 4 420 0 0 "" 10 0 6 5 6 3) _ eq_refl eq_refl eq_refl)
    as (G1 & G2 & _).
  split; assumption.
Defined.

(** ** CleanOrphanInodes *)

Lemma orphan_inode_live id db r :
  live_in id r = true ->
  existsb (fun i => live_in (iID i) r) (filter (fun i => iNlink i =? 0) (inodes db))
  = orphan_inode id db.
Proof.
  intros Hl. unfold orphan_inode.
  induction (inodes db) as [|a l IH]; simpl; [reflexivity|].
  destruct (iNlink a =? 0) eqn:E; simpl; [|assumption].
  rewrite IH. f_equal.
  destruct (iID a =? id) eqn:Ea.
  - apply Z.eqb_eq in Ea. now rewrite Ea.
  - destruct (live_in (iID a) r) eqn:El; [|reflexivity].
    apply Z.eqb_neq in Ea. elim Ea. apply (live_in_unique (iID a) id r); assumption.
Qed.

Lemma filter_filter_keep {A} (p q : A -> bool) l :
  (forall x, p x = true -> q x = true) ->
  filter p (filter q l) = filter p l.
Proof.
  intros H. induction l as [|a l IH]; simpl; [reflexivity|].
  destruct (q a) eqn:Eq; simpl.
  - now rewrite IH.
  - destruct (p a) eqn:Ep; [|assumption].
    rewrite (H a Ep) in Eq. discriminate.
Qed.

Lemma filter_filter_drop {A} (p q : A -> bool) l :
  (forall x, p x = true -> q x = false) ->
  filter p (filter q l) = [].
Proof.
  intros H. induction l as [|a l IH]; simpl; [reflexivity|].
  destruct (q a) eqn:Eq; simpl; [|assumption].
  destruct (p a) eqn:Ep; [|assumption].
  rewrite (H a Ep) in Eq. discriminate.
Qed.

(** A committed [CleanOrphanInodes] left [cleaned], with the stats
    recomputed. *)
Lemma CleanOrphanInodes_ok_inv now db u db' :
  CleanOrphanInodes now db = (inr u, db') ->
  inodes (cleaned now db) <> [] /\
  db' = set_stats (mkStats (Z.of_nat (List.length (inodes (cleaned now db))))
                           (total_size (cleaned now db)))
                  (cleaned now db).
Proof.
  intros Hrun.
  unfold CleanOrphanInodes in Hrun. apply transaction_ok_inv in Hrun.
  apply bind_inv in Hrun. destruct Hrun as (orphans & db1 & Ho & H).
  injection Ho as <- <-.
  apply bind_inv in H. destruct H as (u1 & d1 & H1 & H).
  apply treat_inv, modify_inv in H1. subst d1.
  apply bind_inv in H. destruct H as (u2 & d2 & H2 & H).
  apply treat_inv, modify_inv in H2. subst d2.
  apply bind_inv in H. destruct H as (u3 & d3 & H3 & H).
  apply treat_inv, delete_inodes_inv in H3. destruct H3 as [_ ->].
  apply treat_inv in H. unfold recompute_stats in H. simpl inodes in H.
  unfold cleaned, total_size. simpl inodes.
  destruct (filter (fun i => negb (iNlink i =? 0)) (inodes db)) as [|i0 l0] eqn:Ef;
    [discriminate|].
  destruct (in_range 64 _); [|discriminate].
  inversion H. subst db'. clear H.
  split; [discriminate|].
  unfold set_stats, set_inodes, set_xattr, set_chunks, orphan_inode.
  cbn [inodes entries chunks xattr stats next_inode next_chunk]. reflexivity.
Qed.

(** X22: When [CleanOrphanInodes] commits, the inodes without a link are gone
    and the others are as before; the stats are recomputed: the number of
    inode rows and the sum of their sizes; the chunks of the inodes that
    are gone are orphaned and their attributes deleted, the chunks and
    attributes of the others are as before. *)
Theorem CleanOrphanInodes_spec now db db'
    (Hrun : CleanOrphanInodes now db = (inr tt, db')) :
  inodes db' = filter (fun i => negb (iNlink i =? 0)) (inodes db) /\
  (forall i, In i (inodes db') -> iNlink i <> 0) /\
  Stats None db' = inr (mkStats (Z.of_nat (List.length (inodes db'))) (total_size db')) /\
  entries db' = entries db /\
  (forall j, orphan_inode j db = false ->
             live_chunks j db' = live_chunks j db /\
             ListXattr j db' = ListXattr j db) /\
  (forall j, orphan_inode j db = true ->
             live_chunks j db' = [] /\ ListXattr j db' = inr []).
Proof.
  destruct (CleanOrphanInodes_ok_inv _ _ _ _ Hrun) as (Hne & ->).
  simpl inodes. simpl entries.
  split; [reflexivity|]. split; [|split; [|split; [reflexivity|split]]].
  - intros i Hi. apply filter_In in Hi. destruct Hi as [_ Hi].
    apply negb_true_iff, Z.eqb_neq in Hi. assumption.
  - reflexivity.
  - intros j Hj. split.
    + unfold live_chunks. simpl chunks. apply filter_live_map.
      * intros r _ Hl. now rewrite (orphan_inode_live j db r Hl), Hj.
      * intros r _. destruct (existsb _ _); [discriminate | auto].
    + unfold ListXattr. simpl xattr. f_equal. f_equal.
      apply filter_filter_keep. intros x Hx. apply Z.eqb_eq in Hx. subst j.
      apply negb_true_iff. exact Hj.
  - intros j Hj. split.
    + unfold live_chunks. simpl chunks.
      assert (G : forall l, filter (live_in j)
                 (map (fun r => if existsb (fun i => live_in (iID i) r)
                                          (filter (fun i => iNlink i =? 0) (inodes db))
                                then orphaned now r else r) l) = []).
      { induction l as [|a l IH]; simpl; [reflexivity|]. rewrite IH.
        destruct (live_in j a) eqn:El.
        - rewrite (orphan_inode_live j db a El), Hj. reflexivity.
        - destruct (existsb _ _); simpl; [reflexivity | now rewrite El]. }
      apply G.
    + unfold ListXattr. simpl xattr. f_equal.
      rewrite filter_filter_drop; [reflexivity|].
      intros x Hx. apply Z.eqb_eq in Hx. subst j.
      apply negb_false_iff. exact Hj.
Qed.

Lemma CleanOrphanInodes_spec_witness :
  map iID (inodes (snd (CleanOrphanInodes 9 unlinked_db))) = [1; 2; 3] /\
  Stats None (snd (CleanOrphanInodes 9 unlinked_db)) = inr (mkStats 3 0) /\
  live_chunks 4 (snd (CleanOrphanInodes 9 unlinked_db)) = [].
Proof.
  set (db' := snd (CleanOrphanInodes 9 unlinked_db)).
  assert (Hrun : CleanOrphanInodes 9 unlinked_db = (inr tt, db')) by reflexivity.
  destruct (CleanOrphanInodes_spec 9 unlinked_db db' Hrun)
    as (H1 & _ & H3 & _ & _ & H6).
  split; [rewrite H1; reflexivity|]. split; [exact H3|].
  apply (H6 4). reflexivity.
Defined.

(** ** What is never reclaimed *)

Lemma inode_exists_shape db db' id :
  shape db' = shape db -> inode_exists id db' = inode_exists id db.
Proof.
  intros H. apply shape_parts in H. destruct H as (_ & _ & H).
  unfold inode_exists. now rewrite !inode_exists_map, H.
Qed.

Lemma inode_exists_mapped id (f : Inode -> Inode) db db' :
  (forall r, iID (f r) = iID r) -> inodes db' = map f (inodes db) ->
  inode_exists id db = true -> inode_exists id db' = true.
Proof.
  intros Hf Hi H. apply inode_exists_In in H. destruct H as (i & Hin & Hid).
  apply inode_exists_In. exists (f i). split; [|now rewrite Hf].
  rewrite Hi. apply in_map. assumption.
Qed.

(** An inode row with a link is still there after any operation. *)
Lemma step_keeps_linked now o db i :
  store_inv db -> In i (inodes db) -> 1 <= iNlink i ->
  inode_exists (iID i) (step now o db) = true.
Proof.
  intros Hinv Hin Hn.
  assert (H0 : inode_exists (iID i) db = true)
    by (apply inode_exists_In; eauto).
  destruct o; simpl.
  - (* Create *)
    destruct (Create now entry db) as [[e|a] db'] eqn:Hrun; simpl.
    { apply transaction_rollback in Hrun. now subst. }
    destruct (Create_cases _ _ _ _ _ Hrun)
      as (p & result & _ & _ & _ & _ & _ & _ & _ & _ &
          [(_ & _ & Hi & _) | (_ & _ & Hi & _)]).
    + apply inode_exists_In. exists i. split; [|reflexivity].
      rewrite Hi. apply in_or_app. auto.
    + eapply inode_exists_mapped; [|exact Hi|exact H0].
      intros r. apply update_keeps_id. reflexivity.
  - (* Forget *)
    destruct (Forget now inode db) as [[e|a] db'] eqn:Hrun; simpl.
    { apply transaction_rollback in Hrun. now subst. }
    destruct (Forget_ok_inv _ _ _ _ _ Hrun)
      as (i0 & Hi0 & [[_ ->] | (Hn0 & -> & _)]); [assumption|].
    destruct (find_inode_id _ _ _ Hi0) as [Hid0 Hin0].
    apply inode_exists_In. exists i. split; [|reflexivity].
    unfold forgotten. simpl inodes. apply filter_In. split; [assumption|].
    apply negb_true_iff, Z.eqb_neq. intros Heq.
    pose proof (inv_refcount _ Hinv i Hin) as R.
    pose proof (inv_refcount _ Hinv i0 Hin0) as R0.
    rewrite Heq in R. lia.
  - (* CleanOrphanInodes *)
    destruct (CleanOrphanInodes now db) as [[e|a] db'] eqn:Hrun; simpl.
    { apply transaction_rollback in Hrun. now subst. }
    destruct (CleanOrphanInodes_ok_inv _ _ _ _ Hrun) as (_ & ->).
    apply inode_exists_In. exists i. split; [|reflexivity].
    simpl inodes. apply filter_In. split; [assumption|].
    apply negb_true_iff, Z.eqb_neq. lia.
  - rewrite (inode_exists_shape db); [assumption | apply CleanOrphanChunks_shape].
  - (* Unlink *)
    destruct (Unlink parent name db) as [[e|a] db'] eqn:Hrun; simpl.
    { apply transaction_rollback in Hrun. now subst. }
    unfold Unlink in Hrun. apply transaction_ok_inv in Hrun.
    destruct (unlink_ok_inv _ _ _ _ _ Hrun) as (pe & _ & _ & _ & ->).
    eapply inode_exists_mapped; [|reflexivity|exact H0].
    intros r. apply update_keeps_id. reflexivity.
  - (* Rename *)
    destruct (Rename oldParent oldName newParent newName db) as [[e|a] db'] eqn:Hrun;
      simpl.
    { apply transaction_rollback in Hrun. now subst. }
    destruct (Rename_ok_inv _ _ _ _ _ _ _ Hrun) as (x & _ & _ & _ & ->).
    destruct (unlink_keeps_ids newParent newName db) as (f & Hf & Hi).
    eapply inode_exists_mapped; [exact Hf|exact Hi|exact H0].
  - rewrite (inode_exists_shape db); [assumption | apply Touch_shape].
  - rewrite (inode_exists_shape db); [assumption | apply AddChunk_shape].
  - rewrite (inode_exists_shape db); [assumption | apply Chunks_shape].
  - rewrite (inode_exists_shape db); [assumption | apply Children_shape].
  - rewrite (inode_exists_shape db); [assumption | apply RemoveXattr_shape].
  - rewrite (inode_exists_shape db); [assumption | apply SetXattr_shape].
Qed.

Lemma root_exists db : reachable db -> inode_exists 1 db = true.
Proof.
  induction 1 as [now | now o db Hr IH]; [reflexivity|].
  pose proof (reachable_inv _ Hr) as Hinv.
  apply inode_exists_In in IH. destruct IH as (r & Hin & Hid).
  rewrite <- Hid. apply step_keeps_linked; try assumption.
  pose proof (inv_refcount _ Hinv r Hin) as R. rewrite Hid in R. simpl in R.
  pose proof (count_links_nonneg 1 (entries db)). unfold links in R. lia.
Qed.

(** X23: In every store that the driver can reach, the root inode exists and
    has a link; and an inode that an entry points to is not removed by the
    next operation, whichever it is: [Forget] and [CleanOrphanInodes] only
    reclaim inodes without a name. *)
Theorem linked_inodes_survive db (Hreach : reachable db) :
  (exists r, Get None 1 db = inr r /\ 1 <= iNlink r) /\
  (forall e now o, In e (entries db) ->
     exists i, Get None (e_inode e) (step now o db) = inr i).
Proof.
  pose proof (reachable_inv _ Hreach) as Hinv.
  assert (Hget : forall id d, inode_exists id d = true ->
                              exists i, Get None id d = inr i /\ In i (inodes d) /\ iID i = id).
  { intros id d H. apply existsb_find_some in H. destruct H as (i & Hi).
    exists i. unfold Get, query_row. rewrite Hi.
    destruct (find_inode_id _ _ _ Hi). auto. }
  split.
  - destruct (Hget 1 db (root_exists db Hreach)) as (r & Hg & Hin & Hid).
    exists r. split; [assumption|].
    pose proof (inv_refcount _ Hinv r Hin) as R. rewrite Hid in R. simpl in R.
    pose proof (count_links_nonneg 1 (entries db)). unfold links in R. lia.
  - intros e now o He.
    pose proof (inv_fk _ Hinv e He) as Hex.
    apply inode_exists_In in Hex. destruct Hex as (i & Hin & Hid).
    assert (Hn : 1 <= iNlink i).
    { pose proof (inv_refcount _ Hinv i Hin) as R. unfold links in R.
      pose proof (count_links_pos (iID i) (entries db) e He (eq_sym Hid)).
      destruct (iID i =? 1); lia. }
    pose proof (step_keeps_linked now o db i Hinv Hin Hn) as Hs.
    rewrite Hid in Hs.
    destruct (Hget _ _ Hs) as (i' & Hg & _). eauto.
Qed.

Lemma linked_inodes_survive_witness :
  exists i, Get None 3 (step 9 (OpForget 3) tree_db) = inr i.
Proof.
  apply (proj2 (linked_inodes_survive tree_db tree_db_reachable)
           (mkEntryRow 2 "c" 3) 9 (OpForget 3)).
  simpl. auto.
Defined.


(** ** Extended attributes: removal, listing and the other keys *)

Lemma xattr_at_other i k inode attr x :
  (i, k) <> (inode, attr) -> xattr_at i k x = true -> xattr_at inode attr x = false.
Proof.
  unfold xattr_at. intros Hne H.
  apply andb_true_iff in H. destruct H as [H1 H2].
  apply Z.eqb_eq in H1. apply String.eqb_eq in H2.
  destruct ((x_inode x =? inode) && String.eqb (x_key x) attr) eqn:E; [|reflexivity].
  apply andb_true_iff in E. destruct E as [E1 E2].
  apply Z.eqb_eq in E1. apply String.eqb_eq in E2. congruence.
Qed.

Lemma find_xattr_set i k inode attr value l :
  (i, k) <> (inode, attr) ->
  find (xattr_at i k)
       (map (fun x => if xattr_at inode attr x
                      then mkXattrRow (x_inode x) (x_key x) value
                      else x) l) = find (xattr_at i k) l.
Proof.
  intros Hne. induction l as [|a l IH]; simpl; [reflexivity|].
  destruct (xattr_at inode attr a) eqn:E.
  - change (xattr_at i k (mkXattrRow (x_inode a) (x_key a) value))
      with (xattr_at i k a).
    destruct (xattr_at i k a) eqn:E'; [|assumption].
    rewrite (xattr_at_other _ _ _ _ _ Hne E') in E. discriminate.
  - destruct (xattr_at i k a); [reflexivity | assumption].
Qed.

Lemma find_xattr_app i k inode attr value l :
  (i, k) <> (inode, attr) ->
  find (xattr_at i k) (l ++ [mkXattrRow inode attr value]) = find (xattr_at i k) l.
Proof.
  intros Hne. induction l as [|a l IH]; simpl.
  - destruct (xattr_at i k (mkXattrRow inode attr value)) eqn:E; [|reflexivity].
    unfold xattr_at in E. simpl in E.
    apply andb_true_iff in E. destruct E as [E1 E2].
    apply Z.eqb_eq in E1. apply String.eqb_eq in E2. congruence.
  - destruct (xattr_at i k a); [reflexivity | assumption].
Qed.

(** X25: [RemoveXattr] does not fail when the attribute or the inode is
    missing; afterwards [GetXattr] of the attribute answers [ENODATA] and
    every other attribute, of this and of the other inodes, is as before. *)
Theorem RemoveXattr_spec now inode attr db :
  exists db',
    RemoveXattr now inode attr db = (inr tt, db') /\
    GetXattr None inode attr db' = inl (Sys ENODATA) /\
    (forall i k, (i, k) <> (inode, attr) ->
                 GetXattr None i k db' = GetXattr None i k db) /\
    entries db' = entries db /\ chunks db' = chunks db /\ stats db' = stats db.
Proof.
  eexists. split; [reflexivity|]. simpl.
  split; [|split; [|repeat split]].
  - unfold GetXattr, query_row. simpl xattr. now rewrite find_filter_out.
  - intros i k Hne. unfold GetXattr, query_row. simpl xattr.
    rewrite find_filter_keep; [reflexivity|].
    intros x Hx. apply negb_true_iff. apply (xattr_at_other i k); assumption.
Qed.

(** X26: [ListXattr] lists the keys that [GetXattr] finds: a key is in the
    list of an inode exactly when [GetXattr] of it returns a value. *)
Theorem ListXattr_GetXattr inode attr db :
  exists keys,
    ListXattr inode db = inr keys /\
    (In attr keys <-> exists v, GetXattr None inode attr db = inr v).
Proof.
  eexists. split; [reflexivity|].
  unfold GetXattr, query_row. split.
  - intros H. apply in_map_iff in H. destruct H as (x & Hk & Hx).
    apply filter_In in Hx. destruct Hx as [Hin Hi].
    destruct (find (xattr_at inode attr) (xattr db)) as [y|] eqn:E; [eauto|].
    exfalso. pose proof (find_none _ _ E x Hin) as Hn.
    unfold xattr_at in Hn. rewrite Hi, Hk, String.eqb_refl in Hn. discriminate.
  - intros (v & H).
    destruct (find (xattr_at inode attr) (xattr db)) as [y|] eqn:E; [|discriminate].
    apply find_some in E. destruct E as [Hin E].
    unfold xattr_at in E. apply andb_true_iff in E. destruct E as [E1 E2].
    apply String.eqb_eq in E2.
    apply in_map_iff. exists y. split; [assumption|].
    apply filter_In. auto.
Qed.

(** X27: [SetXattr] of one attribute, with any flags and whether it succeeds
    or fails, leaves every other attribute, of this and of the other
    inodes, as it is. *)
Theorem SetXattr_other_keys now inode attr value flags db i k :
  (i, k) <> (inode, attr) ->
  GetXattr None i k (snd (SetXattr now inode attr value flags db))
  = GetXattr None i k db.
Proof.
  intros Hne.
  destruct (SetXattr now inode attr value flags db) as [[e|u] db'] eqn:Hrun; simpl.
  { apply transaction_rollback in Hrun. now subst. }
  unfold SetXattr in Hrun. apply transaction_ok_inv in Hrun.
  apply bind_inv in Hrun. destruct Hrun as (u1 & d1 & H1 & H2).
  apply treat_inv, modify_inv in H2. subst db'.
  unfold GetXattr, query_row. simpl xattr.
  assert (G : find (xattr_at i k) (xattr d1) = find (xattr_at i k) (xattr db));
    [|now rewrite G].
  destruct (flags =? 1).
  - apply treat_inv in H1. unfold insert_xattr in H1.
    destruct (existsb _ _); [discriminate|].
    destruct (inode_exists inode db); [|discriminate].
    inversion H1. simpl. apply find_xattr_app. assumption.
  - destruct (flags =? 2).
    + apply bind_inv in H1. destruct H1 as (n & d2 & Hu & H1).
      apply treat_inv in Hu. unfold update_xattr in Hu. inversion Hu. subst n d2.
      destruct (_ =? 0); [discriminate|].
      apply ret_inv in H1. destruct H1 as [_ ->]. simpl.
      apply find_xattr_set. assumption.
    + apply treat_inv in H1. unfold upsert_xattr in H1.
      destruct (existsb _ _).
      * inversion H1. simpl. apply find_xattr_set. assumption.
      * destruct (inode_exists inode db); [|discriminate].
        inversion H1. simpl. apply find_xattr_app. assumption.
Qed.

Lemma SetXattr_other_keys_witness :
  GetXattr None 4 "user.k" (snd (SetXattr 9 4 "user.j" "w" 0 unlinked_db))
  = inr "v"%string.
Proof.
  rewrite (SetXattr_other_keys 9 4 "user.j" "w" 0 unlinked_db 4 "user.k").
  - reflexivity.
  - discriminate.
Defined.

(** ** CleanOrphanChunks *)

Lemma send_all_ok workers rows sent :
  0 < workers ->
  (forall r, In r rows -> r_storage r <> None /\ r_key r <> None) ->
  exists more,
    send_all workers rows sent = Some (None, sent ++ more) /\
    map (fun o => (Some (fst o), Some (snd o))) more
    = map (fun r => (r_storage r, r_key r)) rows.
Proof.
  intros Hw. revert sent. induction rows as [|r rows IH]; intros sent Hrows.
  - exists []. simpl. now rewrite app_nil_r.
  - destruct (Hrows r (or_introl eq_refl)) as [Hs Hk]. simpl.
    destruct (r_storage r) as [st|]; [|contradiction].
    destruct (r_key r) as [k|]; [|contradiction].
    replace (0 <? workers) with true by (symmetry; apply Z.ltb_lt; assumption).
    destruct (IH (sent ++ [(st, k)])) as (more & Hrun & Hmore).
    { intros x Hx. apply Hrows. right. assumption. }
    exists ((st, k) :: more). rewrite Hrun, <- app_assoc. simpl.
    split; [reflexivity|]. now rewrite Hmore.
Qed.

(** X24: [CleanOrphanChunks] with at least one worker, on rows whose
    storage and key are not NULL, returns without an error: the objects of
    the rows that are orphaned and dated before the threshold, and only
    they, are handed to the storage for removal, and these rows are
    deleted; the live chunks of every inode and the orphans dated at or
    after the threshold stay and the other tables are as before; a second
    run hands over and deletes nothing.  Without a worker, the call blocks
    for ever as soon as one row is selected. *)
Theorem CleanOrphanChunks_spec threshold workers db :
  (0 < workers ->
   (forall r, In r (chunks db) -> expired threshold r = true ->
              r_storage r <> None /\ r_key r <> None) ->
   exists removed db',
     CleanOrphanChunks_run threshold workers db = Returns None removed db' /\
     Permutation (map (fun o => (Some (fst o), Some (snd o))) removed)
                 (map (fun r => (r_storage r, r_key r))
                      (filter (expired threshold) (chunks db))) /\
     chunks db' = filter (fun r => negb (expired threshold r)) (chunks db) /\
     (forall j, live_chunks j db' = live_chunks j db) /\
     (forall now r, In (orphaned now r) (chunks db) ->
                    (In (orphaned now r) (chunks db') <-> threshold <= now)) /\
     inodes db' = inodes db /\ entries db' = entries db /\
     xattr db' = xattr db /\ stats db' = stats db /\
     CleanOrphanChunks_run threshold workers db' = Returns None [] db') /\
  (workers <= 0 ->
   forall r rest,
     filter (expired threshold) (chunks db) = r :: rest ->
     r_storage r <> None -> r_key r <> None ->
     CleanOrphanChunks_run threshold workers db = Blocks).
Proof.
  split.
  - intros Hw Hrows.
    destruct (send_all_ok workers (filter (expired threshold) (chunks db)) [] Hw)
      as (removed & Hrun & Hrem).
    { intros r Hr. apply filter_In in Hr. destruct Hr. auto. }
    exists removed, (snd (CleanOrphanChunks threshold db)).
    unfold CleanOrphanChunks_run at 1. rewrite Hrun. simpl app.
    split; [reflexivity|]. split; [rewrite Hrem; reflexivity|].
    split; [reflexivity|]. split; [|split; [|repeat split]].
    + intros j. unfold live_chunks. simpl chunks.
      apply filter_filter_keep. intros r Hr.
      apply live_in_inode in Hr. now rewrite Hr.
    + intros now r Hin. simpl chunks. rewrite filter_In. simpl.
      rewrite negb_true_iff, Z.ltb_ge. tauto.
    + unfold CleanOrphanChunks_run. simpl chunks.
      change (filter (expired threshold)
                (filter (fun r => negb (match r_inode r, r_orphandate r with
                                        | None, Some d => d <? threshold
                                        | _, _ => false
                                        end)) (chunks db)))
        with (filter (expired threshold)
                (filter (fun r => negb (expired threshold r)) (chunks db))).
      rewrite filter_filter_none. simpl. f_equal.
      unfold CleanOrphanChunks, transaction, modify, set_chunks. simpl.
      f_equal.
      rewrite filter_filter_and. apply filter_ext. intros r.
      destruct (negb _); reflexivity.
  - intros Hw r rest Hsel Hs Hk.
    unfold CleanOrphanChunks_run. rewrite Hsel. simpl.
    destruct (r_storage r); [|contradiction].
    destruct (r_key r); [|contradiction].
    replace (0 <? workers) with false by (symmetry; apply Z.ltb_ge; assumption).
    reflexivity.
Qed.

Lemma CleanOrphanChunks_spec_witness :
  (exists db', CleanOrphanChunks_run 10 2 forgotten_db
               = Returns None [("s3"%string, "a"%string)] db' /\ chunks db' = []) /\
  CleanOrphanChunks_run 10 0 forgotten_db = Blocks.
Proof.
  split.
  - eexists. split; reflexivity.
  - apply (proj2 (CleanOrphanChunks_spec 10 0 forgotten_db) ltac:(lia)
             (mkChunkRow 1 None (Some "s3"%string) (Some "a"%string) None None None (Some 9))
             []); [reflexivity | discriminate | discriminate].
Defined.


(** ** The keys of the tables *)

Section Preserves.

Variable P : DB -> Prop.

Lemma pres_ret {A} (a : A) : preserves P (ret a).
Proof. intros db H. exact H. Qed.

Lemma pres_fail {A} e : preserves P (@fail A e).
Proof. intros db H. exact H. Qed.

Lemma pres_bind {A B} (m : Tx A) (k : A -> Tx B) :
  preserves P m -> (forall a, preserves P (k a)) -> preserves P (bind m k).
Proof.
  intros Hm Hk db H. unfold bind. specialize (Hm db H).
  destruct (m db) as [[e|a] db1]; simpl in *; [assumption|].
  apply Hk. assumption.
Qed.

Lemma pres_treat {A} (m : Tx A) : preserves P m -> preserves P (treat m).
Proof.
  intros Hm db H. unfold treat. specialize (Hm db H).
  destruct (m db) as [[e|a] db1]; assumption.
Qed.

Lemma pres_ignore_error {A} (m : Tx A) :
  preserves P m -> preserves P (ignore_error m).
Proof. intros Hm db H. unfold ignore_error. simpl. apply Hm. assumption. Qed.

Lemma pres_forEach {A} (l : list A) f :
  (forall a, preserves P (f a)) -> preserves P (forEach l f).
Proof.
  intros Hf. induction l as [|a l IH]; simpl.
  - apply pres_ret.
  - apply pres_bind; [apply Hf | intros _; exact IH].
Qed.

Lemma pres_transaction {A} (m : Tx A) db :
  preserves P m -> P db -> P (snd (transaction m db)).
Proof.
  intros Hm H. unfold transaction. specialize (Hm db H).
  destruct (m db) as [[e|a] db1]; assumption.
Qed.

Lemma pres_read {A} (m : Tx A) :
  (forall db, snd (m db) = db) -> preserves P m.
Proof. intros Hm db H. now rewrite Hm. Qed.

End Preserves.

Lemma getInode_read id db : snd (getInode id db) = db.
Proof. unfold getInode. destruct (find _ _); reflexivity. Qed.

Lemma query_chunks_read inode summed cond db :
  snd (query_chunks inode summed cond db) = db.
Proof.
  unfold query_chunks. destruct (existsb _ _); [reflexivity|].
  destruct (scan_all _ _); reflexivity.
Qed.

(** The invariant only looks at the keys. *)
Lemma keys_ok_same db db' :
  map iID (inodes db') = map iID (inodes db) ->
  map r_id (chunks db') = map r_id (chunks db) ->
  map r_inode (chunks db') = map r_inode (chunks db) ->
  next_inode db' = next_inode db -> next_chunk db' = next_chunk db ->
  keys_ok db -> keys_ok db'.
Proof.
  intros H1 H2 H3 H4 H5 [A B C D E].
  constructor; rewrite ?H1, ?H2, ?H3, ?H4, ?H5; assumption.
Qed.

Lemma map_update_ids id (f : Inode -> Inode) l :
  (forall r, iID (f r) = iID r) ->
  map iID (map (fun i => if iID i =? id then f i else i) l) = map iID l.
Proof.
  intros Hf. rewrite map_map. apply map_ext. intros a.
  destruct (iID a =? id); auto.
Qed.

Lemma ko_stats_add_size d : preserves keys_ok (stats_add_size d).
Proof.
  intros db H. unfold stats_add_size. destruct (in_range _ _); [|assumption].
  revert H. apply keys_ok_same; reflexivity.
Qed.

Lemma ko_stats_add_inodes d : preserves keys_ok (stats_add_inodes d).
Proof.
  intros db H. unfold stats_add_inodes. destruct (in_range _ _); [|assumption].
  revert H. apply keys_ok_same; reflexivity.
Qed.

Lemma ko_recompute_stats : preserves keys_ok recompute_stats.
Proof.
  intros db H. unfold recompute_stats. destruct (inodes db) eqn:E; [assumption|].
  destruct (in_range _ _); [|assumption].
  revert H. apply keys_ok_same; simpl; now rewrite ?E.
Qed.

Lemma ko_add_refcount id d : preserves keys_ok (add_refcount id d).
Proof.
  intros db H. unfold add_refcount. destruct (forallb _ _); [|assumption].
  revert H. apply keys_ok_same; try reflexivity.
  simpl. apply map_update_ids. reflexivity.
Qed.

Lemma ko_update_inode id f :
  (forall r, iID (f r) = iID r) -> preserves keys_ok (update_inode id f).
Proof.
  intros Hf db H. unfold update_inode, modify. simpl.
  revert H. apply keys_ok_same; try reflexivity.
  simpl. apply map_update_ids. assumption.
Qed.

Lemma ko_insert_inode now mode uid gid target :
  preserves keys_ok (insert_inode now mode uid gid target).
Proof.
  intros db [A B C D E]. unfold insert_inode. simpl.
  constructor; simpl; try assumption.
  - rewrite map_app. simpl. apply NoDup_app; [assumption | repeat constructor; simpl; tauto |].
    intros x Hx [<- | []]. rewrite Forall_forall in D. specialize (D _ Hx). simpl in D. lia.
  - rewrite map_app. apply Forall_app. split.
    + eapply Forall_impl; [|exact D]. simpl. intros; lia.
    + constructor; [simpl; lia | constructor].
  - eapply Forall_impl; [|exact E]. intros [j|] Hj; [|exact I].
    rewrite map_app. apply in_or_app. auto.
Qed.

Lemma ko_entries (f : DB -> list entry_row) db :
  keys_ok db -> keys_ok (set_entries (f db) db).
Proof. apply keys_ok_same; reflexivity. Qed.

Lemma ko_insert_entry p n i : preserves keys_ok (insert_entry p n i).
Proof.
  intros db H. unfold insert_entry. destruct (existsb _ _); [assumption|].
  destruct (_ && _); [|assumption].
  apply (ko_entries (fun db => entries db ++ [mkEntryRow p n i])). assumption.
Qed.

Lemma ko_delete_entry p n : preserves keys_ok (delete_entry p n).
Proof.
  intros db H. unfold delete_entry, modify. simpl.
  apply (ko_entries (fun db => filter (fun e => negb (entry_at p n e)) (entries db))).
  assumption.
Qed.

Lemma ko_move_entry np nn op on : preserves keys_ok (move_entry np nn op on).
Proof.
  intros db H. unfold move_entry.
  destruct (filter _ _); [assumption|].
  destruct (_ && _); [assumption|].
  destruct (_ || _); [assumption|].
  destruct (inode_exists np db); [|assumption].
  simpl. revert H. apply keys_ok_same; reflexivity.
Qed.

Lemma ko_xattr (l : list xattr_row) db : keys_ok db -> keys_ok (set_xattr l db).
Proof. apply keys_ok_same; reflexivity. Qed.

Lemma In_ids id db : inode_exists id db = true -> In id (map iID (inodes db)).
Proof.
  intros H. apply inode_exists_In in H. destruct H as (i & Hi & <-).
  apply in_map. assumption.
Qed.

Lemma ko_insert_chunk inode st k oo io sz :
  preserves keys_ok (insert_chunk inode st k oo io sz).
Proof.
  intros db H. unfold insert_chunk.
  destruct (_ && _); [|assumption].
  destruct (inode_exists inode db) eqn:Hex; [|assumption].
  destruct H as [A B C D E]. constructor; simpl; try assumption.
  - rewrite map_app. simpl. apply NoDup_app; [assumption | repeat constructor; simpl; tauto |].
    intros x Hx [<- | []]. rewrite Forall_forall in B. specialize (B _ Hx). simpl in B. lia.
  - rewrite map_app. apply Forall_app. split.
    + eapply Forall_impl; [|exact B]. simpl. intros; lia.
    + constructor; [simpl; lia | constructor].
  - rewrite map_app. apply Forall_app. split; [assumption|].
    constructor; [|constructor]. simpl. apply In_ids. assumption.
Qed.

Lemma ko_chunks_map (f : chunk_row -> chunk_row) db :
  (forall r, r_id (f r) = r_id r) ->
  (forall r, r_inode (f r) = r_inode r \/ r_inode (f r) = None) ->
  keys_ok db -> keys_ok (set_chunks (map f (chunks db)) db).
Proof.
  intros Hid Hin [A B C D E].
  assert (Hids : map r_id (map f (chunks db)) = map r_id (chunks db)).
  { rewrite map_map. apply map_ext. assumption. }
  constructor; simpl; rewrite ?Hids; try assumption.
  rewrite Forall_forall in *. intros o Ho.
  rewrite map_map in Ho. apply in_map_iff in Ho. destruct Ho as (r & <- & Hr).
  destruct (Hin r) as [-> | ->]; [|exact I].
  apply E. apply in_map. assumption.
Qed.

Lemma ko_update_chunk c : preserves keys_ok (update_chunk c).
Proof.
  intros db H. unfold update_chunk.
  destruct (_ && _); [assumption|]. simpl.
  apply (ko_chunks_map (fun r => if r_id r =? cID c then write_back c r else r));
    [| |assumption]; intros r; destruct (r_id r =? cID c); auto.
Qed.

Lemma ko_update_chunk_size s id : preserves keys_ok (update_chunk_size s id).
Proof.
  intros db H. unfold update_chunk_size.
  destruct (_ && _); [assumption|]. simpl.
  apply (ko_chunks_map (fun r => if r_id r =? id then resized s r else r));
    [| |assumption]; intros r; destruct (r_id r =? id); auto.
Qed.

Lemma ko_orphan_chunks now cond : preserves keys_ok (orphan_chunks now cond).
Proof.
  intros db H. unfold orphan_chunks, modify. simpl.
  apply (ko_chunks_map (fun r => if cond r then orphaned now r else r));
    [| |assumption]; intros r; destruct (cond r); auto.
Qed.

Lemma NoDup_map_filter_keys {A} (f : A -> Z) (p : A -> bool) l :
  NoDup (map f l) -> NoDup (map f (filter p l)).
Proof.
  induction l as [|a l IH]; simpl; intros H; [constructor|].
  inversion H as [|x y Hn Hd]. subst.
  destruct (p a); simpl; [|auto].
  constructor; [|auto].
  intros Hin. apply Hn. apply in_map_iff in Hin. destruct Hin as (b & Hb & Hin).
  apply filter_In in Hin. rewrite <- Hb. apply in_map. tauto.
Qed.

Lemma Forall_map_filter {A B} (f : A -> B) (Q : B -> Prop) (p : A -> bool) l :
  Forall Q (map f l) -> Forall Q (map f (filter p l)).
Proof.
  rewrite !Forall_forall. intros H x Hx. apply H.
  apply in_map_iff in Hx. destruct Hx as (a & <- & Ha).
  apply filter_In in Ha. apply in_map. tauto.
Qed.

Lemma ko_delete_inodes cond : preserves keys_ok (delete_inodes cond).
Proof.
  intros db H. unfold delete_inodes.
  destruct (existsb _ _) eqn:Ex; [assumption|].
  destruct H as [A B C D E]. constructor; simpl; try assumption.
  - apply NoDup_map_filter_keys. assumption.
  - apply Forall_map_filter. assumption.
  - rewrite Forall_forall in *. intros o Ho. specialize (E o Ho).
    destruct o as [j|]; [|exact I].
    apply in_map_iff in E. destruct E as (i & Hid & Hi).
    apply in_map_iff. exists i. split; [assumption|].
    apply filter_In. split; [assumption|].
    destruct (cond i) eqn:Ec; [|reflexivity].
    (* the row is referenced by a chunk, so the DELETE was refused *)
    exfalso.
    assert (existsb (fun i => cond i && referenced (iID i) db) (inodes db) = true);
      [|congruence].
    apply existsb_exists. exists i. split; [assumption|]. rewrite Ec. simpl.
    unfold referenced. apply orb_true_iff. left. apply orb_true_iff. right.
    apply in_map_iff in Ho. destruct Ho as (r & Hr & Hin).
    apply existsb_exists. exists r. split; [assumption|].
    apply live_in_inode. congruence.
Qed.

Lemma ko_delete_xattr_of cond : preserves keys_ok (delete_xattr_of cond).
Proof. intros db H. unfold delete_xattr_of, modify. simpl. now apply ko_xattr. Qed.

Lemma ko_insert_xattr i a v : preserves keys_ok (insert_xattr i a v).
Proof.
  intros db H. unfold insert_xattr. destruct (existsb _ _); [assumption|].
  destruct (inode_exists i db); [|assumption]. simpl. now apply ko_xattr.
Qed.

Lemma ko_update_xattr v i a : preserves keys_ok (update_xattr v i a).
Proof. intros db H. unfold update_xattr. simpl. now apply ko_xattr. Qed.

Lemma ko_upsert_xattr i a v : preserves keys_ok (upsert_xattr i a v).
Proof.
  intros db H. unfold upsert_xattr. destruct (existsb _ _); simpl.
  - now apply ko_xattr.
  - destruct (inode_exists i db); [|assumption]. simpl. now apply ko_xattr.
Qed.

Lemma ko_getInode id : preserves keys_ok (getInode id).
Proof. apply pres_read. apply getInode_read. Qed.

Lemma ko_query_chunks inode summed cond :
  preserves keys_ok (query_chunks inode summed cond).
Proof. apply pres_read. apply query_chunks_read. Qed.

Create HintDb keys.

#[local] Hint Resolve pres_ret pres_fail pres_treat pres_ignore_error
  ko_stats_add_size ko_stats_add_inodes ko_recompute_stats ko_add_refcount
  ko_insert_inode ko_insert_entry ko_delete_entry ko_move_entry
  ko_insert_chunk ko_update_chunk ko_update_chunk_size ko_orphan_chunks
  ko_delete_inodes ko_delete_xattr_of ko_insert_xattr ko_update_xattr
  ko_upsert_xattr ko_getInode ko_query_chunks : keys.

Ltac keys_step :=
  match goal with
  | |- preserves _ (bind _ _) => apply pres_bind; [|intros ?]
  | |- preserves _ (forEach _ _) => apply pres_forEach; intros ?
  | |- preserves _ (update_inode _ _) => apply ko_update_inode; intros ?; reflexivity
  | |- preserves _ (if ?c then _ else _) => destruct c
  | |- preserves _ (match ?o with Some _ => _ | None => _ end) => destruct o
  | |- preserves _ (let _ := _ in _) => cbv zeta
  | |- preserves _ (treat _) => apply pres_treat
  | |- preserves _ _ => solve [auto with keys]
  end.

Lemma unlink_keys parent name : preserves keys_ok (unlink parent name).
Proof.
  unfold unlink. apply pres_bind.
  - apply pres_treat. apply pres_read. intros db. destruct (find _ _); reflexivity.
  - intros row. repeat keys_step.
Qed.

Lemma step_keys now o db : keys_ok db -> keys_ok (step now o db).
Proof.
  intros H. destruct o; cbn [step].
  - unfold Create. apply pres_transaction; [|assumption]. repeat keys_step.
  - unfold Forget. apply pres_transaction; [|assumption]. repeat keys_step.
  - unfold CleanOrphanInodes. apply pres_transaction; [|assumption]. apply pres_bind.
    + apply pres_read. reflexivity.
    + intros orphans. repeat keys_step.
  - unfold CleanOrphanChunks. apply pres_transaction; [|assumption].
    intros d Hd. simpl.
    destruct Hd as [A B C D E]. constructor; simpl; try assumption.
    + apply NoDup_map_filter_keys. assumption.
    + apply Forall_map_filter. assumption.
    + apply Forall_map_filter. assumption.
  - unfold Unlink. apply pres_transaction; [|assumption]. apply unlink_keys.
  - unfold Rename. apply pres_transaction; [|assumption].
    apply pres_bind; [apply pres_ignore_error; apply unlink_keys|].
    intros _. repeat keys_step.
  - unfold Touch. apply pres_transaction; [|assumption]. repeat keys_step.
  - unfold AddChunk. apply pres_transaction; [|assumption]. repeat keys_step.
  - revert db H. change (preserves keys_ok (Chunks now inode)).
    unfold Chunks. apply pres_bind; [repeat keys_step|].
    intros _. apply pres_read. intros db. destruct (scan_all _ _); reflexivity.
  - revert db H. change (preserves keys_ok (Children now inode)).
    unfold Children. apply pres_bind; [repeat keys_step|].
    intros _. apply pres_read. reflexivity.
  - unfold RemoveXattr. apply pres_transaction; [|assumption]. apply pres_bind.
    + apply pres_treat. intros d Hd. simpl. now apply ko_xattr.
    + intros _. repeat keys_step.
  - unfold SetXattr. apply pres_transaction; [|assumption]. repeat keys_step.
Qed.

Lemma Setup_keys now : keys_ok (Setup now).
Proof.
  constructor; simpl; repeat constructor; simpl; try tauto; lia.
Qed.

Lemma reachable_keys db : reachable db -> keys_ok db.
Proof.
  induction 1 as [now | now o db Hr IH]; [apply Setup_keys|].
  apply step_keys. assumption.
Qed.

Lemma keys_ok_chunks_pk db : keys_ok db -> chunks_pk db.
Proof.
  intros [A B _ _ _]. split; [assumption|].
  intros r Hr. rewrite Forall_forall in B. apply B. apply in_map. assumption.
Qed.

(** X3: In every store that the driver can reach, the ids of the chunks and
    of the inodes are unique and below their AUTO_INCREMENT counters, and
    every live chunk belongs to an inode that exists. *)
Theorem keys_unique_on_reachable db (Hreach : reachable db) :
  chunks_pk db /\
  NoDup (map iID (inodes db)) /\
  (forall i, In i (inodes db) -> iID i < next_inode db) /\
  (forall r j, In r (chunks db) -> r_inode r = Some j ->
               exists i, Get None j db = inr i).
Proof.
  pose proof (reachable_keys db Hreach) as H.
  split; [apply keys_ok_chunks_pk; assumption|].
  destruct H as [A B C D E]. split; [assumption|]. split.
  - intros i Hi. rewrite Forall_forall in D.
    apply (D (iID i)). apply in_map. assumption.
  - intros r j Hr Hj. rewrite Forall_forall in E.
    specialize (E (Some j)). simpl in E.
    assert (Hin : In j (map iID (inodes db))).
    { apply E. rewrite <- Hj. apply in_map. assumption. }
    apply in_map_iff in Hin. destruct Hin as (i & Hid & Hi).
    assert (Hex : inode_exists j db = true) by (apply inode_exists_In; eauto).
    apply existsb_find_some in Hex. destruct Hex as (i' & Hi').
    exists i'. unfold Get, query_row. now rewrite Hi'.
Qed.

Lemma keys_unique_on_reachable_witness :
  chunks_pk two_files_db /\ NoDup (map iID (inodes two_files_db)).
Proof.
  assert (Hr : reachable two_files_db) by (repeat apply reach_step; apply reach_setup).
  destruct (keys_unique_on_reachable two_files_db Hr) as (H1 & H2 & _).
  split; assumption.
Defined.

(** ** Children *)

Lemma filter_unique_id id l i :
  NoDup (map iID l) -> find (fun r => iID r =? id) l = Some i ->
  filter (fun r => iID r =? id) l = [i].
Proof.
  induction l as [|a l IH]; simpl; intros Hnd H; [discriminate|].
  inversion Hnd as [|x y Hn Hd]. subst.
  destruct (iID a =? id) eqn:E.
  - inversion H. subst a. f_equal.
    apply Z.eqb_eq in E.
    destruct (filter (fun r => iID r =? id) l) as [|b l'] eqn:Ef; [reflexivity|].
    exfalso. apply Hn.
    assert (Hb : In b (filter (fun r => iID r =? id) l)) by (rewrite Ef; left; reflexivity).
    apply filter_In in Hb. destruct Hb as [Hb Hbid]. apply Z.eqb_eq in Hbid.
    rewrite E, <- Hbid. apply in_map. assumption.
  - auto.
Qed.

Lemma NoDup_names_of_parent p l :
  NoDup (map key l) ->
  NoDup (map e_name (filter (fun e => e_parent e =? p) l)).
Proof.
  induction l as [|a l IH]; simpl; intros H; [constructor|].
  inversion H as [|x y Hn Hd]. subst.
  destruct (e_parent a =? p) eqn:E; simpl; [|auto].
  constructor; [|auto].
  intros Hin. apply Hn. apply in_map_iff in Hin. destruct Hin as (b & Hb & Hin).
  apply filter_In in Hin. destruct Hin as [Hin Hbp].
  apply Z.eqb_eq in E, Hbp.
  apply in_map_iff. exists b. split; [|assumption].
  unfold key. congruence.
Qed.

(** X20: In every store that the driver can reach, [Children] does not fail
    and returns one child for each entry of the directory, with the inode and
    name of the entry and the mode of the inode; no name comes twice.  It sets the access time of the directory
    and changes nothing else. *)
Theorem Children_on_reachable db now inode (Hreach : reachable db) :
  exists cs,
    Children now inode db =
    (inr cs, set_inodes (map (fun i => if iID i =? inode then set_atime now i else i)
                             (inodes db)) db) /\
    Permutation (map (fun c => (chInode c, chName c)) cs)
                (map (fun e => (e_inode e, e_name e))
                     (filter (fun e => e_parent e =? inode) (entries db))) /\
    NoDup (map chName cs) /\
    (forall c, In c cs ->
       exists i, Get None (chInode c) db = inr i /\ chMode c = iMode i).
Proof.
  pose proof (reachable_inv _ Hreach) as Hinv.
  pose proof (reachable_keys _ Hreach) as Hk.
  set (l' := map (fun i => if iID i =? inode then set_atime now i else i) (inodes db)).
  assert (Hrow : forall e, In e (entries db) ->
            exists i, find (fun r => iID r =? e_inode e) (inodes db) = Some i /\
                      exists i', filter (fun r => iID r =? e_inode e) l' = [i'] /\
                                 iMode i' = iMode i).
  { intros e He.
    pose proof (inv_fk _ Hinv e He) as Hex.
    apply existsb_find_some in Hex. destruct Hex as (i & Hi).
    exists i. split; [assumption|].
    exists (if iID i =? inode then set_atime now i else i). split.
    - apply filter_unique_id.
      + unfold l'. rewrite map_update_ids by reflexivity. apply (ko_inodes _ Hk).
      + unfold l'. rewrite (find_map_id _ (fun i => if iID i =? inode
                                                     then set_atime now i else i)).
        * now rewrite Hi.
        * intros r. apply update_keeps_id. reflexivity.
    - destruct (iID i =? inode); reflexivity. }
  exists (flat_map (fun e =>
            if e_parent e =? inode
            then map (fun i => mkChild (e_inode e) (e_name e) (iMode i))
                     (filter (fun i => iID i =? e_inode e) l')
            else []) (entries db)).
  split; [reflexivity|].
  assert (G : forall l, (forall e, In e l -> In e (entries db)) ->
            map (fun c => (chInode c, chName c))
                (flat_map (fun e =>
                   if e_parent e =? inode
                   then map (fun i => mkChild (e_inode e) (e_name e) (iMode i))
                            (filter (fun i => iID i =? e_inode e) l')
                   else []) l)
            = map (fun e => (e_inode e, e_name e))
                  (filter (fun e => e_parent e =? inode) l)).
  { induction l as [|a l IH]; simpl; intros Hl; [reflexivity|].
    rewrite map_app, IH by auto.
    destruct (e_parent a =? inode) eqn:E; [|reflexivity].
    destruct (Hrow a (Hl a (or_introl eq_refl))) as (i & _ & i' & -> & _).
    reflexivity. }
  split; [rewrite G by auto; reflexivity|]. split.
  - replace (map chName _) with
      (map snd (map (fun c => (chInode c, chName c))
         (flat_map (fun e =>
            if e_parent e =? inode
            then map (fun i => mkChild (e_inode e) (e_name e) (iMode i))
                     (filter (fun i => iID i =? e_inode e) l')
            else []) (entries db))))
      by (rewrite map_map; reflexivity).
    rewrite G by auto. rewrite map_map. simpl.
    apply NoDup_names_of_parent. apply (inv_pk _ Hinv).
  - intros c Hc. apply in_flat_map in Hc. destruct Hc as (e & He & Hc).
    destruct (e_parent e =? inode); [|contradiction].
    destruct (Hrow e He) as (i & Hi & i' & Hf & Hm).
    rewrite Hf in Hc. destruct Hc as [<- | []]. simpl.
    exists i. unfold Get, query_row. rewrite Hi. auto.
Qed.

Lemma Children_on_reachable_witness :
  exists cs,
    fst (Children 9 1 tree_db) = inr cs /\
    Permutation (map (fun c => (chInode c, chName c)) cs)
                [(2, "d"%string); (4, "s"%string)].
Proof.
  destruct (Children_on_reachable tree_db 9 1 tree_db_reachable)
    as (cs & Hrun & Hcs & _).
  exists cs. rewrite Hrun. split; [reflexivity | exact Hcs].
Defined.


(** ** The chunk map and the stats in every store *)

Lemma sizes_view_inode db db' i :
  map (fun i => (iID i, iSize i)) (inodes db') =
  map (fun i => (iID i, iSize i)) (inodes db) ->
  In i (inodes db') ->
  exists i0, In i0 (inodes db) /\ iID i0 = iID i /\ iSize i0 = iSize i.
Proof.
  intros H Hin.
  apply (in_map (fun i => (iID i, iSize i))) in Hin. rewrite H in Hin.
  apply in_map_iff in Hin. destruct Hin as [i0 [Heq Hin]].
  inversion Heq. eauto.
Qed.

Lemma total_size_view db db' :
  map (fun i => (iID i, iSize i)) (inodes db') =
  map (fun i => (iID i, iSize i)) (inodes db) ->
  total_size db' = total_size db /\
  List.length (inodes db') = List.length (inodes db).
Proof.
  intros H. unfold total_size. split.
  - replace (map iSize (inodes db'))
      with (map snd (map (fun i => (iID i, iSize i)) (inodes db')))
      by (rewrite map_map; reflexivity).
    rewrite H, map_map. reflexivity.
  - rewrite <- (length_map (fun i => (iID i, iSize i)) (inodes db')), H.
    apply length_map.
Qed.

(** The invariants only look at the ids and sizes of the inodes, at the
    stats and at the chunks. *)
Lemma chunk_map_ok_view db db' :
  sizes_view db' = sizes_view db -> chunk_map_ok db -> chunk_map_ok db'.
Proof.
  unfold sizes_view. intros H [A [B1 B2] C D]. inversion H as [[Hi Hs Hc]].
  destruct (total_size_view db db' Hi) as [Ht Hl].
  constructor.
  - intros i Hin. destruct (sizes_view_inode _ _ _ Hi Hin) as (i0 & Hin0 & _ & <-).
    auto.
  - unfold stats_accurate. rewrite Hs, Ht, Hl. auto.
  - intros j. unfold non_overlap, live_chunks. rewrite Hc. apply C.
  - intros j i r a b Hin Hid Hr Hint.
    destruct (sizes_view_inode _ _ _ Hi Hin) as (i0 & Hin0 & Hid0 & <-).
    apply (D j i0 r a b); auto; try congruence.
    unfold live_chunks in *. now rewrite <- Hc.
Qed.

Section View.

Variable v : list (Z * Z) * StatsRow * list chunk_row.

Lemma sv_same {A} (m : Tx A) :
  (forall db, sizes_view (snd (m db)) = sizes_view db) ->
  preserves (fun d => sizes_view d = v) m.
Proof. intros Hm db H. now rewrite Hm. Qed.

Lemma sv_update_inode id f :
  (forall r, iID (f r) = iID r /\ iSize (f r) = iSize r) ->
  preserves (fun d => sizes_view d = v) (update_inode id f).
Proof.
  intros Hf. apply sv_same. intros db.
  unfold update_inode, modify, sizes_view. simpl. f_equal. f_equal.
  rewrite map_map. apply map_ext. intros a.
  destruct (iID a =? id); [|reflexivity].
  destruct (Hf a) as [-> ->]. reflexivity.
Qed.

Lemma sv_add_refcount id d :
  preserves (fun d => sizes_view d = v) (add_refcount id d).
Proof.
  apply sv_same. intros db. unfold add_refcount.
  destruct (forallb _ _); [|reflexivity].
  unfold sizes_view. simpl. f_equal. f_equal.
  rewrite map_map. apply map_ext. intros a.
  destruct (iID a =? id); reflexivity.
Qed.

Lemma sv_insert_entry p n i :
  preserves (fun d => sizes_view d = v) (insert_entry p n i).
Proof.
  apply sv_same. intros db. unfold insert_entry.
  destruct (existsb _ _); [reflexivity|]. destruct (_ && _); reflexivity.
Qed.

Lemma sv_delete_entry p n :
  preserves (fun d => sizes_view d = v) (delete_entry p n).
Proof. apply sv_same. reflexivity. Qed.

Lemma sv_move_entry np nn op on :
  preserves (fun d => sizes_view d = v) (move_entry np nn op on).
Proof.
  apply sv_same. intros db. unfold move_entry.
  destruct (filter _ _); [reflexivity|].
  destruct (_ && _); [reflexivity|].
  destruct (_ || _); [reflexivity|].
  destruct (inode_exists np db); reflexivity.
Qed.

Lemma sv_insert_xattr i a x :
  preserves (fun d => sizes_view d = v) (insert_xattr i a x).
Proof.
  apply sv_same. intros db. unfold insert_xattr.
  destruct (existsb _ _); [reflexivity|]. destruct (inode_exists i db); reflexivity.
Qed.

Lemma sv_update_xattr x i a :
  preserves (fun d => sizes_view d = v) (update_xattr x i a).
Proof. apply sv_same. reflexivity. Qed.

Lemma sv_upsert_xattr i a x :
  preserves (fun d => sizes_view d = v) (upsert_xattr i a x).
Proof.
  apply sv_same. intros db. unfold upsert_xattr.
  destruct (existsb _ _); [reflexivity|]. destruct (inode_exists i db); reflexivity.
Qed.

Lemma sv_unlink parent name :
  preserves (fun d => sizes_view d = v) (unlink parent name).
Proof.
  unfold unlink. apply pres_bind.
  - apply pres_treat. apply pres_read. intros db. destruct (find _ _); reflexivity.
  - intros row. cbv zeta. destruct (0 <? snd row); [apply pres_fail|].
    apply pres_bind; [apply pres_treat, sv_delete_entry|].
    intros _. apply pres_treat, sv_add_refcount.
Qed.

End View.

(** The operations on the directory and on the attributes, and the two
    listings, keep the view. *)
Lemma step_view now o db :
  match o with
  | OpUnlink _ _ | OpRename _ _ _ _ | OpChunks _ | OpChildren _
  | OpRemoveXattr _ _ | OpSetXattr _ _ _ _ => True
  | _ => False
  end ->
  sizes_view (step now o db) = sizes_view db.
Proof.
  intros Ho.
  assert (Hatime : forall id, preserves (fun d' => sizes_view d' = sizes_view db)
                                  (treat (update_inode id (set_atime now)))).
  { intros. apply pres_treat, sv_update_inode. intros r. split; reflexivity. }
  assert (Hctime : forall id, preserves (fun d' => sizes_view d' = sizes_view db)
                                (treat (update_inode id (set_ctime_atime now)))).
  { intros. apply pres_treat, sv_update_inode. intros r. split; reflexivity. }
  destruct o; try contradiction; cbn [step].
  - unfold Unlink.
    apply (pres_transaction (fun d => sizes_view d = sizes_view db));
      [apply sv_unlink | reflexivity].
  - unfold Rename.
    apply (pres_transaction (fun d => sizes_view d = sizes_view db)); [|reflexivity].
    apply pres_bind; [apply pres_ignore_error, sv_unlink|]. intros _.
    apply pres_bind; [apply pres_treat, sv_move_entry|]. intros n.
    destruct (n =? 0); [apply pres_fail | apply pres_ret].
  - unfold Chunks.
    apply (pres_bind (fun d => sizes_view d = sizes_view db)); [apply (Hatime inode) | |reflexivity].
    intros _. apply pres_read. intros d. destruct (scan_all _ _); reflexivity.
  - unfold Children.
    apply (pres_bind (fun d => sizes_view d = sizes_view db)); [apply (Hatime inode) | |reflexivity].
    intros _. apply pres_read. reflexivity.
  - unfold RemoveXattr.
    apply (pres_transaction (fun d => sizes_view d = sizes_view db)); [|reflexivity].
    apply pres_bind; [|intros _; apply Hctime].
    apply pres_treat. apply sv_same. reflexivity.
  - unfold SetXattr.
    apply (pres_transaction (fun d => sizes_view d = sizes_view db)); [|reflexivity].
    apply pres_bind; [|intros _; apply Hctime].
    destruct (flags =? 1); [apply pres_treat, sv_insert_xattr|].
    destruct (flags =? 2); [|apply pres_treat, sv_upsert_xattr].
    apply pres_bind; [apply pres_treat, sv_update_xattr|].
    intros n. destruct (n =? 0); [apply pres_fail | apply pres_ret].
Qed.

(** *** Sums over the inodes *)

Lemma no_other_id l id :
  ~ In id (map iID l) -> forall r, In r l -> (iID r =? id) = false.
Proof.
  intros Hn r Hr. apply Z.eqb_neq. intros Heq. apply Hn.
  rewrite <- Heq. apply in_map. assumption.
Qed.

Lemma total_filter_one l i :
  NoDup (map iID l) -> In i l ->
  fold_right Z.add 0 (map iSize (filter (fun r => negb (iID r =? iID i)) l))
  = fold_right Z.add 0 (map iSize l) - iSize i /\
  Z.of_nat (List.length (filter (fun r => negb (iID r =? iID i)) l))
  = Z.of_nat (List.length l) - 1.
Proof.
  induction l as [|a l IH]; intros Hnd Hin; [contradiction|].
  inversion Hnd as [|x y Hn Hd]. subst.
  destruct Hin as [-> | Hin].
  - cbn [filter]. rewrite Z.eqb_refl. cbn [negb].
    rewrite filter_all.
    + cbn [map fold_right List.length]. lia.
    + intros r Hr. rewrite (no_other_id l (iID i) Hn r Hr). reflexivity.
  - assert (E : (iID a =? iID i) = false).
    { apply Z.eqb_neq. intros Heq. apply Hn. rewrite Heq. apply in_map. assumption. }
    cbn [filter]. rewrite E. cbn [negb map fold_right List.length].
    destruct (IH Hd Hin) as [-> H2]. lia.
Qed.

Lemma total_update l id i (f : Inode -> Inode) sz :
  NoDup (map iID l) -> find (fun r => iID r =? id) l = Some i ->
  (forall r, iSize (f r) = sz) ->
  fold_right Z.add 0
    (map iSize (map (fun r => if iID r =? id then f r else r) l))
  = fold_right Z.add 0 (map iSize l) - iSize i + sz.
Proof.
  intros Hnd Hfind Hf. induction l as [|a l IH]; [discriminate|].
  inversion Hnd as [|x y Hn Hd]. subst.
  cbn [find] in Hfind. cbn [map fold_right].
  destruct (iID a =? id) eqn:E.
  - inversion Hfind. subst a. apply Z.eqb_eq in E. subst id.
    rewrite Hf.
    replace (map (fun r => if iID r =? iID i then f r else r) l) with l.
    + lia.
    + rewrite <- (map_id l) at 1. apply map_ext_in. intros r Hr.
      now rewrite (no_other_id l (iID i) Hn r Hr).
  - rewrite (IH Hd Hfind). lia.
Qed.

(** *** Orphaned rows *)

Lemma orphan_map_live now (c : chunk_row -> bool) j l r :
  In r (filter (live_in j) (map (fun r => if c r then orphaned now r else r) l)) ->
  In r (filter (live_in j) l).
Proof.
  intros H. apply filter_In in H. destruct H as [H Hl].
  apply in_map_iff in H. destruct H as (r0 & <- & Hr0).
  destruct (c r0); [discriminate Hl|]. apply filter_In. auto.
Qed.

Lemma orphan_map_non_overlap now (c : chunk_row -> bool) j l :
  ForallOrdPairs disjoint_rows (filter (live_in j) l) ->
  ForallOrdPairs disjoint_rows
    (filter (live_in j) (map (fun r => if c r then orphaned now r else r) l)).
Proof.
  apply FOP_filter_map.
  - intros x _. destruct (c x); [discriminate | auto].
  - intros x y _ _ Hd. destruct (c x).
    + apply no_interval_disjoint. reflexivity.
    + destruct (c y); [|assumption].
      apply disjoint_rows_sym. apply no_interval_disjoint. reflexivity.
Qed.

(** *** One operation *)

Lemma stats_eq (s s' : StatsRow) :
  sInodes s' = sInodes s -> sSize s' = sSize s -> s' = s.
Proof. destruct s, s'. simpl. intros -> ->. reflexivity. Qed.

Lemma keys_ok_no_chunk_of_fresh db r j :
  keys_ok db -> In r (chunks db) -> r_inode r = Some j -> j < next_inode db.
Proof.
  intros [A B C D E] Hr Hj.
  rewrite Forall_forall in D, E.
  apply D. specialize (E (Some j)). simpl in E. apply E.
  rewrite <- Hj. apply in_map. assumption.
Qed.

Lemma Create_chunk_map now entry db :
  keys_ok db -> chunk_map_ok db -> chunk_map_ok (snd (Create now entry db)).
Proof.
  intros Hk Hok.
  destruct (Create now entry db) as [[e|a] db'] eqn:Hrun; simpl.
  { apply transaction_rollback in Hrun. now subst. }
  destruct (Create_cases _ _ _ _ _ Hrun)
    as (p & result & _ & _ & _ & _ & _ & Hc & _ & Hs &
        [(_ & _ & Hi & _ & Hn) | (_ & _ & Hi & _ & Hn)]).
  - destruct Hok as [A [B1 B2] C D]. constructor.
    + intros i Hin. rewrite Hi in Hin. apply in_app_or in Hin.
      destruct Hin as [Hin | [<- | []]]; [auto|]. simpl. lia.
    + split.
      * rewrite Hn, B1, Hi, length_app. simpl. lia.
      * unfold total_size. rewrite Hs, B2, Hi, map_app, fold_right_app. simpl.
        unfold total_size. reflexivity.
    + intros j. unfold non_overlap, live_chunks. rewrite Hc. apply C.
    + intros j i r x y Hin Hid Hr Hint.
      unfold live_chunks in Hr. rewrite Hc in Hr.
      rewrite Hi in Hin. apply in_app_or in Hin.
      destruct Hin as [Hin | [<- | []]]; [apply (D j i r x y); auto|].
      exfalso. simpl in Hid. subst j.
      apply filter_In in Hr. destruct Hr as [Hr Hl]. apply live_in_inode in Hl.
      pose proof (keys_ok_no_chunk_of_fresh db r _ Hk Hr Hl). lia.
  - apply (chunk_map_ok_view db); [|assumption].
    unfold sizes_view. rewrite Hc, Hi. f_equal. f_equal.
    + rewrite map_map. apply map_ext. intros x.
      destruct (iID x =? iID result); reflexivity.
    + apply stats_eq; assumption.
Qed.

Lemma orphaned_chunk_map now (c : chunk_row -> bool) db db' :
  chunk_map_ok db ->
  (forall i, In i (inodes db') -> In i (inodes db)) ->
  chunks db' = map (fun r => if c r then orphaned now r else r) (chunks db) ->
  stats_accurate db' ->
  chunk_map_ok db'.
Proof.
  intros [A B C D] Hi Hc Hs. constructor.
  - intros i Hin. auto.
  - assumption.
  - intros j. unfold non_overlap, live_chunks. rewrite Hc.
    apply orphan_map_non_overlap. apply C.
  - intros j i r a b Hin Hid Hr Hint.
    unfold live_chunks in Hr. rewrite Hc in Hr. apply orphan_map_live in Hr.
    apply (D j i r a b); auto.
Qed.

Lemma Forget_chunk_map now inode db :
  keys_ok db -> chunk_map_ok db -> chunk_map_ok (snd (Forget now inode db)).
Proof.
  intros Hk Hok.
  destruct (Forget now inode db) as [[e|a] db'] eqn:Hrun; simpl.
  { apply transaction_rollback in Hrun. now subst. }
  destruct (Forget_ok_inv _ _ _ _ _ Hrun)
    as (i & Hi & [[_ ->] | (_ & -> & _)]); [assumption|].
  destruct (find_inode_id _ _ _ Hi) as [Hid Hin].
  apply (orphaned_chunk_map now (live_in (iID i)) db); try assumption.
  - intros x Hx. simpl in Hx. apply filter_In in Hx. tauto.
  - reflexivity.
  - destruct Hok as [_ [B1 B2] _ _].
    destruct (total_filter_one (inodes db) i (ko_inodes _ Hk) Hin) as [T1 T2].
    unfold stats_accurate, total_size, forgotten. simpl. rewrite T1, T2.
    unfold total_size in B2. lia.
Qed.

Lemma CleanOrphanInodes_chunk_map now db :
  chunk_map_ok db -> chunk_map_ok (snd (CleanOrphanInodes now db)).
Proof.
  intros Hok.
  destruct (CleanOrphanInodes now db) as [[e|a] db'] eqn:Hrun; simpl.
  { apply transaction_rollback in Hrun. now subst. }
  destruct (CleanOrphanInodes_ok_inv _ _ _ _ Hrun) as (_ & ->).
  apply (orphaned_chunk_map now
           (fun r => existsb (fun i => live_in (iID i) r)
                             (filter (fun i => iNlink i =? 0) (inodes db))) db);
    try assumption.
  - intros x Hx. simpl in Hx. apply filter_In in Hx. tauto.
  - reflexivity.
  - split; reflexivity.
Qed.

Lemma CleanOrphanChunks_chunk_map threshold db :
  chunk_map_ok db -> chunk_map_ok (snd (CleanOrphanChunks threshold db)).
Proof.
  intros [A B C D]. simpl.
  assert (Hlive : forall j,
            filter (live_in j) (filter (fun r => negb (expired threshold r)) (chunks db))
            = filter (live_in j) (chunks db)).
  { intros j. apply filter_filter_keep. intros r Hr.
    apply live_in_inode in Hr. unfold expired. now rewrite Hr. }
  constructor; try assumption.
  - intros j. unfold non_overlap, live_chunks. simpl chunks.
    change (ForallOrdPairs disjoint_rows
              (filter (live_in j)
                 (filter (fun r => negb (expired threshold r)) (chunks db)))).
    rewrite Hlive. apply C.
  - intros j i r a b Hin Hid Hr Hint. apply (D j i r a b); auto.
    unfold live_chunks in *. simpl chunks in Hr.
    change (In r (filter (live_in j)
                    (filter (fun r => negb (expired threshold r)) (chunks db)))) in Hr.
    now rewrite Hlive in Hr.
Qed.

Lemma Touch_chunk_map now inode size mode atime mtime uid gid db :
  keys_ok db -> chunk_map_ok db ->
  (forall s, size = Some s -> 0 <= s < 2 ^ 64) ->
  chunk_map_ok (snd (Touch now inode size mode atime mtime uid gid db)).
Proof.
  intros Hk Hok Hsize. pose proof (keys_ok_chunks_pk _ Hk) as Hpk.
  pose proof Hok as [A [B1 B2] C D].
  constructor.
  3:{ intros j. apply Touch_non_overlap; auto. }
  3:{ intros j. apply Touch_contained; auto. }
  all: destruct (Touch now inode size mode atime mtime uid gid db)
         as [[e|i'] db'] eqn:Hrun; simpl;
       [apply transaction_rollback in Hrun; subst; (assumption || (split; assumption))|].
  all: destruct (Touch_cases _ _ _ _ _ _ _ _ _ _ _ Hrun Hpk)
         as (i & Hfind & Hi' & Hinodes & _ & _ & Hn & Hcases).
  all: destruct (find_inode_id _ _ _ Hfind) as [Hid Hin].
  all: assert (Hsz : iSize i' = with_opt size (iSize i)) by (rewrite Hi'; reflexivity).
  all: assert (Hnew : 0 <= iSize i' < 2 ^ 64)
         by (rewrite Hsz; destruct size as [s|]; simpl; [apply Hsize; reflexivity | auto]).
  - intros x Hx. rewrite Hinodes in Hx. apply in_map_iff in Hx.
    destruct Hx as (r & <- & Hr).
    destruct (iID r =? inode); [exact Hnew | auto].
  - split.
    + rewrite Hn, B1, Hinodes, length_map. reflexivity.
    + unfold total_size. rewrite Hinodes.
      rewrite (total_update (inodes db) inode i (touched i' now) (iSize i')
                 (ko_inodes _ Hk) Hfind (fun r => eq_refl)).
      unfold total_size in B2. specialize (A i Hin).
      destruct Hcases as [(E & _ & Hs) | [(s & -> & Hlt & _ & Hs) | (s & -> & Hlt & _ & Hs & _)]].
      * rewrite Hs, B2, Hsz, E. lia.
      * simpl in Hsz. rewrite Hs, B2, Hsz, wrap64_small by lia. lia.
      * simpl in Hsz. specialize (Hsize s eq_refl).
        rewrite Hs, B2, Hsz, wrap64_small by lia. lia.
Qed.

Lemma AddChunk_chunk_map now inode flags chunk db :
  keys_ok db -> chunk_map_ok db ->
  0 <= cInodeOffset chunk -> 0 <= cSize chunk ->
  (forall i, find (fun r => iID r =? inode) (inodes db) = Some i ->
             cInodeOffset (written flags i chunk) + cSize chunk < 2 ^ 64) ->
  chunk_map_ok (snd (AddChunk now inode flags chunk db)).
Proof.
  intros Hk Hok Hoff Hlen Hend. pose proof (keys_ok_chunks_pk _ Hk) as Hpk.
  pose proof Hok as [A [B1 B2] C D].
  constructor.
  3:{ intros j. apply AddChunk_non_overlap; auto. }
  3:{ intros j. apply AddChunk_contained; auto. }
  all: destruct (AddChunk now inode flags chunk db) as [[e|u] db'] eqn:Hrun; simpl;
       [apply transaction_rollback in Hrun; subst; (assumption || (split; assumption))|].
  all: assert (Hw : forall i, find (fun r => iID r =? inode) (inodes db) = Some i ->
                              0 <= cInodeOffset (written flags i chunk) < 2 ^ 64)
         by (intros i Hi; destruct (find_inode_id _ _ _ Hi) as [_ Hin];
             specialize (A i Hin); specialize (Hend i Hi); revert Hend; unfold written;
             destruct (negb (Z.land flags O_APPEND =? 0)); simpl; lia).
  all: destruct (AddChunk_inv _ _ _ _ _ _ _ Hrun Hpk A Hw) as (i & Hfind & -> & _).
  all: destruct (find_inode_id _ _ _ Hfind) as [Hid Hin].
  all: set (w := written flags i chunk).
  all: assert (Hns : iSize i <= new_size i w < 2 ^ 64)
         by (pose proof (wrap64_range (cInodeOffset w + cSize w));
             specialize (A i Hin); unfold new_size;
             destruct (Max_cases (iSize i) (wrap64 (cInodeOffset w + cSize w)))
               as [[? ->] | [? ->]]; lia).
  - intros x Hx. unfold after_AddChunk in Hx. simpl inodes in Hx.
    apply in_map_iff in Hx. destruct Hx as (r & <- & Hr).
    destruct (iID r =? iID i); [|auto]. simpl. specialize (A i Hin). lia.
  - unfold stats_accurate, total_size, after_AddChunk. simpl inodes. simpl stats.
    assert (Hfind' : find (fun r => iID r =? iID i) (inodes db) = Some i)
      by (rewrite Hid; assumption).
    rewrite (total_update (inodes db) (iID i) i (set_size_times (new_size i w) now)
               (new_size i w) (ko_inodes _ Hk) Hfind' (fun r => eq_refl)).
    rewrite length_map. unfold total_size in B2.
    destruct (new_size i w =? iSize i) eqn:E; simpl.
    + apply Z.eqb_eq in E. split; [assumption | lia].
    + split; [assumption | lia].
Qed.

Lemma step_chunk_map now o db :
  keys_ok db -> chunk_map_ok db -> op_fits o db -> chunk_map_ok (step now o db).
Proof.
  intros Hk Hok Hfits. destruct o;
    try (apply (chunk_map_ok_view db); [apply step_view; exact I | assumption]);
    cbn [step].
  - apply Create_chunk_map; assumption.
  - apply Forget_chunk_map; assumption.
  - apply CleanOrphanInodes_chunk_map; assumption.
  - apply CleanOrphanChunks_chunk_map; assumption.
  - apply Touch_chunk_map; assumption.
  - destruct Hfits as (H1 & H2 & H3). apply AddChunk_chunk_map; assumption.
Qed.

Lemma reachable_fits_reachable db : reachable_fits db -> reachable db.
Proof.
  induction 1; [apply reach_setup | apply reach_step; assumption].
Qed.

Lemma Setup_chunk_map now : chunk_map_ok (Setup now).
Proof.
  constructor.
  - intros i [<- | []]. simpl. lia.
  - split; reflexivity.
  - intros j. constructor.
  - intros j i r a b _ _ [].
Qed.

Lemma reachable_fits_ok db : reachable_fits db -> chunk_map_ok db.
Proof.
  induction 1 as [now | now o db Hr IH Hf]; [apply Setup_chunk_map|].
  apply step_chunk_map; try assumption.
  apply reachable_keys. apply reachable_fits_reachable. assumption.
Qed.

(** C2: non-overlap is kept by [AddChunk] and by [Touch].  In a store
    that the driver reaches, if the live chunks of an inode are pairwise
    disjoint before an [AddChunk] or a [Touch] whose offset and sizes are
    [uint64] values, they are pairwise disjoint after it, whether the
    operation commits or fails (a failed operation is rolled back). *)
Theorem non_overlap_preserved now db j
    (Hreach : reachable_fits db) (Hdisjoint : non_overlap j db) :
  (forall inode flags chunk,
      0 <= cInodeOffset chunk < 2 ^ 64 -> 0 <= cSize chunk < 2 ^ 64 ->
      non_overlap j (snd (AddChunk now inode flags chunk db))) /\
  (forall inode size mode atime mtime uid gid,
      (forall s, size = Some s -> 0 <= s < 2 ^ 64) ->
      non_overlap j (snd (Touch now inode size mode atime mtime uid gid db))).
Proof.
  pose proof (reachable_fits_ok db Hreach) as [A _ _ D].
  pose proof (keys_ok_chunks_pk _ (reachable_keys _ (reachable_fits_reachable _ Hreach)))
    as Hpk.
  split.
  - intros inode flags chunk Hoff Hlen.
    destruct (AddChunk now inode flags chunk db) as [[e|u] db'] eqn:Hrun.
    { apply transaction_rollback in Hrun. simpl. now subst. }
    replace (snd (inr u, db')) with (snd (AddChunk now inode flags chunk db))
      by (rewrite Hrun; reflexivity).
    apply AddChunk_non_overlap; try assumption; try lia; [apply D|].
    intros i Hi.
    pose proof (AddChunk_written_fits _ _ _ _ _ _ _ _ Hrun Hi) as Hfit.
    unfold chunk_fits in Hfit.
    apply andb_true_iff in Hfit. destruct Hfit as [Hfit F3].
    apply andb_true_iff in Hfit. destruct Hfit as [_ F2].
    apply fits_bigint_inv in F2, F3.
    assert (cSize (written flags i chunk) = cSize chunk)
      by (unfold written; destruct (negb _); reflexivity).
    lia.
  - intros inode size mode atime mtime uid gid Hsize.
    apply Touch_non_overlap; try assumption. apply D.
Qed.

Lemma two_chunk_db_fits : reachable_fits two_chunk_db.
Proof.
  unfold two_chunk_db, fresh_db.
  repeat (apply fits_step; [|try exact I]); try apply fits_setup.
  - split; [simpl; lia|]. split; [simpl; lia|].
    intros i Hi. vm_compute in Hi. inversion Hi. vm_compute. reflexivity.
  - split; [simpl; lia|]. split; [simpl; lia|].
    intros i Hi. vm_compute in Hi. inversion Hi. vm_compute. reflexivity.
Qed.

Lemma non_overlap_preserved_witness :
  non_overlap 2 (snd (AddChunk 9 2 0 (mkChunk 0 2 "s3" "c" 0 40 20) two_chunk_db)) /\
  non_overlap 2 (snd (Touch 9 2 (Some 60) None None None None None two_chunk_db)).
Proof.
  assert (Hd : non_overlap 2 two_chunk_db).
  { unfold non_overlap.
    change (live_chunks 2 two_chunk_db)
      with [new_row 1 2 "s3" "a" 0 0 50; new_row 2 2 "s3" "b" 0 50 50].
    repeat constructor.
    intros a1 b1 a2 b2 I1 I2 x Hx. inversion I1. inversion I2. lia. }
  destruct (non_overlap_preserved 9 two_chunk_db 2 two_chunk_db_fits Hd) as [HA HT].
  split.
  - apply HA; simpl; lia.
  - apply HT. intros s Hs. inversion Hs. lia.
Defined.

(** X1: The chunk-map invariants hold in every store that the driver reaches
    with operations whose sizes and offsets are [uint64] values and whose
    written intervals do not wrap around: for every inode, the live chunks
    are pairwise disjoint (non-overlap) and end within the size of the
    inode (containment). *)
Theorem chunk_map_on_reachable db (Hreach : reachable_fits db) :
  forall j, non_overlap j db /\ contained j db.
Proof.
  intros j. pose proof (reachable_fits_ok db Hreach) as [_ _ C D]. auto.
Qed.

(** X2: In every such store [Stats] returns the number of inode rows and the
    sum of their sizes, and every size is in the range of its column. *)
Theorem Stats_on_reachable db (Hreach : reachable_fits db) :
  Stats None db
  = inr (mkStats (Z.of_nat (List.length (inodes db))) (total_size db)) /\
  sizes_typed db.
Proof.
  pose proof (reachable_fits_ok db Hreach) as [A [B1 B2] _ _].
  split; [|assumption].
  unfold Stats, query_row. f_equal. apply stats_eq; simpl; assumption.
Qed.

Lemma two_files_db_fits : reachable_fits two_files_db.
Proof.
  unfold two_files_db, one_chunk_db, fresh_db.
  repeat (apply fits_step; [|try exact I]); try apply fits_setup.
  - split; [simpl; lia|]. split; [simpl; lia|].
    intros i Hi. vm_compute in Hi. inversion Hi. vm_compute. reflexivity.
  - split; [simpl; lia|]. split; [simpl; lia|].
    intros i Hi. vm_compute in Hi. inversion Hi. vm_compute. reflexivity.
Qed.

Lemma chunk_map_on_reachable_witness :
  non_overlap 2 two_files_db /\ contained 2 two_files_db.
Proof. apply (chunk_map_on_reachable two_files_db two_files_db_fits). Defined.

Lemma Stats_on_reachable_witness :
  Stats None two_files_db = inr (mkStats 3 130).
Proof. apply (proj1 (Stats_on_reachable two_files_db two_files_db_fits)). Defined.


(** ** What an operation leaves alone *)

(** X28: The operations on files ([Touch], [AddChunk], [Chunks], [Children],
    [RemoveXattr], [SetXattr], [CleanOrphanChunks]) leave the directory
    tree as it is: the entries, and the id and refcount of every inode.
    The operations on names and attributes ([Unlink], [Rename], [Chunks],
    [Children], [RemoveXattr], [SetXattr]) leave the chunks, the stats and
    the size of every inode as they are. *)
Theorem operations_keep_apart now o db :
  (file_op o = true ->
   entries (step now o db) = entries db /\
   map (fun i => (iID i, iNlink i)) (inodes (step now o db))
   = map (fun i => (iID i, iNlink i)) (inodes db)) /\
  (name_op o = true ->
   chunks (step now o db) = chunks db /\
   stats (step now o db) = stats db /\
   map (fun i => (iID i, iSize i)) (inodes (step now o db))
   = map (fun i => (iID i, iSize i)) (inodes db)).
Proof.
  split.
  - intros Ho.
    assert (H : shape (step now o db) = shape db).
    { destruct o; try discriminate Ho; cbn [step].
      - apply CleanOrphanChunks_shape.
      - apply Touch_shape.
      - apply AddChunk_shape.
      - apply Chunks_shape.
      - apply Children_shape.
      - apply RemoveXattr_shape.
      - apply SetXattr_shape. }
    apply shape_parts in H. tauto.
  - intros Ho.
    assert (H : sizes_view (step now o db) = sizes_view db).
    { apply step_view. destruct o; try discriminate Ho; exact I. }
    unfold sizes_view in H. inversion H. auto.
Qed.

Lemma operations_keep_apart_witness :
  entries (step 9 (OpAddChunk 2 0 (mkChunk 0 2 "s3" "c" 0 90 20)) two_files_db)
  = entries two_files_db /\
  chunks (step 9 (OpRename 1 "f" 1 "g") two_files_db) = chunks two_files_db.
Proof.
  split.
  - apply (proj1 (operations_keep_apart 9
             (OpAddChunk 2 0 (mkChunk 0 2 "s3" "c" 0 90 20)) two_files_db) eq_refl).
  - apply (proj2 (operations_keep_apart 9 (OpRename 1 "f" 1 "g") two_files_db) eq_refl).
Defined.


(** ** Coverage: a file has no hole *)

Lemma coverage_view db db' :
  sizes_view db' = sizes_view db ->
  (forall j, coverage j db) -> forall j, coverage j db'.
Proof.
  unfold sizes_view. intros H Hc j i x Hin Hid Hx. inversion H as [[Hi Hs Hch]].
  destruct (sizes_view_inode _ _ _ Hi Hin) as (i0 & Hin0 & Hid0 & Hsz).
  destruct (Hc j i0 x Hin0) as (r & Hr & Hb); [congruence | lia |].
  exists r. split; [|assumption]. unfold live_chunks in *. now rewrite Hch.
Qed.

(** Rows that are orphaned belong to inodes that are gone. *)
Lemma orphaned_coverage now (c : chunk_row -> bool) db db' :
  (forall j, coverage j db) ->
  (forall i, In i (inodes db') -> In i (inodes db)) ->
  (forall i r, In i (inodes db') -> In r (chunks db) ->
               r_inode r = Some (iID i) -> c r = false) ->
  chunks db' = map (fun r => if c r then orphaned now r else r) (chunks db) ->
  forall j, coverage j db'.
Proof.
  intros Hc Hi Hkeep Hch j i x Hin Hid Hx.
  destruct (Hc j i x (Hi i Hin) Hid Hx) as (r & Hr & Hb).
  apply filter_In in Hr. destruct Hr as [Hr Hl].
  exists r. split; [|assumption]. apply filter_In. split; [|assumption].
  rewrite Hch. apply in_map_iff. exists r. split; [|assumption].
  rewrite (Hkeep i r); auto. apply live_in_inode in Hl. congruence.
Qed.

Lemma Create_coverage now entry db :
  (forall j, coverage j db) -> forall j, coverage j (snd (Create now entry db)).
Proof.
  intros Hcov.
  destruct (Create now entry db) as [[e|a] db'] eqn:Hrun; simpl.
  { apply transaction_rollback in Hrun. now subst. }
  destruct (Create_cases _ _ _ _ _ Hrun)
    as (p & result & _ & _ & _ & _ & _ & Hc & _ & Hs &
        [(_ & _ & Hi & _ & Hn) | (_ & _ & Hi & _ & Hn)]).
  - intros j i x Hin Hid Hx. rewrite Hi in Hin. apply in_app_or in Hin.
    destruct Hin as [Hin | [<- | []]]; [|simpl in Hx; lia].
    destruct (Hcov j i x Hin Hid Hx) as (r & Hr & Hb).
    exists r. split; [|assumption]. unfold live_chunks in *. now rewrite Hc.
  - intros j i x Hin Hid Hx. rewrite Hi in Hin. apply in_map_iff in Hin.
    destruct Hin as (i0 & Hi0 & Hin0).
    assert (Hsame : iID i0 = iID i /\ iSize i0 = iSize i).
    { rewrite <- Hi0. destruct (iID i0 =? iID result); split; reflexivity. }
    destruct Hsame as [Hid0 Hsz0].
    destruct (Hcov j i0 x Hin0) as (r & Hr & Hb); [congruence | lia |].
    exists r. split; [|assumption]. unfold live_chunks in *. now rewrite Hc.
Qed.

Lemma Forget_coverage now inode db :
  (forall j, coverage j db) -> forall j, coverage j (snd (Forget now inode db)).
Proof.
  intros Hcov.
  destruct (Forget now inode db) as [[e|a] db'] eqn:Hrun; simpl.
  { apply transaction_rollback in Hrun. now subst. }
  destruct (Forget_ok_inv _ _ _ _ _ Hrun)
    as (i & Hi & [[_ ->] | (_ & -> & _)]); [assumption|].
  apply (orphaned_coverage now (live_in (iID i)) db); try assumption.
  - intros x Hx. simpl in Hx. apply filter_In in Hx. tauto.
  - intros x r Hx _ Hr. simpl in Hx. apply filter_In in Hx. destruct Hx as [_ Hne].
    apply negb_true_iff, Z.eqb_neq in Hne.
    unfold live_in. rewrite Hr. apply Z.eqb_neq. assumption.
  - reflexivity.
Qed.

Lemma CleanOrphanInodes_coverage now db :
  keys_ok db ->
  (forall j, coverage j db) -> forall j, coverage j (snd (CleanOrphanInodes now db)).
Proof.
  intros Hk Hcov.
  destruct (CleanOrphanInodes now db) as [[e|a] db'] eqn:Hrun; simpl.
  { apply transaction_rollback in Hrun. now subst. }
  destruct (CleanOrphanInodes_ok_inv _ _ _ _ Hrun) as (_ & ->).
  apply (orphaned_coverage now
           (fun r => existsb (fun i => live_in (iID i) r)
                             (filter (fun i => iNlink i =? 0) (inodes db))) db);
    try assumption.
  - intros x Hx. simpl in Hx. apply filter_In in Hx. tauto.
  - intros x r Hx _ Hr. simpl in Hx. apply filter_In in Hx. destruct Hx as [Hx Hne].
    destruct (existsb _ _) eqn:E; [|reflexivity]. exfalso.
    apply existsb_exists in E. destruct E as (y & Hy & Hl).
    apply filter_In in Hy. destruct Hy as [Hy Hz].
    apply live_in_inode in Hl.
    assert (y = x).
    { apply (NoDup_map_injective iID (inodes db)); auto.
      - apply (ko_inodes _ Hk).
      - congruence. }
    subst y. rewrite Hz in Hne. discriminate.
  - reflexivity.
Qed.

Lemma CleanOrphanChunks_coverage threshold db :
  (forall j, coverage j db) ->
  forall j, coverage j (snd (CleanOrphanChunks threshold db)).
Proof.
  intros Hcov j i x Hin Hid Hx. simpl in Hin.
  destruct (Hcov j i x Hin Hid Hx) as (r & Hr & Hb).
  exists r. split; [|assumption].
  apply filter_In in Hr. destruct Hr as [Hr Hl].
  apply filter_In. split; [|assumption]. simpl.
  apply filter_In. split; [assumption|].
  apply live_in_inode in Hl. unfold expired. now rewrite Hl.
Qed.

(** The rows of an inode whose row is not written. *)
Lemma coverage_other_inode (f : Inode -> Inode) inode db db' :
  (forall j, coverage j db) ->
  inodes db' = map (fun r => if iID r =? inode then f r else r) (inodes db) ->
  (forall r, iID (f r) = iID r) ->
  (forall j r, j <> inode -> In r (live_chunks j db) -> In r (live_chunks j db')) ->
  forall j, j <> inode -> coverage j db'.
Proof.
  intros Hcov Hi Hf Hrows j Hj i x Hin Hid Hx.
  rewrite Hi in Hin. apply in_map_iff in Hin. destruct Hin as (i0 & Hi0 & Hin0).
  destruct (iID i0 =? inode) eqn:E.
  - apply Z.eqb_eq in E. exfalso. apply Hj. rewrite <- Hid, <- Hi0, Hf. assumption.
  - subst i0. destruct (Hcov j i x Hin0 Hid Hx) as (r & Hr & Hb).
    exists r. auto.
Qed.

(** The size of the row of the inode after its row was written. *)
Lemma written_inode_size (f : Inode -> Inode) inode sz l i' :
  (forall r, iID (f r) = iID r /\ iSize (f r) = sz) ->
  In i' (map (fun r => if iID r =? inode then f r else r) l) ->
  iID i' = inode -> iSize i' = sz.
Proof.
  intros Hf Hin Hid. apply in_map_iff in Hin. destruct Hin as (r & Hr & _).
  destruct (iID r =? inode) eqn:E.
  - rewrite <- Hr. apply Hf.
  - apply Z.eqb_neq in E. subst i'. contradiction.
Qed.

Lemma Touch_coverage now inode size mode atime mtime uid gid db :
  keys_ok db -> sizes_typed db ->
  (forall s, size = Some s -> 0 <= s < 2 ^ 64) ->
  (forall j, coverage j db) ->
  forall j, coverage j (snd (Touch now inode size mode atime mtime uid gid db)).
Proof.
  intros Hk Htyped Hsize Hcov. pose proof (keys_ok_chunks_pk _ Hk) as Hpk.
  destruct (Touch now inode size mode atime mtime uid gid db)
    as [[e|i'] db'] eqn:Hrun; simpl.
  { apply transaction_rollback in Hrun. now subst. }
  destruct (Touch_cases _ _ _ _ _ _ _ _ _ _ _ Hrun Hpk)
    as (i & Hfind & Hi' & Hinodes & _ & _ & _ & Hcases).
  destruct (find_inode_id _ _ _ Hfind) as [Hid Hin].
  assert (Hsz : iSize i' = with_opt size (iSize i)) by (rewrite Hi'; reflexivity).
  intros j. destruct (Z.eq_dec j inode) as [-> | Hj].
  2:{ apply (coverage_other_inode (touched i' now) inode db); auto.
      intros j0 r Hj0 Hr. apply filter_In in Hr. destruct Hr as [Hr Hl].
      apply filter_In. split; [|assumption].
      destruct Hcases as [(_ & -> & _) | [(s & _ & _ & -> & _) | (s & _ & _ & -> & _)]].
      - assumption.
      - apply in_or_app. auto.
      - apply in_map_iff. exists r. split; [|assumption].
        unfold truncated.
        destruct (extends_past inode s r) eqn:Ee; [|reflexivity].
        apply extends_past_live in Ee.
        exfalso. apply Hj0. apply (live_in_unique _ _ r); assumption. }
  intros r0 x Hr0 Hid0 Hx. rewrite Hinodes in Hr0.
  rewrite (written_inode_size (touched i' now) inode (iSize i') (inodes db) r0)
    in Hx; auto.
  rewrite Hsz in Hx. specialize (Htyped i Hin).
  destruct Hcases as [(E & Hc & _) | [(s & -> & Hlt & Hc & _) | (s & -> & Hlt & Hc & _ & Hscan)]].
  - rewrite E in Hx. destruct (Hcov inode i x Hin Hid Hx) as (r & Hr & Hb).
    exists r. split; [|assumption]. unfold live_chunks in *. now rewrite Hc.
  - simpl in Hx. specialize (Hsize s eq_refl).
    destruct (Z.lt_ge_cases x (iSize i)) as [Hold | Hnew].
    + destruct (Hcov inode i x Hin Hid) as (r & Hr & Hb); [lia|].
      exists r. split; [|assumption].
      apply filter_In in Hr. destruct Hr as [Hr Hl].
      apply filter_In. split; [|assumption]. rewrite Hc. apply in_or_app. auto.
    + eexists. split.
      * apply filter_In. split.
        -- rewrite Hc. apply in_or_app. right. left. reflexivity.
        -- apply live_in_inode. reflexivity.
      * exists (iSize i), (iSize i + wrap64 (s - iSize i)).
        split; [reflexivity|]. rewrite wrap64_small by lia. lia.
  - simpl in Hx. specialize (Hsize s eq_refl).
    destruct (Hcov inode i x Hin Hid) as (r & Hr & (a & b & Hint & Hab)); [lia|].
    apply filter_In in Hr. destruct Hr as [Hr Hl].
    exists (truncated now inode s r).
    assert (Hrow : exists sz, r_inodeoffset r = Some a /\ r_size r = Some sz /\
                              b = a + sz).
    { unfold interval in Hint.
      destruct (r_inodeoffset r) as [a0|]; [|discriminate].
      destruct (r_size r) as [s0|]; [|discriminate].
      inversion Hint. subst. eauto. }
    destruct Hrow as (sz & Ha & Hs & ->).
    unfold truncated.
    destruct (extends_past inode s r) eqn:Ee.
    + pose proof (scanned_offset_nonneg _ _ (Hscan r Hr Ee) a Ha) as Hpos.
      rewrite (scanned_offset _ _ a Ha).
      assert (Ea : (a <? s) = true) by (apply Z.ltb_lt; lia). rewrite Ea.
      split.
      * apply filter_In. split.
        -- rewrite Hc. apply in_map_iff. exists r. split; [|assumption].
           unfold truncated. rewrite Ee, (scanned_offset _ _ a Ha), Ea. reflexivity.
        -- exact Hl.
      * exists a, (a + wrap64 (s - a)). split.
        -- unfold interval, resized. simpl. rewrite Ha. reflexivity.
        -- rewrite wrap64_small by lia. lia.
    + split.
      * apply filter_In. split; [|assumption].
        rewrite Hc. apply in_map_iff. exists r. split; [|assumption].
        unfold truncated. rewrite Ee. reflexivity.
      * exists a, (a + sz). split; [|assumption].
        unfold interval. rewrite Ha, Hs. reflexivity.
Qed.

Section Written.

Variables (now inode : Z) (w : Chunk) (i : Inode) (db : DB).

Hypothesis Hid : iID i = inode.
Hypothesis Hoff : 0 <= cInodeOffset w.
Hypothesis Hlen : 0 <= cSize w.
Hypothesis Hend : cInodeOffset w + cSize w < 2 ^ 64.
Hypothesis Hsz : 0 <= iSize i < 2 ^ 64.
Hypothesis Hscan :
  forall r, In r (chunks db) -> selected inode w r = true ->
            scan_chunk inode r = inr (scanned inode r).
Hypothesis Hcont :
  forall r a b, In r (chunks db) -> live_in inode r = true ->
                interval r = Some (a, b) -> b <= iSize i.

(** What is left of a row that the write cuts. *)
Lemma spliced_cut r a s :
  In r (chunks db) -> selected inode w r = true ->
  r_inodeoffset r = Some a -> r_size r = Some s ->
  covered w (scanned inode r) = false ->
  interval (spliced now inode w r)
  = Some (if a <? cInodeOffset w
          then (a, cInodeOffset w)
          else (cInodeOffset w + cSize w, a + s)).
Proof.
  intros Hin Hsel Ha Hs Ec.
  destruct (selected_row inode w i db Hoff Hlen Hend Hsz Hscan Hcont r Hin Hsel)
    as (a0 & s0 & Ha0 & Hs0 & Ea & Es & P1 & P2 & P3 & P4 & P5 & P6).
  assert (Hea : a0 = a) by congruence. assert (Hes : s0 = s) by congruence.
  rewrite Hea, Hes in *. clear Hea Hes Ha0 Hs0.
  unfold spliced. rewrite Hsel, Ec.
  unfold covered in Ec. rewrite Ea, Es in Ec.
  rewrite !wrap64_small in Ec by lia.
  unfold write_back, interval, trimmed. simpl.
  change (with_opt (r_inodeoffset r) 0) with (cInodeOffset (scanned inode r)).
  change (with_opt (r_size r) 0) with (cSize (scanned inode r)).
  rewrite Ea, Es. rewrite !(wrap64_small (cInodeOffset w + cSize w)) by lia.
  rewrite !(wrap64_small (a + s)) by lia.
  destruct (a <? cInodeOffset w) eqn:El.
  - apply Z.ltb_lt in El. rewrite wrap64_small by lia.
    f_equal. f_equal. lia.
  - apply Z.ltb_ge in El.
    apply andb_false_iff in Ec. destruct Ec as [Ec | Ec];
      [apply Z.leb_gt in Ec; lia|]. apply Z.leb_gt in Ec.
    rewrite wrap64_small by lia. f_equal. f_equal. lia.
Qed.

(** A byte of a live row that the write does not take is, after the
    write, in what is left of the row or in its right half. *)
Lemma byte_kept r x :
  In r (live_chunks inode db) -> holds_byte r x ->
  ~ (cInodeOffset w <= x < cInodeOffset w + cSize w) ->
  exists r', In r' (live_chunks inode (after_AddChunk now i w db)) /\ holds_byte r' x.
Proof.
  intros Hr (a & b & Hint & Hab) Hout.
  apply filter_In in Hr. destruct Hr as [Hr Hl].
  assert (Hrow : exists s, r_inodeoffset r = Some a /\ r_size r = Some s /\ b = a + s).
  { unfold interval in Hint.
    destruct (r_inodeoffset r) as [a0|]; [|discriminate].
    destruct (r_size r) as [s0|]; [|discriminate].
    inversion Hint. subst. eauto. }
  destruct Hrow as (s & Ha & Hs & ->).
  assert (Hkept : In (spliced now inode w r) (chunks (after_AddChunk now i w db))).
  { unfold after_AddChunk. simpl chunks. rewrite Hid. apply in_or_app. left.
    apply in_map. assumption. }
  destruct (selected inode w r) eqn:Hsel.
  2:{ exists r. split.
      - apply filter_In. split; [|assumption].
        unfold spliced in Hkept. now rewrite Hsel in Hkept.
      - exists a, (a + s). auto. }
  destruct (selected_row inode w i db Hoff Hlen Hend Hsz Hscan Hcont r Hr Hsel)
    as (a0 & s0 & Ha0 & Hs0 & Ea & Es & P1 & P2 & P3 & P4 & P5 & P6).
  assert (Hea : a0 = a) by congruence. assert (Hes : s0 = s) by congruence.
  rewrite Hea, Hes in *. clear Hea Hes Ha0 Hs0.
  destruct (covered w (scanned inode r)) eqn:Ec.
  { exfalso. unfold covered in Ec. rewrite Ea, Es in Ec.
    rewrite !wrap64_small in Ec by lia.
    apply andb_true_iff in Ec. destruct Ec as [E1 E2].
    apply Z.leb_le in E1, E2. lia. }
  pose proof (spliced_cut r a s Hr Hsel Ha Hs Ec) as Hcut.
  assert (Hlive : live_in inode (spliced now inode w r) = true).
  { unfold spliced. rewrite Hsel, Ec. exact Hl. }
  destruct (a <? cInodeOffset w) eqn:El.
  - apply Z.ltb_lt in El.
    destruct (Z.lt_ge_cases x (cInodeOffset w)) as [Hleft | Hright].
    + exists (spliced now inode w r). split.
      * apply filter_In. auto.
      * exists a, (cInodeOffset w). split; [assumption | lia].
    + (* the byte is in the right half *)
      assert (Hsc : strictly_contains w (scanned inode r) = true).
      { unfold strictly_contains. rewrite Ea, Es.
        rewrite !wrap64_small by lia.
        apply andb_true_iff. split; apply Z.ltb_lt; lia. }
      destruct (right_piece_interval inode w i db Hoff Hlen Hend Hsz Hscan Hcont
                  r Hr Hsel Hsc)
        as (a1 & s1 & Ha1 & Hs1 & _ & _ & Ro & Re).
      assert (Hea : a1 = a) by congruence. assert (Hes : s1 = s) by congruence.
      rewrite Hea, Hes in *. clear Hea Hes Ha1 Hs1.
      destruct (new_rows_In
                  (next_chunk db + Z.of_nat (List.length (gap_rows i w db))) (iID i)
                  (w :: right_pieces (iID i) w db) (right_piece w (scanned inode r)))
        as (id & _ & Hnew).
      { right. rewrite Hid. unfold right_pieces. apply in_map.
        apply filter_In. split; [|assumption].
        apply in_map. apply filter_In. auto. }
      eexists. split.
      * apply filter_In. split.
        -- unfold after_AddChunk. simpl chunks.
           apply in_or_app. right. apply in_or_app. right. exact Hnew.
        -- apply live_in_inode. simpl. now rewrite Hid.
      * eexists. eexists. split; [apply interval_new_row|]. lia.
  - apply Z.ltb_ge in El.
    exists (spliced now inode w r). split.
    + apply filter_In. auto.
    + exists (cInodeOffset w + cSize w), (a + s). split; [assumption | lia].
Qed.

(** After the write every byte below the new size is covered. *)
Lemma written_coverage x :
  coverage inode db -> In i (inodes db) ->
  0 <= x < new_size i w ->
  exists r, In r (live_chunks inode (after_AddChunk now i w db)) /\ holds_byte r x.
Proof.
  intros Hcov Hin Hx.
  rewrite new_size_no_wrap in Hx by lia.
  destruct (Z.lt_ge_cases x (cInodeOffset w)) as [Hlo | Hlo].
  - destruct (Z.lt_ge_cases x (iSize i)) as [Hold | Hgap].
    + destruct (Hcov i x Hin Hid) as (r & Hr & Hb); [lia|].
      apply (byte_kept r x); auto. lia.
    + eexists. split.
      * apply filter_In. split.
        -- unfold after_AddChunk. simpl chunks.
           apply in_or_app. right. apply in_or_app. left.
           unfold gap_rows.
           assert (E : (iSize i <? cInodeOffset w) = true) by (apply Z.ltb_lt; lia).
           rewrite E. left. reflexivity.
        -- apply live_in_inode. simpl. now rewrite Hid.
      * eexists. eexists. split; [apply interval_new_row|].
        rewrite wrap64_small by lia. lia.
  - destruct (Z.lt_ge_cases x (cInodeOffset w + cSize w)) as [Hin_w | Hhi].
    + destruct (new_rows_In
                  (next_chunk db + Z.of_nat (List.length (gap_rows i w db))) (iID i)
                  (w :: right_pieces (iID i) w db) w)
        as (id & _ & Hnew); [left; reflexivity|].
      eexists. split.
      * apply filter_In. split.
        -- unfold after_AddChunk. simpl chunks.
           apply in_or_app. right. apply in_or_app. right. exact Hnew.
        -- apply live_in_inode. simpl. now rewrite Hid.
      * eexists. eexists. split; [apply interval_new_row|]. lia.
    + destruct (Hcov i x Hin Hid) as (r & Hr & Hb); [lia|].
      apply (byte_kept r x); auto. lia.
Qed.

End Written.

Lemma AddChunk_coverage now inode flags chunk db :
  keys_ok db -> chunk_map_ok db ->
  0 <= cInodeOffset chunk -> 0 <= cSize chunk ->
  (forall i, find (fun r => iID r =? inode) (inodes db) = Some i ->
             cInodeOffset (written flags i chunk) + cSize chunk < 2 ^ 64) ->
  (forall j, coverage j db) ->
  forall j, coverage j (snd (AddChunk now inode flags chunk db)).
Proof.
  intros Hk Hok Hoff Hlen Hend Hcov. pose proof (keys_ok_chunks_pk _ Hk) as Hpk.
  pose proof Hok as [A _ _ D].
  destruct (AddChunk now inode flags chunk db) as [[e|u] db'] eqn:Hrun; simpl.
  { apply transaction_rollback in Hrun. now subst. }
  assert (Hw : forall i, find (fun r => iID r =? inode) (inodes db) = Some i ->
                         0 <= cInodeOffset (written flags i chunk) /\
                         cSize (written flags i chunk) = cSize chunk).
  { intros i Hi. destruct (find_inode_id _ _ _ Hi) as [_ Hin].
    specialize (A i Hin). unfold written.
    destruct (negb (Z.land flags O_APPEND =? 0)); simpl; split; auto; lia. }
  destruct (AddChunk_inv _ _ _ _ _ _ _ Hrun Hpk A) as (i & Hfind & -> & Hscan).
  { intros i Hi. specialize (Hend i Hi). specialize (Hw i Hi). lia. }
  destruct (find_inode_id _ _ _ Hfind) as [Hid Hin].
  destruct (Hw i Hfind) as [Hoff' Hlen'].
  specialize (Hend i Hfind). rewrite <- Hlen' in Hend.
  assert (Hlen2 : 0 <= cSize (written flags i chunk)) by lia.
  set (w := written flags i chunk) in *.
  intros j. destruct (Z.eq_dec j inode) as [-> | Hj].
  2:{ apply (coverage_other_inode (set_size_times (new_size i w) now) inode db); auto.
      - unfold after_AddChunk. simpl inodes. now rewrite Hid.
      - intros j0 r Hj0 Hr. apply filter_In in Hr. destruct Hr as [Hr Hl].
        apply filter_In. split; [|assumption].
        unfold after_AddChunk. simpl chunks. apply in_or_app. left.
        apply in_map_iff. exists r. split; [|assumption].
        unfold spliced. rewrite Hid.
        destruct (selected inode w r) eqn:Es; [|reflexivity].
        apply selected_live in Es.
        exfalso. apply Hj0. apply (live_in_unique _ _ r); assumption. }
  intros r0 x Hr0 Hid0 Hx.
  assert (Hsize0 : iSize r0 = new_size i w).
  { unfold after_AddChunk in Hr0. simpl inodes in Hr0. rewrite Hid in Hr0.
    apply (written_inode_size (set_size_times (new_size i w) now) inode _ (inodes db));
      auto. }
  rewrite Hsize0 in Hx.
  apply (written_coverage now inode w i db Hid Hoff' Hlen2 Hend (A i Hin) Hscan); auto.
  intros r a b Hr Hl Hint. apply (D inode i r a b); auto.
  apply filter_In. auto.
Qed.

Lemma step_coverage now o db :
  keys_ok db -> chunk_map_ok db -> op_fits o db ->
  (forall j, coverage j db) -> forall j, coverage j (step now o db).
Proof.
  intros Hk Hok Hfits Hcov. destruct o;
    try (apply (coverage_view db); [apply step_view; exact I | assumption]);
    cbn [step].
  - apply Create_coverage; assumption.
  - apply Forget_coverage; assumption.
  - apply CleanOrphanInodes_coverage; assumption.
  - apply CleanOrphanChunks_coverage; assumption.
  - apply Touch_coverage; try assumption. apply (cm_typed _ Hok).
  - destruct Hfits as (H1 & H2 & H3). apply AddChunk_coverage; assumption.
Qed.

Lemma reachable_fits_coverage db : reachable_fits db -> forall j, coverage j db.
Proof.
  induction 1 as [now | now o db Hr IH Hf].
  - intros j i x [<- | []] _ Hx. simpl in Hx. lia.
  - apply step_coverage; try assumption.
    + apply reachable_keys. apply reachable_fits_reachable. assumption.
    + apply reachable_fits_ok. assumption.
Qed.

(** X29: In every store that the driver reaches with operations whose sizes
    and offsets are [uint64] values and whose written intervals do not
    wrap around, a file has no hole: every byte below the size of an
    inode belongs to exactly one live chunk of the inode.  [Touch] and
    [AddChunk] fill what they extend with a chunk of the storage "zero",
    and what [AddChunk] and a truncation take from a chunk is the part
    that is written again or that lies beyond the new size. *)
Theorem coverage_on_reachable db i x
        (Hreach : reachable_fits db) (Hin : In i (inodes db))
        (Hx : 0 <= x < iSize i) :
  exists r,
    In r (live_chunks (iID i) db) /\ holds_byte r x /\
    forall r', In r' (live_chunks (iID i) db) -> holds_byte r' x -> r' = r.
Proof.
  destruct (reachable_fits_coverage db Hreach (iID i) i x Hin eq_refl Hx)
    as (r & Hr & Hb).
  exists r. split; [assumption|]. split; [assumption|].
  intros r' Hr' (a' & b' & Hi' & Hx').
  destruct Hb as (a & b & Hi & Hxa).
  pose proof (reachable_fits_ok db Hreach) as [_ _ C _].
  destruct (FOP_disjoint_In _ r' r (C (iID i)) Hr' Hr) as [E | Hd]; [assumption|].
  exfalso. apply (Hd a' b' a b Hi' Hi x). auto.
Qed.

Lemma coverage_on_reachable_witness :
  exists r,
    In r (live_chunks 2 two_files_db) /\ holds_byte r 40 /\
    forall r', In r' (live_chunks 2 two_files_db) -> holds_byte r' 40 -> r' = r.
Proof.
  apply (coverage_on_reachable two_files_db (mkInode 2 420 0 0 "" 100 1 2 2 2 1) 40
           two_files_db_fits).
  - vm_compute. auto.
  - simpl. lia.
Defined.


(** ** The inode after Touch and after AddChunk *)

Lemma find_other_inode id j (f : Inode -> Inode) l :
  j <> id ->
  find (fun r => iID r =? j) (map (fun r => if iID r =? id then f r else r) l)
  = find (fun r => iID r =? j) l \/
  exists r, iID (f r) <> iID r.
Proof.
  intros Hne. induction l as [|a l IH]; simpl; [left; reflexivity|].
  destruct (iID a =? id) eqn:E.
  - destruct (Z.eq_dec (iID (f a)) (iID a)) as [Heq | Hneq]; [|right; eauto].
    rewrite Heq. apply Z.eqb_eq in E.
    replace (iID a =? j) with false by (symmetry; apply Z.eqb_neq; lia).
    assumption.
  - destruct (iID a =? j); [left; reflexivity | assumption].
Qed.

Lemma Get_other_inode id j (f : Inode -> Inode) db db' :
  j <> id -> (forall r, iID (f r) = iID r) ->
  inodes db' = map (fun r => if iID r =? id then f r else r) (inodes db) ->
  Get None j db' = Get None j db.
Proof.
  intros Hne Hf Hi. unfold Get, query_row. rewrite Hi.
  destruct (find_other_inode id j f (inodes db) Hne) as [-> | (r & Hr)];
    [reflexivity|].
  elim Hr. apply Hf.
Qed.

(** X11: After a committed [Touch], [Get] returns the inode with the
    attributes that were given and the others as they were, the mode cut to
    32 bits and the change time [now]; the struct that [Touch] returns
    holds the same attributes but the change time of before.  The other
    inodes are as before. *)
Theorem Touch_then_Get now inode size mode atime mtime uid gid db i' db'
    (Hrun : Touch now inode size mode atime mtime uid gid db = (inr i', db'))
    (Hpk : chunks_pk db) :
  exists old,
    Get None inode db = inr old /\
    i' = set_attrs (with_opt size (iSize old)) mode atime mtime uid gid old /\
    Get None inode db' =
    inr (mkInode inode (wrap32 (with_opt mode (iMode old)))
                 (with_opt uid (iUid old)) (with_opt gid (iGid old))
                 (iSymLink old) (with_opt size (iSize old)) (iNlink old)
                 (with_opt atime (iAtime old)) (with_opt mtime (iMtime old))
                 now (iCrtime old)) /\
    iCtime i' = iCtime old /\
    (forall j, j <> inode -> Get None j db' = Get None j db).
Proof.
  destruct (Touch_cases _ _ _ _ _ _ _ _ _ _ _ Hrun Hpk)
    as (i & Hfind & Hi' & Hinodes & _).
  destruct (find_inode_id _ _ _ Hfind) as [Hid _].
  exists i. split; [|split; [assumption|split; [|split]]].
  - unfold Get, query_row. now rewrite Hfind.
  - unfold Get, query_row. rewrite Hinodes.
    rewrite (find_updated_inode inode (touched i' now) _ i);
      [|reflexivity | assumption].
    rewrite Hi'. unfold touched, set_attrs. simpl. now rewrite Hid.
  - rewrite Hi'. reflexivity.
  - intros j Hj. apply (Get_other_inode inode j (touched i' now) db); auto.
Qed.

Lemma Touch_then_Get_witness :
  exists old,
    Get None 2 two_chunk_db = inr old /\
    Get None 2 (snd (Touch 9 2 None (Some 384) None (Some 7) None None two_chunk_db))
    = inr (mkInode 2 384 0 0 "" 100 1 (iAtime old) 7 9 (iCrtime old)).
Proof.
  set (r := Touch 9 2 None (Some 384) None (Some 7) None None two_chunk_db).
  assert (Hrun : r = (inr (mkInode 2 384 0 0 "" 100 1 3 7 3 1), snd r)) by reflexivity.
  destruct (Touch_then_Get 9 2 None (Some 384) None (Some 7) None None two_chunk_db
              _ _ Hrun two_chunk_db_pk) as (old & Hg & _ & Hg' & _).
  exists old. split; [assumption|]. rewrite Hg'.
  vm_compute in Hg. inversion Hg. reflexivity.
Defined.

(** X10: [Touch] to a larger size below 2^63, so that the old size and
    the extension fit the BIGINT columns of the zero-fill row: the
    gap between the old and the new size is filled with one zero chunk
    (storage "zero", empty key, object offset 0), the chunks that were
    there stay, and the size of the inode and the total of the stats grow
    by the difference. *)
Theorem Touch_extend now inode size mode atime mtime uid gid db i
    (Hfind : find (fun r => iID r =? inode) (inodes db) = Some i)
    (Hgrow : 0 <= iSize i < size) (Hsize : size < 2 ^ 63)
    (Hstats : 0 <= sSize (stats db) /\ sSize (stats db) + (size - iSize i) < 2 ^ 64) :
  exists i' db',
    Touch now inode (Some size) mode atime mtime uid gid db = (inr i', db') /\
    iSize i' = size /\
    chunks db' = chunks db ++ [new_row (next_chunk db) inode "zero" "" 0 (iSize i)
                                       (size - iSize i)] /\
    (exists g, Get None inode db' = inr g /\ iSize g = size) /\
    sSize (stats db') = sSize (stats db) + (size - iSize i).
Proof.
  destruct (find_inode_id _ _ _ Hfind) as [Hid _].
  eexists. eexists. split.
  - apply (Touch_extend_commit now inode size mode atime mtime uid gid db i);
      [assumption | lia | lia | lia |]. rewrite wrap64_small by lia. lia.
  - unfold after_extend. simpl. rewrite wrap64_small by lia. rewrite Hid.
    repeat split.
    eexists. split.
    + unfold Get, query_row. simpl inodes.
      rewrite (find_updated_inode inode _ _ i); [reflexivity | reflexivity | assumption].
    + reflexivity.
Qed.

Lemma Touch_extend_witness :
  exists i' db',
    Touch 9 2 (Some 150) None None None None None two_chunk_db = (inr i', db') /\
    live_chunks 2 db' =
    [new_row 1 2 "s3" "a" 0 0 50; new_row 2 2 "s3" "b" 0 50 50;
     new_row 3 2 "zero" "" 0 100 50].
Proof.
  destruct (Touch_extend 9 2 150 None None None None None two_chunk_db
              (mkInode 2 420 0 0 "" 100 1 3 3 3 1) eq_refl)
    as (i' & db' & Hrun & _ & Hch & _).
  - simpl. lia.
  - simpl. lia.
  - vm_compute. split; congruence.
  - exists i', db'. split; [assumption|].
    unfold live_chunks. rewrite Hch. reflexivity.
Defined.

(** X8: A committed [AddChunk] never shrinks the file: the new size is the
    larger of the old size and the end of the write; [Get] returns it with
    the three times set to [now]; the total of the stats grows by the same
    amount; the other inodes are as before. *)
Theorem AddChunk_grows now inode flags chunk db db'
    (Hrun : AddChunk now inode flags chunk db = (inr tt, db'))
    (Hpk : chunks_pk db) (Htyped : sizes_typed db)
    (Hoff : 0 <= cInodeOffset chunk < 2 ^ 64) :
  exists old,
    Get None inode db = inr old /\
    Get None inode db' =
    inr (set_size_times (new_size old (written flags old chunk)) now old) /\
    iSize old <= new_size old (written flags old chunk) /\
    sSize (stats db') =
    sSize (stats db) + (new_size old (written flags old chunk) - iSize old) /\
    (forall j, j <> inode -> Get None j db' = Get None j db).
Proof.
  destruct (AddChunk_inv _ _ _ _ _ _ _ Hrun Hpk Htyped) as (i & Hfind & -> & _).
  { intros i Hi. destruct (find_inode_id _ _ _ Hi) as [_ Hin].
    specialize (Htyped i Hin). unfold written.
    destruct (negb (Z.land flags O_APPEND =? 0)); simpl; lia. }
  destruct (find_inode_id _ _ _ Hfind) as [Hid _].
  exists i. split; [|split; [|split; [|split]]].
  - unfold Get, query_row. now rewrite Hfind.
  - apply Get_after_AddChunk. assumption.
  - apply Max_ge.
  - unfold after_AddChunk. simpl stats.
    destruct (new_size i (written flags i chunk) =? iSize i) eqn:E; simpl; [|reflexivity].
    apply Z.eqb_eq in E. lia.
  - intros j Hj.
    apply (Get_other_inode (iID i) j
             (set_size_times (new_size i (written flags i chunk)) now) db);
      [lia | reflexivity | reflexivity].
Qed.

Lemma AddChunk_grows_witness :
  Get None 2 (snd (AddChunk 9 2 0 (mkChunk 0 2 "s3" "c" 0 90 20) two_chunk_db))
  = inr (mkInode 2 420 0 0 "" 110 1 9 9 9 1) /\
  Get None 2 (snd (AddChunk 9 2 0 (mkChunk 0 2 "s3" "c" 0 10 20) two_chunk_db))
  = inr (mkInode 2 420 0 0 "" 100 1 9 9 9 1).
Proof.
  assert (Htyped : sizes_typed two_chunk_db).
  { intros i Hi. vm_compute in Hi.
    destruct Hi as [<- | [<- | []]]; vm_compute; split; congruence. }
  split.
  - set (r := AddChunk 9 2 0 (mkChunk 0 2 "s3" "c" 0 90 20) two_chunk_db).
    assert (Hrun : r = (inr tt, snd r)) by reflexivity.
    destruct (AddChunk_grows 9 2 0 (mkChunk 0 2 "s3" "c" 0 90 20) two_chunk_db _
                Hrun two_chunk_db_pk Htyped) as (old & Hg & Hg' & _).
    { simpl. lia. }
    vm_compute in Hg. inversion Hg. subst old. exact Hg'.
  - set (r := AddChunk 9 2 0 (mkChunk 0 2 "s3" "c" 0 10 20) two_chunk_db).
    assert (Hrun : r = (inr tt, snd r)) by reflexivity.
    destruct (AddChunk_grows 9 2 0 (mkChunk 0 2 "s3" "c" 0 10 20) two_chunk_db _
                Hrun two_chunk_db_pk Htyped) as (old & Hg & Hg' & _).
    { simpl. lia. }
    vm_compute in Hg. inversion Hg. subst old. exact Hg'.
Defined.
